(** * QRP generator: configuration codec, PNG metadata chunks, sequencer
      state and video frame schedule.

    A shallow embedding of
      - [src/types.ts]               (module [Types]),
      - [src/hooks/useSequencer.ts]  (module [Sequencer]),
      - [src/App.tsx], the geometry handlers (module [App]),
      - [src/components/SequenceEditor.tsx], the value handlers
        (module [SequenceEditor]),
      - [src/utils/png.ts]           (module [Png]),
      - [src/hooks/useVideoExport.ts] (module [VideoExport]),
      - [src/components/SequenceManager.tsx], the export dialog and the
        export and import of cards (modules [VideoExportModal], [Card]),
      - [src/utils/videoExport.ts]   (module [VideoExportUtil]),
      - [src/utils/compression.ts]   (module [Compression]),
    followed by the properties proved about them.

    Conventions.  A JavaScript [number] is a rational ([Q]), standing for
    the finite binary64 number of that value; the not-a-number value only
    appears where the code can produce it ([parseInt], [Number]).  Where
    the code computes with numbers and the rounding of binary64 shows (the
    frame count and the clock of the video export, the placement of the
    image, the next id of the sequencer), the operations are those of
    module [Float64], which round their exact result to the nearest
    binary64 number.  Integer-valued quantities of the program (item ids,
    sequence data, indices, loop counters, 32-bit words) are [Z]; counters
    are incremented exactly, as the code does below 2^53, and the
    statements about complete runs are made for runs that stay below it.
    The percentages reported to the user interface are kept as exact
    quotients: their rounding keeps their order and their bounds.  A call
    that spreads an array into its arguments ([f(...arr)]) goes through
    only when the engine accepts that many arguments, a number that
    depends on the engine and is a parameter, [max_arguments].  A string
    is a
    [string] of characters below 256, except in [Png], which looks at
    character codes and takes a string as the list of its code units.  A
    statement that can raise a JavaScript exception lives in the
    [completion] monad. *)

From Stdlib Require Import ZArith QArith Qround Qabs Qreduction Qpower.
From Stdlib Require Import List String Ascii Bool Lia Lqa Permutation.
From Stdlib Require Import DecimalString.
From Equations Require Import Equations.
Import ListNotations.

Local Open Scope Z_scope.

(* ===================================================================== *)
(** * Part I: the embedding                                               *)
(* ===================================================================== *)

(** ** JavaScript completions *)

Module JS.

Inductive exn : Type :=
| TypeError
| RangeError
| SyntaxError
| URIError
| InvalidCharacterError
| Error (message : string).

(** The result of running a statement: a normal value or a thrown
    exception. *)
Inductive completion (A : Type) : Type :=
| Normal (a : A)
| Throw (e : exn).
Arguments Normal {A} a.
Arguments Throw {A} e.

Definition bind {A B} (c : completion A) (k : A -> completion B) : completion B :=
  match c with
  | Normal a => k a
  | Throw e => Throw e
  end.

(** [try { c } catch (e) { h }] *)
Definition try_catch {A} (c : completion A) (h : exn -> completion A) : completion A :=
  match c with
  | Normal a => Normal a
  | Throw e => h e
  end.

(** [Math.round]: the nearest integer, halves towards plus infinity. *)
Definition Math_round (x : Q) : Z := Qfloor (x + (1 # 2))%Q.

(** Number-to-string conversion of an integer-valued number. *)
Definition Z_toString (z : Z) : string := NilZero.string_of_int (Z.to_int z).

(** [f(...arr)] with [n] elements in [arr]: every element becomes an
    argument of the call, and an engine throws a [RangeError] when they
    are more than it accepts. *)
Definition spread_call {A} (max_arguments n : Z) (result : A) : completion A :=
  if n <=? max_arguments then Normal result else Throw RangeError.

End JS.

(** ** Binary64 arithmetic

    The numbers of JavaScript are the binary64 numbers of IEEE 754; an
    arithmetic operation returns the binary64 number nearest to its exact
    result, ties going to the one with an even significand.  Infinities
    are not part of the model: no operation of the embedded code overflows
    on finite arguments. *)

Module Float64.
Local Open Scope Q_scope.

(** The exponent of the smallest positive number, [2^-1074]. *)
Definition emin : Z := (-1074)%Z.

(** The binary exponent of a number other than zero:
    [2^(ilog2 x) <= |x| < 2^(ilog2 x + 1)]. *)
Definition ilog2 (x : Q) : Z :=
  let k := (Z.log2 (Z.abs (Qnum x)) - Z.log2 (Zpos (Qden x)))%Z in
  if Qle_bool (2 ^ k) (Qabs x) then k else (k - 1)%Z.

(** The nearest integer, a half going to the even neighbour. *)
Definition nearest_even (x : Q) : Z :=
  let f := Qfloor x in
  match Qcompare (x - inject_Z f) (1 # 2) with
  | Lt => f
  | Gt => (f + 1)%Z
  | Eq => if Z.even f then f else (f + 1)%Z
  end.

(** The spacing of the binary64 numbers around [x]: 53 significant bits,
    and no exponent below [emin]. *)
Definition quantum (x : Q) : Q := 2 ^ (Z.max (ilog2 x - 52) emin).

(** The binary64 number nearest to [x]. *)
Definition b64 (x : Q) : Q :=
  if Qeq_bool x 0 then 0
  else Qred (inject_Z (nearest_even (x / quantum x)) * quantum x).

(** Half the distance from 1 to the next number. *)
Definition unit_roundoff : Q := 2 ^ (-53).

Definition add (x y : Q) : Q := b64 (x + y).
Definition sub (x y : Q) : Q := b64 (x - y).
Definition mul (x y : Q) : Q := b64 (x * y).
Definition div (x y : Q) : Q := b64 (x / y).

(** The sum of two integer-valued numbers, which is integer-valued. *)
Definition add_Z (a b : Z) : Z := Qfloor (add (inject_Z a) (inject_Z b)).

(** [t = 0; t += d], [k] times over. *)
Fixpoint running_sum (d : Q) (k : nat) : Q :=
  match k with
  | O => 0
  | S k' => add (running_sum d k') d
  end.

End Float64.

Declare Scope js_scope.
Delimit Scope js_scope with js.
Notation "x <- c ;; k" := (JS.bind c (fun x => k))
  (at level 61, c at next level, right associativity) : js_scope.

(** ** [src/types.ts] *)

Module Types.

Inductive LobeType := sunflower | dharma | lotus.
Inductive LobeDesign := seeds | celtic | triskelion.
Inductive CenterDesign := c_seeds | c_celtic | c_triskelion | c_uranus.

Record GeoConfig : Type := {
  (* Frame *)
  showFrame : bool;
  frameDoubleTop : bool;
  frameSquareHeader : bool;
  frameScale : Q;
  frameHeaderOffset : Q;
  frameTickLength : Q;
  frameStrokeWidth : Q;
  uiFontSize : Q;
  uiFont : string;
  (* Geometry *)
  overallScale : Q;
  mainScale : Q;
  petals : Q;
  petalSize : Q;
  petalRoundness : Q;
  lobeCount : Q;
  lobeRadius : Q;
  lobeType : LobeType;
  lobeDesign : LobeDesign;
  designScale : Q;
  designOffset : Q;
  centerDesign : CenterDesign;
  lobeOpacity : Q;
  centerOpacity : Q;
  geometryRotation : Q;
  (* Dharma specific *)
  dharmaExtrusionOut : Q;
  dharmaExtrusionSide : Q;
  dharmaStemWidth : Q;
  dharmaCapHeight : Q;
  (* Fields *)
  ringInnerRadius : Q;
  stripeSep : Q;
  stripeStart : Q;
  hullValley : Q;
  hullCoverage : Q;
  sequenceLength : Q;
  (* Styles *)
  shellScale : Q;
  shellStroke : Q;
  ringStroke : Q;
  stripeStroke : Q
}.

Record Sequence : Type := {
  id : Z;
  name : string;
  description : option string;   (* [description?: string] *)
  data : list Z;
  geoConfig : GeoConfig
}.

End Types.

(** ** [src/hooks/useSequencer.ts] *)

Module Sequencer.
Import JS Types.

(** The four [useState] cells of the hook. *)
Record State : Type := {
  sequences : list Sequence;
  activeIndex : Z;
  isPlaying : bool;
  timingMs : Q
}.

(** [arr[i]]: [undefined] (here [None]) outside [0 .. length-1]. *)
Definition index {A} (arr : list A) (i : Z) : option A :=
  if i <? 0 then None else nth_error arr (Z.to_nat i).

Definition len {A} (arr : list A) : Z := Z.of_nat (List.length arr).

(** [Math.max(...xs)]; the call sites guard it with [length > 0], so the
    value on the empty list (minus infinity in JavaScript) is never used. *)
Definition Math_max (xs : list Z) : Z :=
  match xs with
  | [] => 0
  | x :: r => fold_left Z.max r x
  end.

(** [arr.findIndex(p)]: position of the first element satisfying [p],
    [-1] when there is none. *)
Fixpoint findIndex_from {A} (p : A -> bool) (arr : list A) (i : Z) : Z :=
  match arr with
  | [] => -1
  | x :: r => if p x then i else findIndex_from p r (i + 1)
  end.
Definition findIndex {A} (p : A -> bool) (arr : list A) : Z := findIndex_from p arr 0.

(** [new Array(n).fill(0)]: a [RangeError] unless [n] is an integer in
    [0 .. 2^32 - 1]. *)
Definition valid_array_length (n : Q) : bool :=
  Qeq_bool n (inject_Z (Qfloor n)) && (0 <=? Qfloor n) && (Qfloor n <? 2 ^ 32).

Definition new_Array_fill0 (n : Q) : completion (list Z) :=
  if valid_array_length n then Normal (repeat 0 (Z.to_nat (Qfloor n)))
  else Throw RangeError.

Section WithEngine.

(** The number of arguments the engine accepts in one call. *)
Variable max_arguments : Z.

(** [sequences.length > 0 ? Math.max(...sequences.map(s => s.id)) + 1 : 1]:
    every id becomes an argument of [Math.max], and the sum is the
    binary64 sum. *)
Definition nextId (seqs : list Sequence) : completion Z :=
  if 0 <? len seqs then
    (m <- spread_call max_arguments (len seqs) (Math_max (map id seqs)) ;;
     Normal (Float64.add_Z m 1))%js
  else Normal 1.

Section WithPreset.

(** [SUNFLOWER_PRESET] is imported from [src/constants.ts]; the
    development is parametric in it. *)
Variable SUNFLOWER_PRESET : GeoConfig.

Definition addSequence (st : State) : completion State :=
  let seqs := sequences st in
  (newId <- nextId seqs ;;
   let activeSeq :=
     match index seqs (activeIndex st) with
     | Some s => Some s
     | None => index seqs 0
     end in
   let baseConfig :=
     match activeSeq with
     | Some s => geoConfig s
     | None => SUNFLOWER_PRESET
     end in
   let seqLength := sequenceLength baseConfig in
   zeros <- new_Array_fill0 seqLength ;;
   let newSeq := {| id := newId;
                    name := ("Card " ++ Z_toString newId)%string;
                    description := Some "New sequence pattern"%string;
                    data := zeros;
                    geoConfig := baseConfig |} in
   let newSequences := seqs ++ [newSeq] in
   Normal {| sequences := newSequences;
             activeIndex := len newSequences - 1;
             isPlaying := false;
             timingMs := timingMs st |})%js.

End WithPreset.

Definition importSequence (st : State) (importedSeq : Sequence) : completion State :=
  let seqs := sequences st in
  (newId <- nextId seqs ;;
   let newSeq := {| id := newId;
                    name := name importedSeq;
                    description := description importedSeq;
                    data := data importedSeq;
                    geoConfig := geoConfig importedSeq |} in
   let newSequences := seqs ++ [newSeq] in
   Normal {| sequences := newSequences;
             activeIndex := len newSequences - 1;
             isPlaying := false;
             timingMs := timingMs st |})%js.

Definition duplicateSequence (st : State) (i : Z) : completion State :=
  let seqs := sequences st in
  match find (fun s => id s =? i) seqs with
  | None => Normal st
  | Some sourceSeq =>
      (newId <- nextId seqs ;;
       let newSeq := {| id := newId;
                        name := (name sourceSeq ++ " (Copy)")%string;
                        description := description sourceSeq;
                        data := data sourceSeq;
                        geoConfig := geoConfig sourceSeq |} in
       let newSequences := seqs ++ [newSeq] in
       Normal {| sequences := newSequences;
                 activeIndex := len newSequences - 1;
                 isPlaying := false;
                 timingMs := timingMs st |})%js
  end.

End WithEngine.

Definition deleteSequence (st : State) (i : Z) : State :=
  let seqs := sequences st in
  if len seqs <=? 1 then st
  else
    let idxToDelete := findIndex (fun s => id s =? i) seqs in
    if idxToDelete =? -1 then st
    else
      let newSequences := filter (fun s => negb (id s =? i)) seqs in
      let newActive :=
        if len newSequences <=? activeIndex st
        then Z.max 0 (len newSequences - 1)
        else if idxToDelete <? activeIndex st
             then activeIndex st - 1
             else activeIndex st in
      {| sequences := newSequences;
         activeIndex := newActive;
         isPlaying := isPlaying st;
         timingMs := timingMs st |}.

(** [arr.splice(start, 1)] for [0 <= start]: the removed elements and the
    remaining array. *)
Definition splice_remove1 {A} (arr : list A) (start : nat) : list A * list A :=
  (firstn 1 (skipn start arr), firstn start arr ++ skipn (S start) arr).

(** [arr.splice(start, 0, x)] for [0 <= start]: an index past the end
    inserts at the end. *)
Definition splice_insert {A} (arr : list A) (start : nat) (x : A) : list A :=
  firstn start arr ++ x :: skipn start arr.

(** [arr.findIndex(s => s.id === activeId)] on an array that may hold
    [undefined] (here [None]): reading the [id] of [undefined] throws a
    [TypeError]. *)
Fixpoint findIndex_id (activeId : Z) (arr : list (option Sequence)) (i : Z)
  : completion Z :=
  match arr with
  | [] => Normal (-1)
  | None :: _ => Throw TypeError
  | Some s :: r => if id s =? activeId then Normal i
                   else findIndex_id activeId r (i + 1)
  end.

(** [reorderSequences(fromIndex, toIndex)], for non-negative indices.
    [sequences[activeIndex].id] throws a [TypeError] when the active index
    is out of range.  When [fromIndex] is past the end, [splice] removes
    nothing, [moved] is [undefined] and is inserted as such: the array
    handed to [setSequences] is no list of sequences any more.  The call
    then throws a [TypeError] when [findIndex] meets the [undefined] entry
    before the active card, and completes otherwise, which [Normal None]
    stands for: a state that no [State] describes. *)
Definition reorderSequences (st : State) (fromIndex toIndex : nat)
  : completion (option State) :=
  if Nat.eqb fromIndex toIndex then Normal (Some st)
  else
    match index (sequences st) (activeIndex st) with
    | None => Throw TypeError
    | Some active =>
        let activeId := id active in
        let '(removed, rest) := splice_remove1 (sequences st) fromIndex in
        match removed with
        | [] =>
            let newSequences := splice_insert (map Some rest) toIndex None in
            (newActiveIndex <- findIndex_id activeId newSequences 0 ;;
             Normal None)%js
        | moved :: _ =>
            let newSequences := splice_insert rest toIndex moved in
            let newActiveIndex := findIndex (fun s => id s =? activeId) newSequences in
            Normal (Some {| sequences := newSequences;
                            activeIndex := if newActiveIndex =? -1
                                           then activeIndex st
                                           else newActiveIndex;
                            isPlaying := isPlaying st;
                            timingMs := timingMs st |})
        end
    end.

(** [setSequences(...)] on its own: the other cells keep their value. *)
Definition with_sequences (st : State) (seqs : list Sequence) : State :=
  {| sequences := seqs;
     activeIndex := activeIndex st;
     isPlaying := isPlaying st;
     timingMs := timingMs st |}.

(** The callback of the interval of the animation loop:
    [setActiveIndex((prev) => (prev + 1) % sequences.length)].  [%] takes
    the sign of the dividend; the remainder by zero is NaN, an index that
    no [State] stands for ([None]). *)
Definition tick (st : State) : option State :=
  if len (sequences st) =? 0 then None
  else Some {| sequences := sequences st;
               activeIndex := Z.rem (activeIndex st + 1) (len (sequences st));
               isPlaying := isPlaying st;
               timingMs := timingMs st |}.

(** [k] firings of the interval. *)
Fixpoint ticks (k : nat) (st : State) : option State :=
  match k with
  | O => Some st
  | S k' => match tick st with
            | Some st' => ticks k' st'
            | None => None
            end
  end.

(** [Partial<Sequence>]: the properties an update carries.  [description]
    is optional in [Sequence], so an update can carry it as [undefined]. *)
Record Updates : Type := {
  u_id : option Z;
  u_name : option string;
  u_description : option (option string);
  u_data : option (list Z);
  u_geoConfig : option GeoConfig
}.

Definition no_updates : Updates :=
  {| u_id := None; u_name := None; u_description := None;
     u_data := None; u_geoConfig := None |}.

Definition or_else {A} (o : option A) (a : A) : A :=
  match o with
  | Some v => v
  | None => a
  end.

(** [{ ...s, ...updates }] *)
Definition spread (s : Sequence) (updates : Updates) : Sequence :=
  {| id := or_else (u_id updates) (id s);
     name := or_else (u_name updates) (name s);
     description := or_else (u_description updates) (description s);
     data := or_else (u_data updates) (data s);
     geoConfig := or_else (u_geoConfig updates) (geoConfig s) |}.

Definition handleSequenceUpdate (st : State) (i : Z) (updates : Updates) : State :=
  with_sequences st
    (map (fun s => if id s =? i then spread s updates else s) (sequences st)).

(** [ToIntegerOrInfinity]: truncation towards zero. *)
Definition ToInteger (q : Q) : Z :=
  if Qle_bool 0 q then Qfloor q else - Qfloor (- q).

(** [arr.slice(0, end)]: a negative end counts from the end of the
    array. *)
Definition slice0 {A} (arr : list A) (e : Q) : list A :=
  let relativeEnd := ToInteger e in
  let final := if relativeEnd <? 0 then Z.max (len arr + relativeEnd) 0
               else Z.min relativeEnd (len arr) in
  firstn (Z.to_nat final) arr.

(** [{ ...seq, data: newData }] *)
Definition with_data (seq : Sequence) (newData : list Z) : Sequence :=
  {| id := id seq;
     name := name seq;
     description := description seq;
     data := newData;
     geoConfig := geoConfig seq |}.

(** [arr.map(f)] with a callback that may throw: the first exception ends
    the traversal. *)
Fixpoint map_throwing {A B} (f : A -> completion B) (arr : list A)
  : completion (list B) :=
  match arr with
  | [] => Normal []
  | x :: r => (y <- f x ;; ys <- map_throwing f r ;; Normal (y :: ys))%js
  end.

(** The callback [resizeSequence] maps over the collection. *)
Definition resizeSequence_item (i : Z) (length : Q) (seq : Sequence)
  : completion Sequence :=
  if negb (id seq =? i) then Normal seq
  else if Qeq_bool (inject_Z (len (data seq))) length then Normal seq
  else if negb (Qle_bool (inject_Z (len (data seq))) length) then
    (* Trim *)
    Normal (with_data seq (slice0 (data seq) length))
  else
    (* Pad with zeros *)
    let diff := (length - inject_Z (len (data seq)))%Q in
    (zeros <- new_Array_fill0 diff ;;
     Normal (with_data seq (data seq ++ zeros)))%js.

Definition resizeSequence (st : State) (i : Z) (length : Q) : completion State :=
  (seqs <- map_throwing (resizeSequence_item i length) (sequences st) ;;
   Normal (with_sequences st seqs))%js.

(** [{ ...seq.geoConfig, sequenceLength: length }] *)
Definition with_sequenceLength (g : GeoConfig) (length : Q) : GeoConfig :=
  {| showFrame := showFrame g;
     frameDoubleTop := frameDoubleTop g;
     frameSquareHeader := frameSquareHeader g;
     frameScale := frameScale g;
     frameHeaderOffset := frameHeaderOffset g;
     frameTickLength := frameTickLength g;
     frameStrokeWidth := frameStrokeWidth g;
     uiFontSize := uiFontSize g;
     uiFont := uiFont g;
     overallScale := overallScale g;
     mainScale := mainScale g;
     petals := petals g;
     petalSize := petalSize g;
     petalRoundness := petalRoundness g;
     lobeCount := lobeCount g;
     lobeRadius := lobeRadius g;
     lobeType := lobeType g;
     lobeDesign := lobeDesign g;
     designScale := designScale g;
     designOffset := designOffset g;
     centerDesign := centerDesign g;
     lobeOpacity := lobeOpacity g;
     centerOpacity := centerOpacity g;
     geometryRotation := geometryRotation g;
     dharmaExtrusionOut := dharmaExtrusionOut g;
     dharmaExtrusionSide := dharmaExtrusionSide g;
     dharmaStemWidth := dharmaStemWidth g;
     dharmaCapHeight := dharmaCapHeight g;
     ringInnerRadius := ringInnerRadius g;
     stripeSep := stripeSep g;
     stripeStart := stripeStart g;
     hullValley := hullValley g;
     hullCoverage := hullCoverage g;
     sequenceLength := length;
     shellScale := shellScale g;
     shellStroke := shellStroke g;
     ringStroke := ringStroke g;
     stripeStroke := stripeStroke g |}.

(** The callback [setSequenceLength] maps over the collection. *)
Definition setSequenceLength_item (length : Q) (seq : Sequence)
  : completion Sequence :=
  if Qeq_bool (inject_Z (len (data seq))) length then Normal seq
  else if negb (Qle_bool (inject_Z (len (data seq))) length) then
    Normal {| id := id seq;
              name := name seq;
              description := description seq;
              data := slice0 (data seq) length;
              geoConfig := with_sequenceLength (geoConfig seq) length |}
  else
    let diff := (length - inject_Z (len (data seq)))%Q in
    (zeros <- new_Array_fill0 diff ;;
     Normal {| id := id seq;
               name := name seq;
               description := description seq;
               data := data seq ++ zeros;
               geoConfig := with_sequenceLength (geoConfig seq) length |})%js.

Definition setSequenceLength (st : State) (length : Q) : completion State :=
  (seqs <- map_throwing (setSequenceLength_item length) (sequences st) ;;
   Normal (with_sequences st seqs))%js.

Section WithDefaults.

(** [DEFAULT_SEQUENCES] is imported from [src/constants.ts]. *)
Variable DEFAULT_SEQUENCES : list Sequence.

Definition resetSequences (st : State) : State :=
  {| sequences := DEFAULT_SEQUENCES;
     activeIndex := 0;
     isPlaying := false;
     timingMs := timingMs st |}.

End WithDefaults.

Definition loadSequences (st : State) (newSequences : list Sequence) : State :=
  {| sequences := newSequences;
     activeIndex := 0;
     isPlaying := false;
     timingMs := timingMs st |}.

Definition togglePlay (st : State) : State :=
  {| sequences := sequences st;
     activeIndex := activeIndex st;
     isPlaying := negb (isPlaying st);
     timingMs := timingMs st |}.

Definition setPlaying (st : State) (playing : bool) : State :=
  {| sequences := sequences st;
     activeIndex := activeIndex st;
     isPlaying := playing;
     timingMs := timingMs st |}.

Definition selectSequence (st : State) (index : Z) : State :=
  {| sequences := sequences st;
     activeIndex := index;
     isPlaying := false;
     timingMs := timingMs st |}.

(** [activeSequence: sequences[activeIndex] || sequences[0]], [undefined]
    on the empty collection. *)
Definition activeSequence (st : State) : option Sequence :=
  match index (sequences st) (activeIndex st) with
  | Some s => Some s
  | None => index (sequences st) 0
  end.

(** What resizing to [n] makes of the values of a card: the first [n] of
    them, then zeros up to [n]. *)
Definition resized (n : Z) (d : list Z) : list Z :=
  firstn (Z.to_nat n) d ++ repeat 0 (Z.to_nat n - List.length d).

(** The invariant of the hook's state: there is a card, no two cards
    share an id, and the active index names a card. *)
Definition coherent (st : State) : Prop :=
  sequences st <> [] /\
  NoDup (map id (sequences st)) /\
  0 <= activeIndex st < len (sequences st).

(** The invariant the resizing code maintains: a card holds as many
    values as its geometry has divisions. *)
Definition consistent (s : Sequence) : Prop :=
  (inject_Z (len (data s)) == sequenceLength (geoConfig s))%Q.

End Sequencer.

(** ** [src/App.tsx]: the geometry handlers *)

Module App.
Import JS Types Sequencer.

(** [handleGeoConfigChange(newConfig)].  Reading [activeSequence.id] on an
    empty collection is a [TypeError]; the two state updates are
    functional updates, applied one after the other. *)
Definition handleGeoConfigChange (st : State) (newConfig : GeoConfig)
  : completion State :=
  match activeSequence st with
  | None => Throw TypeError
  | Some active =>
      let activeGeoConfig := geoConfig active in
      let activeId := id active in
      (st1 <- (if negb (Qeq_bool (sequenceLength newConfig)
                                 (sequenceLength activeGeoConfig))
               then resizeSequence st activeId (sequenceLength newConfig)
               else Normal st) ;;
       Normal (handleSequenceUpdate st1 activeId
                 {| u_id := None; u_name := None; u_description := None;
                    u_data := None; u_geoConfig := Some newConfig |}))%js
  end.

(** [applyPreset(preset)]: [{ ...activeGeoConfig, ...preset }] with a
    preset that carries every field is the preset. *)
Definition applyPreset (st : State) (preset : GeoConfig) : completion State :=
  handleGeoConfigChange st preset.

End App.

(** ** [src/components/SequenceEditor.tsx]: the value handlers *)

Module SequenceEditor.
Import JS Types Sequencer.

(** [newSeq[index] = val] on a copy: inside the array it replaces, at the
    end it appends; further out it would leave holes ([None]). *)
Definition array_set (arr : list Z) (index : nat) (val : Z) : option (list Z) :=
  if (index <=? List.length arr)%nat
  then Some (firstn index arr ++ val :: skipn (S index) arr)
  else None.

Definition data_update (newSeq : list Z) : Updates :=
  {| u_id := None; u_name := None; u_description := None;
     u_data := Some newSeq; u_geoConfig := None |}.

(** What a handler passes to [onChange], if it calls it at all. *)
Inductive change : Type :=
| NoChange
| Change (updates : Updates)
| Holes.               (* an array with holes was passed on *)

(** The value of a decimal digit. *)
Definition digit_value (c : ascii) : option Z :=
  let n := Z.of_nat (nat_of_ascii c) in
  if (48 <=? n) && (n <=? 57) then Some (n - 48) else None.

Definition set_and_change (sequence : list Z) (index : nat) (val : Z) : change :=
  match array_set sequence index val with
  | Some newSeq => Change (data_update newSeq)
  | None => Holes
  end.

Section WithLimit.

(** [MAX_VALUE_PER_DIVISION] is imported from [src/constants.ts];
    [parseInt] is the platform's. *)
Variable MAX_VALUE_PER_DIVISION : Z.
Variable parseInt : string -> option Z.

(** [handleValueChange(index, delta)]: outside the array [newSeq[index]]
    is [undefined], the sum NaN, and both comparisons fail. *)
Definition handleValueChange (sequence : list Z) (index : nat) (delta : Z) : change :=
  match nth_error sequence index with
  | None => NoChange
  | Some old =>
      let val := old + delta in
      if (0 <=? val) && (val <=? MAX_VALUE_PER_DIVISION)
      then set_and_change sequence index val
      else NoChange
  end.

(** [handleKeyDown(e, index)] on [e.key]; moving the focus leaves the
    data alone.  A key matching [/^[0-9]$/] is one decimal digit, and
    [parseInt] gives its value. *)
Definition handleKeyDown (sequence : list Z) (key : string) (index : nat) : change :=
  if String.eqb key "ArrowRight" then NoChange
  else if String.eqb key "ArrowLeft" then NoChange
  else if String.eqb key "Backspace" then set_and_change sequence index 0
  else
    match key with
    | String c EmptyString =>
        match digit_value c with
        | Some val =>
            if val <=? MAX_VALUE_PER_DIVISION
            then set_and_change sequence index val
            else NoChange
        | None => NoChange
        end
    | _ => NoChange
    end.

(** [handleInputChange(e, index)] on [e.target.value]; [parseInt] gives
    [None] for NaN. *)
Definition handleInputChange (sequence : list Z) (valStr : string) (index : nat)
  : change :=
  if String.eqb valStr EmptyString then NoChange
  else
    match parseInt valStr with
    | None => NoChange
    | Some val =>
        if (0 <=? val) && (val <=? MAX_VALUE_PER_DIVISION)
        then set_and_change sequence index val
        else NoChange
    end.

(** [handleReset()] *)
Definition handleReset (sequence : list Z) : change :=
  Change (data_update (repeat 0 (List.length sequence))).

(** The values the editor lets through. *)
Definition within_limit (d : list Z) : Prop :=
  Forall (fun v => 0 <= v <= MAX_VALUE_PER_DIVISION) d.

(** The user's gestures on the editor: the minus and plus buttons of a
    cell, a key pressed in a cell, text entered into a cell, the reset
    button. *)
Inductive gesture : Type :=
| Step (index : nat) (delta : Z)
| Key (key : string) (index : nat)
| Input (valStr : string) (index : nat)
| Reset.

Definition handle (sequence : list Z) (g : gesture) : change :=
  match g with
  | Step index delta => handleValueChange sequence index delta
  | Key key index => handleKeyDown sequence key index
  | Input valStr index => handleInputChange sequence valStr index
  | Reset => handleReset sequence
  end.

End WithLimit.

(** The cells are rendered from the values, so a gesture names a cell
    that exists. *)
Definition on_cell (sequence : list Z) (g : gesture) : Prop :=
  match g with
  | Step index _ | Key _ index | Input _ index => (index < List.length sequence)%nat
  | Reset => True
  end.

(** [onChange={(updates) => onUpdate(activeSequence.id, updates)}] in
    [SequenceManager], with [onUpdate] the sequencer's update. *)
Definition onChange (st : State) (activeId : Z) (c : change) : option State :=
  match c with
  | NoChange => Some st
  | Change updates => Some (handleSequenceUpdate st activeId updates)
  | Holes => None
  end.

(** The editor as [SequenceManager] mounts it: on the card
    [sequences.find(s => s.id === activeId)], if there is one. *)
Definition edit (MAX_VALUE_PER_DIVISION : Z) (parseInt : string -> option Z)
    (st : State) (activeId : Z) (g : gesture) : option State :=
  match find (fun s => id s =? activeId) (sequences st) with
  | None => Some st
  | Some activeSequence =>
      onChange st (id activeSequence)
        (handle MAX_VALUE_PER_DIVISION parseInt (data activeSequence) g)
  end.

End SequenceEditor.

(** ** [src/utils/png.ts] *)

Module Png.
Import JS.

(** A JavaScript string is a sequence of UTF-16 code units
    ([0 .. 65535]); a [Uint8Array] is a sequence of bytes. *)
Definition jsstring := list Z.
Definition bytes := list Byte.byte.

Definition blen (b : bytes) : Z := Z.of_nat (List.length b).

Definition byte_to_Z (b : Byte.byte) : Z := Z.of_N (Byte.to_N b).

(** Storing a number into a [Uint8Array] keeps it modulo 256. *)
Definition byte_of_Z (z : Z) : Byte.byte :=
  match Byte.of_N (Z.to_N (z mod 256)) with
  | Some b => b
  | None => Byte.x00
  end.

(** String literals of the source, as code units. *)
Definition lit (s : string) : jsstring :=
  map (fun c => Z.of_nat (nat_of_ascii c)) (list_ascii_of_string s).

(** 32-bit words are kept in their unsigned reading; [^], [&] and [>>>]
    agree with it bit for bit. *)
Fixpoint crcTable_bits (k : nat) (c : Z) : Z :=
  match k with
  | O => c
  | S k' =>
      crcTable_bits k'
        (if Z.testbit c 0 then Z.lxor 0xEDB88320 (Z.shiftr c 1) else Z.shiftr c 1)
  end.

Definition crcTable : list Z :=
  map (fun i => crcTable_bits 8 (Z.of_nat i)) (seq 0 256).

Definition crc32 (buf : bytes) : Z :=
  let crc :=
    fold_left
      (fun crc b =>
         Z.lxor (Z.shiftr crc 8)
                (nth (Z.to_nat (Z.land (Z.lxor crc (byte_to_Z b)) 0xFF)) crcTable 0))
      buf 0xFFFFFFFF in
  Z.lxor crc 0xFFFFFFFF.

(** [arr[i] = str.charCodeAt(i)] into a [Uint8Array]. *)
Definition stringToUint8 (str : jsstring) : bytes := map byte_of_Z str.

(** [view.setUint32(_, v, false)]: the four bytes of [v mod 2^32], most
    significant first. *)
Definition setUint32_be (v : Z) : bytes :=
  let w := v mod 2 ^ 32 in
  map byte_of_Z [ w / 2 ^ 24; w / 2 ^ 16; w / 2 ^ 8; w ].

(** [arr.subarray(b, e)] for [0 <= b]: both ends are clamped to the
    length. *)
Definition subarray (arr : bytes) (b e : Z) : bytes :=
  firstn (Z.to_nat (e - b)) (skipn (Z.to_nat b) arr).

(** [target.set(src, off)]: a [RangeError] when [src] does not fit. *)
Definition typed_set (target src : bytes) (off : Z) : completion bytes :=
  if blen target <? off + blen src then Throw RangeError
  else Normal (firstn (Z.to_nat off) target ++ src
               ++ skipn (Z.to_nat (off + blen src)) target).

Definition tEXt : jsstring := lit "tEXt".
Definition IEND : jsstring := lit "IEND".

(** The chunk built in steps 1 and 2 of [writePngMetadata]:
    length (4) + type (4) + data + CRC (4). *)
Definition fullChunk (key value : jsstring) : bytes :=
  let keyArr := stringToUint8 key in
  let valArr := stringToUint8 value in
  let chunkData := keyArr ++ [Byte.x00] ++ valArr in
  let chunkLen := blen chunkData in
  let typed := stringToUint8 tEXt ++ chunkData in
  setUint32_be chunkLen ++ typed ++ setUint32_be (crc32 typed).

(** The bytes of the returned [Blob]. *)
Definition writePngMetadata (pngBuffer : bytes) (key value : jsstring)
  : completion bytes :=
  let uint8 := pngBuffer in
  let chunk := fullChunk key value in
  let fullChunkLen := blen chunk in
  let insertPos := 33 in
  let newPng := repeat Byte.x00 (Z.to_nat (blen uint8 + fullChunkLen)) in
  (p1 <- typed_set newPng (subarray uint8 0 insertPos) 0 ;;
   p2 <- typed_set p1 chunk insertPos ;;
   typed_set p2 (subarray uint8 insertPos (blen uint8)) (insertPos + fullChunkLen))%js.

(** [view.getUint32(offset, false)]: a [RangeError] unless four bytes are
    available at [offset]. *)
Definition getUint32_be (data : bytes) (offset : Z) : completion Z :=
  if (offset <? 0) || (blen data <? offset + 4) then Throw RangeError
  else
    let b i := byte_to_Z (nth (Z.to_nat (offset + i)) data Byte.x00) in
    Normal (b 0 * 2 ^ 24 + b 1 * 2 ^ 16 + b 2 * 2 ^ 8 + b 3).

(** The string whose code units are the bytes of [arr]. *)
Definition charCodes (arr : bytes) : jsstring := map byte_to_Z arr.

Definition jsstring_eqb (a b : jsstring) : bool :=
  if list_eq_dec Z.eq_dec a b then true else false.

(** The scan for the null separator: index of the first zero byte, or
    [-1]. *)
Fixpoint nullIndex_from (content : bytes) (i : Z) : Z :=
  match content with
  | [] => -1
  | b :: r => if Byte.eqb b Byte.x00 then i else nullIndex_from r (i + 1)
  end.

(** What one turn of the [while] loop does. *)
Inductive turn : Type :=
| Return (v : jsstring)     (* [return String.fromCharCode(...)] *)
| Break                     (* [if (type === 'IEND') break] *)
| Continue (offset : Z).    (* next turn, at the advanced offset *)

Lemma byte_to_Z_nonneg b : 0 <= byte_to_Z b.
Proof. unfold byte_to_Z. lia. Qed.

Definition inspect {A} (a : A) : {b : A | a = b} := exist _ a eq_refl.

Section WithEngine.

(** The number of arguments the engine accepts in one call. *)
Variable max_arguments : Z.

(** [String.fromCharCode(...arr)]: one argument for every byte. *)
Definition fromCharCode (arr : bytes) : completion jsstring :=
  spread_call max_arguments (blen arr) (charCodes arr).

(** The body of the [while] loop of [readPngMetadata] at [offset]. *)
Definition loopBody (data : bytes) (key : jsstring) (offset : Z) : completion turn :=
  (length <- getUint32_be data offset ;;
   type <- fromCharCode (subarray data (offset + 4) (offset + 8)) ;;
   found <-
     (if jsstring_eqb type tEXt then
        let chunkContent := subarray data (offset + 8) (offset + 8 + length) in
        let nullIndex := nullIndex_from chunkContent 0 in
        if negb (nullIndex =? -1) then
          chunkKey <- fromCharCode (subarray chunkContent 0 nullIndex) ;;
          if jsstring_eqb chunkKey key
          then v <- fromCharCode (subarray chunkContent (nullIndex + 1)
                                           (blen chunkContent)) ;;
               Normal (Some v)
          else Normal None
        else Normal None
      else Normal None) ;;
   match found with
   | Some v => Normal (Return v)
   | None =>
       if jsstring_eqb type IEND then Normal Break
       else Normal (Continue (offset + 12 + length))
   end)%js.

Lemma getUint32_be_nonneg data offset v :
  getUint32_be data offset = Normal v -> 0 <= v.
Proof.
  unfold getUint32_be.
  destruct ((offset <? 0) || (blen data <? offset + 4)); [discriminate|].
  intros H. inversion H; subst.
  repeat match goal with
         | |- context [byte_to_Z ?b] =>
             let h := fresh in pose proof (byte_to_Z_nonneg b) as h;
             generalize dependent (byte_to_Z b); intros
         end.
  lia.
Qed.

Lemma loopBody_advances data key offset offset' :
  loopBody data key offset = Normal (Continue offset') -> offset + 12 <= offset'.
Proof.
  unfold loopBody. intros H.
  destruct (getUint32_be data offset) as [length|] eqn:G; [|discriminate].
  apply getUint32_be_nonneg in G. unfold bind, fromCharCode, spread_call in H.
  repeat match type of H with
         | context [match ?c with _ => _ end] => destruct c
         | context [if ?c then _ else _] => destruct c
         end; inversion H; subst; lia.
Qed.

(** The [while (offset < data.length)] loop. Each turn advances the offset
    by at least 12, which is what makes the loop terminate. *)
Equations? readLoop (data : bytes) (key : jsstring) (offset : Z)
  : completion (option jsstring) by wf (Z.to_nat (blen data - offset)) lt :=
readLoop data key offset with Z_lt_dec offset (blen data) := {
  | right _ => Normal None
  | left Hin with inspect (loopBody data key offset) := {
      | exist _ (Throw e) _ => Throw e
      | exist _ (Normal (Return v)) _ => Normal (Some v)
      | exist _ (Normal Break) _ => Normal None
      | exist _ (Normal (Continue offset')) Heq => readLoop data key offset' } }.
Proof.
  apply loopBody_advances in Heq. lia.
Qed.

Definition readPngMetadata (pngBuffer : bytes) (key : jsstring)
  : completion (option jsstring) :=
  readLoop pngBuffer key 8.

End WithEngine.

(** The containers [writePngMetadata] is written for: the 8-byte
    signature, then the 25-byte IHDR chunk (length 13, type, 13 bytes of
    data, CRC), then the other chunks. *)
Definition IHDR_head : bytes := setUint32_be 13 ++ stringToUint8 (lit "IHDR").

Definition container (signature ihdrData ihdrCrc chunks : bytes) : bytes :=
  signature ++ IHDR_head ++ ihdrData ++ ihdrCrc ++ chunks.

Definition minimal_container (png : bytes) : Prop :=
  exists signature ihdrData ihdrCrc chunks,
    png = container signature ihdrData ihdrCrc chunks /\
    blen signature = 8 /\ blen ihdrData = 13 /\ blen ihdrCrc = 4.

(** *** The chunk structure of a PNG file

    What the byte-level code above is meant to walk: a signature followed
    by chunks, each a 4-byte big-endian length, a 4-byte type, the data
    and a 4-byte CRC. *)
Record chunk : Type := {
  c_type : bytes;
  c_data : bytes;
  c_crc : bytes
}.

Definition encode (c : chunk) : bytes :=
  setUint32_be (blen (c_data c)) ++ c_type c ++ c_data c ++ c_crc c.

Definition well_formed (c : chunk) : Prop :=
  blen (c_type c) = 4 /\ blen (c_crc c) = 4 /\ blen (c_data c) < 2 ^ 32.

Definition file (signature : bytes) (chunks : list chunk) : bytes :=
  signature ++ List.concat (map encode chunks).

(** The chunk [writePngMetadata] builds. *)
Definition textChunk (key value : jsstring) : chunk :=
  let chunkData := stringToUint8 key ++ [Byte.x00] ++ stringToUint8 value in
  {| c_type := stringToUint8 tEXt;
     c_data := chunkData;
     c_crc := setUint32_be (crc32 (stringToUint8 tEXt ++ chunkData)) |}.

(** The data of a text chunk: keyword, NUL, text. *)
Fixpoint split_at_null (d : bytes) : option (bytes * bytes) :=
  match d with
  | [] => None
  | b :: r =>
      if Byte.eqb b Byte.x00 then Some ([], r)
      else match split_at_null r with
           | Some (k, v) => Some (b :: k, v)
           | None => None
           end
  end.

(** The text a chunk holds under [key], if it is a text chunk with that
    keyword.  Keyword and text are read with [String.fromCharCode(...)],
    which fails on more bytes than the engine takes as arguments. *)
Definition text_of (max_arguments : Z) (key : jsstring) (c : chunk)
  : completion (option jsstring) :=
  if jsstring_eqb (charCodes (c_type c)) tEXt then
    match split_at_null (c_data c) with
    | Some (k, v) =>
        if blen k <=? max_arguments then
          if jsstring_eqb (charCodes k) key then
            if blen v <=? max_arguments then Normal (Some (charCodes v))
            else Throw RangeError
          else Normal None
        else Throw RangeError
    | None => Normal None
    end
  else Normal None.

(** The text of the first text chunk with keyword [key] among the chunks
    up to and including the first IEND chunk. *)
Fixpoint lookup (max_arguments : Z) (key : jsstring) (chunks : list chunk)
  : completion (option jsstring) :=
  match chunks with
  | [] => Normal None
  | c :: r =>
      match text_of max_arguments key c with
      | Throw e => Throw e
      | Normal (Some v) => Normal (Some v)
      | Normal None =>
          if jsstring_eqb (charCodes (c_type c)) IEND then Normal None
          else lookup max_arguments key r
      end
  end.

(** A text chunk whose data the engine can take as arguments. *)
Definition text_fits (max_arguments : Z) (c : chunk) : Prop :=
  charCodes (c_type c) = tEXt -> blen (c_data c) <= max_arguments.

(** A turn of the loop seen from [d] bytes further on. *)
Definition shift_turn (d : Z) (t : turn) : turn :=
  match t with
  | Continue offset => Continue (offset + d)
  | Return v => Return v
  | Break => Break
  end.

(** *** CRC-32 bit by bit

    The checksum of the PNG specification computed without a table: every
    byte is folded into the register, which is then shifted out bit by
    bit under the reflected polynomial 0xEDB88320. *)
Definition crc_bit (c : Z) : Z :=
  if Z.testbit c 0 then Z.lxor 0xEDB88320 (Z.shiftr c 1) else Z.shiftr c 1.

Definition crc32_bitwise (buf : bytes) : Z :=
  let crc :=
    fold_left (fun crc b => Nat.iter 8 crc_bit (Z.lxor crc (byte_to_Z b)))
              buf 0xFFFFFFFF in
  Z.lxor crc 0xFFFFFFFF.

End Png.

(** ** [src/hooks/useVideoExport.ts] *)

Module VideoExport.
Import JS Types.

(** The calls [exportVideo] makes on its collaborators, in the order it
    makes them. *)
Inductive call : Type :=
| UpdateProgress (progress : Q)
| OutputStart
| RenderFrame (sequence : Sequence) (frameInScene totalFramesPerScene : Z)
| CanvasSourceAdd (timestamp duration : Q)
| OutputCancel
| CanvasSourceClose
| OutputFinalize.

(** The collaborators: encoder, muxer, renderer and abort signal.  Every
    awaited call may reject (the constructors in between are taken to
    succeed); the frame calls are indexed by the global frame counter and
    the abort signal by the scene at which it is polled. *)
Record World : Type := {
  createEncodingConfig : completion unit;
  output_start : completion unit;
  signal_aborted : Z -> bool;
  output_cancel : completion unit;
  renderFrame : Z -> completion unit;
  canvasSource_add : Z -> completion unit;
  output_finalize : completion unit;
  target_buffer : bool
}.

Inductive outcome : Type :=
| Blob                       (* the finished video *)
| NoSequences                (* 'No sequences to export' *)
| Cancelled                  (* 'Export cancelled' *)
| Failed (e : exn).          (* the [catch] branch *)

(** The mutable locals of the frame loops, and the calls made so far. *)
Record Loop : Type := {
  currentTimestamp : Q;
  globalFrameIndex : Z;
  calls : list call
}.

Definition framerate : Q := 30.

(** [1 / framerate]: the binary64 number nearest to 1/30. *)
Definition frameDuration : Q := Float64.div 1 framerate.

(** [Math.round(sceneDuration * framerate)] with
    [sceneDuration = timingMs / 1000], both in binary64. *)
Definition framesPerScene (timingMs : Q) : Z :=
  let sceneDuration := Float64.div timingMs 1000 in
  Math_round (Float64.mul sceneDuration framerate).

Definition emit (l : Loop) (c : call) : Loop :=
  {| currentTimestamp := currentTimestamp l;
     globalFrameIndex := globalFrameIndex l;
     calls := calls l ++ [c] |}.

(** One turn of the inner loop; on rejection the calls made so far are
    kept with the exception. *)
Definition frameTurn (w : World) (totalScenes fps : Z) (sequence : Sequence)
    (frameInScene : Z) (l : Loop) : Loop * option exn :=
  let progress :=
    (10 + (inject_Z (globalFrameIndex l) / inject_Z (totalScenes * fps)) * 85)%Q in
  let l := emit l (UpdateProgress progress) in
  let l := emit l (RenderFrame sequence frameInScene fps) in
  match renderFrame w (globalFrameIndex l) with
  | Throw e => (l, Some e)
  | Normal _ =>
      let l := emit l (CanvasSourceAdd (currentTimestamp l) frameDuration) in
      match canvasSource_add w (globalFrameIndex l) with
      | Throw e => (l, Some e)
      | Normal _ =>
          ({| currentTimestamp := Float64.add (currentTimestamp l) frameDuration;
              globalFrameIndex := globalFrameIndex l + 1;
              calls := calls l |}, None)
      end
  end.

(** [for (frameInScene = ...; frameInScene < framesPerScene; frameInScene++)],
    with [todo] turns left. *)
Fixpoint frameLoop (w : World) (totalScenes fps : Z) (sequence : Sequence)
    (todo : nat) (frameInScene : Z) (l : Loop) : Loop * option exn :=
  match todo with
  | O => (l, None)
  | S todo' =>
      match frameTurn w totalScenes fps sequence frameInScene l with
      | (l', Some e) => (l', Some e)
      | (l', None) => frameLoop w totalScenes fps sequence todo' (frameInScene + 1) l'
      end
  end.

(** [for (sceneIndex = ...; sceneIndex < sequences.length; sceneIndex++)]
    over the scenes still to do. *)
Fixpoint sceneLoop (w : World) (totalScenes fps : Z) (rest : list Sequence)
    (sceneIndex : Z) (l : Loop) : Loop * option outcome :=
  match rest with
  | [] => (l, None)
  | sequence :: rest' =>
      if signal_aborted w sceneIndex then
        match output_cancel w with
        | Throw e => (emit l OutputCancel, Some (Failed e))
        | Normal _ => (emit l OutputCancel, Some Cancelled)
        end
      else
        match frameLoop w totalScenes fps sequence (Z.to_nat fps) 0 l with
        | (l', Some e) => (l', Some (Failed e))
        | (l', None) => sceneLoop w totalScenes fps rest' (sceneIndex + 1) l'
        end
  end.

(** [exportVideo]: the calls made and how the export ended. *)
Definition exportVideo (w : World) (sequences : list Sequence) (timingMs : Q)
  : list call * outcome :=
  match sequences with
  | [] => ([], NoSequences)
  | _ :: _ =>
      let fps := framesPerScene timingMs in
      let l0 := {| currentTimestamp := 0; globalFrameIndex := 0;
                   calls := [UpdateProgress 5] |} in
      match createEncodingConfig w with
      | Throw e => (calls l0, Failed e)
      | Normal _ =>
          let l1 := emit l0 OutputStart in
          match output_start w with
          | Throw e => (calls l1, Failed e)
          | Normal _ =>
              let l2 := emit l1 (UpdateProgress 10) in
              let totalScenes := Z.of_nat (List.length sequences) in
              match sceneLoop w totalScenes fps sequences 0 l2 with
              | (l3, Some o) => (calls l3, o)
              | (l3, None) =>
                  let l4 := emit (emit (emit l3 (UpdateProgress 95))
                                       CanvasSourceClose) OutputFinalize in
                  match output_finalize w with
                  | Throw e => (calls l4, Failed e)
                  | Normal _ =>
                      let l5 := emit l4 (UpdateProgress 100) in
                      if target_buffer w then (calls l5, Blob)
                      else (calls l5, Failed (Error "Failed to create video buffer"))
                  end
              end
          end
      end
  end.

(** The frames submitted to the encoder: the [(timestamp, duration)]
    arguments of the [canvasSource.add] calls. *)
Definition submitted (cs : list call) : list (Q * Q) :=
  flat_map (fun c => match c with
                     | CanvasSourceAdd t d => [(t, d)]
                     | _ => []
                     end) cs.

(** The frames rendered: scene payload and sub-frame index of the
    [renderFrame] calls. *)
Definition rendered (cs : list call) : list (Sequence * Z) :=
  flat_map (fun c => match c with
                     | RenderFrame s f _ => [(s, f)]
                     | _ => []
                     end) cs.

(** A run in which no collaborator fails and nobody cancels. *)
Definition undisturbed (w : World) : Prop :=
  createEncodingConfig w = Normal tt /\
  output_start w = Normal tt /\
  (forall i, signal_aborted w i = false) /\
  (forall i, renderFrame w i = Normal tt) /\
  (forall i, canvasSource_add w i = Normal tt) /\
  output_finalize w = Normal tt /\
  target_buffer w = true.

(** The sub-frames [0 .. n-1] of one scene, in order. *)
Definition sceneFrames (n : nat) (s : Sequence) : list (Sequence * Z) :=
  map (fun f => (s, Z.of_nat f)) (seq 0 n).

(** The clock of the loop after [k] frames:
    [currentTimestamp += frameDuration], [k] times over. *)
Definition timestamp (k : nat) : Q := Float64.running_sum frameDuration k.

(** The frames submitted so far follow the clock, and the locals of the
    loop agree with them. *)
Definition on_grid (l : Loop) : Prop :=
  globalFrameIndex l = Z.of_nat (List.length (submitted (calls l))) /\
  currentTimestamp l = timestamp (List.length (submitted (calls l))) /\
  forall k t d, nth_error (submitted (calls l)) k = Some (t, d) ->
                t = timestamp k /\ d = frameDuration.

(** The same of a list of calls, whatever became of the loop. *)
Definition grid_calls (cs : list call) : Prop :=
  forall k t d, nth_error (submitted cs) k = Some (t, d) ->
                t = timestamp k /\ d = frameDuration.

(** What holds of the loop state between two frames, whatever the
    collaborators do: the frames follow the clock, each rendered frame was
    submitted, and the output has not been finalized. *)
Definition steady (l : Loop) : Prop :=
  on_grid l /\ ~ In OutputFinalize (calls l) /\
  List.length (submitted (calls l)) = List.length (rendered (calls l)).

(** What holds of the calls when the loops are left early. *)
Definition halted (cs : list call) : Prop :=
  grid_calls cs /\ ~ In OutputFinalize cs.

(** The progress values reported, in order. *)
Definition progress (cs : list call) : list Q :=
  flat_map (fun c => match c with
                     | UpdateProgress p => [p]
                     | _ => []
                     end) cs.

(** A list of numbers that never goes down, starting no lower than
    [lo]. *)
Fixpoint ascending_from (lo : Q) (l : list Q) : Prop :=
  match l with
  | [] => True
  | x :: r => (lo <= x)%Q /\ ascending_from x r
  end.

(** The value the inner loop reports at the global frame [g] when [M]
    frames are to be made in all. *)
Definition frameProgress (M g : Z) : Q :=
  (10 + (inject_Z g / inject_Z M) * 85)%Q.

(** What holds of the progress reported so far, [M] frames being due in
    all. *)
Definition reported (M : Z) (l : Loop) : Prop :=
  ascending_from 5 (progress (calls l)) /\
  Forall (fun p => p <= frameProgress M (globalFrameIndex l))%Q (progress (calls l)) /\
  0 <= globalFrameIndex l.

(** A run in which the encoder starts, no frame fails, and the user
    cancels while the scenes before scene [i] are being made: the poll at
    the head of scene [i] is the first to see the signal. *)
Definition cancelled_at (w : World) (i : nat) : Prop :=
  createEncodingConfig w = Normal tt /\
  output_start w = Normal tt /\
  (forall j, 0 <= j < Z.of_nat i -> signal_aborted w j = false) /\
  signal_aborted w (Z.of_nat i) = true /\
  output_cancel w = Normal tt /\
  (forall k, renderFrame w k = Normal tt) /\
  (forall k, canvasSource_add w k = Normal tt).

End VideoExport.

(** ** [src/components/SequenceManager.tsx]: the export dialog *)

Module VideoExportModal.
Import JS Types Sequencer VideoExport.

(** A scene of the video: a card, and whether it is the title or the
    closing card. *)
Record scene : Type := {
  card : Sequence;
  isIntro : bool;
  isOutro : bool
}.

Definition plain (s : Sequence) : scene :=
  {| card := s; isIntro := false; isOutro := false |}.

(** [{ ...sequences[0], id: i, name: n }].  On an empty collection the
    spread adds nothing and the object is no card ([None]). *)
Definition titleCard (sequences : list Sequence) (i : Z) (n : string)
  : option Sequence :=
  match index sequences 0 with
  | Some s => Some {| id := i;
                      name := n;
                      description := description s;
                      data := data s;
                      geoConfig := geoConfig s |}
  | None => None
  end.

(** The scene list [handleStartExport] builds: intro, [loopCount] passes
    over the collection, outro.  [loopCount] is what [parseInt] made of
    the slider, an integer. *)
Definition expandedSequences (sequences : list Sequence) (loopCount : Z)
    (videoName : string) : option (list scene) :=
  match titleCard sequences (-1) videoName, titleCard sequences (-2) "Outro" with
  | Some intro, Some outro =>
      Some ([{| card := intro; isIntro := true; isOutro := false |}]
            ++ List.concat (repeat (map plain sequences) (Z.to_nat loopCount))
            ++ [{| card := outro; isIntro := false; isOutro := true |}])
  | _, _ => None
  end.

(** [handleStartExport]: the calls the export makes and how it ends. *)
Definition handleStartExport (w : World) (sequences : list Sequence)
    (timingMs : Q) (loopCount : Z) (videoName : string)
  : option (list call * outcome) :=
  match expandedSequences sequences loopCount videoName with
  | Some scenes => Some (exportVideo w (map card scenes) timingMs)
  | None => None
  end.

(** The figures the dialog shows before the export. *)
Definition totalFrames (sequences : list Sequence) (loopCount : Z) : Z :=
  1 + len sequences * loopCount + 1.

(** [(totalFrames * timingMs) / 1000], in binary64. *)
Definition totalDuration (sequences : list Sequence) (loopCount : Z) (timingMs : Q) : Q :=
  Float64.div (Float64.mul (inject_Z (totalFrames sequences loopCount)) timingMs) 1000.

(** The length in seconds of the video the calls describe: the sum of the
    durations of its frames. *)
Definition videoDuration (cs : list call) : Q :=
  fold_right (fun td acc => (snd td + acc)%Q) 0%Q (submitted cs).

End VideoExportModal.

(** ** [src/utils/videoExport.ts] *)

Module VideoExportUtil.
Import JS Types.

(** The placement [renderSvgToCanvas] computes for the image of an SVG
    with the given [viewBox] numbers (absent, or not four of them: the
    image fills the canvas): [(xOffset, yOffset, svgWidth, svgHeight)].
    The four numbers of the [viewBox] are taken as numbers other than
    not-a-number, and its height as other than zero: the quotient by zero
    is not the one of the code. *)
Definition placement (width height : Q) (viewBox : option (list Q)) : Q * Q * Q * Q :=
  let '(svgWidth, svgHeight) :=
    match viewBox with
    | Some [_; _; vbWidth; vbHeight] =>
        let vbAspect := Float64.div vbWidth vbHeight in
        let canvasAspect := Float64.div width height in
        if negb (Qle_bool vbAspect canvasAspect) then
          (* SVG is wider - fit to width *)
          (width, Float64.div width vbAspect)
        else
          (* SVG is taller - fit to height *)
          (Float64.mul height vbAspect, height)
    | _ => (width, height)
    end in
  let xOffset := Float64.div (Float64.sub width svgWidth) 2 in
  let yOffset := Float64.div (Float64.sub height svgHeight) 2 in
  (xOffset, yOffset, svgWidth, svgHeight).

(** The sizes the statements about [placement] are made for: far from
    the smallest and from the largest binary64 numbers, so that no
    quotient or product of two of them leaves the normal range. *)
Definition in_range (x : Q) : Prop := (2 ^ (-300) <= x /\ x <= 2 ^ 300)%Q.

(** The calls [exportSequencesToMP4] makes on its collaborators. *)
Inductive call : Type :=
| OnProgress (progress : Q)
| OutputStart
| AppendChild                 (* [document.body.appendChild(container)] *)
| RenderSvgToCanvas
| CanvasSourceAdd (timestamp duration : Q)
| RemoveChild                 (* [document.body.removeChild(container)] *)
| OutputCancel
| CanvasSourceClose
| OutputFinalize.

(** The collaborators; the calls in the loop are indexed by the position
    of the sequence.  [svgElement] tells whether [querySelector] finds an
    SVG in the container. *)
Record World : Type := {
  createEncodingConfig : completion unit;
  output_start : completion unit;
  signal_aborted : Z -> bool;
  output_cancel : completion unit;
  svgElement : Z -> bool;
  renderSvgToCanvas : Z -> completion unit;
  canvasSource_add : Z -> completion unit;
  output_finalize : completion unit;
  target_buffer : bool
}.

Record Loop : Type := {
  currentTimestamp : Q;
  calls : list call
}.

Definition emit (l : Loop) (c : call) : Loop :=
  {| currentTimestamp := currentTimestamp l; calls := calls l ++ [c] |}.




(** The frames submitted to the encoder. *)
Definition submitted (cs : list call) : list (Q * Q) :=
  flat_map (fun c => match c with
                     | CanvasSourceAdd t d => [(t, d)]
                     | _ => []
                     end) cs.




End VideoExportUtil.

(** ** [src/utils/compression.ts] *)

Module Compression.
Import JS Types.
Local Open Scope string_scope.

(** *** JavaScript values

    What [JSON.parse] returns and what the code builds and reads with
    dynamic typing.  An object is the list of its own properties in
    enumeration order, each key once. *)
#[warnings="-register-all"]
Inductive value : Type :=
| VUndefined
| VNull
| VBool (b : bool)
| VNum (q : Q)
| VNaN
| VStr (s : string)
| VArr (elems : list value)
| VObj (props : list (string * value)).

Definition object := list (string * value).

(** [o[k]] on the own properties. *)
Fixpoint obj_get (o : object) (k : string) : option value :=
  match o with
  | [] => None
  | (k', v) :: r => if String.eqb k' k then Some v else obj_get r k
  end.

(** [o[k] = v]: overwrite in place, or add as the last property. *)
Fixpoint obj_set (o : object) (k : string) (v : value) : object :=
  match o with
  | [] => [(k, v)]
  | (k', v') :: r =>
      if String.eqb k' k then (k', v) :: r else (k', v') :: obj_set r k v
  end.

(** Falsy values: [undefined], [null], [false], [0], [NaN] and the empty
    string. *)
Definition truthy (v : value) : bool :=
  match v with
  | VUndefined | VNull | VNaN => false
  | VBool b => b
  | VNum q => negb (Qeq_bool q 0)
  | VStr s => negb (String.eqb s EmptyString)
  | VArr _ | VObj _ => true
  end.

(** [a || b] *)
Definition js_or (a b : value) : value := if truthy a then a else b.

(** [a === b].  Two object or array values met by the code are never the
    same reference, so they compare unequal. *)
Definition strict_eq (a b : value) : bool :=
  match a, b with
  | VUndefined, VUndefined => true
  | VNull, VNull => true
  | VBool x, VBool y => Bool.eqb x y
  | VNum x, VNum y => Qeq_bool x y
  | VStr x, VStr y => String.eqb x y
  | _, _ => false
  end.

(** [v.p] for the property names the codec reads ([v], [t], [G], [s],
    [g], [i], [n], [d], [D]): a [TypeError] on [null] and [undefined], the
    own property of an object, and [undefined] on every other value, none
    of which has a member of such a name. *)
Definition get_prop (v : value) (p : string) : completion value :=
  match v with
  | VUndefined | VNull => Throw TypeError
  | VObj o => Normal (match obj_get o p with Some x => x | None => VUndefined end)
  | _ => Normal VUndefined
  end.

Fixpoint indexed {A} (f : A -> value) (xs : list A) (i : Z) : object :=
  match xs with
  | [] => []
  | x :: r => (Z_toString i, f x) :: indexed f r (i + 1)
  end.

Definition chars (s : string) : list string :=
  map (fun c => String c EmptyString) (list_ascii_of_string s).

(** [for (const key in v)] with the value [v[key]] at each key: the own
    properties of an object, the indices of an array or of a string,
    nothing for the other values. *)
Definition for_in (v : value) : object :=
  match v with
  | VObj o => o
  | VArr xs => indexed (fun x => x) xs 0
  | VStr s => indexed VStr (chars s) 0
  | _ => []
  end.

(** *** Enumerations of [GeoConfig] as the strings they are *)

Definition LobeType_str (t : LobeType) : string :=
  match t with sunflower => "sunflower" | dharma => "dharma" | lotus => "lotus" end.
Definition LobeDesign_str (t : LobeDesign) : string :=
  match t with seeds => "seeds" | celtic => "celtic" | triskelion => "triskelion" end.
Definition CenterDesign_str (t : CenterDesign) : string :=
  match t with
  | c_seeds => "seeds" | c_celtic => "celtic"
  | c_triskelion => "triskelion" | c_uranus => "uranus"
  end.

(** [keyof GeoConfig] *)
Inductive GeoKey : Type :=
| K_showFrame | K_frameDoubleTop | K_frameScale | K_frameHeaderOffset
| K_frameTickLength | K_frameStrokeWidth | K_uiFontSize | K_overallScale
| K_mainScale | K_petals | K_petalSize | K_petalRoundness | K_lobeCount
| K_lobeRadius | K_lobeType | K_lobeDesign | K_designScale
| K_designOffset | K_centerDesign | K_lobeOpacity | K_centerOpacity
| K_geometryRotation | K_dharmaExtrusionOut | K_dharmaExtrusionSide
| K_dharmaStemWidth | K_dharmaCapHeight | K_ringInnerRadius | K_stripeSep
| K_stripeStart | K_hullValley | K_hullCoverage | K_sequenceLength
| K_shellScale | K_shellStroke | K_ringStroke | K_stripeStroke | K_uiFont
| K_frameSquareHeader.

(** The property name behind each key. *)
Definition key_name (k : GeoKey) : string :=
  match k with
  | K_showFrame => "showFrame"
  | K_frameDoubleTop => "frameDoubleTop"
  | K_frameScale => "frameScale"
  | K_frameHeaderOffset => "frameHeaderOffset"
| K_frameTickLength => "frameTickLength"
  | K_frameStrokeWidth => "frameStrokeWidth"
  | K_uiFontSize => "uiFontSize"
  | K_overallScale => "overallScale"
  | K_mainScale => "mainScale"
  | K_petals => "petals"
  | K_petalSize => "petalSize"
  | K_petalRoundness => "petalRoundness"
  | K_lobeCount => "lobeCount"
  | K_lobeRadius => "lobeRadius"
  | K_lobeType => "lobeType"
  | K_lobeDesign => "lobeDesign"
  | K_designScale => "designScale"
  | K_designOffset => "designOffset"
  | K_centerDesign => "centerDesign"
  | K_lobeOpacity => "lobeOpacity"
  | K_centerOpacity => "centerOpacity"
  | K_geometryRotation => "geometryRotation"
  | K_dharmaExtrusionOut => "dharmaExtrusionOut"
  | K_dharmaExtrusionSide => "dharmaExtrusionSide"
  | K_dharmaStemWidth => "dharmaStemWidth"
  | K_dharmaCapHeight => "dharmaCapHeight"
  | K_ringInnerRadius => "ringInnerRadius"
  | K_stripeSep => "stripeSep"
  | K_stripeStart => "stripeStart"
  | K_hullValley => "hullValley"
  | K_hullCoverage => "hullCoverage"
  | K_sequenceLength => "sequenceLength"
  | K_shellScale => "shellScale"
  | K_shellStroke => "shellStroke"
  | K_ringStroke => "ringStroke"
  | K_stripeStroke => "stripeStroke"
  | K_uiFont => "uiFont"
  | K_frameSquareHeader => "frameSquareHeader"
  end.

(** [target[key]] on a typed configuration. *)
Definition field (g : GeoConfig) (k : GeoKey) : value :=
  match k with
  | K_showFrame => VBool (showFrame g)
  | K_frameDoubleTop => VBool (frameDoubleTop g)
  | K_frameScale => VNum (frameScale g)
  | K_frameHeaderOffset => VNum (frameHeaderOffset g)
| K_frameTickLength => VNum (frameTickLength g)
  | K_frameStrokeWidth => VNum (frameStrokeWidth g)
  | K_uiFontSize => VNum (uiFontSize g)
  | K_overallScale => VNum (overallScale g)
  | K_mainScale => VNum (mainScale g)
  | K_petals => VNum (petals g)
  | K_petalSize => VNum (petalSize g)
  | K_petalRoundness => VNum (petalRoundness g)
  | K_lobeCount => VNum (lobeCount g)
  | K_lobeRadius => VNum (lobeRadius g)
  | K_lobeType => VStr (LobeType_str (lobeType g))
  | K_lobeDesign => VStr (LobeDesign_str (lobeDesign g))
  | K_designScale => VNum (designScale g)
  | K_designOffset => VNum (designOffset g)
  | K_centerDesign => VStr (CenterDesign_str (centerDesign g))
  | K_lobeOpacity => VNum (lobeOpacity g)
  | K_centerOpacity => VNum (centerOpacity g)
  | K_geometryRotation => VNum (geometryRotation g)
  | K_dharmaExtrusionOut => VNum (dharmaExtrusionOut g)
  | K_dharmaExtrusionSide => VNum (dharmaExtrusionSide g)
  | K_dharmaStemWidth => VNum (dharmaStemWidth g)
  | K_dharmaCapHeight => VNum (dharmaCapHeight g)
  | K_ringInnerRadius => VNum (ringInnerRadius g)
  | K_stripeSep => VNum (stripeSep g)
  | K_stripeStart => VNum (stripeStart g)
  | K_hullValley => VNum (hullValley g)
  | K_hullCoverage => VNum (hullCoverage g)
  | K_sequenceLength => VNum (sequenceLength g)
  | K_shellScale => VNum (shellScale g)
  | K_shellStroke => VNum (shellStroke g)
  | K_ringStroke => VNum (ringStroke g)
  | K_stripeStroke => VNum (stripeStroke g)
  | K_uiFont => VStr (uiFont g)
  | K_frameSquareHeader => VBool (frameSquareHeader g)
  end.

(** Map long keys to short keys for URL minification. *)
Definition GEO_KEY_MAP : list (GeoKey * string) :=
  [ (K_showFrame, "a"); (K_frameDoubleTop, "b"); (K_frameScale, "c");
    (K_frameHeaderOffset, "d"); (K_frameTickLength, "e");
    (K_frameStrokeWidth, "f"); (K_uiFontSize, "g"); (K_overallScale, "h");
    (K_mainScale, "M"); (K_petals, "i"); (K_petalSize, "j");
    (K_petalRoundness, "k"); (K_lobeCount, "l"); (K_lobeRadius, "m");
    (K_lobeType, "n"); (K_lobeDesign, "L"); (K_designScale, "S");
    (K_designOffset, "O"); (K_centerDesign, "K"); (K_lobeOpacity, "E");
    (K_centerOpacity, "F"); (K_geometryRotation, "R");
    (K_dharmaExtrusionOut, "o"); (K_dharmaExtrusionSide, "p");
    (K_dharmaStemWidth, "q"); (K_dharmaCapHeight, "r");
    (K_ringInnerRadius, "s"); (K_stripeSep, "t"); (K_stripeStart, "u");
    (K_hullValley, "v"); (K_hullCoverage, "w"); (K_sequenceLength, "x");
    (K_shellScale, "y"); (K_shellStroke, "z"); (K_ringStroke, "A");
    (K_stripeStroke, "B"); (K_uiFont, "C"); (K_frameSquareHeader, "H") ].

(** [Object.keys(GEO_KEY_MAP)] *)
Definition GEO_KEYS : list GeoKey := map fst GEO_KEY_MAP.

(** A typed configuration as the object it is at run time. *)
Definition GeoConfig_object (g : GeoConfig) : object :=
  map (fun k => (key_name k, field g k)) GEO_KEYS.

(** [GEO_KEY_MAP[key]] *)
Fixpoint alias_in (m : list (GeoKey * string)) (k : GeoKey) : string :=
  match m with
  | [] => EmptyString
  | (k', a) :: r => if String.eqb (key_name k') (key_name k) then a else alias_in r k
  end.
Definition alias (k : GeoKey) : string := alias_in GEO_KEY_MAP k.

(** [Object.entries(GEO_KEY_MAP).reduce((acc, [k, v]) => ({...acc, [v]: k}), {})]:
    from short key to property name. *)
Definition REV_GEO_KEY_MAP : object :=
  fold_left (fun acc kv => obj_set acc (snd kv) (VStr (key_name (fst kv))))
            GEO_KEY_MAP [].

(** *** Rounding *)

(** [parseFloat(val.toFixed(3))]: the nearest multiple of 1/1000, halves
    away from zero. *)
Definition toFixed3 (val : Q) : Q :=
  let n := Qfloor (Qabs val * 1000 + (1 # 2))%Q in
  Qred (if Qle_bool 0 val then n # 1000 else (- n) # 1000).

(** [smartRound] on a number.  Numbers are kept in lowest terms, so that
    equal numbers are equal terms. *)
Definition smartRoundQ (val : Q) : Q :=
  let r := inject_Z (Math_round val) in
  if negb (Qle_bool (1 # 10000) (Qabs (val - r)))%Q then r else toFixed3 val.

Definition smartRound (val : value) : value :=
  match val with
  | VNum q => VNum (smartRoundQ q)
  | _ => val
  end.

(** *** Diffs *)

(** Returns an object containing only the keys from [target] that differ
    from [baseline]; keys are minified, values are rounded. *)
Definition minifyGeoDiff (target baseline : GeoConfig) : object :=
  fold_left
    (fun minGeo key =>
       let targetVal := field target key in
       let baseVal := field baseline key in
       let rTarget := smartRound targetVal in
       let rBase := smartRound baseVal in
       if negb (strict_eq rTarget rBase)
       then obj_set minGeo (alias key) rTarget
       else minGeo)
    GEO_KEYS [].

Section WithRuntime.

(** The members every plain object inherits ([constructor], [toString],
    [__proto__], ...): [Object_prototype k] is the property key such a
    member converts to when it is used as one.  All of them are truthy. *)
Variable Object_prototype : string -> option string.

(** [REV_GEO_KEY_MAP[shortKey]], when truthy, as a property key. *)
Definition REV_lookup (shortKey : string) : option string :=
  match obj_get REV_GEO_KEY_MAP shortKey with
  | Some (VStr fullKey) => Some fullKey
  | _ => Object_prototype shortKey
  end.

(** Reconstructs a full configuration by applying minified diffs to a
    baseline. *)
Definition inflateGeoDiff (minDiff : value) (baseline : object) : object :=
  let newGeo := baseline in
  if negb (truthy minDiff) then newGeo
  else
    fold_left
      (fun newGeo kv =>
         match REV_lookup (fst kv) with
         | Some fullKey => obj_set newGeo fullKey (snd kv)
         | None => newGeo
         end)
      (for_in minDiff) newGeo.

(** [SUNFLOWER_PRESET] is imported from [src/constants.ts]; the
    development is parametric in it. *)
Variable SUNFLOWER_PRESET : GeoConfig.

(** Legacy inflator for V1/V2/V3 (not diff based). *)
Definition inflateGeoLegacy (minGeo : value) : object :=
  fold_left
    (fun geoConfig kv =>
       match REV_lookup (fst kv) with
       | Some fullKey => obj_set geoConfig fullKey (snd kv)
       | None => obj_set geoConfig (fst kv) (snd kv)
       end)
    (for_in minGeo) (GeoConfig_object SUNFLOWER_PRESET).

(** The functions of the host the codec calls. *)
Record Host : Type := {
  JSON_stringify : value -> string;
  JSON_parse : string -> completion value;
  encodeURIComponent : string -> completion string;
  decodeURIComponent : string -> completion string;
  escape : string -> string;
  unescape : string -> string;
  btoa : string -> completion string;
  atob : string -> completion string;
  (** [Math.random()] as called for the element at a given position *)
  Math_random : nat -> Q
}.

Variable host : Host.

(** [s.data.join('')] *)
Definition join_empty (data : list Z) : string :=
  String.concat EmptyString (map Z_toString data).

(** The object built for one sequence by the [map] of [compressConfig]. *)
Definition seqObj (globalBase : GeoConfig) (s : Sequence) : value :=
  let seqDiff := minifyGeoDiff (geoConfig s) globalBase in
  let o := [ ("i", VNum (inject_Z (id s)));
             ("n", VStr (name s));
             ("D", VStr (join_empty (data s))) ]%string in
  let o :=
    match description s with
    | Some d => if truthy (VStr d) then obj_set o "d" (VStr d) else o
    | None => o
    end in
  let o :=
    if (0 <? Z.of_nat (List.length seqDiff))%Z
    then obj_set o "g" (VObj seqDiff) else o in
  VObj o.

(** The [payload] object of [compressConfig]; an omitted [timingMs]
    defaults to 1500. *)
Definition payload (geoConfig : GeoConfig) (sequences : list Sequence)
    (timingMs : option Q) : value :=
  let t := match timingMs with Some t => t | None => 1500%Q end in
  let globalBase := geoConfig in
  let minGlobalGeo := minifyGeoDiff globalBase SUNFLOWER_PRESET in
  let minSequences := map (seqObj globalBase) sequences in
  VObj [ ("v", VNum 4); ("t", VNum t);
         ("G", VObj minGlobalGeo); ("s", VArr minSequences) ]%string.

Definition compressConfig (geoConfig : GeoConfig) (sequences : list Sequence)
    (timingMs : option Q) : completion string :=
  let jsonStr := JSON_stringify host (payload geoConfig sequences timingMs) in
  (* standard base64, URI encoded to be URL safe *)
  (e <- encodeURIComponent host jsonStr ;;
   btoa host (unescape host e))%js.

(** [parseInt(c, 10)] on a string of one character. *)
Definition parseInt10_char (c : string) : value :=
  match c with
  | String a EmptyString =>
      let n := nat_of_ascii a in
      if (48 <=? n)%nat && (n <=? 57)%nat then VNum (inject_Z (Z.of_nat (n - 48)))
      else VNaN
  | _ => VNaN
  end.

(** [Number(c)] on a string of one character: white space converts to
    [0]. *)
Definition Number_char (c : string) : value :=
  match c with
  | String a EmptyString =>
      let n := nat_of_ascii a in
      if (48 <=? n)%nat && (n <=? 57)%nat then VNum (inject_Z (Z.of_nat (n - 48)))
      else if ((9 <=? n)%nat && (n <=? 13)%nat) || (n =? 32)%nat || (n =? 160)%nat
           then VNum 0
           else VNaN
  | _ => VNaN
  end.

(** A decoded sequence; nothing checks the types of what a token
    carries. *)
Record DecodedSequence : Type := {
  d_id : value;
  d_name : value;
  d_description : value;
  d_data : list value;
  d_geoConfig : object
}.

Record Decoded : Type := {
  r_geoConfig : object;
  r_sequences : list DecodedSequence;
  r_timingMs : value
}.

(** The [data] of a V4, V3 or V2 sequence. *)
Definition decodeData (D : value) : list value :=
  match D with
  | VStr s => map parseInt10_char (chars s)
  | VArr xs => xs
  | _ => []
  end.

(** The [data] of a V1 sequence. *)
Definition decodeDataV1 (D : value) : list value :=
  match D with
  | VArr xs => xs
  | VStr s => map Number_char (chars s)
  | _ => []
  end.

(** [arr.map(f)] with the position of each element; a [TypeError] when
    [arr] is not an array (no [map] to call). *)
Fixpoint mapi_from {A} (f : nat -> value -> completion A) (xs : list value) (i : nat)
  : completion (list A) :=
  match xs with
  | [] => Normal []
  | x :: r =>
      (y <- f i x ;; ys <- mapi_from f r (S i) ;; Normal (y :: ys))%js
  end.

Definition array_map {A} (arr : value) (f : nat -> value -> completion A)
  : completion (list A) :=
  match arr with
  | VArr xs => mapi_from f xs 0
  | _ => Throw TypeError
  end.

Definition isArray (v : value) : bool :=
  match v with VArr _ => true | _ => false end.

(** The common fields of a decoded sequence. *)
Definition decodedSequence (i : nat) (s : value) (data : list value)
    (geo : object) : completion DecodedSequence :=
  (si <- get_prop s "i" ;;
   sn <- get_prop s "n" ;;
   sd <- get_prop s "d" ;;
   Normal {| d_id := js_or si (VNum (Math_random host i));
             d_name := js_or sn (VStr "Sequence");
             d_description := js_or sd (VStr EmptyString);
             d_data := data;
             d_geoConfig := geo |})%js.

(** The callback of [payload.s.map] in the V4 branch: the sequence
    geometry is the global base with the sequence's own diff applied. *)
Definition decodeItem (globalBase : object) (i : nat) (s : value)
  : completion DecodedSequence :=
  (sg <- get_prop s "g" ;;
   let seqGeo :=
     if truthy sg then inflateGeoDiff sg globalBase else globalBase in
   sD <- get_prop s "D" ;;
   decodedSequence i s (decodeData sD) seqGeo)%js.

(** The first two lines of the [try] block: from the token to the parsed
    payload. *)
Definition readPayload (encoded : string) : completion value :=
  (a <- atob host encoded ;;
   jsonStr <- decodeURIComponent host (escape host a) ;;
   JSON_parse host jsonStr)%js.

(** What the codec expects of the host on the text of a payload [v]:
    [JSON.parse] undoes [JSON.stringify], [decodeURIComponent] after
    [escape] undoes [unescape] after [encodeURIComponent], and [atob]
    undoes [btoa]. *)
Definition host_inverts (v : value) : Prop :=
  let jsonStr := JSON_stringify host v in
  JSON_parse host jsonStr = Normal v /\
  forall e, encodeURIComponent host jsonStr = Normal e ->
    decodeURIComponent host (escape host (unescape host e)) = Normal jsonStr /\
    forall b, btoa host (unescape host e) = Normal b ->
      atob host b = Normal (unescape host e).

(** The body of the [try] block of [decompressConfig]. *)
Definition decompressBody (encoded : string) : completion (option Decoded) :=
  (payload <- readPayload encoded ;;
   timingMs <- get_prop payload "t" ;;
   v <- get_prop payload "v" ;;
   if strict_eq v (VNum 4) then
     (* version 4: diff inheritance *)
     G <- get_prop payload "G" ;;
     let globalBase := inflateGeoDiff G (GeoConfig_object SUNFLOWER_PRESET) in
     ps <- get_prop payload "s" ;;
     sequences <- array_map ps (decodeItem globalBase) ;;
     Normal (Some {| r_geoConfig := globalBase;
                     r_sequences := sequences;
                     r_timingMs := timingMs |})
   else
     ps <- get_prop payload "s" ;;
     if (strict_eq v (VNum 3) || strict_eq v (VNum 2)) && isArray ps then
       (* versions 3 and 2: embedded geometry, no inheritance *)
       sequences <- array_map ps (fun i s =>
         sD <- get_prop s "D" ;;
         sg <- get_prop s "g" ;;
         decodedSequence i s (decodeData sD) (inflateGeoLegacy sg)) ;;
       Normal (Some {| r_geoConfig := match sequences with
                                      | s0 :: _ => d_geoConfig s0
                                      | [] => []
                                      end;
                       r_sequences := sequences;
                       r_timingMs := timingMs |})
     else
       pg <- get_prop payload "g" ;;
       if truthy pg then
         (* version 1: global geometry *)
         let globalGeo := inflateGeoLegacy pg in
         sequences <-
           (if truthy ps && isArray ps then
              array_map ps (fun i s =>
                sD <- get_prop s "D" ;;
                decodedSequence i s (decodeDataV1 sD) globalGeo)
            else Normal []) ;;
         Normal (Some {| r_geoConfig := globalGeo;
                         r_sequences := sequences;
                         r_timingMs := timingMs |})
       else Normal None)%js.

(** [decompressConfig]: whatever the [try] block throws is caught, logged
    and turned into [null]. *)
Definition decompressConfig (encoded : string) : completion (option Decoded) :=
  try_catch (decompressBody encoded) (fun e => Normal None).

(** *** Notions used to state the properties *)

(** The global geometry a V4 token decodes to. *)
Definition decodedGlobal (cfg : GeoConfig) : object :=
  inflateGeoDiff (VObj (minifyGeoDiff cfg SUNFLOWER_PRESET))
                 (GeoConfig_object SUNFLOWER_PRESET).

(** The geometry a V4 token decodes to for an item, over the decoded
    global geometry. *)
Definition itemGeoOver (globalBase : object) (cfg : GeoConfig) (s : Sequence)
  : object :=
  match minifyGeoDiff (geoConfig s) cfg with
  | [] => globalBase
  | d => inflateGeoDiff (VObj d) globalBase
  end.

Definition decodedItemGeo (cfg : GeoConfig) (s : Sequence) : object :=
  itemGeoOver (decodedGlobal cfg) cfg s.

(** A decoded geometry object against the configuration it came from:
    every field is there, equal to the original up to the rounding. *)
Definition same_after_rounding (geo : object) (g : GeoConfig) : Prop :=
  forall k, exists v, obj_get geo (key_name k) = Some v /\
                      smartRound v = smartRound (field g k).

(** Every field is there and is the rounded original. *)
Definition rounded_original (geo : object) (g : GeoConfig) : Prop :=
  forall k, obj_get geo (key_name k) = Some (smartRound (field g k)).

(** The preset holds rounded values. *)
Definition preset_rounded : Prop :=
  forall k, smartRound (field SUNFLOWER_PRESET k) = field SUNFLOWER_PRESET k.

(** What the sequence decoded at position [i] carries for the id, the
    name and the description of the sequence [s] it was made from. *)
Definition labels_restored (i : nat) (s : Sequence) (d : DecodedSequence) : Prop :=
  d_id d = (if (id s =? 0)%Z then VNum (Math_random host i)
            else VNum (inject_Z (id s))) /\
  d_name d = VStr (if String.eqb (name s) EmptyString then "Sequence" else name s) /\
  d_description d = VStr (match description s with
                          | Some x => x
                          | None => EmptyString
                          end).

End WithRuntime.

(** Whether [minifyGeoDiff] writes the key into the diff. *)
Definition differs (target baseline : GeoConfig) (k : GeoKey) : bool :=
  negb (strict_eq (smartRound (field target k)) (smartRound (field baseline k))).

(** One turn of the [forEach] of [minifyGeoDiff]. *)
Definition diffStep (target baseline : GeoConfig) (minGeo : object) (key : GeoKey)
  : object :=
  if differs target baseline key
  then obj_set minGeo (alias key) (smartRound (field target key))
  else minGeo.

(** A geometry object in which no field of [GeoConfig] is absent. *)
Definition populated (geo : object) : Prop :=
  forall k, obj_get geo (key_name k) <> None.

(** What the legacy inflator and the diff inflator do with one property
    of their argument. *)
Definition inflateStep (Object_prototype : string -> option string)
    (keep_unknown : bool) (geo : object) (kv : string * value) : object :=
  match REV_lookup Object_prototype (fst kv) with
  | Some fullKey => obj_set geo fullKey (snd kv)
  | None => if keep_unknown then obj_set geo (fst kv) (snd kv) else geo
  end.

End Compression.

(** ** [src/components/SequenceManager.tsx]: cards as PNG files *)

Module Card.
Import JS Types Png Compression.

(** The string a sequence of code units below 256 stands for; these are
    all the code units [readPngMetadata] returns. *)
Definition unlit (s : jsstring) : string :=
  string_of_list_ascii (map (fun c => ascii_of_nat (Z.to_nat c)) s).

(** What the import makes of a file. *)
Inductive imported : Type :=
| Sequences (seqs : list DecodedSequence)  (* each passed to [onImportSequence] *)
| InvalidConfiguration                     (* "Invalid configuration found in image." *)
| NoConfiguration.                         (* "No QRP configuration found in this image." *)

Section WithRuntime.

Variable max_arguments : Z.
Variable Object_prototype : string -> option string.
Variable SUNFLOWER_PRESET : GeoConfig.
Variable host : Host.

(** The last step of [handleExportPng]: the rendered image gets the
    configuration of the active card as a text chunk. *)
Definition tagCard (buffer : bytes) (activeSequence : Sequence) : completion bytes :=
  (configString <- compressConfig SUNFLOWER_PRESET host (geoConfig activeSequence)
                     [activeSequence] None ;;
   writePngMetadata buffer (lit "QRPConfig") (lit configString))%js.

(** The [onload] handler of [handleFileChange]; an empty text is
    falsy. *)
Definition readCard (buffer : bytes) : completion imported :=
  (metadata <- readPngMetadata max_arguments buffer (lit "QRPConfig") ;;
   match metadata with
   | Some ((_ :: _) as m) =>
       decoded <- decompressConfig Object_prototype SUNFLOWER_PRESET host (unlit m) ;;
       Normal match decoded with
              | Some r =>
                  if (0 <? Z.of_nat (List.length (r_sequences r)))%Z
                  then Sequences (r_sequences r)
                  else InvalidConfiguration
              | None => InvalidConfiguration
              end
   | _ => Normal NoConfiguration
   end)%js.

End WithRuntime.

End Card.

(** ** A reference host

    An executable model of the host functions the codec calls, over the
    8-bit strings of this development: JSON text, percent-encoding and
    base64.  The properties of the codec are proved for every host; this
    one serves to run the codec on concrete tokens. *)

Module ReferenceHost.
Import JS Types Compression.
Local Open Scope string_scope.
Local Open Scope char_scope.

Definition code (c : ascii) : nat := nat_of_ascii c.
Definition within (lo hi : ascii) (c : ascii) : bool :=
  (code lo <=? code c)%nat && (code c <=? code hi)%nat.
Definition is_digit (c : ascii) : bool := within "0" "9" c.
Definition is_alnum (c : ascii) : bool :=
  within "0" "9" c || within "a" "z" c || within "A" "Z" c.
Definition one_of (set : string) (c : ascii) : bool :=
  existsb (Ascii.eqb c) (list_ascii_of_string set).

(** *** Hexadecimal digits *)

Definition hex_digit (n : nat) : ascii :=
  nth n (list_ascii_of_string "0123456789ABCDEF") "0".

Definition hex_value (c : ascii) : option nat :=
  if within "0" "9" c then Some (code c - 48)%nat
  else if within "A" "F" c then Some (code c - 55)%nat
  else if within "a" "f" c then Some (code c - 87)%nat
  else None.

Definition percent (n : nat) : list ascii :=
  ["%"; hex_digit (n / 16); hex_digit (n mod 16)].

(** *** [escape], [unescape], [encodeURIComponent], [decodeURIComponent] *)

Definition escape_ref (s : string) : string :=
  string_of_list_ascii
    (flat_map (fun c => if is_alnum c || one_of "@*_+-./" c then [c]
                        else percent (code c))
              (list_ascii_of_string s)).

Fixpoint unescape_list (fuel : nat) (s : list ascii) : list ascii :=
  match fuel with
  | O => s
  | S f =>
      match s with
      | "%" :: h :: l :: r =>
          match hex_value h, hex_value l with
          | Some a, Some b => ascii_of_nat (16 * a + b) :: unescape_list f r
          | _, _ => "%" :: unescape_list f (h :: l :: r)
          end
      | c :: r => c :: unescape_list f r
      | [] => []
      end
  end.

Definition unescape_ref (s : string) : string :=
  string_of_list_ascii (unescape_list (String.length s) (list_ascii_of_string s)).

(** UTF-8 of a code unit below 256: one byte below 128, else two. *)
Definition utf8 (c : ascii) : list nat :=
  let n := code c in
  if (n <? 128)%nat then [n] else [192 + n / 64; 128 + n mod 64]%nat.

Definition encodeURIComponent_ref (s : string) : completion string :=
  Normal (string_of_list_ascii
            (flat_map (fun c => if is_alnum c || one_of "-_.!~*'()" c then [c]
                                else flat_map percent (utf8 c))
                      (list_ascii_of_string s))).

(** One character of a percent-encoded text: itself, or the byte after a
    percent sign. *)
Definition percent_byte (s : list ascii) : option (option nat * list ascii) :=
  match s with
  | "%" :: h :: l :: r =>
      match hex_value h, hex_value l with
      | Some a, Some b => Some (Some (16 * a + b)%nat, r)
      | _, _ => None
      end
  | "%" :: _ => None
  | _ => Some (None, s)
  end.

(** Code points above 255 do not fit the 8-bit strings and are refused
    like malformed input. *)
Fixpoint decodeURI_list (fuel : nat) (s : list ascii) : completion (list ascii) :=
  match fuel with
  | O => Normal []
  | S f =>
      match s with
      | [] => Normal []
      | c :: r =>
          match percent_byte s with
          | None => Throw URIError
          | Some (None, _) => (t <- decodeURI_list f r ;; Normal (c :: t))%js
          | Some (Some b, r1) =>
              if (b <? 128)%nat
              then (t <- decodeURI_list f r1 ;; Normal (ascii_of_nat b :: t))%js
              else if (194 <=? b)%nat && (b <=? 195)%nat then
                match percent_byte r1 with
                | Some (Some b2, r2) =>
                    if (128 <=? b2)%nat && (b2 <? 192)%nat
                    then (t <- decodeURI_list f r2 ;;
                          Normal (ascii_of_nat ((b - 192) * 64 + (b2 - 128)) :: t))%js
                    else Throw URIError
                | _ => Throw URIError
                end
              else Throw URIError
          end
      end
  end.

Definition decodeURIComponent_ref (s : string) : completion string :=
  (l <- decodeURI_list (S (String.length s)) (list_ascii_of_string s) ;;
   Normal (string_of_list_ascii l))%js.

(** *** [btoa], [atob] *)

Definition b64_alphabet : list ascii :=
  list_ascii_of_string
    "ABCDEFGHIJKLMNOPQRSTUVWXYZabcdefghijklmnopqrstuvwxyz0123456789+/".

Definition b64_char (n : nat) : ascii := nth n b64_alphabet "A".

Fixpoint b64_index_in (l : list ascii) (c : ascii) (i : Z) : option Z :=
  match l with
  | [] => None
  | x :: r => if Ascii.eqb x c then Some i else b64_index_in r c (i + 1)%Z
  end.
Definition b64_index (c : ascii) : option Z := b64_index_in b64_alphabet c 0%Z.

Definition codeZ (c : ascii) : Z := Z.of_N (N_of_ascii c).
Definition chr (z : Z) : ascii := ascii_of_N (Z.to_N z).
Definition b64_charZ (z : Z) : ascii := b64_char (Z.to_nat z).

Fixpoint btoa_list (fuel : nat) (s : list ascii) : list ascii :=
  match fuel with
  | O => []
  | S f =>
      match s with
      | [] => []
      | [a] =>
          let n := (codeZ a * 65536)%Z in
          [b64_charZ (n / 262144); b64_charZ (n / 4096 mod 64); "="; "="]
      | [a; b] =>
          let n := (codeZ a * 65536 + codeZ b * 256)%Z in
          [b64_charZ (n / 262144); b64_charZ (n / 4096 mod 64);
           b64_charZ (n / 64 mod 64); "="]
      | a :: b :: c :: r =>
          let n := (codeZ a * 65536 + codeZ b * 256 + codeZ c)%Z in
          b64_charZ (n / 262144) :: b64_charZ (n / 4096 mod 64)
          :: b64_charZ (n / 64 mod 64) :: b64_charZ (n mod 64) :: btoa_list f r
      end
  end.

Definition btoa_ref (s : string) : completion string :=
  Normal (string_of_list_ascii
            (btoa_list (S (String.length s)) (list_ascii_of_string s))).

Fixpoint atob_list (fuel : nat) (s : list Z) : completion (list ascii) :=
  match fuel with
  | O => Normal []
  | S f =>
      match s with
      | [] => Normal []
      | [_] => Throw InvalidCharacterError
      | [a; b] => Normal [chr ((a * 64 + b) / 16)]
      | [a; b; c] =>
          let n := (a * 4096 + b * 64 + c)%Z in
          Normal [chr (n / 1024); chr (n / 4 mod 256)]
      | a :: b :: c :: d :: r =>
          let n := (a * 262144 + b * 4096 + c * 64 + d)%Z in
          (t <- atob_list f r ;;
           Normal (chr (n / 65536) :: chr (n / 256 mod 256) :: chr (n mod 256) :: t))%js
      end
  end.

Fixpoint all_some {A} (l : list (option A)) : option (list A) :=
  match l with
  | [] => Some []
  | Some x :: r => option_map (cons x) (all_some r)
  | None :: _ => None
  end.

Definition strip_padding (s : list ascii) : list ascii :=
  if (List.length s mod 4 =? 0)%nat then
    match rev s with
    | "=" :: "=" :: r => rev r
    | "=" :: r => rev r
    | _ => s
    end
  else s.

Definition atob_ref (s : string) : completion string :=
  let bare := filter (fun c => negb (one_of (String "009" (String "010" (String "012"
                                     (String "013" (String " " EmptyString))))) c))
                     (list_ascii_of_string s) in
  match all_some (map b64_index (strip_padding bare)) with
  | None => Throw InvalidCharacterError
  | Some ns => (l <- atob_list (S (List.length ns)) ns ;;
                Normal (string_of_list_ascii l))%js
  end.

(** *** [JSON.stringify] *)

Fixpoint fraction_digits (fuel : nat) (r d : Z) : list ascii :=
  match fuel with
  | O => []
  | S f =>
      if (r =? 0)%Z then []
      else ascii_of_nat (48 + Z.to_nat (10 * r / d)) :: fraction_digits f ((10 * r) mod d) d
  end.

Definition number_text (q : Q) : string :=
  let q := Qred q in
  let n := Qnum q in
  let d := Z.pos (Qden q) in
  if (d =? 1)%Z then Z_toString n
  else
    ((if (n <? 0)%Z then "-" else EmptyString) ++ Z_toString (Z.abs n / d) ++ "."
     ++ string_of_list_ascii (fraction_digits 25 (Z.abs n mod d) d))%string.

Definition quote_char (c : ascii) : list ascii :=
  if Ascii.eqb c "034" then ["\"; "034"]
  else if Ascii.eqb c "\" then ["\"; "\"]
  else if (code c <? 32)%nat
       then ["\"; "u"; "0"; "0"; hex_digit (code c / 16); hex_digit (code c mod 16)]
       else [c].

Definition quote (s : string) : string :=
  (String "034" (string_of_list_ascii (flat_map quote_char (list_ascii_of_string s)))
   ++ String "034" EmptyString)%string.

Definition commas (parts : list string) : string := String.concat "," parts.

Fixpoint stringify (v : value) : string :=
  match v with
  | VUndefined | VNull | VNaN => "null"
  | VBool true => "true"
  | VBool false => "false"
  | VNum q => number_text q
  | VStr s => quote s
  | VArr xs => ("[" ++ commas (map stringify xs) ++ "]")%string
  | VObj o =>
      ("{" ++ commas
          ((fix members (o : list (string * value)) : list string :=
              match o with
              | [] => []
              | (_, VUndefined) :: r => members r
              | (k, x) :: r => (quote k ++ ":" ++ stringify x)%string :: members r
              end) o)
       ++ "}")%string
  end.

(** *** [JSON.parse] *)

Fixpoint skip_ws (s : list ascii) : list ascii :=
  match s with
  | c :: r => if one_of (String " " (String "009" (String "010" (String "013" EmptyString)))) c
              then skip_ws r else s
  | [] => []
  end.

Fixpoint take_digits (s : list ascii) : list ascii * list ascii :=
  match s with
  | c :: r => if is_digit c then let '(d, t) := take_digits r in (c :: d, t) else ([], s)
  | [] => ([], [])
  end.

Definition digits_value (d : list ascii) : Z :=
  fold_left (fun acc c => acc * 10 + Z.of_nat (code c - 48))%Z d 0%Z.

Definition parse_number (s : list ascii) : option (Q * list ascii) :=
  let '(neg, s1) := match s with "-" :: r => (true, r) | _ => (false, s) end in
  let '(int, s2) := take_digits s1 in
  match int with
  | [] => None
  | "0" :: _ :: _ => None
  | _ =>
      let frac_rest :=
        match s2 with
        | "." :: r => let '(f, t) := take_digits r in
                      match f with [] => None | _ => Some (f, t) end
        | _ => Some ([], s2)
        end in
      match frac_rest with
      | None => None
      | Some (frac, s3) =>
          let exp_rest :=
            match s3 with
            | c :: r =>
                if one_of "eE" c then
                  let '(eneg, r1) := match r with
                                     | "-" :: t => (true, t)
                                     | "+" :: t => (false, t)
                                     | _ => (false, r)
                                     end in
                  let '(e, t) := take_digits r1 in
                  match e with
                  | [] => None
                  | _ => Some (if eneg then (- digits_value e)%Z else digits_value e, t)
                  end
                else Some (0%Z, s3)
            | [] => Some (0%Z, s3)
            end in
          match exp_rest with
          | None => None
          | Some (e, s4) =>
              let m := digits_value (int ++ frac) in
              let scale := (e - Z.of_nat (List.length frac))%Z in
              let q := if (0 <=? scale)%Z
                       then inject_Z (m * 10 ^ scale)
                       else Qmake m (Z.to_pos (10 ^ (- scale))) in
              Some (Qred (if neg then Qopp q else q), s4)
          end
      end
  end.

Fixpoint parse_string (fuel : nat) (s : list ascii) : option (list ascii * list ascii) :=
  match fuel with
  | O => None
  | S f =>
      match s with
      | "034" :: r => Some ([], r)
      | "\" :: e :: r =>
          let plain c := option_map (fun '(t, u) => (c :: t, u)) (parse_string f r) in
          if Ascii.eqb e "u" then
            match r with
            | "0" :: "0" :: h :: l :: r' =>
                match hex_value h, hex_value l with
                | Some a, Some b =>
                    option_map (fun '(t, u) => (ascii_of_nat (16 * a + b) :: t, u))
                               (parse_string f r')
                | _, _ => None
                end
            | _ => None
            end
          else if one_of (String "\" (String "/" (String "034" EmptyString))) e then plain e
          else if Ascii.eqb e "n" then plain "010"
          else if Ascii.eqb e "t" then plain "009"
          else if Ascii.eqb e "r" then plain "013"
          else if Ascii.eqb e "b" then plain "008"
          else if Ascii.eqb e "f" then plain "012"
          else None
      | c :: r =>
          if (code c <? 32)%nat then None
          else option_map (fun '(t, u) => (c :: t, u)) (parse_string f r)
      | [] => None
      end
  end.

Inductive goal : Type :=
| AValue
| Elements (acc : list value)
| Members (acc : object).

Fixpoint starts_with (p s : list ascii) : option (list ascii) :=
  match p, s with
  | [], _ => Some s
  | a :: p', b :: s' => if Ascii.eqb a b then starts_with p' s' else None
  | _ :: _, [] => None
  end.

Fixpoint parse (fuel : nat) (g : goal) (s : list ascii) : option (value * list ascii) :=
  match fuel with
  | O => None
  | S f =>
      match g with
      | AValue =>
          match skip_ws s with
          | "{" :: r =>
              match skip_ws r with
              | "}" :: r' => Some (VObj [], r')
              | _ => parse f (Members []) r
              end
          | "[" :: r =>
              match skip_ws r with
              | "]" :: r' => Some (VArr [], r')
              | _ => parse f (Elements []) r
              end
          | "034" :: r =>
              option_map (fun '(t, u) => (VStr (string_of_list_ascii t), u))
                         (parse_string (S (List.length r)) r)
          | (_ :: _) as s' =>
              match starts_with (list_ascii_of_string "true") s',
                    starts_with (list_ascii_of_string "false") s',
                    starts_with (list_ascii_of_string "null") s' with
              | Some u, _, _ => Some (VBool true, u)
              | _, Some u, _ => Some (VBool false, u)
              | _, _, Some u => Some (VNull, u)
              | _, _, _ => option_map (fun '(q, u) => (VNum q, u)) (parse_number s')
              end
          | [] => None
          end
      | Elements acc =>
          match parse f AValue s with
          | Some (v, r) =>
              match skip_ws r with
              | "," :: r' => parse f (Elements (acc ++ [v])) r'
              | "]" :: r' => Some (VArr (acc ++ [v]), r')
              | _ => None
              end
          | None => None
          end
      | Members acc =>
          match skip_ws s with
          | "034" :: r =>
              match parse_string (S (List.length r)) r with
              | Some (k, r1) =>
                  match skip_ws r1 with
                  | ":" :: r2 =>
                      match parse f AValue r2 with
                      | Some (v, r3) =>
                          let acc' := obj_set acc (string_of_list_ascii k) v in
                          match skip_ws r3 with
                          | "," :: r4 => parse f (Members acc') r4
                          | "}" :: r4 => Some (VObj acc', r4)
                          | _ => None
                          end
                      | None => None
                      end
                  | _ => None
                  end
              | None => None
              end
          | _ => None
          end
      end
  end.

Definition JSON_parse_ref (s : string) : completion value :=
  let l := list_ascii_of_string s in
  match parse (2 * List.length l + 2) AValue l with
  | Some (v, r) => match skip_ws r with [] => Normal v | _ => Throw SyntaxError end
  | None => Throw SyntaxError
  end.

(** [Math.random()] of the reference host: a fixed sequence in [0, 1). *)
Definition random_ref (i : nat) : Q := Qmake 1 (Pos.of_succ_nat (S i)).

Definition host : Host :=
  {| JSON_stringify := stringify;
     JSON_parse := JSON_parse_ref;
     encodeURIComponent := encodeURIComponent_ref;
     decodeURIComponent := decodeURIComponent_ref;
     escape := escape_ref;
     unescape := unescape_ref;
     btoa := btoa_ref;
     atob := atob_ref;
     Math_random := random_ref |}.

(** No inherited member is modelled: the aliases and the keys of the
    tokens below name none. *)
Definition no_prototype (k : string) : option string := None.

End ReferenceHost.

(** ** Sample data *)

Module Demo.
Import JS Types.
Local Open Scope string_scope.

(** An engine that accepts 65536 arguments in a call. *)
Definition max_arguments : Z := 65536.

Definition preset : GeoConfig := {|
  showFrame := true; frameDoubleTop := false; frameSquareHeader := false;
  frameScale := 1; frameHeaderOffset := 0; frameTickLength := 10;
  frameStrokeWidth := 3 # 2; uiFontSize := 12; uiFont := "serif";
  overallScale := 1; mainScale := 1; petals := 12; petalSize := 17 # 20;
  petalRoundness := 1 # 2; lobeCount := 6; lobeRadius := 40;
  lobeType := sunflower; lobeDesign := seeds; designScale := 1;
  designOffset := 0; centerDesign := c_seeds; lobeOpacity := 1;
  centerOpacity := 1; geometryRotation := 0;
  dharmaExtrusionOut := 10; dharmaExtrusionSide := 5; dharmaStemWidth := 4;
  dharmaCapHeight := 6;
  ringInnerRadius := 20; stripeSep := 2; stripeStart := 1;
  hullValley := 3 # 10; hullCoverage := 9 # 10; sequenceLength := 4;
  shellScale := 1; shellStroke := 2; ringStroke := 1; stripeStroke := 1 |}.

(** An edited configuration: some fields changed, one of them to a value
    that rounding alters (1/3), one within 1e-4 of an integer. *)
Definition config : GeoConfig := {|
  showFrame := false; frameDoubleTop := false; frameSquareHeader := false;
  frameScale := 1; frameHeaderOffset := 0; frameTickLength := 10;
  frameStrokeWidth := 3 # 2; uiFontSize := 12; uiFont := "mono";
  overallScale := 1; mainScale := 1; petals := 12; petalSize := 1 # 3;
  petalRoundness := 1 # 2; lobeCount := 6; lobeRadius := 40;
  lobeType := lotus; lobeDesign := seeds; designScale := 1;
  designOffset := 0; centerDesign := c_uranus; lobeOpacity := 1;
  centerOpacity := 1; geometryRotation := 899999 # 10000;
  dharmaExtrusionOut := 10; dharmaExtrusionSide := 5; dharmaStemWidth := 4;
  dharmaCapHeight := 6;
  ringInnerRadius := 20; stripeSep := 2; stripeStart := 1;
  hullValley := 3 # 10; hullCoverage := 9 # 10; sequenceLength := 4;
  shellScale := 1; shellStroke := 2; ringStroke := 1; stripeStroke := 1 |}.

Definition card (i : Z) (n : string) (d : list Z) (g : GeoConfig) : Sequence :=
  {| id := i; name := n; description := None; data := d; geoConfig := g |}.

Definition cards : list Sequence :=
  [ card 1 "One" [0; 1; 0; 3] preset;
    card 2 "Two" [9; 8; 7; 6] config;
    card 3 "Three" [1; 2; 3; 4] config ].

Definition state : Sequencer.State :=
  {| Sequencer.sequences := cards;
     Sequencer.activeIndex := 1;
     Sequencer.isPlaying := true;
     Sequencer.timingMs := 1500 |}.

(** The token [compressConfig] makes of [config] and [cards] with a
    timing of 1500 ms. *)
Definition token : string :=
  "eyJ2Ijo0LCJ0IjoxNTAwLCJHIjp7ImEiOmZhbHNlLCJqIjowLjMzMywibiI6ImxvdHVzIiwiSyI6InVyYW51cyIsIlIiOjkwLCJDIjoibW9ubyJ9LCJzIjpbeyJpIjoxLCJuIjoiT25lIiwiRCI6IjAxMDMiLCJnIjp7ImEiOnRydWUsImoiOjAuODUsIm4iOiJzdW5mbG93ZXIiLCJLIjoic2VlZHMiLCJSIjowLCJDIjoic2VyaWYifX0seyJpIjoyLCJuIjoiVHdvIiwiRCI6Ijk4NzYifSx7ImkiOjMsIm4iOiJUaHJlZSIsIkQiOiIxMjM0In1dfQ==".

(** The token [compressConfig] makes of the second card alone, under its
    own geometry. *)
Definition cardToken : string :=
  "eyJ2Ijo0LCJ0IjoxNTAwLCJHIjp7ImEiOmZhbHNlLCJqIjowLjMzMywibiI6ImxvdHVzIiwiSyI6InVyYW51cyIsIlIiOjkwLCJDIjoibW9ubyJ9LCJzIjpbeyJpIjoyLCJuIjoiVHdvIiwiRCI6Ijk4NzYifV19".

(** A version 1 token: one global geometry, the data of the sequences as
    an array and as a string of digits. *)
Definition legacyToken : string :=
  "eyJ2IjoxLCJnIjp7ImEiOmZhbHNlLCJqIjowLjV9LCJzIjpbeyJpIjoxLCJuIjoiQSIsIkQiOlsxLDJdfSx7ImkiOjIsIm4iOiJCIiwiRCI6IjM0In1dfQ==".

(** The signature, an IHDR chunk of a 1 x 1 image, and the IEND chunk. *)
Definition minimalPng : Png.bytes :=
  map Png.byte_of_Z
      ([137; 80; 78; 71; 13; 10; 26; 10]
       ++ [0; 0; 0; 13; 73; 72; 68; 82; 0; 0; 0; 1; 0; 0; 0; 1; 8; 6; 0; 0; 0;
           31; 21; 196; 137]
       ++ [0; 0; 0; 0; 73; 69; 78; 68; 174; 66; 96; 130]).

(** A host on which the user cancels during the first scene. *)
Definition cancelWorld : VideoExport.World :=
  {| VideoExport.createEncodingConfig := Normal tt;
     VideoExport.output_start := Normal tt;
     VideoExport.signal_aborted := fun j => (1 <=? j)%Z;
     VideoExport.output_cancel := Normal tt;
     VideoExport.renderFrame := fun _ => Normal tt;
     VideoExport.canvasSource_add := fun _ => Normal tt;
     VideoExport.output_finalize := Normal tt;
     VideoExport.target_buffer := true |}.

(** A host on which every call succeeds and nobody cancels. *)
Definition quietWorld : VideoExport.World :=
  {| VideoExport.createEncodingConfig := Normal tt;
     VideoExport.output_start := Normal tt;
     VideoExport.signal_aborted := fun _ => false;
     VideoExport.output_cancel := Normal tt;
     VideoExport.renderFrame := fun _ => Normal tt;
     VideoExport.canvasSource_add := fun _ => Normal tt;
     VideoExport.output_finalize := Normal tt;
     VideoExport.target_buffer := true |}.

End Demo.

(* ===================================================================== *)
(** * Part II: properties                                                 *)
(* ===================================================================== *)

(** ** Binary64 arithmetic *)

Module Float64Facts.
Import JS Float64.
Local Open Scope Q_scope.

Lemma pow2_pos (e : Z) : 0 < 2 ^ e.
Proof. apply Qpower_0_lt. reflexivity. Qed.

Lemma pow2_plus (a b : Z) : 2 ^ (a + b) == 2 ^ a * 2 ^ b.
Proof. apply Qpower_plus. discriminate. Qed.

Lemma pow2_le (a b : Z) : (a <= b)%Z -> 2 ^ a <= 2 ^ b.
Proof. intros H. apply Qpower_le_compat_l; [exact H|]. discriminate. Qed.

Lemma pow2_succ (a : Z) : 2 ^ (a + 1) == 2 * 2 ^ a.
Proof. rewrite pow2_plus. change (2 ^ 1) with 2. ring. Qed.

Lemma pow2_inject (a : Z) : (0 <= a)%Z -> inject_Z (2 ^ a) == 2 ^ a.
Proof. intros H. apply (Zpower_Qpower 2 a H). Qed.

Lemma Qmake_times_den (n : Z) (d : positive) : (n # d) * inject_Z (Zpos d) == inject_Z n.
Proof. unfold Qeq, Qmult, inject_Z. cbn. lia. Qed.

(** [ilog2] is the binary exponent: [2^(ilog2 x) <= |x| < 2^(ilog2 x + 1)]. *)
Lemma ilog2_spec (x : Q) : ~ x == 0 -> 2 ^ ilog2 x <= Qabs x /\ Qabs x < 2 ^ (ilog2 x + 1).
Proof.
  intros Hx. destruct x as [n d].
  assert (Hn : (0 < Z.abs n)%Z).
  { destruct (Z.eq_dec n 0) as [->|]; [exfalso; apply Hx; reflexivity|lia]. }
  unfold ilog2. cbn [Qnum Qden Qabs].
  set (N := Z.abs n) in *. set (a := Z.log2 N). set (b := Z.log2 (Zpos d)).
  pose proof (Z.log2_spec N Hn) as [Na Nb]. fold a in Na, Nb.
  pose proof (Z.log2_spec (Zpos d) eq_refl) as [Da Db]. fold b in Da, Db.
  assert (a0 : (0 <= a)%Z) by apply Z.log2_nonneg.
  assert (b0 : (0 <= b)%Z) by apply Z.log2_nonneg.
  pose proof (Qmake_times_den N d) as E.
  assert (QNa : 2 ^ a <= inject_Z N).
  { rewrite <- pow2_inject by exact a0. rewrite <- Zle_Qle. exact Na. }
  assert (QNb : inject_Z N < 2 ^ (a + 1)).
  { rewrite <- pow2_inject by lia. rewrite <- Zlt_Qlt. exact Nb. }
  assert (QDa : 2 ^ b <= inject_Z (Zpos d)).
  { rewrite <- pow2_inject by exact b0. rewrite <- Zle_Qle. exact Da. }
  assert (QDb : inject_Z (Zpos d) < 2 ^ (b + 1)).
  { rewrite <- pow2_inject by lia. rewrite <- Zlt_Qlt. exact Db. }
  assert (Dpos : 0 < inject_Z (Zpos d)) by reflexivity.
  assert (Xpos : 0 < N # d) by (unfold Qlt; cbn; lia).
  (* the two outer bounds *)
  assert (Up : (N # d) < 2 ^ (a - b + 1)).
  { apply (Qmult_lt_r _ _ (inject_Z (Zpos d)) Dpos). rewrite E.
    apply Qlt_le_trans with (1 := QNb).
    replace (a + 1)%Z with ((a - b + 1) + b)%Z by lia. rewrite pow2_plus.
    apply Qmult_le_l; [apply pow2_pos|exact QDa]. }
  assert (Lo : 2 ^ (a - b - 1) < (N # d)).
  { apply (Qmult_lt_r _ _ (inject_Z (Zpos d)) Dpos). rewrite E.
    apply Qlt_le_trans with (2 := QNa).
    replace a with ((a - b - 1) + (b + 1))%Z at 2 by lia. rewrite pow2_plus.
    apply Qmult_lt_l; [apply pow2_pos|exact QDb]. }
  destruct (Qle_bool (2 ^ (a - b)) (N # d)) eqn:C.
  - apply Qle_bool_iff in C. split; [exact C|exact Up].
  - split; [apply Qlt_le_weak; exact Lo|].
    replace (a - b - 1 + 1)%Z with (a - b)%Z by lia.
    apply Qnot_le_lt. intros H. apply Qle_bool_iff in H. congruence.
Qed.


Lemma nearest_even_error (x : Q) : Qabs (inject_Z (nearest_even x) - x) <= 1 # 2.
Proof.
  unfold nearest_even. pose proof (Qfloor_le x) as L. pose proof (Qlt_floor x) as U.
  rewrite inject_Z_plus in U. change (inject_Z 1) with 1 in U.
  set (f := Qfloor x) in *. clearbody f.
  apply Qabs_Qle_condition.
  destruct (Qcompare_spec (x - inject_Z f) (1 # 2)) as [E|E|E].
  - destruct (Z.even f); [|rewrite inject_Z_plus; change (inject_Z 1) with 1]; lra.
  - lra.
  - rewrite inject_Z_plus. change (inject_Z 1) with 1. lra.
Qed.

Lemma nearest_even_Z (z : Z) : nearest_even (inject_Z z) = z.
Proof.
  unfold nearest_even. rewrite Qfloor_Z.
  destruct (Qcompare_spec (inject_Z z - inject_Z z) (1 # 2)) as [E|E|E]; [lra|reflexivity|lra].
Qed.

Lemma nearest_even_comp (x y : Q) : x == y -> nearest_even x = nearest_even y.
Proof.
  intros E. unfold nearest_even. rewrite (Qfloor_comp x y E).
  assert (C : (x - inject_Z (Qfloor y) ?= 1 # 2) = (y - inject_Z (Qfloor y) ?= 1 # 2)).
  { apply Qcompare_comp; [rewrite E|]; reflexivity. }
  rewrite C. reflexivity.
Qed.

Lemma nearest_even_nonneg (x : Q) : 0 <= x -> (0 <= nearest_even x)%Z.
Proof.
  intros H. unfold nearest_even.
  assert (F : (0 <= Qfloor x)%Z).
  { change 0%Z with (Qfloor 0). apply Qfloor_resp_le. exact H. }
  destruct (x - inject_Z (Qfloor x) ?= 1 # 2); [destruct (Z.even (Qfloor x))| |]; lia.
Qed.

Lemma nearest_even_mono (x y : Q) : x <= y -> (nearest_even x <= nearest_even y)%Z.
Proof.
  intros H. pose proof (Qfloor_resp_le x y H) as F.
  unfold nearest_even.
  set (f := Qfloor x) in *. set (g := Qfloor y) in *.
  destruct (Z.eq_dec f g) as [E|N].
  - rewrite <- E.
    destruct (Qcompare_spec (x - inject_Z f) (1 # 2)) as [A|A|A];
    destruct (Qcompare_spec (y - inject_Z f) (1 # 2)) as [B|B|B];
    try destruct (Z.even f); try lia; lra.
  - assert (f + 1 <= g)%Z by lia.
    destruct (x - inject_Z f ?= 1 # 2); destruct (y - inject_Z g ?= 1 # 2);
    try destruct (Z.even f); try destruct (Z.even g); lia.
Qed.

Lemma quantum_pos (x : Q) : 0 < quantum x.
Proof. apply pow2_pos. Qed.

Lemma b64_zero (x : Q) : x == 0 -> b64 x = 0.
Proof. intros H. unfold b64. apply Qeq_bool_iff in H. rewrite H. reflexivity. Qed.

Lemma b64_nonzero (x : Q) :
  ~ x == 0 -> b64 x == inject_Z (nearest_even (x / quantum x)) * quantum x.
Proof.
  intros H. unfold b64. destruct (Qeq_bool x 0) eqn:E.
  - apply Qeq_bool_iff in E. contradiction.
  - apply Qred_correct.
Qed.

(** The rounding error is at most half a quantum. *)
Lemma b64_error (x : Q) : Qabs (b64 x - x) <= quantum x * (1 # 2).
Proof.
  pose proof (quantum_pos x) as P.
  destruct (Qeq_dec x 0) as [Z0|NZ].
  - rewrite (b64_zero x Z0). apply Qabs_Qle_condition. lra.
  - rewrite (b64_nonzero x NZ).
    pose proof (nearest_even_error (x / quantum x)) as E.
    set (m := inject_Z (nearest_even (x / quantum x))) in *. clearbody m.
    set (q := quantum x) in *. clearbody q.
    assert (X : m * q - x == (m - x / q) * q) by (field; lra).
    rewrite X, Qabs_Qmult, (Qabs_pos q) by lra.
    rewrite (Qmult_comm q). apply Qmult_le_compat_r; lra.
Qed.


Lemma ilog2_ge (x : Q) (k : Z) : 2 ^ k <= Qabs x -> (k <= ilog2 x)%Z.
Proof.
  intros H.
  assert (NZ : ~ x == 0).
  { intros E. rewrite E in H. pose proof (pow2_pos k). cbn in H. lra. }
  destruct (ilog2_spec x NZ) as [_ U].
  assert (L : 2 ^ k < 2 ^ (ilog2 x + 1)) by lra.
  apply Qpower_lt_compat_l_inv in L; [lia|reflexivity].
Qed.

Lemma ilog2_lt (x : Q) (k : Z) : ~ x == 0 -> Qabs x < 2 ^ k -> (ilog2 x < k)%Z.
Proof.
  intros NZ H. destruct (ilog2_spec x NZ) as [L _].
  assert (L' : 2 ^ ilog2 x < 2 ^ k) by lra.
  apply Qpower_lt_compat_l_inv in L'; [lia|reflexivity].
Qed.

(** In the normal range the error is at most [2^-53] of the number. *)
Lemma b64_relative (x : Q) :
  2 ^ (-1022) <= Qabs x -> Qabs (b64 x - x) <= Qabs x * unit_roundoff.
Proof.
  intros H. pose proof (ilog2_ge x _ H) as G.
  assert (NZ : ~ x == 0).
  { intros E. rewrite E in H. revert H. apply Qlt_not_le. reflexivity. }
  destruct (ilog2_spec x NZ) as [L _].
  apply Qle_trans with (1 := b64_error x).
  unfold quantum, emin. rewrite Z.max_l by lia.
  replace (ilog2 x - 52)%Z with (ilog2 x + (-53) + 1)%Z by lia.
  rewrite pow2_succ, pow2_plus. fold unit_roundoff.
  assert (U : 0 < unit_roundoff) by apply pow2_pos.
  set (u := unit_roundoff) in *. clearbody u.
  assert (2 ^ ilog2 x * u <= Qabs x * u) by (apply Qmult_le_compat_r; lra).
  lra.
Qed.

Lemma b64_nonneg (x : Q) : 0 <= x -> 0 <= b64 x.
Proof.
  intros H. destruct (Qeq_dec x 0) as [Z0|NZ].
  - rewrite (b64_zero x Z0). lra.
  - rewrite (b64_nonzero x NZ). pose proof (quantum_pos x) as P.
    apply Qmult_le_0_compat; [|lra].
    change 0 with (inject_Z 0). rewrite <- Zle_Qle. apply nearest_even_nonneg.
    apply Qle_shift_div_l; [exact P|lra].
Qed.

Lemma b64_nonpos (x : Q) : x <= 0 -> b64 x <= 0.
Proof.
  intros H. destruct (Qeq_dec x 0) as [Z0|NZ].
  - rewrite (b64_zero x Z0). lra.
  - rewrite (b64_nonzero x NZ). pose proof (quantum_pos x) as P.
    assert (M : (nearest_even (x / quantum x) <= 0)%Z).
    { rewrite <- (nearest_even_Z 0). apply nearest_even_mono.
      apply Qle_shift_div_r; [exact P|]. change (inject_Z 0) with 0. lra. }
    rewrite Zle_Qle in M. change (inject_Z 0) with 0 in M.
    set (m := inject_Z _) in *. clearbody m.
    setoid_replace 0 with (0 * quantum x) by ring.
    apply Qmult_le_compat_r; lra.
Qed.

(** A multiple of its quantum is not rounded. *)
Lemma b64_exact (x : Q) (m : Z) : x == inject_Z m * quantum x -> b64 x == x.
Proof.
  intros E. destruct (Qeq_dec x 0) as [Z0|NZ].
  - rewrite (b64_zero x Z0), Z0. reflexivity.
  - rewrite (b64_nonzero x NZ). pose proof (quantum_pos x) as P.
    assert (D : x / quantum x == inject_Z m).
    { rewrite E at 1. field. lra. }
    rewrite (nearest_even_comp _ _ D), nearest_even_Z. symmetry. exact E.
Qed.

Lemma Qabs_inject_Z (z : Z) : Qabs (inject_Z z) = inject_Z (Z.abs z).
Proof. reflexivity. Qed.

(** Integers up to [2^53] are binary64 numbers. *)
Lemma b64_safe_integer (z : Z) : (Z.abs z <= 2 ^ 53)%Z -> b64 (inject_Z z) == inject_Z z.
Proof.
  intros H. destruct (Z.eq_dec z 0) as [->|NZ]; [reflexivity|].
  assert (NQ : ~ inject_Z z == 0).
  { intros E. apply NZ. change 0 with (inject_Z 0) in E.
    apply (proj1 (inject_Z_injective z 0)) in E. exact E. }
  assert (L : (0 <= ilog2 (inject_Z z))%Z).
  { apply ilog2_ge. rewrite Qabs_inject_Z. change (2 ^ 0) with (inject_Z 1).
    rewrite <- Zle_Qle. lia. }
  assert (U : (ilog2 (inject_Z z) < 54)%Z).
  { apply ilog2_lt; [exact NQ|]. rewrite Qabs_inject_Z.
    rewrite <- pow2_inject by lia. rewrite <- Zlt_Qlt. lia. }
  set (k := ilog2 (inject_Z z)) in *.
  destruct (Z.eq_dec k 53) as [K|K].
  - (* |z| = 2^53 *)
    assert (A : (2 ^ 53 <= Z.abs z)%Z).
    { destruct (ilog2_spec _ NQ) as [Lo _]. fold k in Lo. rewrite K in Lo.
      rewrite Qabs_inject_Z in Lo. rewrite <- pow2_inject in Lo by lia.
      rewrite <- Zle_Qle in Lo. exact Lo. }
    apply (b64_exact _ (z / 2)). unfold quantum, emin. fold k. rewrite K.
    change (2 ^ Z.max (53 - 52) (-1074)) with (inject_Z 2).
    rewrite <- inject_Z_mult. apply inject_Z_injective.
    assert (E : (Z.abs z = 2 ^ 53)%Z) by lia.
    destruct (Z.abs_eq_or_opp z) as [Q|Q]; rewrite Q in E.
    + rewrite E. reflexivity.
    + assert (z = - 2 ^ 53)%Z by lia. subst z. reflexivity.
  - apply (b64_exact _ (z * 2 ^ (52 - k))). unfold quantum, emin. fold k.
    rewrite Z.max_l by lia. rewrite inject_Z_mult, pow2_inject by lia.
    rewrite <- Qmult_assoc, <- pow2_plus.
    replace (52 - k + (k - 52))%Z with 0%Z by lia. change (2 ^ 0) with 1. ring.
Qed.


Lemma Qfloor_between (y : Q) (g : Z) : inject_Z g <= y -> y < inject_Z g + 1 -> Qfloor y = g.
Proof.
  intros L U. pose proof (Qfloor_le y) as A. pose proof (Qlt_floor y) as B.
  rewrite inject_Z_plus in B. change (inject_Z 1) with 1 in B.
  assert (C : inject_Z g < inject_Z (Qfloor y) + 1) by lra.
  assert (D : inject_Z (Qfloor y) < inject_Z g + 1) by lra.
  change 1 with (inject_Z 1) in C, D. rewrite <- inject_Z_plus in C, D.
  rewrite <- Zlt_Qlt in C, D. lia.
Qed.

Lemma nearest_even_opp (x : Q) : nearest_even (- x) = (- nearest_even x)%Z.
Proof.
  pose proof (Qfloor_le x) as A. pose proof (Qlt_floor x) as B.
  rewrite inject_Z_plus in B. change (inject_Z 1) with 1 in B.
  unfold nearest_even. set (f := Qfloor x) in *. clearbody f.
  destruct (Qeq_dec x (inject_Z f)) as [I|NI].
  - (* an integer *)
    assert (F : Qfloor (- x) = (- f)%Z).
    { apply Qfloor_between; rewrite inject_Z_opp; lra. }
    rewrite F.
    destruct (Qcompare_spec (x - inject_Z f) (1 # 2)) as [E|E|E]; [lra| |lra].
    destruct (Qcompare_spec (- x - inject_Z (- f)) (1 # 2)) as [G|G|G];
      rewrite inject_Z_opp in G; [lra|reflexivity|lra].
  - assert (F : Qfloor (- x) = (- f - 1)%Z).
    { apply Qfloor_between; unfold Z.sub; rewrite inject_Z_plus, inject_Z_opp;
        change (inject_Z (- (1))) with (- (1)); lra. }
    rewrite F.
    assert (J : inject_Z (- f - 1) == - inject_Z f - 1).
    { unfold Z.sub. rewrite inject_Z_plus, inject_Z_opp. reflexivity. }
    destruct (Qcompare_spec (x - inject_Z f) (1 # 2)) as [E|E|E];
    destruct (Qcompare_spec (- x - inject_Z (- f - 1)) (1 # 2)) as [G|G|G];
      rewrite J in G; try lra; try lia.
    replace (- f - 1)%Z with (- (f + 1))%Z by lia.
    rewrite Z.even_opp, Z.even_add. change (Z.even 1) with false.
    destruct (Z.even f); cbn; lia.
Qed.

Lemma ilog2_opp (x : Q) : ilog2 (- x) = ilog2 x.
Proof.
  unfold ilog2. destruct x as [n d]. cbn [Qopp Qnum Qden Qabs].
  rewrite Z.abs_opp. reflexivity.
Qed.

Lemma b64_opp (x : Q) : b64 (- x) == - b64 x.
Proof.
  destruct (Qeq_dec x 0) as [Z0|NZ].
  - rewrite (b64_zero x Z0), (b64_zero (- x)); [reflexivity|lra].
  - rewrite (b64_nonzero x NZ), b64_nonzero by lra.
    unfold quantum. rewrite ilog2_opp.
    set (q := 2 ^ _). assert (P : 0 < q) by apply pow2_pos.
    assert (E : - x / q == - (x / q)) by (field; lra).
    rewrite (nearest_even_comp _ _ E), nearest_even_opp, inject_Z_opp. ring.
Qed.

Lemma ilog2_unique (x : Q) (k : Z) : 2 ^ k <= Qabs x -> Qabs x < 2 ^ (k + 1) -> ilog2 x = k.
Proof.
  intros L U. pose proof (ilog2_ge x k L) as A.
  assert (NZ : ~ x == 0).
  { intros E. rewrite E in L. pose proof (pow2_pos k). cbn in L. lra. }
  pose proof (ilog2_lt x _ NZ U). lia.
Qed.

Lemma b64_mono_pos (x y : Q) : 0 < x -> x <= y -> b64 x <= b64 y.
Proof.
  intros X H.
  assert (NX : ~ x == 0) by lra. assert (NY : ~ y == 0) by lra.
  destruct (ilog2_spec x NX) as [Lx Ux]. destruct (ilog2_spec y NY) as [Ly Uy].
  rewrite Qabs_pos in Lx, Ux, Ly, Uy by lra.
  assert (K : (ilog2 x <= ilog2 y)%Z).
  { apply ilog2_ge. rewrite Qabs_pos by lra. lra. }
  rewrite (b64_nonzero x NX), (b64_nonzero y NY). unfold quantum.
  set (kx := ilog2 x) in *. set (ky := ilog2 y) in *.
  set (ex := Z.max (kx - 52) emin). set (ey := Z.max (ky - 52) emin).
  pose proof (pow2_pos ex) as Px. pose proof (pow2_pos ey) as Py.
  destruct (Z.eq_dec ex ey) as [E|N].
  - rewrite <- E. apply Qmult_le_compat_r; [|lra].
    rewrite <- Zle_Qle. apply nearest_even_mono.
    apply Qle_shift_div_l; [exact Px|].
    setoid_replace (x / 2 ^ ex * 2 ^ ex) with x by (field; lra). exact H.
  - assert (S1 : (ex < ey)%Z) by (unfold ex, ey, emin in *; lia).
    assert (S2 : (ey = ky - 52)%Z) by (unfold ex, ey, emin in *; lia).
    assert (S3 : (kx - 52 <= ex)%Z) by (unfold ex; lia).
    (* [b64 x <= 2^(ex+53) <= 2^ky <= b64 y] *)
    apply Qle_trans with (2 ^ (ex + 53)).
    + rewrite (Z.add_comm ex), pow2_plus. apply Qmult_le_compat_r; [|lra].
      rewrite <- (pow2_inject 53) by lia. rewrite <- Zle_Qle.
      rewrite <- (nearest_even_Z (2 ^ 53)). apply nearest_even_mono.
      rewrite pow2_inject by lia.
      apply Qle_shift_div_r; [exact Px|]. rewrite <- pow2_plus.
      apply Qle_trans with (2 ^ (kx + 1)); [lra|apply pow2_le; lia].
    + apply Qle_trans with (2 ^ ky); [apply pow2_le; lia|].
      replace ky with (52 + ey)%Z at 1 by lia. rewrite pow2_plus.
      apply Qmult_le_compat_r; [|lra].
      rewrite <- (pow2_inject 52) by lia. rewrite <- Zle_Qle.
      rewrite <- (nearest_even_Z (2 ^ 52)). apply nearest_even_mono.
      rewrite pow2_inject by lia.
      apply Qle_shift_div_l; [exact Py|]. rewrite <- pow2_plus.
      replace (52 + ey)%Z with ky by lia. exact Ly.
Qed.

(** Rounding keeps the order. *)
Lemma b64_mono (x y : Q) : x <= y -> b64 x <= b64 y.
Proof.
  intros H. destruct (Qlt_le_dec 0 x) as [X|X].
  - apply b64_mono_pos; assumption.
  - destruct (Qlt_le_dec y 0) as [Y|Y].
    + assert (A : b64 (- y) <= b64 (- x)) by (apply b64_mono_pos; lra).
      rewrite !b64_opp in A. lra.
    + pose proof (b64_nonpos x X). pose proof (b64_nonneg y Y). lra.
Qed.

Lemma ilog2_comp (x y : Q) : ~ x == 0 -> x == y -> ilog2 x = ilog2 y.
Proof.
  intros NZ E. destruct (ilog2_spec x NZ) as [L U]. symmetry.
  apply ilog2_unique; now rewrite <- E.
Qed.

(** Equal numbers are rounded to the same fraction. *)
Lemma b64_comp (x y : Q) : x == y -> b64 x = b64 y.
Proof.
  intros E. unfold b64.
  destruct (Qeq_bool x 0) eqn:X; destruct (Qeq_bool y 0) eqn:Y.
  - reflexivity.
  - apply Qeq_bool_iff in X. rewrite E in X. apply Qeq_bool_iff in X. congruence.
  - apply Qeq_bool_iff in Y. rewrite <- E in Y. apply Qeq_bool_iff in Y. congruence.
  - assert (NZ : ~ x == 0) by (intros C; apply Qeq_bool_iff in C; congruence).
    apply Qred_complete. unfold quantum. rewrite (ilog2_comp x y NZ E).
    set (q := 2 ^ _). assert (P : 0 < q) by apply pow2_pos.
    assert (D : x / q == y / q) by (now rewrite E).
    now rewrite (nearest_even_comp _ _ D).
Qed.

(** Everywhere, the error is at most [2^-53] of the number, or [2^-1075]
    below the normal range. *)
Lemma b64_error_any (x : Q) :
  Qabs (b64 x - x) <= Qabs x * unit_roundoff + 2 ^ (-1075).
Proof.
  assert (U : 0 < unit_roundoff) by apply pow2_pos.
  pose proof (pow2_pos (-1075)) as P.
  pose proof (Qabs_nonneg x) as A.
  destruct (Qeq_dec x 0) as [Z0|NZ].
  { rewrite (b64_zero x Z0).
    assert (E : Qabs (0 - x) <= 0) by (apply Qabs_Qle_condition; lra).
    set (a := Qabs x) in *. clearbody a. set (u := unit_roundoff) in *. clearbody u.
    set (p := 2 ^ (-1075)) in *. clearbody p.
    assert (0 <= a * u) by (apply Qmult_le_0_compat; lra). lra. }
  destruct (Qlt_le_dec (Qabs x) (2 ^ (-1022))) as [S|N].
  - apply Qle_trans with (1 := b64_error x).
    pose proof (ilog2_lt x _ NZ S) as I.
    unfold quantum, emin. rewrite Z.max_r by lia.
    replace (-1074)%Z with (-1075 + 1)%Z by lia. rewrite pow2_succ.
    set (a := Qabs x) in *. clearbody a. set (u := unit_roundoff) in *. clearbody u.
    set (p := 2 ^ (-1075)) in *. clearbody p.
    assert (0 <= a * u) by (apply Qmult_le_0_compat; lra). lra.
  - pose proof (b64_relative x N). lra.
Qed.

Lemma b64_integer (z : Z) : exists z', b64 (inject_Z z) == inject_Z z'.
Proof.
  destruct (Z_le_gt_dec (Z.abs z) (2 ^ 53)) as [S|L].
  - exists z. apply b64_safe_integer. exact S.
  - assert (NZ : ~ inject_Z z == 0).
    { intros E. change 0 with (inject_Z 0) in E.
      apply (proj1 (inject_Z_injective z 0)) in E. subst z. cbn in L. lia. }
    assert (K : (53 <= ilog2 (inject_Z z))%Z).
    { apply ilog2_ge. rewrite Qabs_inject_Z, <- pow2_inject by lia.
      rewrite <- Zle_Qle. lia. }
    exists (nearest_even (inject_Z z / quantum (inject_Z z))
            * 2 ^ (ilog2 (inject_Z z) - 52))%Z.
    rewrite (b64_nonzero _ NZ), inject_Z_mult, pow2_inject by lia.
    unfold quantum, emin. rewrite Z.max_l by lia. reflexivity.
Qed.

(** Sums of integers that stay within [2^53] are exact. *)
Lemma add_Z_exact (a b : Z) : (Z.abs (a + b) <= 2 ^ 53)%Z -> add_Z a b = (a + b)%Z.
Proof.
  intros H. unfold add_Z, add. rewrite <- inject_Z_plus.
  rewrite (Qfloor_comp _ _ (b64_safe_integer _ H)). apply Qfloor_Z.
Qed.

Lemma Qabs_le_split (x y e : Q) : Qabs (x - y) <= e -> y - e <= x <= y + e.
Proof. intros H. apply Qabs_Qle_condition in H. lra. Qed.

(** What the induction on the clock needs: with [a = k d] and
    [b = k^2 d], one more addition keeps the clock within the bound. *)
Lemma running_sum_step (d t a b : Q) :
  2 ^ (-1022) <= d -> 0 <= a -> 0 <= b -> b <= inject_Z (2 ^ 32) * a ->
  a <= inject_Z (2 ^ 32) * d ->
  a - (b + a) * unit_roundoff <= t <= a + (b + a) * unit_roundoff ->
  Qabs (b64 (t + d) - (a + d)) <= (b + 3 * a + 2 * d) * unit_roundoff /\
  t < b64 (t + d).
Proof.
  intros D A B BA AD T.
  assert (U : unit_roundoff == 1 # 9007199254740992) by reflexivity.
  pose proof (pow2_pos (-1022)) as P.
  change (inject_Z (2 ^ 32)) with (4294967296 # 1) in BA, AD.
  rewrite U in T |- *.
  assert (X : 2 ^ (-1022) <= Qabs (t + d)).
  { set (p := 2 ^ (-1022)) in *. clearbody p. rewrite Qabs_pos; lra. }
  pose proof (b64_relative _ X) as R. rewrite U in R.
  set (p := 2 ^ (-1022)) in *. clearbody p.
  assert (E : Qabs (t + d) == t + d) by (apply Qabs_pos; lra).
  rewrite E in R. apply Qabs_Qle_condition in R.
  set (y := b64 (t + d)) in *. clearbody y.
  split; [apply Qabs_Qle_condition|]; lra.
Qed.

(** The clock after [k] additions of a step [d] in the normal range is
    within [k (k+1) 2^-53 d] of [k d]. *)
Lemma running_sum_error (d : Q) (k : nat) :
  2 ^ (-1022) <= d -> (Z.of_nat k <= 2 ^ 32)%Z ->
  Qabs (running_sum d k - inject_Z (Z.of_nat k) * d)
  <= inject_Z (Z.of_nat k) * (inject_Z (Z.of_nat k) + 1) * unit_roundoff * d.
Proof.
  intros D. assert (D0 : 0 < d).
  { pose proof (pow2_pos (-1022)) as P. set (p := 2 ^ (-1022)) in *. clearbody p. lra. }
  induction k as [|k IH]; intros B.
  - cbn [running_sum]. change (inject_Z (Z.of_nat 0)) with 0.
    apply Qabs_Qle_condition. set (u := unit_roundoff). clearbody u. lra.
  - assert (B' : (Z.of_nat k <= 2 ^ 32)%Z) by lia. specialize (IH B').
    cbn [running_sum]. unfold add.
    rewrite Nat2Z.inj_succ. unfold Z.succ. rewrite inject_Z_plus.
    change (inject_Z 1) with 1.
    assert (K0 : 0 <= inject_Z (Z.of_nat k)).
    { change 0 with (inject_Z 0). rewrite <- Zle_Qle. lia. }
    assert (K1 : inject_Z (Z.of_nat k) <= inject_Z (2 ^ 32)) by (rewrite <- Zle_Qle; exact B').
    set (K := inject_Z (Z.of_nat k)) in *. clearbody K.
    set (t := running_sum d k) in *. clearbody t.
    apply Qabs_Qle_condition in IH.
    destruct (running_sum_step d t (K * d) (K * K * d)) as [E _]; try assumption.
    + apply Qmult_le_0_compat; lra.
    + repeat apply Qmult_le_0_compat; lra.
    + setoid_replace (K * K * d) with (K * (K * d)) by ring.
      apply Qmult_le_compat_r; [exact K1|]. apply Qmult_le_0_compat; lra.
    + apply Qmult_le_compat_r; lra.
    + setoid_replace ((K * K * d + K * d) * unit_roundoff)
        with (K * (K + 1) * unit_roundoff * d) by ring. lra.
    + setoid_replace ((K + 1) * d) with (K * d + d) by ring.
      setoid_replace ((K + 1) * (K + 1 + 1) * unit_roundoff * d)
        with ((K * K * d + 3 * (K * d) + 2 * d) * unit_roundoff) by ring.
      exact E.
Qed.

(** The clock advances with every addition. *)
Lemma running_sum_increases (d : Q) (k : nat) :
  2 ^ (-1022) <= d -> (Z.of_nat k <= 2 ^ 32)%Z ->
  running_sum d k < running_sum d (S k).
Proof.
  intros D B. assert (D0 : 0 < d).
  { pose proof (pow2_pos (-1022)) as P. set (p := 2 ^ (-1022)) in *. clearbody p. lra. }
  pose proof (running_sum_error d k D B) as IH.
  cbn [running_sum]. unfold add.
  assert (K0 : 0 <= inject_Z (Z.of_nat k)).
  { change 0 with (inject_Z 0). rewrite <- Zle_Qle. lia. }
  assert (K1 : inject_Z (Z.of_nat k) <= inject_Z (2 ^ 32)) by (rewrite <- Zle_Qle; exact B).
  set (K := inject_Z (Z.of_nat k)) in *. clearbody K.
  set (t := running_sum d k) in *. clearbody t.
  apply Qabs_Qle_condition in IH.
  destruct (running_sum_step d t (K * d) (K * K * d)) as [_ E]; try assumption.
  + apply Qmult_le_0_compat; lra.
  + repeat apply Qmult_le_0_compat; lra.
  + setoid_replace (K * K * d) with (K * (K * d)) by ring.
    apply Qmult_le_compat_r; [exact K1|]. apply Qmult_le_0_compat; lra.
  + apply Qmult_le_compat_r; lra.
  + setoid_replace ((K * K * d + K * d) * unit_roundoff)
      with (K * (K + 1) * unit_roundoff * d) by ring. lra.
Qed.

End Float64Facts.

(** ** The sequencer *)

Module SequencerFacts.
Import JS Types Sequencer.

Lemma findIndex_from_range {A} (p : A -> bool) arr i :
  findIndex_from p arr i = -1 \/
  i <= findIndex_from p arr i < i + len arr.
Proof.
  revert i. induction arr as [|x r IH]; intros i; cbn [findIndex_from]; [now left|].
  unfold len in *. cbn [List.length]. destruct (p x).
  - destruct (Z.eq_dec i (-1)); [now left | right; lia].
  - destruct (IH (i + 1)); [now left | right; lia].
Qed.

Lemma findIndex_from_spec {A} (p : A -> bool) arr i :
  0 <= i ->
  match nth_error arr (Z.to_nat (findIndex_from p arr i - i)) with
  | Some x => findIndex_from p arr i <> -1 -> p x = true
  | None => findIndex_from p arr i = -1
  end.
Proof.
  revert i. induction arr as [|x r IH]; intros i Hi; cbn [findIndex_from].
  - now destruct (Z.to_nat (-1 - i)).
  - destruct (p x) eqn:Hp.
    + rewrite Z.sub_diag. cbn. auto.
    + specialize (IH (i + 1) ltac:(lia)).
      destruct (findIndex_from_range p r (i + 1)) as [E|E].
      * rewrite E in *. replace (Z.to_nat (-1 - i)) with O by lia. cbn. congruence.
      * replace (Z.to_nat (findIndex_from p r (i + 1) - i))
          with (S (Z.to_nat (findIndex_from p r (i + 1) - (i + 1)))) by lia.
        exact IH.
Qed.

Lemma findIndex_from_found {A} (p : A -> bool) arr i :
  (exists x, In x arr /\ p x = true) -> findIndex_from p arr i <> -1 \/ i < 0.
Proof.
  revert i. induction arr as [|x r IH]; intros i [y [Hin Hy]]; [destruct Hin|].
  cbn [findIndex_from]. destruct (p x) eqn:Hp.
  - destruct (Z.eq_dec i (-1)); [right; lia | now left].
  - destruct Hin as [->|Hin]; [congruence|].
    destruct (IH (i + 1)) as [H|H]; [eauto | now left|].
    destruct (findIndex_from_range p r (i + 1)) as [E|E].
    + right. lia.
    + destruct (Z_lt_dec i 0); [now right|left; lia].
Qed.

Lemma findIndex_found {A} (p : A -> bool) arr :
  (exists x, In x arr /\ p x = true) ->
  0 <= findIndex p arr < len arr /\
  exists x, index arr (findIndex p arr) = Some x /\ p x = true.
Proof.
  intros H. unfold findIndex, index.
  destruct (findIndex_from_found p arr 0 H) as [Hne|]; [|lia].
  destruct (findIndex_from_range p arr 0) as [E|E]; [congruence|].
  split; [lia|].
  pose proof (findIndex_from_spec p arr 0 ltac:(lia)) as S.
  rewrite Z.sub_0_r in S.
  destruct (Z.ltb_spec (findIndex_from p arr 0) 0); [lia|].
  destruct (nth_error arr (Z.to_nat (findIndex_from p arr 0))) as [x|]; [|congruence].
  eauto.
Qed.

(** With unique ids, removing the items of one present id removes one item. *)
Lemma filter_id_length (seqs : list Sequence) i :
  NoDup (map id seqs) -> In i (map id seqs) ->
  len (filter (fun s => negb (id s =? i)) seqs) = len seqs - 1.
Proof.
  unfold len. induction seqs as [|s r IH]; intros Hnd Hin; [destruct Hin|].
  cbn [map] in *. inversion Hnd as [|? ? Hnot Hnd']; subst.
  cbn [filter]. destruct (Z.eqb_spec (id s) i) as [E|E]; cbn [negb].
  - subst i. clear IH.
    assert (filter (fun s0 => negb (id s0 =? id s)) r = r) as ->.
    { clear Hin Hnd Hnd'. induction r as [|y r IH]; [reflexivity|].
      cbn [filter map] in *. destruct (Z.eqb_spec (id y) (id s)) as [E|E].
      - exfalso. apply Hnot. now left.
      - cbn [negb]. f_equal. apply IH. intros H. apply Hnot. now right. }
    cbn [List.length]. lia.
  - destruct Hin as [Hin|Hin]; [congruence|].
    cbn [List.length]. specialize (IH Hnd' Hin).
    destruct r; [destruct Hin|]. cbn [List.length] in *. lia.
Qed.

Lemma filter_id_NoDup (seqs : list Sequence) (p : Sequence -> bool) :
  NoDup (map id seqs) -> NoDup (map id (filter p seqs)).
Proof.
  induction seqs as [|s r IH]; intros Hnd; [constructor|].
  cbn [map filter] in *. inversion Hnd as [|? ? Hnot Hnd']; subst.
  destruct (p s); [|auto]. cbn [map]. constructor; [|auto].
  intros Hin. apply Hnot. apply in_map_iff in Hin as [x [Hx Hin]].
  apply filter_In in Hin as [Hin _]. apply in_map_iff. eauto.
Qed.

Lemma filter_id_not_In (seqs : list Sequence) i :
  ~ In i (map id (filter (fun s => negb (id s =? i)) seqs)).
Proof.
  intros Hin. apply in_map_iff in Hin as [x [Hx Hin]].
  apply filter_In in Hin as [_ Hin]. rewrite Hx, Z.eqb_refl in Hin. discriminate.
Qed.

(** C7. [deleteSequence] keeps the collection invariants (unique ids, a
    non-empty collection, an active index within range): on a collection of
    one item it changes nothing, and deleting a present id from a collection
    of two or more leaves one item fewer, unique ids without the deleted
    one, and an active index within the new range. *)
Theorem deleteSequence_preserves_invariants (st : State) (i : Z) :
  NoDup (map id (sequences st)) ->
  0 <= activeIndex st < len (sequences st) ->
  (len (sequences st) = 1 -> deleteSequence st i = st) /\
  (2 <= len (sequences st) -> In i (map id (sequences st)) ->
   let st' := deleteSequence st i in
   len (sequences st') = len (sequences st) - 1 /\
   0 <= activeIndex st' < len (sequences st') /\
   NoDup (map id (sequences st')) /\
   ~ In i (map id (sequences st'))).
Proof.
  intros Hnd Hact. split.
  - intros H1. unfold deleteSequence. rewrite H1. reflexivity.
  - intros H2 Hin. unfold deleteSequence.
    destruct (Z.leb_spec (len (sequences st)) 1); [lia|].
    assert (Hex : exists x, In x (sequences st) /\ (id x =? i) = true).
    { apply in_map_iff in Hin as [x [Hx Hin]]. exists x. split; [auto|].
      now apply Z.eqb_eq. }
    destruct (findIndex_found _ _ Hex) as [Hrange _].
    destruct (Z.eqb_spec (findIndex (fun s => id s =? i) (sequences st)) (-1)); [lia|].
    cbn zeta. cbn [sequences activeIndex].
    pose proof (filter_id_length _ _ Hnd Hin) as Hlen.
    repeat split.
    + exact Hlen.
    + destruct (Z.leb_spec (len (filter (fun s => negb (id s =? i)) (sequences st)))
                           (activeIndex st)); [lia|].
      destruct (Z.ltb_spec (findIndex (fun s => id s =? i) (sequences st))
                           (activeIndex st)); lia.
    + destruct (Z.leb_spec (len (filter (fun s => negb (id s =? i)) (sequences st)))
                           (activeIndex st)); [lia|].
      destruct (Z.ltb_spec (findIndex (fun s => id s =? i) (sequences st))
                           (activeIndex st)); lia.
    + now apply filter_id_NoDup.
    + apply filter_id_not_In.
Qed.


Lemma firstn_length_app {A} (l1 l2 : list A) :
  firstn (List.length l1) (l1 ++ l2) = l1.
Proof. rewrite firstn_app, Nat.sub_diag, firstn_all. cbn. apply app_nil_r. Qed.

Lemma skipn_length_app {A} (l1 l2 : list A) :
  skipn (List.length l1) (l1 ++ l2) = l2.
Proof. rewrite skipn_app, Nat.sub_diag, skipn_all. reflexivity. Qed.

Lemma splice_remove1_nth {A} (arr : list A) from x :
  nth_error arr from = Some x ->
  splice_remove1 arr from = ([x], firstn from arr ++ skipn (S from) arr) /\
  arr = firstn from arr ++ x :: skipn (S from) arr.
Proof.
  intros H. unfold splice_remove1.
  destruct (nth_error_split arr from H) as (l1 & l2 & E & L).
  subst from arr.
  rewrite firstn_length_app, skipn_length_app.
  replace (S (List.length l1)) with (List.length (l1 ++ [x]))
    by (rewrite length_app; cbn; lia).
  replace (l1 ++ x :: l2) with ((l1 ++ [x]) ++ l2)
    by (rewrite <- app_assoc; reflexivity).
  rewrite skipn_length_app. rewrite <- app_assoc. split; reflexivity.
Qed.

Lemma splice_insert_nth {A} (rest : list A) to x :
  (to <= List.length rest)%nat ->
  nth_error (splice_insert rest to x) to = Some x /\
  firstn to (splice_insert rest to x) ++ skipn (S to) (splice_insert rest to x) = rest.
Proof.
  intros H. unfold splice_insert.
  assert (L : List.length (firstn to rest) = to) by (rewrite length_firstn; lia).
  assert (E : rest = firstn to rest ++ skipn to rest) by (symmetry; apply firstn_skipn).
  set (a := firstn to rest) in *. set (b := skipn to rest) in *.
  clearbody a b. subst to rest. split.
  - rewrite nth_error_app2, Nat.sub_diag by lia. reflexivity.
  - rewrite firstn_length_app.
    replace (S (List.length a)) with (List.length (a ++ [x]))
      by (rewrite length_app; cbn; lia).
    replace (a ++ x :: b) with ((a ++ [x]) ++ b)
      by (rewrite <- app_assoc; reflexivity).
    now rewrite skipn_length_app.
Qed.

(** C8. For an active index and two positions within range,
    [reorderSequences] moves the item at [fromIndex] to [toIndex], leaves
    the other items in their order, and makes the active index a position
    (in range) of an item that carries the id of the item that was
    active. *)
Theorem reorderSequences_preserves_active_id (st : State) (fromIndex toIndex : nat) :
  0 <= activeIndex st < len (sequences st) ->
  (fromIndex < List.length (sequences st))%nat ->
  (toIndex < List.length (sequences st))%nat ->
  exists st' moved active,
    reorderSequences st fromIndex toIndex = Normal (Some st') /\
    nth_error (sequences st) fromIndex = Some moved /\
    nth_error (sequences st') toIndex = Some moved /\
    firstn toIndex (sequences st') ++ skipn (S toIndex) (sequences st')
      = firstn fromIndex (sequences st) ++ skipn (S fromIndex) (sequences st) /\
    index (sequences st) (activeIndex st) = Some active /\
    0 <= activeIndex st' < len (sequences st') /\
    option_map id (index (sequences st') (activeIndex st')) = Some (id active).
Proof.
  intros Hact Hfrom Hto.
  destruct (nth_error (sequences st) fromIndex) as [moved|] eqn:Hmoved;
    [|apply nth_error_None in Hmoved; lia].
  assert (Hidx : exists active, index (sequences st) (activeIndex st) = Some active).
  { unfold index. destruct (Z.ltb_spec (activeIndex st) 0); [lia|].
    destruct (nth_error (sequences st) (Z.to_nat (activeIndex st))) eqn:E; [eauto|].
    apply nth_error_None in E. unfold len in Hact. lia. }
  destruct Hidx as [active Hactive].
  unfold reorderSequences. destruct (Nat.eqb_spec fromIndex toIndex) as [->|Hne].
  - exists st, moved, active. rewrite Hactive. cbn. repeat split; auto; lia.
  - rewrite Hactive.
    destruct (splice_remove1_nth _ _ _ Hmoved) as [-> Hsplit].
    set (rest := firstn fromIndex (sequences st) ++ skipn (S fromIndex) (sequences st)) in *.
    assert (Hrest : (toIndex <= List.length rest)%nat).
    { assert (List.length (sequences st) = S (List.length rest)).
      { rewrite Hsplit at 1. unfold rest. rewrite !length_app. cbn. lia. }
      lia. }
    destruct (splice_insert_nth rest toIndex moved Hrest) as [Hnth Hrem].
    set (new := splice_insert rest toIndex moved) in *.
    assert (Hperm : Permutation (sequences st) new).
    { rewrite Hsplit. unfold new, splice_insert.
      rewrite <- Permutation_middle, <- Permutation_middle.
      constructor. fold rest. now rewrite firstn_skipn. }
    assert (Hex : exists x, In x new /\ (id x =? id active) = true).
    { exists active. split; [|apply Z.eqb_refl].
      eapply Permutation_in; [exact Hperm|].
      unfold index in Hactive. destruct (activeIndex st <? 0); [discriminate|].
      eapply nth_error_In; eauto. }
    destruct (findIndex_found _ _ Hex) as [Hrange [x [Hx Hid]]].
    eexists _, moved, active. split; [reflexivity|].
    cbn [sequences activeIndex].
    destruct (Z.eqb_spec (findIndex (fun s => id s =? id active) new) (-1)); [lia|].
    repeat split; auto; try lia.
    rewrite Hx. cbn. f_equal. now apply Z.eqb_eq.
Qed.

Lemma fold_max_upper (l : list Z) (a x : Z) :
  x <= a \/ In x l -> x <= fold_left Z.max l a.
Proof.
  revert a. induction l as [|y l IH]; intros a Hx; cbn [fold_left].
  - destruct Hx as [Hx|[]]. exact Hx.
  - apply IH. destruct Hx as [Hx|[->|Hx]]; [left; lia | left; lia | now right].
Qed.

Lemma fold_max_In (l : list Z) (a : Z) :
  fold_left Z.max l a = a \/ In (fold_left Z.max l a) l.
Proof.
  revert a. induction l as [|y l IH]; intros a; cbn [fold_left]; [now left|].
  destruct (IH (Z.max a y)) as [E|E]; [|right; now right].
  rewrite E. destruct (Z.max_spec a y) as [[_ ->]|[_ ->]]; [right; now left|now left].
Qed.

Lemma Math_max_upper (seqs : list Sequence) (s : Sequence) :
  In s seqs -> id s <= Math_max (map id seqs).
Proof.
  destruct seqs as [|s0 r]; [intros []|]. cbn [map Math_max]. intros [->|Hin].
  - apply fold_max_upper. left. lia.
  - apply fold_max_upper. right. now apply in_map.
Qed.

Lemma Math_max_In (seqs : list Sequence) :
  seqs <> [] -> In (Math_max (map id seqs)) (map id seqs).
Proof.
  destruct seqs as [|s0 r]; [congruence|]. intros _. cbn [map Math_max].
  destruct (fold_max_In (map id r) (id s0)) as [E|E]; [left; now rewrite E|now right].
Qed.

(** On a collection that is not empty and no larger than the number of
    arguments the engine takes, [nextId] returns the binary64 sum of the
    largest id and 1. *)
Lemma nextId_Normal (max_arguments : Z) (seqs : list Sequence) :
  seqs <> [] -> len seqs <= max_arguments ->
  nextId max_arguments seqs = Normal (Float64.add_Z (Math_max (map id seqs)) 1).
Proof.
  intros Hne Hm. unfold nextId, spread_call.
  destruct (Z.ltb_spec 0 (len seqs)) as [_|H].
  - destruct (Z.leb_spec (len seqs) max_arguments); [reflexivity|lia].
  - destruct seqs; [congruence|]. unfold len in H. cbn [List.length] in H. lia.
Qed.

(** Ids below [2^53] in absolute value: the next id is larger than all
    of them. *)
Lemma nextId_fresh (max_arguments : Z) (seqs : list Sequence) (newId : Z) :
  Forall (fun s => Z.abs (id s) < 2 ^ 53) seqs ->
  nextId max_arguments seqs = Normal newId ->
  forall s, In s seqs -> id s < newId.
Proof.
  intros Hsafe H s Hin. unfold nextId, spread_call in H.
  assert (Hne : seqs <> []) by (intros ->; destruct Hin).
  destruct (Z.ltb_spec 0 (len seqs)) as [_|L].
  - destruct (len seqs <=? max_arguments); cbn [bind] in H; [|discriminate].
    inversion H; subst newId.
    pose proof (Math_max_In seqs Hne) as M. apply in_map_iff in M as [x [Hx Hxin]].
    rewrite Forall_forall in Hsafe. pose proof (Hsafe x Hxin) as Bx. rewrite Hx in Bx.
    rewrite Float64Facts.add_Z_exact by lia.
    pose proof (Math_max_upper seqs s Hin). lia.
  - destruct seqs as [|s0 r]; [congruence|].
    unfold len in L. cbn [List.length] in L. lia.
Qed.

Lemma activeSequence_In (st : State) :
  sequences st <> [] ->
  exists active, activeSequence st = Some active /\ In active (sequences st).
Proof.
  intros Hne. unfold activeSequence, index.
  destruct (activeIndex st <? 0).
  - destruct (sequences st) as [|s r]; [congruence|]. exists s. cbn. auto.
  - destruct (nth_error (sequences st) (Z.to_nat (activeIndex st))) eqn:E.
    + eexists. split; [reflexivity|]. eapply nth_error_In; eauto.
    + destruct (sequences st) as [|s r]; [congruence|]. exists s. cbn. auto.
Qed.

Lemma index_last (l : list Sequence) (x : Sequence) :
  index (l ++ [x]) (len (l ++ [x]) - 1) = Some x.
Proof.
  unfold index, len. rewrite length_app. cbn [List.length].
  destruct (Z.ltb_spec (Z.of_nat (List.length l + 1) - 1) 0); [lia|].
  replace (Z.to_nat (Z.of_nat (List.length l + 1) - 1)) with (List.length l) by lia.
  rewrite nth_error_app2, Nat.sub_diag by lia. reflexivity.
Qed.

(** C10 (as amended). On a non-empty collection of no more items than
    the engine takes arguments in one call, each of [duplicateSequence]
    (of a present id) and [importSequence], and [addSequence] when the
    [sequenceLength] of the card it copies is a length an array can have,
    appends one new item at the end of the collection, with the id
    [nextId] gives (larger than every id when the ids are below 2^53 in
    absolute value), makes its position (length - 1) the active index, and
    stops playback. *)
Theorem creation_appends_selects_and_stops
    (max_arguments : Z) (preset : GeoConfig) (st : State) :
  sequences st <> [] ->
  len (sequences st) <= max_arguments ->
  let created (c : completion State) :=
    exists st' newSeq,
      c = Normal st' /\
      sequences st' = sequences st ++ [newSeq] /\
      nextId max_arguments (sequences st) = Normal (id newSeq) /\
      (Forall (fun s => Z.abs (id s) < 2 ^ 53) (sequences st) ->
       forall s, In s (sequences st) -> id s < id newSeq) /\
      activeIndex st' = len (sequences st') - 1 /\
      index (sequences st') (activeIndex st') = Some newSeq /\
      isPlaying st' = false in
  ((forall s, activeSequence st = Some s ->
              valid_array_length (sequenceLength (geoConfig s)) = true) ->
   created (addSequence max_arguments preset st)) /\
  (forall i, In i (map id (sequences st)) ->
             created (duplicateSequence max_arguments st i)) /\
  (forall importedSeq, created (importSequence max_arguments st importedSeq)).
Proof.
  intros Hne Hm created.
  pose proof (nextId_Normal max_arguments (sequences st) Hne Hm) as Hid.
  split; [|split].
  - intros Hvalid. unfold addSequence. rewrite Hid. cbn [bind].
    fold (activeSequence st).
    destruct (activeSequence_In st Hne) as [s [Hs _]]. rewrite Hs.
    unfold new_Array_fill0. rewrite (Hvalid s Hs). cbn [bind].
    eexists _, _. split; [reflexivity|]. cbn [sequences activeIndex isPlaying id].
    repeat split; [exact Hid| |apply index_last].
    intros Hsafe. now apply (nextId_fresh max_arguments).
  - intros i Hin. unfold duplicateSequence.
    destruct (find (fun s => id s =? i) (sequences st)) eqn:E.
    + rewrite Hid. cbn [bind].
      eexists _, _. split; [reflexivity|]. cbn [sequences activeIndex isPlaying id].
      repeat split; [exact Hid| |apply index_last].
      intros Hsafe. now apply (nextId_fresh max_arguments).
    + exfalso. apply in_map_iff in Hin as [x [Hx Hin]].
      apply (find_none _ _ E) in Hin. rewrite Hx, Z.eqb_refl in Hin. discriminate.
  - intros importedSeq. unfold importSequence. rewrite Hid. cbn [bind].
    eexists _, _. split; [reflexivity|]. cbn [sequences activeIndex isPlaying id].
    repeat split; [exact Hid| |apply index_last].
    intros Hsafe. now apply (nextId_fresh max_arguments).
Qed.

(** C10, the claim as stated fails on a non-empty collection whose active
    card has a [sequenceLength] that is no length of an array, here 4.5:
    [addSequence] throws a [RangeError] at [new Array(seqLength)], and
    nothing is appended or selected. *)
Lemma creation_fails_on_fractional_length :
  let st := loadSequences Demo.state
              [Demo.card 1 "One" [0] (with_sequenceLength Demo.preset (9 # 2))] in
  sequences st <> [] /\
  addSequence Demo.max_arguments Demo.preset st = Throw RangeError /\
  forall st', addSequence Demo.max_arguments Demo.preset st <> Normal st'.
Proof.
  cbv zeta. split; [discriminate|]. split; [reflexivity|].
  intros st' H. discriminate H.
Qed.

(** On a collection of more items than the engine takes arguments, the
    three operations throw a [RangeError] at [Math.max(...)], and nothing
    is appended. *)
Lemma creation_fails_beyond_argument_limit
    (max_arguments : Z) (preset : GeoConfig) (st : State) :
  max_arguments < len (sequences st) -> 0 <= max_arguments ->
  addSequence max_arguments preset st = Throw RangeError /\
  (forall i, In i (map id (sequences st)) ->
             duplicateSequence max_arguments st i = Throw RangeError) /\
  (forall importedSeq, importSequence max_arguments st importedSeq = Throw RangeError).
Proof.
  intros H H0.
  assert (Hid : nextId max_arguments (sequences st) = Throw RangeError).
  { unfold nextId, spread_call.
    destruct (Z.ltb_spec 0 (len (sequences st))); [|lia].
    destruct (Z.leb_spec (len (sequences st)) max_arguments); [lia|reflexivity]. }
  split; [|split].
  - unfold addSequence. rewrite Hid. reflexivity.
  - intros i Hin. unfold duplicateSequence.
    destruct (find (fun s => id s =? i) (sequences st)) eqn:E.
    + rewrite Hid. reflexivity.
    + exfalso. apply in_map_iff in Hin as [x [Hx Hin]].
      apply (find_none _ _ E) in Hin. rewrite Hx, Z.eqb_refl in Hin. discriminate.
  - intros importedSeq. unfold importSequence. rewrite Hid. reflexivity.
Qed.

(** With an id at [2^53], the next id is that id again: [2^53 + 1] is no
    binary64 number. *)
Example nextId_not_fresh :
  nextId Demo.max_arguments [Demo.card (2 ^ 53) "Big" [0] Demo.preset] = Normal (2 ^ 53).
Proof. vm_compute. reflexivity. Qed.

(** The example of the specification: ids 1, 2, 3 with the item of id 2
    active at index 1; moving position 0 to position 2 gives the order
    2, 3, 1 and the active index 0. *)
Example reorderSequences_example :
  exists st',
    reorderSequences Demo.state 0 2 = Normal (Some st') /\
    map id (sequences st') = [2; 3; 1] /\ activeIndex st' = 0.
Proof. eexists. split; [reflexivity|]. split; reflexivity. Qed.

Lemma deleteSequence_preserves_invariants_witness :
  NoDup (map id (sequences Demo.state)) /\
  0 <= activeIndex Demo.state < len (sequences Demo.state) /\
  0 <= activeIndex (deleteSequence Demo.state 2)
     < len (sequences (deleteSequence Demo.state 2)).
Proof.
  assert (N : NoDup (map id (sequences Demo.state))).
  { cbn. repeat (constructor; [cbn; intuition lia|]). constructor. }
  assert (A : 0 <= activeIndex Demo.state < len (sequences Demo.state))
    by (cbn; lia).
  split; [exact N|]. split; [exact A|].
  apply (deleteSequence_preserves_invariants Demo.state 2 N A).
  - cbn. lia.
  - cbn. tauto.
Defined.

Lemma reorderSequences_preserves_active_id_witness :
  0 <= activeIndex Demo.state < len (sequences Demo.state) /\
  exists st' moved active,
    reorderSequences Demo.state 0 2 = Normal (Some st') /\
    nth_error (sequences Demo.state) 0 = Some moved /\
    nth_error (sequences st') 2 = Some moved /\
    firstn 2 (sequences st') ++ skipn 3 (sequences st')
      = firstn 0 (sequences Demo.state) ++ skipn 1 (sequences Demo.state) /\
    index (sequences Demo.state) (activeIndex Demo.state) = Some active /\
    0 <= activeIndex st' < len (sequences st') /\
    option_map id (index (sequences st') (activeIndex st')) = Some (id active).
Proof.
  assert (A : 0 <= activeIndex Demo.state < len (sequences Demo.state))
    by (cbn; lia).
  split; [exact A|].
  apply (reorderSequences_preserves_active_id Demo.state 0 2 A); cbn; lia.
Defined.

Lemma creation_appends_selects_and_stops_witness :
  sequences Demo.state <> [] /\
  len (sequences Demo.state) <= Demo.max_arguments /\
  exists st', addSequence Demo.max_arguments Demo.preset Demo.state = Normal st' /\
              activeIndex st' = len (sequences st') - 1 /\
              isPlaying st' = false.
Proof.
  assert (Hne : sequences Demo.state <> []) by discriminate.
  assert (Hm : len (sequences Demo.state) <= Demo.max_arguments) by discriminate.
  split; [exact Hne|]. split; [exact Hm|].
  destruct (creation_appends_selects_and_stops Demo.max_arguments Demo.preset
              Demo.state Hne Hm) as [Hadd _].
  destruct Hadd as (st' & newSeq & E & _ & _ & _ & Hact & _ & Hplay).
  { intros s Hs. inversion Hs. reflexivity. }
  exists st'. auto.
Defined.


(** *** The animation timer *)

Lemma tick_in_range (st : State) :
  0 <= activeIndex st < len (sequences st) ->
  tick st = Some {| sequences := sequences st;
                    activeIndex := (activeIndex st + 1) mod len (sequences st);
                    isPlaying := isPlaying st;
                    timingMs := timingMs st |}.
Proof.
  intros H. unfold tick.
  destruct (Z.eqb_spec (len (sequences st)) 0); [lia|].
  rewrite Z.rem_mod_nonneg by lia. reflexivity.
Qed.

Lemma ticks_in_range (k : nat) :
  forall st, 0 <= activeIndex st < len (sequences st) ->
    ticks k st = Some {| sequences := sequences st;
                         activeIndex := (activeIndex st + Z.of_nat k) mod len (sequences st);
                         isPlaying := isPlaying st;
                         timingMs := timingMs st |}.
Proof.
  induction k as [|k IH]; intros st H.
  - cbn [ticks]. rewrite Z.add_0_r, Z.mod_small by lia. now destruct st.
  - cbn [ticks]. rewrite (tick_in_range st H).
    rewrite IH; cbn [sequences activeIndex isPlaying timingMs].
    + do 2 f_equal. rewrite Zplus_mod_idemp_l. f_equal. lia.
    + apply Z.mod_pos_bound. lia.
Qed.

(** X1. While the active index is within the collection, [k] firings of the
    animation timer move it to [(activeIndex + k) mod length] and touch
    nothing else; as many firings as there are cards bring the state back
    to where it was. *)
Theorem tick_cycles (st : State) (k : nat) :
  0 <= activeIndex st < len (sequences st) ->
  (exists st', ticks k st = Some st' /\
     sequences st' = sequences st /\
     isPlaying st' = isPlaying st /\
     timingMs st' = timingMs st /\
     activeIndex st' = (activeIndex st + Z.of_nat k) mod len (sequences st) /\
     0 <= activeIndex st' < len (sequences st')) /\
  ticks (List.length (sequences st)) st = Some st.
Proof.
  intros H. split.
  - eexists. split; [apply (ticks_in_range k st H)|].
    cbn [sequences activeIndex isPlaying timingMs].
    repeat split; try reflexivity; apply Z.mod_pos_bound; lia.
  - rewrite (ticks_in_range _ st H). fold (len (sequences st)).
    rewrite <- (Z.mul_1_l (len (sequences st))) at 1.
    rewrite Z.mod_add by lia. rewrite Z.mod_small by lia. now destruct st.
Qed.

Lemma tick_cycles_witness :
  0 <= activeIndex Demo.state < len (sequences Demo.state) /\
  ticks 3 Demo.state = Some Demo.state.
Proof.
  assert (H : 0 <= activeIndex Demo.state < len (sequences Demo.state))
    by (vm_compute; split; [discriminate|reflexivity]).
  split; [exact H|]. exact (proj2 (tick_cycles Demo.state 0 H)).
Defined.

(** *** Resizing *)

Lemma resized_length n d : 0 <= n -> len (resized n d) = n.
Proof.
  intros H. unfold resized, len. rewrite length_app, length_firstn, repeat_length. lia.
Qed.

Lemma resized_nth n d k :
  nth k (resized n d) 0 = if Z.of_nat k <? n then nth k d 0 else 0.
Proof.
  unfold resized.
  destruct (Z.ltb_spec (Z.of_nat k) n) as [Hk|Hk].
  - destruct (Nat.lt_ge_cases k (List.length d)) as [Hd|Hd].
    + rewrite app_nth1 by (rewrite length_firstn; lia).
      rewrite <- (firstn_skipn (Z.to_nat n) d) at 2.
      rewrite app_nth1 by (rewrite length_firstn; lia). reflexivity.
    + rewrite (nth_overflow d) by lia.
      rewrite app_nth2 by (rewrite length_firstn; lia).
      destruct (Nat.lt_ge_cases (k - List.length (firstn (Z.to_nat n) d))
                                (Z.to_nat n - List.length d)).
      * rewrite nth_repeat_lt; auto.
      * apply nth_overflow. rewrite repeat_length. lia.
  - apply nth_overflow. rewrite length_app, length_firstn, repeat_length. lia.
Qed.

Lemma resized_same n d : len d = n -> resized n d = d.
Proof.
  intros H. unfold resized, len in *.
  replace (Z.to_nat n) with (List.length d) by lia.
  rewrite firstn_all, Nat.sub_diag. cbn. apply app_nil_r.
Qed.

Lemma Qeq_bool_inject_Z (a : Z) (q : Q) (n : Z) :
  (q == inject_Z n)%Q -> Qeq_bool (inject_Z a) q = (a =? n).
Proof.
  intros Hq. destruct (Z.eqb_spec a n) as [->|Hne].
  - apply Qeq_bool_iff. now symmetry.
  - destruct (Qeq_bool (inject_Z a) q) eqn:E; [|reflexivity].
    apply Qeq_bool_iff in E. rewrite Hq in E. apply (proj1 (inject_Z_injective a n)) in E. contradiction.
Qed.

Lemma Qle_bool_inject_Z (a : Z) (q : Q) (n : Z) :
  (q == inject_Z n)%Q -> Qle_bool (inject_Z a) q = (a <=? n).
Proof.
  intros Hq. destruct (Z.leb_spec a n) as [H|H].
  - apply Qle_bool_iff. rewrite Hq, <- Zle_Qle. exact H.
  - destruct (Qle_bool (inject_Z a) q) eqn:E; [|reflexivity].
    apply Qle_bool_iff in E. rewrite Hq, <- Zle_Qle in E. lia.
Qed.

Lemma ToInteger_nonneg (q : Q) (n : Z) :
  (q == inject_Z n)%Q -> 0 <= n -> ToInteger q = n.
Proof.
  intros Hq Hn. unfold ToInteger.
  assert (E : Qle_bool 0 q = true).
  { apply Qle_bool_iff. rewrite Hq. change 0%Q with (inject_Z 0). now rewrite <- Zle_Qle. }
  rewrite E, (Qfloor_comp _ _ Hq). apply Qfloor_Z.
Qed.

Lemma slice0_trim {A} (arr : list A) (q : Q) (n : Z) :
  (q == inject_Z n)%Q -> 0 <= n -> n <= len arr ->
  slice0 arr q = firstn (Z.to_nat n) arr.
Proof.
  intros Hq Hn Hle. unfold slice0. rewrite (ToInteger_nonneg q n Hq Hn).
  destruct (Z.ltb_spec n 0); [lia|]. now rewrite Z.min_l by lia.
Qed.

Lemma new_Array_fill0_diff (q : Q) (n a : Z) :
  (q == inject_Z n)%Q -> a <= n < 2 ^ 32 -> 0 <= a ->
  new_Array_fill0 (q - inject_Z a) = Normal (repeat 0 (Z.to_nat (n - a))).
Proof.
  intros Hq Hn Ha. unfold new_Array_fill0, valid_array_length.
  assert (E : (q - inject_Z a == inject_Z (n - a))%Q).
  { rewrite Hq. unfold Z.sub. rewrite inject_Z_plus, inject_Z_opp. reflexivity. }
  rewrite (Qfloor_comp _ _ E), Qfloor_Z.
  assert (E1 : Qeq_bool (q - inject_Z a) (inject_Z (n - a)) = true)
    by now apply Qeq_bool_iff.
  rewrite E1.
  destruct (Z.leb_spec 0 (n - a)); [|lia].
  destruct (Z.ltb_spec (n - a) (2 ^ 32)); [|lia].
  reflexivity.
Qed.

Lemma resized_trim n d :
  0 <= n -> n <= len d -> firstn (Z.to_nat n) d = resized n d.
Proof.
  intros Hn H. unfold resized, len in *.
  replace (Z.to_nat n - List.length d)%nat with O by lia. cbn. now rewrite app_nil_r.
Qed.

Lemma resized_pad n d :
  len d <= n -> d ++ repeat 0 (Z.to_nat (n - len d)) = resized n d.
Proof.
  intros H. unfold resized, len in *.
  rewrite firstn_all2 by lia. f_equal. f_equal. lia.
Qed.

Lemma resizeSequence_item_spec (i : Z) (q : Q) (n : Z) (s : Sequence) :
  (q == inject_Z n)%Q -> 0 <= n < 2 ^ 32 ->
  resizeSequence_item i q s =
  Normal (if id s =? i then with_data s (resized n (data s)) else s).
Proof.
  intros Hq Hn. unfold resizeSequence_item.
  destruct (id s =? i); cbn [negb]; [|reflexivity].
  rewrite (Qeq_bool_inject_Z _ q n Hq), (Qle_bool_inject_Z _ q n Hq).
  destruct (Z.eqb_spec (len (data s)) n) as [E|E].
  - rewrite (resized_same _ _ E). now destruct s.
  - destruct (Z.leb_spec (len (data s)) n) as [L|L]; cbn [negb].
    + rewrite (new_Array_fill0_diff q n (len (data s)) Hq) by (unfold len in *; lia).
      cbn [bind]. now rewrite resized_pad.
    + rewrite (slice0_trim _ q n Hq) by lia. now rewrite resized_trim by lia.
Qed.

Lemma map_throwing_Normal {A B} (f : A -> completion B) (g : A -> B) (arr : list A) :
  (forall x, In x arr -> f x = Normal (g x)) ->
  map_throwing f arr = Normal (map g arr).
Proof.
  induction arr as [|x r IH]; intros H; cbn [map_throwing map]; [reflexivity|].
  rewrite (H x (or_introl eq_refl)). cbn [bind].
  rewrite IH by (intros; apply H; now right). reflexivity.
Qed.

Lemma resizeSequence_spec (st : State) (i : Z) (q : Q) (n : Z) :
  (q == inject_Z n)%Q -> 0 <= n < 2 ^ 32 ->
  resizeSequence st i q =
  Normal (with_sequences st
            (map (fun s => if id s =? i then with_data s (resized n (data s)) else s)
                 (sequences st))).
Proof.
  intros Hq Hn. unfold resizeSequence.
  rewrite (map_throwing_Normal _
             (fun s => if id s =? i then with_data s (resized n (data s)) else s)).
  - reflexivity.
  - intros s _. now apply resizeSequence_item_spec.
Qed.

Lemma Forall2_map_r {A B} (R : A -> B -> Prop) (g : A -> B) (l : list A) :
  (forall x, In x l -> R x (g x)) -> Forall2 R l (map g l).
Proof.
  induction l as [|x r IH]; intros H; cbn [map]; constructor.
  - apply H. now left.
  - apply IH. intros; apply H; now right.
Qed.

Lemma Forall2_Forall_r {A B} (R : A -> B -> Prop) (P : B -> Prop) l l' :
  Forall2 R l l' -> (forall x y, R x y -> P y) -> Forall P l'.
Proof.
  intros F H. induction F; constructor; eauto.
Qed.

(** X2. [resizeSequence(id, n)] for a length [n] an array can have: every
    card carrying the id ends up with exactly [n] values, its first values
    kept in place and zeros after them; name, description and geometry
    stay, as do all other cards, the order, the selection and playback. *)
Theorem resizeSequence_resizes (st : State) (i : Z) (length : Q) (n : Z) :
  (length == inject_Z n)%Q -> 0 <= n < 2 ^ 32 ->
  exists st',
    resizeSequence st i length = Normal st' /\
    activeIndex st' = activeIndex st /\
    isPlaying st' = isPlaying st /\
    timingMs st' = timingMs st /\
    Forall2 (fun s s' =>
               if id s =? i then
                 id s' = id s /\ name s' = name s /\
                 description s' = description s /\ geoConfig s' = geoConfig s /\
                 len (data s') = n /\
                 forall k, nth k (data s') 0
                           = if Z.of_nat k <? n then nth k (data s) 0 else 0
               else s' = s)
            (sequences st) (sequences st').
Proof.
  intros Hq Hn. eexists. split; [apply (resizeSequence_spec st i length n Hq Hn)|].
  cbn [with_sequences sequences activeIndex isPlaying timingMs].
  repeat split. apply Forall2_map_r. intros s _.
  destruct (id s =? i); [|reflexivity].
  cbn [with_data id name description geoConfig data].
  repeat split; [apply resized_length; lia | apply resized_nth].
Qed.

Lemma resizeSequence_resizes_witness :
  (9 == inject_Z 9)%Q /\ 0 <= 9 < 2 ^ 32 /\
  exists st', resizeSequence Demo.state 2 9 = Normal st' /\
              map (fun s => len (data s)) (sequences st')
              = map (fun s => if id s =? 2 then 9 else len (data s)) (sequences Demo.state).
Proof.
  assert (Hq : (9 == inject_Z 9)%Q) by reflexivity.
  assert (Hn : 0 <= 9 < 2 ^ 32) by lia.
  split; [exact Hq|]. split; [exact Hn|].
  destruct (resizeSequence_resizes Demo.state 2 9 9 Hq Hn) as [st' [E [_ [_ [_ F]]]]].
  exists st'. split; [exact E|].
  induction F as [|s s' l l' R F IH]; [reflexivity|].
  cbn [map]. f_equal; [|exact IH].
  destruct (id s =? 2); [apply R | now subst].
Defined.

Lemma setSequenceLength_item_spec (q : Q) (n : Z) (s : Sequence) :
  (q == inject_Z n)%Q -> 0 <= n < 2 ^ 32 ->
  setSequenceLength_item q s =
  Normal (if len (data s) =? n then s
          else {| id := id s; name := name s; description := description s;
                  data := resized n (data s);
                  geoConfig := with_sequenceLength (geoConfig s) q |}).
Proof.
  intros Hq Hn. unfold setSequenceLength_item.
  rewrite (Qeq_bool_inject_Z _ q n Hq), (Qle_bool_inject_Z _ q n Hq).
  destruct (Z.eqb_spec (len (data s)) n) as [E|E]; [reflexivity|].
  destruct (Z.leb_spec (len (data s)) n) as [L|L]; cbn [negb].
  - rewrite (new_Array_fill0_diff q n (len (data s)) Hq) by (unfold len in *; lia).
    cbn [bind]. now rewrite resized_pad.
  - rewrite (slice0_trim _ q n Hq) by lia. now rewrite resized_trim by lia.
Qed.

(** X3. [setSequenceLength(n)] for a length [n] an array can have: every
    card ends up with exactly [n] values, the first values kept in place
    and zeros after them; a card whose values and geometry agreed on the
    length still agrees; ids, names and descriptions stay. *)
Theorem setSequenceLength_resizes_all (st : State) (length : Q) (n : Z) :
  (length == inject_Z n)%Q -> 0 <= n < 2 ^ 32 ->
  exists st',
    setSequenceLength st length = Normal st' /\
    activeIndex st' = activeIndex st /\
    isPlaying st' = isPlaying st /\
    timingMs st' = timingMs st /\
    Forall2 (fun s s' =>
               id s' = id s /\ name s' = name s /\
               description s' = description s /\
               len (data s') = n /\
               (forall k, nth k (data s') 0
                          = if Z.of_nat k <? n then nth k (data s) 0 else 0) /\
               (consistent s -> consistent s'))
            (sequences st) (sequences st').
Proof.
  intros Hq Hn. unfold setSequenceLength.
  rewrite (map_throwing_Normal _
             (fun s => if len (data s) =? n then s
                       else {| id := id s; name := name s; description := description s;
                               data := resized n (data s);
                               geoConfig := with_sequenceLength (geoConfig s) length |}))
    by (intros s _; now apply setSequenceLength_item_spec).
  cbn [bind]. eexists. split; [reflexivity|].
  cbn [with_sequences sequences activeIndex isPlaying timingMs].
  repeat split. apply Forall2_map_r. intros s _.
  destruct (Z.eqb_spec (len (data s)) n) as [E|E].
  - repeat split; auto. intros k. rewrite <- (resized_nth n (data s) k).
    now rewrite resized_same.
  - cbn [id name description data geoConfig].
    repeat split; [apply resized_length; lia | apply resized_nth |].
    intros _. unfold consistent. cbn [data geoConfig with_sequenceLength sequenceLength].
    rewrite resized_length by lia. now symmetry.
Qed.

Lemma setSequenceLength_resizes_all_witness :
  (9 == inject_Z 9)%Q /\ 0 <= 9 < 2 ^ 32 /\
  exists st', setSequenceLength Demo.state 9 = Normal st' /\
              Forall (fun s => len (data s) = 9) (sequences st').
Proof.
  assert (Hq : (9 == inject_Z 9)%Q) by reflexivity.
  assert (Hn : 0 <= 9 < 2 ^ 32) by lia.
  split; [exact Hq|]. split; [exact Hn|].
  destruct (setSequenceLength_resizes_all Demo.state 9 9 Hq Hn) as [st' [E [_ [_ [_ F]]]]].
  exists st'. split; [exact E|].
  eapply Forall2_Forall_r; [exact F|]. intros s s' R. apply R.
Defined.

Lemma NoDup_id_unique (seqs : list Sequence) (a b : Sequence) :
  NoDup (map id seqs) -> In a seqs -> In b seqs -> id a = id b -> a = b.
Proof.
  induction seqs as [|x r IH]; intros Hnd Ha Hb E; [destruct Ha|].
  cbn [map] in Hnd. inversion Hnd as [|? ? Hx Hr]; subst.
  destruct Ha as [->|Ha], Hb as [->|Hb]; auto.
  - exfalso. apply Hx. rewrite E. now apply in_map.
  - exfalso. apply Hx. rewrite <- E. now apply in_map.
Qed.

Import App.

(** X4. [handleGeoConfigChange(newConfig)], for a [newConfig] whose
    [sequenceLength] is an integer from 0 to 2^32 - 1, on a non-empty
    collection with unique ids in which every card holds as many values
    as its geometry has divisions: the call completes, the active card
    takes the new geometry, its values are resized to the new
    [sequenceLength] (cut, or padded with zeros), and every card still
    holds as many values as its geometry has divisions; the other cards,
    the ids and the order are untouched. *)
Theorem handleGeoConfigChange_keeps_cards_consistent
    (st : State) (newConfig : GeoConfig) (n : Z) :
  sequences st <> [] ->
  NoDup (map id (sequences st)) ->
  Forall consistent (sequences st) ->
  (sequenceLength newConfig == inject_Z n)%Q -> 0 <= n < 2 ^ 32 ->
  exists st' active,
    activeSequence st = Some active /\
    handleGeoConfigChange st newConfig = Normal st' /\
    activeIndex st' = activeIndex st /\
    map id (sequences st') = map id (sequences st) /\
    Forall consistent (sequences st') /\
    Forall2 (fun s s' =>
               if id s =? id active then
                 geoConfig s' = newConfig /\ len (data s') = n /\
                 name s' = name s /\ description s' = description s /\
                 forall k, nth k (data s') 0
                           = if Z.of_nat k <? n then nth k (data s) 0 else 0
               else s' = s)
            (sequences st) (sequences st').
Proof.
  intros Hne Hnd Hcons Hq Hn.
  destruct (activeSequence_In st Hne) as [active [Hact Hin]].
  exists (with_sequences st
            (map (fun s => if id s =? id active
                           then {| id := id s; name := name s;
                                   description := description s;
                                   data := resized n (data s);
                                   geoConfig := newConfig |}
                           else s) (sequences st))), active.
  split; [exact Hact|].
  assert (Hlen : forall s, In s (sequences st) -> id s = id active ->
                           sequenceLength newConfig == sequenceLength (geoConfig active) ->
                           resized n (data s) = data s).
  { intros s Hs Hid Heq. apply resized_same.
    rewrite (NoDup_id_unique _ _ _ Hnd Hs Hin Hid).
    rewrite Forall_forall in Hcons. pose proof (Hcons _ Hin) as C. unfold consistent in C.
    apply inject_Z_injective. now rewrite C, <- Heq, Hq. }
  split.
  - unfold handleGeoConfigChange. rewrite Hact.
    destruct (Qeq_bool (sequenceLength newConfig) (sequenceLength (geoConfig active))) eqn:E;
      cbn [negb].
    + cbn [bind]. unfold handleSequenceUpdate, with_sequences. f_equal. f_equal.
      apply map_ext_in. intros s Hs. destruct (Z.eqb_spec (id s) (id active)) as [Hid|]; auto.
      unfold spread. cbn [u_id u_name u_description u_data u_geoConfig or_else].
      apply Qeq_bool_iff in E. now rewrite (Hlen s Hs Hid E).
    + rewrite (resizeSequence_spec st (id active) _ n Hq Hn). cbn [bind].
      unfold handleSequenceUpdate, with_sequences. cbn [sequences activeIndex isPlaying timingMs].
      f_equal. f_equal. rewrite map_map. apply map_ext. intros s.
      destruct (Z.eqb_spec (id s) (id active)) as [Hid|Hid].
      * cbn [with_data id]. rewrite (proj2 (Z.eqb_eq _ _) Hid). reflexivity.
      * destruct (Z.eqb_spec (id s) (id active)); [contradiction|reflexivity].
  - cbn [with_sequences sequences activeIndex]. split; [reflexivity|].
    split; [|split].
    + rewrite map_map. apply map_ext. intros s. now destruct (id s =? id active).
    + rewrite Forall_forall in *. intros s' Hs'. apply in_map_iff in Hs' as [s [<- Hs]].
      destruct (id s =? id active); [|auto].
      unfold consistent. cbn [data geoConfig]. rewrite resized_length by lia.
      now symmetry.
    + apply Forall2_map_r. intros s _. destruct (id s =? id active); [|reflexivity].
      cbn [id name description data geoConfig].
      repeat split; [apply resized_length; lia | apply resized_nth].
Qed.

Lemma handleGeoConfigChange_keeps_cards_consistent_witness :
  sequences Demo.state <> [] /\
  NoDup (map id (sequences Demo.state)) /\
  Forall consistent (sequences Demo.state) /\
  (sequenceLength (with_sequenceLength Demo.config 6) == inject_Z 6)%Q /\
  0 <= 6 < 2 ^ 32 /\
  exists st',
    handleGeoConfigChange Demo.state (with_sequenceLength Demo.config 6) = Normal st' /\
    Forall consistent (sequences st').
Proof.
  assert (H1 : sequences Demo.state <> []) by discriminate.
  assert (H2 : NoDup (map id (sequences Demo.state))).
  { cbn. repeat constructor; cbn; lia. }
  assert (H3 : Forall consistent (sequences Demo.state)).
  { repeat constructor. }
  assert (H4 : (sequenceLength (with_sequenceLength Demo.config 6) == inject_Z 6)%Q)
    by reflexivity.
  assert (H5 : 0 <= 6 < 2 ^ 32) by lia.
  repeat (split; [assumption|]).
  destruct (handleGeoConfigChange_keeps_cards_consistent _ _ _ H1 H2 H3 H4 H5)
    as [st' [active [_ [E [_ [_ [C _]]]]]]].
  exists st'. split; assumption.
Defined.

(** X5. The card [addSequence] appends takes its geometry from the active
    card (from the first card when the active index is out of range, from
    the default preset when there is no card) and holds as many zeros as
    that geometry has divisions.  When that number is no length an array
    can have (negative, fractional, 2^32 or more), or when the collection
    holds more cards than the engine takes arguments in one call, the
    call throws a [RangeError] instead, and nothing is appended. *)
Theorem addSequence_new_card (max_arguments : Z) (preset : GeoConfig) (st : State) :
  let baseConfig := match activeSequence st with
                    | Some s => geoConfig s
                    | None => preset
                    end in
  if ((len (sequences st) =? 0) || (len (sequences st) <=? max_arguments))
     && valid_array_length (sequenceLength baseConfig) then
    exists newSeq,
      addSequence max_arguments preset st
      = Normal {| sequences := sequences st ++ [newSeq];
                  activeIndex := len (sequences st);
                  isPlaying := false;
                  timingMs := timingMs st |} /\
      geoConfig newSeq = baseConfig /\
      Forall (fun v => v = 0) (data newSeq) /\
      consistent newSeq
  else addSequence max_arguments preset st = Throw RangeError.
Proof.
  unfold addSequence, activeSequence, new_Array_fill0, nextId, spread_call.
  set (baseConfig := match match index (sequences st) (activeIndex st) with
                           | Some s => Some s
                           | None => index (sequences st) 0
                           end with
                     | Some s => geoConfig s
                     | None => preset
                     end).
  cbn zeta.
  assert (L0 : 0 <= len (sequences st)) by (unfold len; lia).
  destruct (Z.eqb_spec (len (sequences st)) 0) as [E0|N0];
    destruct (Z.ltb_spec 0 (len (sequences st))) as [P|P]; try lia; cbn [orb].
  - (* no card: [Math.max] is not called *)
    cbn [andb bind].
    destruct (valid_array_length (sequenceLength baseConfig)) eqn:V; cbn [bind];
      [|reflexivity].
    assert (L : forall x : Sequence, len (sequences st ++ [x]) - 1 = len (sequences st)).
    { intros x. unfold len. rewrite length_app. cbn [List.length]. lia. }
    rewrite L. eexists. split; [reflexivity|].
    cbn [geoConfig data]. split; [reflexivity|split].
    + apply Forall_forall. intros v Hv. now apply repeat_spec in Hv.
    + unfold consistent, len. cbn [data geoConfig]. rewrite repeat_length.
      unfold valid_array_length in V. apply andb_prop in V as [V _].
      apply andb_prop in V as [V1 V2]. apply Qeq_bool_iff in V1.
      apply Z.leb_le in V2. rewrite Z2Nat.id by exact V2. now symmetry.
  - destruct (len (sequences st) <=? max_arguments); cbn [andb bind]; [|reflexivity].
    destruct (valid_array_length (sequenceLength baseConfig)) eqn:V; cbn [bind];
      [|reflexivity].
    assert (L : forall x : Sequence, len (sequences st ++ [x]) - 1 = len (sequences st)).
    { intros x. unfold len. rewrite length_app. cbn [List.length]. lia. }
    rewrite L. eexists. split; [reflexivity|].
    cbn [geoConfig data]. split; [reflexivity|split].
    + apply Forall_forall. intros v Hv. now apply repeat_spec in Hv.
    + unfold consistent, len. cbn [data geoConfig]. rewrite repeat_length.
      unfold valid_array_length in V. apply andb_prop in V as [V _].
      apply andb_prop in V as [V1 V2]. apply Qeq_bool_iff in V1.
      apply Z.leb_le in V2. rewrite Z2Nat.id by exact V2. now symmetry.
Qed.

Example addSequence_fractional_length :
  addSequence Demo.max_arguments Demo.preset
    (loadSequences Demo.state
       [Demo.card 1 "One" [0] (with_sequenceLength Demo.preset (9 # 2))])
  = Throw RangeError.
Proof. reflexivity. Qed.

Example addSequence_empty_collection :
  exists newSeq,
    addSequence Demo.max_arguments Demo.preset (loadSequences Demo.state []) =
    Normal {| sequences := [newSeq]; activeIndex := 0; isPlaying := false;
              timingMs := 1500 |} /\
    geoConfig newSeq = Demo.preset /\ data newSeq = [0; 0; 0; 0].
Proof. eexists. repeat split. Qed.


(** *** The invariant of the state *)

Lemma coherent_append (max_arguments : Z) (st : State) (newId : Z)
    (newSeq : Sequence) (playing : bool) :
  coherent st ->
  Forall (fun s => Z.abs (id s) < 2 ^ 53) (sequences st) ->
  nextId max_arguments (sequences st) = Normal newId -> id newSeq = newId ->
  coherent {| sequences := sequences st ++ [newSeq];
              activeIndex := len (sequences st ++ [newSeq]) - 1;
              isPlaying := playing;
              timingMs := timingMs st |}.
Proof.
  intros (Hne & Hnd & Hact) Hsafe Hnext Hid. unfold coherent. cbn [sequences activeIndex].
  split; [|split].
  - intros C. apply app_eq_nil in C as [_ C]. discriminate.
  - rewrite map_app. cbn [map]. apply NoDup_app.
    + exact Hnd.
    + repeat constructor. intros [].
    + intros i Hin [<-|[]]. apply in_map_iff in Hin as [s [Hs Hin]].
      pose proof (nextId_fresh max_arguments _ _ Hsafe Hnext _ Hin). lia.
  - unfold len. rewrite length_app. cbn [List.length]. lia.
Qed.

Lemma map_throwing_ids (f : Sequence -> completion Sequence) (l l' : list Sequence) :
  (forall x y, f x = Normal y -> id y = id x) ->
  map_throwing f l = Normal l' -> map id l' = map id l.
Proof.
  intros Hf. revert l'. induction l as [|x r IH]; intros l' H; cbn [map_throwing] in H.
  - inversion H. reflexivity.
  - destruct (f x) as [y|] eqn:E; cbn [bind] in H; [|discriminate].
    destruct (map_throwing f r) as [ys|]; cbn [bind] in H; [|discriminate].
    inversion H. cbn [map]. now rewrite (Hf x y E), (IH ys).
Qed.

Lemma coherent_same_ids (st : State) (seqs : list Sequence) :
  coherent st -> map id seqs = map id (sequences st) ->
  coherent (with_sequences st seqs).
Proof.
  intros (Hne & Hnd & Hact) E. unfold coherent. cbn [with_sequences sequences activeIndex].
  assert (L : len seqs = len (sequences st)).
  { unfold len. now rewrite <- (length_map id seqs), E, length_map. }
  split; [|split].
  - intros ->. destruct (sequences st); [congruence|discriminate].
  - now rewrite E.
  - now rewrite L.
Qed.

Lemma resizeSequence_item_id i q x y :
  resizeSequence_item i q x = Normal y -> id y = id x.
Proof.
  unfold resizeSequence_item. intros H.
  destruct (negb (id x =? i)); [now inversion H|].
  destruct (Qeq_bool _ q); [now inversion H|].
  destruct (negb (Qle_bool _ q)); [now inversion H|].
  destruct (new_Array_fill0 _); cbn [bind] in H; [|discriminate]. now inversion H.
Qed.

Lemma setSequenceLength_item_id q x y :
  setSequenceLength_item q x = Normal y -> id y = id x.
Proof.
  unfold setSequenceLength_item. intros H.
  destruct (Qeq_bool _ q); [now inversion H|].
  destruct (negb (Qle_bool _ q)); [now inversion H|].
  destruct (new_Array_fill0 _); cbn [bind] in H; [|discriminate]. now inversion H.
Qed.

Lemma firstn_1_skipn {A} (l : list A) (n : nat) x r :
  firstn 1 (skipn n l) = x :: r -> nth_error l n = Some x.
Proof.
  revert l. induction n as [|n IH]; intros l H.
  - destruct l; cbn in H; [discriminate|]. now inversion H.
  - destruct l; cbn in H; [discriminate|]. cbn. now apply IH.
Qed.

Lemma reorder_permutation {A} (l : list A) (from to : nat) (x : A) :
  nth_error l from = Some x ->
  Permutation l (splice_insert (firstn from l ++ skipn (S from) l) to x).
Proof.
  intros H. destruct (splice_remove1_nth _ _ _ H) as [_ Hsplit].
  set (rest := firstn from l ++ skipn (S from) l).
  rewrite Hsplit at 1. unfold splice_insert.
  rewrite <- Permutation_middle, <- Permutation_middle.
  constructor. fold rest. now rewrite firstn_skipn.
Qed.

Lemma findIndex_from_hit {A} (p : A -> bool) (arr : list A) (i : Z) :
  findIndex_from p arr i <> -1 -> exists x, In x arr /\ p x = true.
Proof.
  revert i. induction arr as [|x r IH]; intros i H; cbn [findIndex_from] in H.
  - congruence.
  - destruct (p x) eqn:E.
    + exists x. split; [now left|exact E].
    + destruct (IH _ H) as [y [Hy Hp]]. exists y. split; [now right|exact Hp].
Qed.

Lemma findIndex_id_outcome (activeId : Z) (arr : list (option Sequence)) (i : Z) :
  (exists k, findIndex_id activeId arr i = Normal k) \/
  findIndex_id activeId arr i = Throw TypeError.
Proof.
  revert i. induction arr as [|[s|] r IH]; intros i; cbn [findIndex_id]; eauto.
  destruct (id s =? activeId); eauto.
Qed.

Lemma firstn_1_skipn_past {A} (l : list A) (n : nat) :
  (List.length l <= n)%nat -> firstn 1 (skipn n l) = [].
Proof. intros H. now rewrite skipn_all2. Qed.

(** X23. The operations of the sequencer keep its state coherent: from a
    state with at least one card, no id shared by two cards and an active
    index that names a card, each of the following leads to such a state
    again, whatever its arguments: adding, duplicating and importing a
    card, whenever they complete and the ids are below 2^53 in absolute
    value; deleting a card; moving the card at a position inside the
    collection, which always completes; resizing, whenever it completes;
    updating a card (the update not carrying an id); a tick of the
    animation timer; the playback switches; selecting a position inside
    the collection.  Moving from a position past the end to another
    position leads to no such state: the call throws a [TypeError], or
    completes with an array that holds [undefined]. *)
Theorem operations_keep_the_state_coherent (max_arguments : Z) (st : State) :
  coherent st ->
  (Forall (fun s => Z.abs (id s) < 2 ^ 53) (sequences st) ->
   (forall preset st', addSequence max_arguments preset st = Normal st' -> coherent st') /\
   (forall i st', duplicateSequence max_arguments st i = Normal st' -> coherent st') /\
   (forall importedSeq st',
      importSequence max_arguments st importedSeq = Normal st' -> coherent st')) /\
  (forall i, coherent (deleteSequence st i)) /\
  (forall fromIndex toIndex,
     (fromIndex < List.length (sequences st))%nat ->
     exists st', reorderSequences st fromIndex toIndex = Normal (Some st') /\
                 coherent st') /\
  (forall fromIndex toIndex,
     (List.length (sequences st) <= fromIndex)%nat -> fromIndex <> toIndex ->
     reorderSequences st fromIndex toIndex = Normal None \/
     reorderSequences st fromIndex toIndex = Throw TypeError) /\
  (forall i length st', resizeSequence st i length = Normal st' -> coherent st') /\
  (forall length st', setSequenceLength st length = Normal st' -> coherent st') /\
  (forall i updates, u_id updates = None ->
                     coherent (handleSequenceUpdate st i updates)) /\
  (forall st', tick st = Some st' -> coherent st') /\
  coherent (togglePlay st) /\
  (forall playing, coherent (setPlaying st playing)) /\
  (forall index, 0 <= index < len (sequences st) -> coherent (selectSequence st index)).
Proof.
  intros Hc. pose proof Hc as (Hne & Hnd & Hact).
  assert (Hactive : exists active, index (sequences st) (activeIndex st) = Some active).
  { unfold index. destruct (Z.ltb_spec (activeIndex st) 0); [lia|].
    destruct (nth_error (sequences st) (Z.to_nat (activeIndex st))) eqn:E; [eauto|].
    apply nth_error_None in E. unfold len in Hact. lia. }
  destruct Hactive as [active Hactive].
  split; [|split; [|split; [|split; [|split; [|split; [|split; [|split;
    [|split; [|split]]]]]]]]].
  - intros Hsafe. split; [|split].
    + intros preset st' H. unfold addSequence in H.
      destruct (nextId max_arguments (sequences st)) as [newId|] eqn:N;
        cbn [bind] in H; [|discriminate].
      destruct (new_Array_fill0 _) as [zeros|]; cbn [bind] in H; [|discriminate].
      inversion H. now apply (coherent_append max_arguments st newId).
    + intros i st' H. unfold duplicateSequence in H.
      destruct (find _ (sequences st)); [|inversion H; subst; exact Hc].
      destruct (nextId max_arguments (sequences st)) as [newId|] eqn:N;
        cbn [bind] in H; [|discriminate].
      inversion H. now apply (coherent_append max_arguments st newId).
    + intros importedSeq st' H. unfold importSequence in H.
      destruct (nextId max_arguments (sequences st)) as [newId|] eqn:N;
        cbn [bind] in H; [|discriminate].
      inversion H. now apply (coherent_append max_arguments st newId).
  - intros i. unfold deleteSequence.
    destruct (Z.leb_spec (len (sequences st)) 1); [exact Hc|].
    destruct (Z.eqb_spec (findIndex (fun s => id s =? i) (sequences st)) (-1)) as [|Hf];
      [exact Hc|].
    assert (Hex : exists x, In x (sequences st) /\ (id x =? i) = true).
    { apply (findIndex_from_hit _ (sequences st) 0). exact Hf. }
    assert (Hin : In i (map id (sequences st))).
    { destruct Hex as [x [Hx Hp]]. apply Z.eqb_eq in Hp. subst i. now apply in_map. }
    destruct (findIndex_found _ _ Hex) as [Hrange _].
    pose proof (filter_id_length _ _ Hnd Hin) as Hlen.
    unfold coherent. cbn [sequences activeIndex]. split; [|split].
    + intros C. rewrite C in Hlen. unfold len in Hlen at 1. cbn in Hlen. lia.
    + now apply filter_id_NoDup.
    + destruct (Z.leb_spec (len (filter (fun s => negb (id s =? i)) (sequences st)))
                           (activeIndex st)); [lia|].
      destruct (Z.ltb_spec (findIndex (fun s => id s =? i) (sequences st))
                           (activeIndex st)); lia.
  - intros fromIndex toIndex Hfrom. unfold reorderSequences.
    destruct (Nat.eqb fromIndex toIndex); [exists st; split; [reflexivity|exact Hc]|].
    rewrite Hactive.
    destruct (nth_error (sequences st) fromIndex) as [moved|] eqn:Hmoved;
      [|apply nth_error_None in Hmoved; lia].
    destruct (splice_remove1_nth _ _ _ Hmoved) as [-> _].
    pose proof (reorder_permutation (sequences st) fromIndex toIndex moved Hmoved) as Hperm.
    set (new := splice_insert _ toIndex moved) in *.
    eexists. split; [reflexivity|].
    unfold coherent. cbn [sequences activeIndex].
    assert (Hex : exists x, In x new /\ (id x =? id active) = true).
    { exists active. split; [|apply Z.eqb_refl].
      eapply Permutation_in; [exact Hperm|].
      unfold index in Hactive. destruct (activeIndex st <? 0); [discriminate|].
      eapply nth_error_In; eauto. }
    destruct (findIndex_found _ _ Hex) as [Hrange _].
    split; [|split].
    + intros C. rewrite C in Hperm. apply Permutation_sym, Permutation_nil in Hperm.
      contradiction.
    + eapply Permutation_NoDup; [|exact Hnd]. now apply Permutation_map.
    + destruct (Z.eqb_spec (findIndex (fun s => id s =? id active) new) (-1)); lia.
  - intros fromIndex toIndex Hfrom Hneq. unfold reorderSequences.
    destruct (Nat.eqb_spec fromIndex toIndex); [contradiction|].
    rewrite Hactive. unfold splice_remove1.
    rewrite (firstn_1_skipn_past _ _ Hfrom).
    match goal with
    | |- context [findIndex_id ?a ?l ?i] =>
        destruct (findIndex_id_outcome a l i) as [[k ->]| ->]
    end; cbn [bind]; auto.
  - intros i q st' H. unfold resizeSequence in H.
    destruct (map_throwing _ _) as [seqs|] eqn:E; cbn [bind] in H; [|discriminate].
    inversion H. apply coherent_same_ids; [exact Hc|].
    eapply map_throwing_ids; [|exact E]. apply resizeSequence_item_id.
  - intros q st' H. unfold setSequenceLength in H.
    destruct (map_throwing _ _) as [seqs|] eqn:E; cbn [bind] in H; [|discriminate].
    inversion H. apply coherent_same_ids; [exact Hc|].
    eapply map_throwing_ids; [|exact E]. apply setSequenceLength_item_id.
  - intros i u Hu. unfold handleSequenceUpdate. apply coherent_same_ids; [exact Hc|].
    rewrite map_map. apply map_ext. intros s. destruct (id s =? i); [|reflexivity].
    unfold spread. cbn [id]. now rewrite Hu.
  - intros st' H. unfold tick in H.
    destruct (Z.eqb_spec (len (sequences st)) 0); [discriminate|]. inversion H.
    unfold coherent. cbn [sequences activeIndex]. repeat split; auto.
    + apply Z.rem_nonneg; lia.
    + apply Z.rem_bound_pos; lia.
  - exact Hc.
  - intros playing. exact Hc.
  - intros index Hi. unfold coherent. cbn [selectSequence sequences activeIndex]. auto.
Qed.

(** Moving from a position past the end: to the front, [findIndex] meets
    the [undefined] entry first and throws; to the back, it finds the
    active card first and the call completes. *)
Example reorderSequences_past_the_end :
  reorderSequences Demo.state 5 0 = Throw TypeError /\
  reorderSequences Demo.state 5 2 = Normal None.
Proof. split; reflexivity. Qed.

Lemma operations_keep_the_state_coherent_witness :
  coherent Demo.state /\
  coherent (deleteSequence Demo.state 2) /\
  (exists st', duplicateSequence Demo.max_arguments Demo.state 1 = Normal st' /\
               coherent st') /\
  (exists st', reorderSequences Demo.state 0 2 = Normal (Some st') /\ coherent st') /\
  coherent (handleSequenceUpdate Demo.state 3 no_updates).
Proof.
  assert (H : coherent Demo.state).
  { split; [discriminate|]. split; [|cbn; lia].
    cbn. repeat constructor; cbn; lia. }
  split; [exact H|].
  pose proof (operations_keep_the_state_coherent Demo.max_arguments Demo.state H)
    as (Hnew & Hdel & Hmove & _ & _ & _ & Hupd & _).
  split; [apply Hdel|]. split; [|split].
  - destruct Hnew as (_ & Hdup & _).
    { repeat constructor; cbn; lia. }
    eexists. split; [reflexivity|]. apply (Hdup 1). reflexivity.
  - apply Hmove. cbn. lia.
  - apply Hupd. reflexivity.
Defined.

End SequencerFacts.

(** ** The sequence editor *)

Module SequenceEditorFacts.
Import JS Types Sequencer SequenceEditor SequencerFacts.

Section Editor.

Variable MAX : Z.
Variable parseInt : string -> option Z.
Hypothesis MAX_nonneg : 0 <= MAX.

Lemma Forall_firstn_skipn {A} (P : A -> Prop) (n : nat) (l : list A) :
  Forall P l -> Forall P (firstn n l) /\ Forall P (skipn n l).
Proof. intros H. apply Forall_app. now rewrite firstn_skipn. Qed.

Lemma set_and_change_within (sequence : list Z) (index : nat) (val : Z) :
  (index < List.length sequence)%nat ->
  within_limit MAX sequence -> 0 <= val <= MAX ->
  exists newSeq,
    set_and_change sequence index val = Change (data_update newSeq) /\
    List.length newSeq = List.length sequence /\
    within_limit MAX newSeq /\
    forall k, nth_error newSeq k
              = if Nat.eqb k index then Some val else nth_error sequence k.
Proof.
  intros Hi Hw Hv. unfold set_and_change, array_set.
  destruct (Nat.leb_spec index (List.length sequence)); [|lia].
  eexists. split; [reflexivity|]. split; [|split].
  - rewrite length_app, length_firstn. cbn [List.length]. rewrite length_skipn. lia.
  - unfold within_limit in *. apply Forall_app. split.
    + now apply Forall_firstn_skipn.
    + constructor; [exact Hv|]. now apply Forall_firstn_skipn.
  - intros k. destruct (Nat.eqb_spec k index) as [->|Hk].
    + rewrite nth_error_app2 by (rewrite length_firstn; lia).
      rewrite length_firstn. replace (index - Nat.min index (List.length sequence))%nat
        with O by lia. reflexivity.
    + destruct (Nat.lt_ge_cases k index).
      * rewrite nth_error_app1 by (rewrite length_firstn; lia).
        now rewrite nth_error_firstn, (proj2 (Nat.ltb_lt _ _)) by lia.
      * rewrite nth_error_app2 by (rewrite length_firstn; lia).
        rewrite length_firstn.
        replace (k - Nat.min index (List.length sequence))%nat
          with (S (k - S index)) by lia.
        cbn [nth_error]. rewrite nth_error_skipn. f_equal. lia.
Qed.

Lemma digit_value_range c v : digit_value c = Some v -> 0 <= v <= 9.
Proof.
  unfold digit_value. intros H.
  destruct (Z.leb_spec 48 (Z.of_nat (nat_of_ascii c)));
    destruct (Z.leb_spec (Z.of_nat (nat_of_ascii c)) 57); cbn in H;
    try discriminate. inversion H. lia.
Qed.

Lemma handle_within (sequence : list Z) (g : gesture) :
  on_cell sequence g -> within_limit MAX sequence ->
  handle MAX parseInt sequence g = NoChange \/
  exists newSeq,
    handle MAX parseInt sequence g = Change (data_update newSeq) /\
    List.length newSeq = List.length sequence /\
    within_limit MAX newSeq.
Proof.
  intros Hc Hw. destruct g as [index delta|key index|valStr index|]; cbn [handle on_cell] in *.
  - unfold handleValueChange. destruct (nth_error sequence index) as [old|]; [|now left].
    destruct (Z.leb_spec 0 (old + delta)); destruct (Z.leb_spec (old + delta) MAX);
      cbn [andb]; try now left.
    right. destruct (set_and_change_within sequence index (old + delta) Hc Hw)
      as [d [E [L [W _]]]]; [lia|]. eauto.
  - unfold handleKeyDown.
    destruct (String.eqb key "ArrowRight"); [now left|].
    destruct (String.eqb key "ArrowLeft"); [now left|].
    destruct (String.eqb key "Backspace").
    + right. destruct (set_and_change_within sequence index 0 Hc Hw)
        as [d [E [L [W _]]]]; [lia|]. eauto.
    + destruct key as [|c [|? ?]]; try now left.
      destruct (digit_value c) as [val|] eqn:D; [|now left].
      destruct (Z.leb_spec val MAX); [|now left].
      apply digit_value_range in D.
      right. destruct (set_and_change_within sequence index val Hc Hw)
        as [d [E [L [W _]]]]; [lia|]. eauto.
  - unfold handleInputChange.
    destruct (String.eqb valStr EmptyString); [now left|].
    destruct (parseInt valStr) as [val|]; [|now left].
    destruct (Z.leb_spec 0 val); destruct (Z.leb_spec val MAX);
      cbn [andb]; try now left.
    right. destruct (set_and_change_within sequence index val Hc Hw)
      as [d [E [L [W _]]]]; [lia|]. eauto.
  - right. unfold handleReset. eexists. split; [reflexivity|].
    split; [apply repeat_length|].
    apply Forall_forall. intros v Hv. apply repeat_spec in Hv. lia.
Qed.

Lemma Forall2_same {A} (R : A -> A -> Prop) (l : list A) :
  (forall x, In x l -> R x x) -> Forall2 R l l.
Proof.
  induction l as [|x r IH]; intros H; constructor.
  - apply H. now left.
  - apply IH. intros; apply H; now right.
Qed.

(** X6. The editor keeps the cards well formed.  On a collection with
    unique ids whose values all lie in [0 .. MAX_VALUE_PER_DIVISION], any
    gesture on a cell of the editor (plus or minus button, key, typed
    text, reset) leaves a collection in which every card has the values
    it had in number, all of them still within [0 ..
    MAX_VALUE_PER_DIVISION], and its id, name, description and geometry;
    only the card that carries the active id can change at all. *)
Theorem edit_keeps_values_within_limit (st : State) (activeId : Z) (g : gesture) :
  NoDup (map id (sequences st)) ->
  Forall (fun s => within_limit MAX (data s)) (sequences st) ->
  (forall active, find (fun s => id s =? activeId) (sequences st) = Some active ->
                  on_cell (data active) g) ->
  exists st',
    edit MAX parseInt st activeId g = Some st' /\
    activeIndex st' = activeIndex st /\
    isPlaying st' = isPlaying st /\
    timingMs st' = timingMs st /\
    Forall2 (fun s s' =>
               id s' = id s /\ name s' = name s /\
               description s' = description s /\ geoConfig s' = geoConfig s /\
               List.length (data s') = List.length (data s) /\
               within_limit MAX (data s') /\
               (id s <> activeId -> s' = s))
            (sequences st) (sequences st').
Proof.
  intros Hnd Hw Hcell. rewrite Forall_forall in Hw.
  assert (Same : Forall2 (fun s s' =>
               id s' = id s /\ name s' = name s /\
               description s' = description s /\ geoConfig s' = geoConfig s /\
               List.length (data s') = List.length (data s) /\
               within_limit MAX (data s') /\
               (id s <> activeId -> s' = s))
            (sequences st) (sequences st)).
  { apply Forall2_same. intros s Hs. repeat split; auto. }
  unfold edit.
  destruct (find (fun s => id s =? activeId) (sequences st)) as [active|] eqn:F.
  - apply find_some in F as F'. destruct F' as [Hin Hid]. apply Z.eqb_eq in Hid.
    destruct (handle_within (data active) g (Hcell active eq_refl) (Hw active Hin))
      as [E|[newSeq [E [L W]]]]; rewrite E; cbn [onChange].
    + exists st. repeat split; auto.
    + eexists. split; [reflexivity|].
      unfold handleSequenceUpdate.
      cbn [with_sequences sequences activeIndex isPlaying timingMs].
      repeat split. apply Forall2_map_r. intros s Hs.
      destruct (Z.eqb_spec (id s) (id active)) as [Hs_id|Hs_id].
      * rewrite (NoDup_id_unique _ _ _ Hnd Hs Hin Hs_id).
        unfold spread, data_update.
        cbn [u_id u_name u_description u_data u_geoConfig or_else
             id name description data geoConfig].
        repeat split; auto. intros C. congruence.
      * repeat split; auto.
  - exists st. repeat split; auto.
Qed.

End Editor.

Lemma edit_keeps_values_within_limit_witness :
  0 <= 9 /\
  NoDup (map id (sequences Demo.state)) /\
  Forall (fun s => within_limit 9 (data s)) (sequences Demo.state) /\
  (forall active, find (fun s => id s =? 2) (sequences Demo.state) = Some active ->
                  on_cell (data active) (Key "5" 1)) /\
  exists st',
    edit 9 (fun _ => None) Demo.state 2 (Key "5" 1) = Some st' /\
    Forall (fun s => within_limit 9 (data s)) (sequences st').
Proof.
  assert (H0 : 0 <= 9) by lia.
  assert (H1 : NoDup (map id (sequences Demo.state))).
  { cbn. repeat constructor; cbn; lia. }
  assert (H2 : Forall (fun s => within_limit 9 (data s)) (sequences Demo.state)).
  { repeat constructor; cbn; lia. }
  assert (H3 : forall active,
             find (fun s => id s =? 2) (sequences Demo.state) = Some active ->
             on_cell (data active) (Key "5" 1)).
  { intros active E. cbn in E. inversion E. cbn. lia. }
  repeat (split; [assumption|]).
  destruct (edit_keeps_values_within_limit 9 (fun _ => None) H0 Demo.state 2 (Key "5" 1)
              H1 H2 H3) as [st' [E [_ [_ [_ F]]]]].
  exists st'. split; [exact E|].
  eapply Forall2_Forall_r; [exact F|]. intros s s' R. apply R.
Defined.

Example edit_key_example :
  option_map (fun st => map data (sequences st))
             (edit 9 (fun _ => None) Demo.state 2 (Key "5" 1))
  = Some [[0; 1; 0; 3]; [9; 5; 7; 6]; [1; 2; 3; 4]].
Proof. reflexivity. Qed.

End SequenceEditorFacts.

(** ** PNG metadata chunks *)

Module PngFacts.
Import JS Png.

(** The loop, one turn unfolded. *)
Lemma readLoop_unfold (max_arguments : Z) (data : bytes) (key : jsstring) (offset : Z) :
  readLoop max_arguments data key offset =
  if Z_lt_dec offset (blen data) then
    match loopBody max_arguments data key offset with
    | Throw e => Throw e
    | Normal (Return v) => Normal (Some v)
    | Normal Break => Normal None
    | Normal (Continue offset') => readLoop max_arguments data key offset'
    end
  else Normal None.
Proof.
  funelim (readLoop max_arguments data key offset);
    try match goal with E : Z_lt_dec _ _ = _ |- _ => rewrite E end;
    try match goal with E : loopBody max_arguments _ _ _ = _ |- _ => rewrite E end;
    reflexivity.
Qed.

Lemma byte_to_of_Z c : byte_to_Z (byte_of_Z c) = c mod 256.
Proof.
  unfold byte_to_Z, byte_of_Z.
  pose proof (Z.mod_pos_bound c 256 ltac:(lia)) as B.
  destruct (Byte.of_N (Z.to_N (c mod 256))) as [b|] eqn:E.
  - apply Byte.to_of_N in E. rewrite E. lia.
  - apply Byte.of_N_None_iff in E. lia.
Qed.

Lemma byte_to_Z_bound b : 0 <= byte_to_Z b < 256.
Proof. unfold byte_to_Z. pose proof (Byte.to_N_bounded b). lia. Qed.

Lemma byte_of_to_Z b : byte_of_Z (byte_to_Z b) = b.
Proof.
  unfold byte_of_Z. rewrite Z.mod_small by apply byte_to_Z_bound.
  unfold byte_to_Z. rewrite N2Z.id, Byte.of_to_N. reflexivity.
Qed.

(** Characters below 256 survive the trip through a [Uint8Array]. *)
Lemma charCodes_stringToUint8 (s : jsstring) :
  Forall (fun c => 0 <= c < 256) s -> charCodes (stringToUint8 s) = s.
Proof.
  unfold charCodes, stringToUint8. induction 1 as [|c r Hc _ IH]; [reflexivity|].
  cbn [map]. rewrite byte_to_of_Z, Z.mod_small, IH by lia. reflexivity.
Qed.

Lemma blen_app (a b : bytes) : blen (a ++ b) = blen a + blen b.
Proof. unfold blen. rewrite length_app. lia. Qed.

Lemma blen_nonneg (a : bytes) : 0 <= blen a.
Proof. unfold blen. lia. Qed.

Lemma blen_stringToUint8 s : blen (stringToUint8 s) = Z.of_nat (List.length s).
Proof. unfold blen, stringToUint8. now rewrite length_map. Qed.

Lemma firstn_blen_app (a b : bytes) n :
  n = Z.to_nat (blen a) -> firstn n (a ++ b) = a.
Proof.
  intros ->. unfold blen. rewrite Nat2Z.id, firstn_app, Nat.sub_diag, firstn_all.
  cbn. apply app_nil_r.
Qed.

Lemma skipn_blen_app (a b : bytes) n :
  n = Z.to_nat (blen a) -> skipn n (a ++ b) = b.
Proof.
  intros ->. unfold blen. rewrite Nat2Z.id, skipn_app, Nat.sub_diag, skipn_all.
  reflexivity.
Qed.

(** A slice that starts where [pre] ends and has the length of [mid]. *)
Lemma subarray_middle (pre mid post : bytes) b e :
  b = blen pre -> e = b + blen mid ->
  subarray (pre ++ mid ++ post) b e = mid.
Proof.
  intros -> ->. unfold subarray.
  rewrite (skipn_blen_app pre) by reflexivity.
  apply firstn_blen_app. f_equal. lia.
Qed.

Lemma getUint32_be_middle (pre post : bytes) b0 b1 b2 b3 offset :
  offset = blen pre ->
  getUint32_be (pre ++ [b0; b1; b2; b3] ++ post) offset =
  Normal (byte_to_Z b0 * 2 ^ 24 + byte_to_Z b1 * 2 ^ 16
          + byte_to_Z b2 * 2 ^ 8 + byte_to_Z b3).
Proof.
  intros ->. unfold getUint32_be.
  pose proof (blen_nonneg pre). pose proof (blen_nonneg post).
  rewrite !blen_app. change (blen [b0; b1; b2; b3]) with 4.
  destruct (Z.ltb_spec (blen pre) 0); [lia|].
  destruct (Z.ltb_spec (blen pre + (4 + blen post)) (blen pre + 4)); [lia|].
  cbn [orb]. f_equal.
  assert (N : forall i, 0 <= i < 4 ->
            nth (Z.to_nat (blen pre + i)) (pre ++ [b0; b1; b2; b3] ++ post) Byte.x00
            = nth (Z.to_nat i) [b0; b1; b2; b3] Byte.x00).
  { intros i Hi. unfold blen.
    replace (Z.to_nat (Z.of_nat (List.length pre) + i))
      with (List.length pre + Z.to_nat i)%nat by lia.
    rewrite app_nth2_plus, app_nth1 by (cbn [List.length]; lia). reflexivity. }
  rewrite (N 0), (N 1), (N 2), (N 3) by lia. reflexivity.
Qed.

Lemma setUint32_be_spec v :
  0 <= v < 2 ^ 32 ->
  exists b0 b1 b2 b3,
    setUint32_be v = [b0; b1; b2; b3] /\
    byte_to_Z b0 * 2 ^ 24 + byte_to_Z b1 * 2 ^ 16
    + byte_to_Z b2 * 2 ^ 8 + byte_to_Z b3 = v.
Proof.
  intros Hv. unfold setUint32_be. rewrite (Z.mod_small v) by lia.
  cbn [map]. do 4 eexists. split; [reflexivity|].
  rewrite !byte_to_of_Z.
  change (2 ^ 24) with 16777216. change (2 ^ 16) with 65536. change (2 ^ 8) with 256.
  change (2 ^ 32) with 4294967296 in Hv.
  pose proof (Z.div_mod v 16777216 ltac:(lia)).
  pose proof (Z.mod_pos_bound v 16777216 ltac:(lia)).
  assert (v / 16777216 < 256) by (apply Z.div_lt_upper_bound; lia).
  assert (0 <= v / 16777216) by (apply Z.div_pos; lia).
  rewrite (Z.mod_small (v / 16777216)) by lia.
  pose proof (Z.div_mod v 65536 ltac:(lia)).
  pose proof (Z.div_mod v 256 ltac:(lia)).
  pose proof (Z.div_mod (v / 65536) 256 ltac:(lia)).
  pose proof (Z.div_mod (v / 256) 256 ltac:(lia)).
  pose proof (Z.mod_pos_bound (v / 65536) 256 ltac:(lia)).
  pose proof (Z.mod_pos_bound (v / 256) 256 ltac:(lia)).
  pose proof (Z.mod_pos_bound v 256 ltac:(lia)).
  replace (v / 65536 / 256) with (v / 16777216) in * by (rewrite Z.div_div by lia; reflexivity).
  replace (v / 256 / 256) with (v / 65536) in * by (rewrite Z.div_div by lia; reflexivity).
  lia.
Qed.


Lemma typed_set_exact (t1 t2 t3 src : bytes) off :
  off = blen t1 -> blen t2 = blen src ->
  typed_set (t1 ++ t2 ++ t3) src off = Normal (t1 ++ src ++ t3).
Proof.
  intros -> L. unfold typed_set. rewrite !blen_app, L.
  pose proof (blen_nonneg t3).
  destruct (Z.ltb_spec (blen t1 + (blen src + blen t3)) (blen t1 + blen src)); [lia|].
  rewrite (firstn_blen_app t1) by reflexivity.
  replace (skipn (Z.to_nat (blen t1 + blen src)) (t1 ++ t2 ++ t3)) with t3;
    [reflexivity|].
  rewrite (app_assoc t1 t2 t3). symmetry. apply skipn_blen_app.
  rewrite blen_app. f_equal. lia.
Qed.

(** What [writePngMetadata] returns: the chunk spliced in at byte 33, or a
    [RangeError] when the buffer is shorter than that. *)
Lemma writePngMetadata_spec (png : bytes) (key value : jsstring) :
  writePngMetadata png key value =
  if blen png <? 33 then Throw RangeError
  else Normal (firstn 33 png ++ fullChunk key value ++ skipn 33 png).
Proof.
  unfold writePngMetadata.
  set (chunk := fullChunk key value).
  pose proof (blen_nonneg chunk) as Hc.
  destruct (Z.ltb_spec (blen png) 33) as [Hs|Hl].
  - (* the first [set] fits, the second does not *)
    assert (E1 : subarray png 0 33 = png).
    { unfold subarray. cbn [skipn Z.to_nat Z.sub Z.opp Z.add]. 
      apply firstn_all2. unfold blen in Hs. cbn. lia. }
    rewrite E1.
    assert (N : repeat Byte.x00 (Z.to_nat (blen png + blen chunk))
                = [] ++ repeat Byte.x00 (List.length png)
                     ++ repeat Byte.x00 (List.length chunk)).
    { cbn [app]. rewrite <- repeat_app. f_equal. unfold blen. lia. }
    rewrite N, (typed_set_exact [] _ _ png 0);
      [|reflexivity|unfold blen; now rewrite repeat_length].
    cbn [bind app]. unfold typed_set at 1. rewrite blen_app.
    assert (blen (repeat Byte.x00 (List.length chunk)) = blen chunk)
      by (unfold blen; now rewrite repeat_length).
    destruct (Z.ltb_spec (blen png + blen (repeat Byte.x00 (List.length chunk)))
                         (33 + blen chunk)); [reflexivity|lia].
  - set (A := firstn 33 png). set (B := skipn 33 png).
    assert (EA : blen A = 33).
    { unfold A, blen in *. rewrite length_firstn. lia. }
    assert (Epng : png = A ++ B) by (symmetry; apply firstn_skipn).
    assert (E1 : subarray png 0 33 = A) by reflexivity.
    assert (E2 : subarray png 33 (blen png) = B).
    { unfold subarray. fold B. apply firstn_all2.
      rewrite Epng, blen_app, EA. unfold blen. lia. }
    rewrite E1, E2.
    assert (N : repeat Byte.x00 (Z.to_nat (blen png + blen chunk))
                = [] ++ repeat Byte.x00 33
                     ++ repeat Byte.x00 (List.length chunk + List.length B)).
    { cbn [app]. rewrite <- repeat_app. f_equal.
      rewrite Epng, blen_app, EA. unfold blen. lia. }
    rewrite N, (typed_set_exact [] _ _ A 0);
      [|reflexivity|rewrite EA; unfold blen; now rewrite repeat_length].
    cbn [bind app]. rewrite repeat_app.
    rewrite (typed_set_exact A _ _ chunk 33);
      [|now rewrite EA|unfold blen; now rewrite repeat_length].
    cbn [bind].
    replace (A ++ chunk ++ repeat Byte.x00 (List.length B))
      with ((A ++ chunk) ++ repeat Byte.x00 (List.length B) ++ [])
      by (now rewrite app_nil_r, <- app_assoc).
    rewrite (typed_set_exact (A ++ chunk));
      [|rewrite blen_app, EA; reflexivity|unfold blen; now rewrite repeat_length].
    rewrite app_nil_r, <- app_assoc. reflexivity.
Qed.


Lemma nullIndex_from_key (key : jsstring) (rest : bytes) i :
  Forall (fun c => 0 < c < 256) key ->
  nullIndex_from (stringToUint8 key ++ Byte.x00 :: rest) i
  = i + Z.of_nat (List.length key).
Proof.
  intros H. revert i. induction H as [|c r Hc _ IH]; intros i.
  - cbn. lia.
  - cbn [stringToUint8 map app nullIndex_from List.length].
    destruct (Byte.eqb (byte_of_Z c) Byte.x00) eqn:E.
    + apply Byte.byte_dec_bl in E.
      pose proof (byte_to_of_Z c) as R. rewrite E, Z.mod_small in R by lia.
      cbn in R. lia.
    + fold (stringToUint8 r). rewrite IH. lia.
Qed.

Lemma jsstring_eqb_refl s : jsstring_eqb s s = true.
Proof. unfold jsstring_eqb. destruct (list_eq_dec Z.eq_dec s s); congruence. Qed.

Lemma fromCharCode_fits (max_arguments : Z) (arr : bytes) :
  blen arr <= max_arguments -> fromCharCode max_arguments arr = Normal (charCodes arr).
Proof.
  intros H. unfold fromCharCode, spread_call.
  destruct (Z.leb_spec (blen arr) max_arguments); [reflexivity|lia].
Qed.

Lemma fromCharCode_leb (max_arguments : Z) (arr : bytes) :
  fromCharCode max_arguments arr
  = if blen arr <=? max_arguments then Normal (charCodes arr) else Throw RangeError.
Proof. reflexivity. Qed.

(** The turn of the loop at the IHDR chunk of a container. *)
Lemma loopBody_IHDR (max_arguments : Z) (signature rest : bytes) (key : jsstring) :
  blen signature = 8 -> 4 <= max_arguments ->
  loopBody max_arguments (signature ++ IHDR_head ++ rest) key 8 = Normal (Continue 33).
Proof.
  intros Hs Hm. unfold loopBody.
  change IHDR_head
    with ([Byte.x00; Byte.x00; Byte.x00; Byte.x0d]
            ++ [Byte.x49; Byte.x48; Byte.x44; Byte.x52]).
  rewrite <- (app_assoc [Byte.x00; Byte.x00; Byte.x00; Byte.x0d]).
  rewrite getUint32_be_middle by (symmetry; exact Hs). cbn [bind].
  rewrite (app_assoc signature).
  rewrite subarray_middle;
    [|rewrite blen_app, Hs; reflexivity|reflexivity].
  rewrite fromCharCode_fits by exact Hm. reflexivity.
Qed.

(** Bounds on the characters of a literal. *)
Ltac literal_chars :=
  unfold lit; cbn [list_ascii_of_string map];
  repeat (constructor; [cbn; lia|]); constructor.

Lemma minimalPng_container : minimal_container Demo.minimalPng.
Proof.
  exists (firstn 8 Demo.minimalPng), (firstn 13 (skipn 16 Demo.minimalPng)),
         (firstn 4 (skipn 29 Demo.minimalPng)), (skipn 33 Demo.minimalPng).
  repeat split; reflexivity.
Qed.

(** C6, the claim as stated fails for a key that holds a NUL character:
    the reader splits the chunk at the first zero byte, takes the empty
    string for the key and finds no match. *)
Lemma read_after_write_NUL_key :
  minimal_container Demo.minimalPng /\
  Forall (fun c => 0 <= c < 256) [0] /\
  Forall (fun c => 0 <= c < 256) (lit "hello") /\
  exists out,
    writePngMetadata Demo.minimalPng [0] (lit "hello") = Normal out /\
    readPngMetadata Demo.max_arguments out [0] = Normal None /\
    readPngMetadata Demo.max_arguments out [0] <> Normal (Some (lit "hello")).
Proof.
  split; [exact minimalPng_container|].
  split; [repeat (constructor; [lia|]); constructor|].
  split; [literal_chars|].
  eexists. split; [reflexivity|]. split; [reflexivity|discriminate].
Qed.

(** A buffer that ends within the eight bytes of a chunk header, four
    bytes short of a length field, makes [getUint32] throw. *)
Lemma readPngMetadata_short_header (max_arguments : Z) (data : bytes) (key : jsstring) :
  8 < blen data < 12 -> readPngMetadata max_arguments data key = Throw RangeError.
Proof.
  intros H. unfold readPngMetadata. rewrite readLoop_unfold.
  destruct (Z_lt_dec 8 (blen data)); [|lia].
  unfold loopBody, getUint32_be.
  destruct (Z.ltb_spec (blen data) (8 + 4)); [|lia].
  reflexivity.
Qed.

(** A buffer no longer than the signature has no chunk to read. *)
Lemma readPngMetadata_no_chunk (max_arguments : Z) (data : bytes) (key : jsstring) :
  blen data <= 8 -> readPngMetadata max_arguments data key = Normal None.
Proof.
  intros H. unfold readPngMetadata. rewrite readLoop_unfold.
  destruct (Z_lt_dec 8 (blen data)); [lia|reflexivity].
Qed.

(** A chunk whose length field points past the end of the buffer ends the
    scan without a result. *)
Example readPngMetadata_length_past_end :
  readPngMetadata Demo.max_arguments
    (firstn 8 Demo.minimalPng
     ++ map byte_of_Z [0; 0; 255; 255; 116; 69; 88; 116; 75; 0; 104; 105])
    (lit "QRPConfig") = Normal None.
Proof. reflexivity. Qed.

(** C2. On the nine bytes made of the PNG signature and one more byte,
    [readPngMetadata] does not return [null]: reading the chunk length
    throws a [RangeError], whatever the key. *)
Theorem readPngMetadata_truncated_throws :
  forall (max_arguments : Z) (key : jsstring),
    readPngMetadata max_arguments (firstn 9 Demo.minimalPng) key = Throw RangeError.
Proof.
  intros max_arguments key. apply readPngMetadata_short_header. cbn. lia.
Qed.


(** *** Reading depends only on the bytes from the offset on *)

Lemma getUint32_be_shift (pre rest : bytes) (o : Z) :
  0 <= o -> getUint32_be (pre ++ rest) (blen pre + o) = getUint32_be rest o.
Proof.
  intros Ho. unfold getUint32_be. pose proof (blen_nonneg pre). rewrite blen_app.
  destruct (Z.ltb_spec (blen pre + o) 0); [lia|].
  destruct (Z.ltb_spec o 0); [lia|]. cbn [orb].
  destruct (Z.ltb_spec (blen pre + blen rest) (blen pre + o + 4));
    destruct (Z.ltb_spec (blen rest) (o + 4)); try lia; [reflexivity|].
  assert (N : forall i, 0 <= i ->
             nth (Z.to_nat (blen pre + o + i)) (pre ++ rest) Byte.x00
             = nth (Z.to_nat (o + i)) rest Byte.x00).
  { intros i Hi. unfold blen in *. rewrite app_nth2 by lia. f_equal. lia. }
  now rewrite !N by lia.
Qed.

Lemma subarray_shift (pre rest : bytes) (b e : Z) :
  0 <= b -> subarray (pre ++ rest) (blen pre + b) (blen pre + e) = subarray rest b e.
Proof.
  intros Hb. unfold subarray.
  replace (blen pre + e - (blen pre + b)) with (e - b) by lia.
  f_equal. unfold blen.
  replace (Z.to_nat (Z.of_nat (List.length pre) + b))
    with (List.length pre + Z.to_nat b)%nat by lia.
  now rewrite skipn_app, skipn_all2, Nat.add_comm, Nat.add_sub by lia.
Qed.

Lemma loopBody_shift (max_arguments : Z) (pre rest : bytes) (key : jsstring) (o : Z) :
  0 <= o ->
  loopBody max_arguments (pre ++ rest) key (blen pre + o)
  = (t <- loopBody max_arguments rest key o ;; Normal (shift_turn (blen pre) t))%js.
Proof.
  intros Ho. unfold loopBody. rewrite getUint32_be_shift by exact Ho.
  destruct (getUint32_be rest o) as [length|e]; cbn [bind]; [|reflexivity].
  replace (blen pre + o + 4) with (blen pre + (o + 4)) by lia.
  replace (blen pre + o + 8) with (blen pre + (o + 8)) by lia.
  replace (blen pre + (o + 8) + length) with (blen pre + (o + 8 + length)) by lia.
  rewrite !subarray_shift by lia.
  replace (blen pre + o + 12 + length) with (o + 12 + length + blen pre) by lia.
  unfold fromCharCode, spread_call, bind.
  repeat match goal with
         | |- context [if ?c then _ else _] => destruct c
         end; cbn [shift_turn]; reflexivity.
Qed.

Lemma readLoop_shift_fuel (max_arguments : Z) (pre rest : bytes) (key : jsstring) (n : nat) :
  forall o, 0 <= o -> (Z.to_nat (blen rest - o) <= n)%nat ->
    readLoop max_arguments (pre ++ rest) key (blen pre + o) = readLoop max_arguments rest key o.
Proof.
  induction n as [|n IH]; intros o Ho Hn;
    rewrite (readLoop_unfold _ (pre ++ rest)), (readLoop_unfold _ rest), blen_app.
  - destruct (Z_lt_dec (blen pre + o) (blen pre + blen rest));
      destruct (Z_lt_dec o (blen rest)); try lia. reflexivity.
  - destruct (Z_lt_dec (blen pre + o) (blen pre + blen rest));
      destruct (Z_lt_dec o (blen rest)); try lia; [|reflexivity].
    rewrite loopBody_shift by exact Ho.
    destruct (loopBody max_arguments rest key o) as [[v| |o']|e] eqn:E; cbn [bind shift_turn];
      try reflexivity.
    apply loopBody_advances in E.
    rewrite Z.add_comm. apply IH; lia.
Qed.

Lemma readLoop_shift (max_arguments : Z) (pre rest : bytes) (key : jsstring) (o : Z) :
  0 <= o -> readLoop max_arguments (pre ++ rest) key (blen pre + o) = readLoop max_arguments rest key o.
Proof.
  intros Ho.
  now apply (readLoop_shift_fuel max_arguments pre rest key (Z.to_nat (blen rest - o))).
Qed.

Lemma readLoop_skip (max_arguments : Z) (pre rest : bytes) (key : jsstring) (o : Z) :
  o = blen pre -> readLoop max_arguments (pre ++ rest) key o = readLoop max_arguments rest key 0.
Proof.
  intros ->. rewrite <- (Z.add_0_r (blen pre)). now apply readLoop_shift.
Qed.

(** *** One chunk *)

Lemma split_at_null_spec (d : bytes) (i : Z) :
  match split_at_null d with
  | Some (k, v) => d = k ++ Byte.x00 :: v /\ nullIndex_from d i = i + blen k
  | None => forall j, nullIndex_from d j = -1
  end.
Proof.
  revert i. induction d as [|b r IH]; intros i; cbn [split_at_null nullIndex_from].
  - reflexivity.
  - destruct (Byte.eqb b Byte.x00) eqn:E.
    + apply Byte.byte_dec_bl in E. subst. split; [reflexivity|].
      change (blen []) with 0. lia.
    + specialize (IH (i + 1)). destruct (split_at_null r) as [[k v]|].
      * destruct IH as [-> IH]. split; [reflexivity|]. rewrite IH.
        unfold blen. cbn [List.length]. lia.
      * intros j. apply IH.
Qed.

Lemma nullIndex_from_range (d : bytes) (i : Z) :
  0 <= i -> nullIndex_from d i = -1 \/ i <= nullIndex_from d i.
Proof.
  revert i. induction d as [|b r IH]; intros i Hi; cbn [nullIndex_from]; [now left|].
  destruct (Byte.eqb b Byte.x00); [right; lia|].
  destruct (IH (i + 1)); [lia|now left|right; lia].
Qed.

Lemma loopBody_chunk (max_arguments : Z) (c : chunk) (more : bytes) (key : jsstring) :
  well_formed c -> 4 <= max_arguments ->
  loopBody max_arguments (encode c ++ more) key 0
  = (t <- text_of max_arguments key c ;;
     Normal match t with
            | Some v => Return v
            | None => if jsstring_eqb (charCodes (c_type c)) IEND then Break
                      else Continue (blen (encode c))
            end)%js.
Proof.
  intros (Ht & Hc & Hd) Hm.
  assert (Le : blen (encode c) = 0 + 12 + blen (c_data c)).
  { unfold encode. rewrite !blen_app, Ht, Hc.
    change (blen (setUint32_be _)) with 4. lia. }
  rewrite Le. unfold loopBody, encode, text_of.
  pose proof (blen_nonneg (c_data c)) as Hd0.
  destruct (setUint32_be_spec (blen (c_data c))) as (b0 & b1 & b2 & b3 & E & Hv); [lia|].
  rewrite E. rewrite <- !app_assoc.
  pose proof (getUint32_be_middle [] (c_type c ++ c_data c ++ c_crc c ++ more)
                b0 b1 b2 b3 0 eq_refl) as G.
  cbn [app] in G |- *. rewrite G, Hv. cbn [bind].
  change (b0 :: b1 :: b2 :: b3 :: c_type c ++ c_data c ++ c_crc c ++ more)
    with ([b0; b1; b2; b3] ++ c_type c ++ (c_data c ++ c_crc c ++ more)).
  rewrite (subarray_middle [b0; b1; b2; b3] (c_type c));
    [|reflexivity|rewrite Ht; reflexivity].
  rewrite fromCharCode_fits by lia. cbn [bind].
  replace ([b0; b1; b2; b3] ++ c_type c ++ c_data c ++ c_crc c ++ more)
    with (([b0; b1; b2; b3] ++ c_type c) ++ c_data c ++ (c_crc c ++ more))
    by (now rewrite <- !app_assoc).
  rewrite (subarray_middle _ (c_data c));
    [|rewrite blen_app, Ht; reflexivity|lia].
  destruct (jsstring_eqb (charCodes (c_type c)) tEXt); cbn [bind];
    [|now destruct (jsstring_eqb (charCodes (c_type c)) IEND)].
  pose proof (split_at_null_spec (c_data c) 0) as S.
  destruct (split_at_null (c_data c)) as [[k v]|].
  - destruct S as [Ed En]. rewrite !En. pose proof (blen_nonneg k).
    destruct (Z.eqb_spec (0 + blen k) (-1)); [lia|]. cbn [negb].
    assert (Ek : subarray (c_data c) 0 (0 + blen k) = k).
    { rewrite Ed. apply (subarray_middle [] k); [reflexivity|lia]. }
    assert (Ev : subarray (c_data c) (0 + blen k + 1) (blen (c_data c)) = v).
    { rewrite Ed at 1.
      replace (k ++ Byte.x00 :: v) with ((k ++ [Byte.x00]) ++ v ++ [])
        by (now rewrite app_nil_r, <- app_assoc).
      apply subarray_middle.
      - rewrite blen_app. change (blen [Byte.x00]) with 1. lia.
      - rewrite Ed, !blen_app. unfold blen. cbn [List.length]. lia. }
    rewrite Ek, Ev, !fromCharCode_leb.
    destruct (blen k <=? max_arguments); cbn [bind]; [|reflexivity].
    destruct (jsstring_eqb (charCodes k) key); cbn [bind].
    + destruct (blen v <=? max_arguments); reflexivity.
    + now destruct (jsstring_eqb (charCodes (c_type c)) IEND).
  - rewrite !S. cbn [Z.eqb negb bind].
    now destruct (jsstring_eqb (charCodes (c_type c)) IEND).
Qed.

Lemma jsstring_eqb_eq (a b : jsstring) : jsstring_eqb a b = true <-> a = b.
Proof.
  unfold jsstring_eqb. destruct (list_eq_dec Z.eq_dec a b); split; congruence.
Qed.

Lemma blen_encode (c : chunk) :
  well_formed c -> blen (encode c) = 12 + blen (c_data c).
Proof.
  intros (Ht & Hc & _). unfold encode. rewrite !blen_app, Ht, Hc.
  change (blen (setUint32_be _)) with 4. lia.
Qed.

Lemma readLoop_chunk (max_arguments : Z) (c : chunk) (more : bytes) (key : jsstring) :
  well_formed c -> 4 <= max_arguments ->
  readLoop max_arguments (encode c ++ more) key 0
  = match text_of max_arguments key c with
    | Throw e => Throw e
    | Normal (Some v) => Normal (Some v)
    | Normal None => if jsstring_eqb (charCodes (c_type c)) IEND then Normal None
                     else readLoop max_arguments more key 0
    end.
Proof.
  intros Hw Hm. rewrite readLoop_unfold, blen_app, (blen_encode c Hw).
  pose proof (blen_nonneg (c_data c)). pose proof (blen_nonneg more).
  destruct (Z_lt_dec 0 (12 + blen (c_data c) + blen more)); [|lia].
  rewrite (loopBody_chunk max_arguments c more key Hw Hm).
  destruct (text_of max_arguments key c) as [[v|]|e]; cbn [bind]; try reflexivity.
  destruct (jsstring_eqb (charCodes (c_type c)) IEND); [reflexivity|].
  now apply readLoop_skip.
Qed.

Lemma text_of_fits (max_arguments : Z) (key : jsstring) (c : chunk) :
  text_fits max_arguments c -> exists r, text_of max_arguments key c = Normal r.
Proof.
  intros F. unfold text_of.
  destruct (jsstring_eqb (charCodes (c_type c)) tEXt) eqn:T; [|eauto].
  apply jsstring_eqb_eq in T. specialize (F T).
  pose proof (split_at_null_spec (c_data c) 0) as S.
  destruct (split_at_null (c_data c)) as [[k v]|]; [|eauto].
  destruct S as [Ed _]. rewrite Ed, blen_app in F.
  pose proof (blen_nonneg k). pose proof (blen_nonneg v).
  assert (blen (Byte.x00 :: v) = 1 + blen v) by (unfold blen; cbn [List.length]; lia).
  destruct (Z.leb_spec (blen k) max_arguments); [|lia].
  destruct (jsstring_eqb (charCodes k) key); [|eauto].
  destruct (Z.leb_spec (blen v) max_arguments); [eauto|lia].
Qed.

(** X7. On a file made of the signature and well-formed chunks, read by
    an engine that takes at least four arguments, [readPngMetadata]
    returns the text of the first text chunk with the given keyword found
    among the chunks up to the first IEND chunk, and [null] when there is
    none; it throws a [RangeError] when, on the way, a text chunk has a
    keyword, or the chunk looked for a text, of more bytes than the engine
    takes as arguments, and only then: it does not throw when the data of
    every text chunk is within that number.  What follows an IEND chunk
    is never looked at, whatever bytes it holds. *)
Theorem readPngMetadata_walks_chunks (max_arguments : Z)
    (signature : bytes) (chunks : list chunk) (trailing : bytes) (key : jsstring) :
  blen signature = 8 ->
  Forall well_formed chunks ->
  4 <= max_arguments ->
  trailing = [] \/ Exists (fun c => charCodes (c_type c) = IEND) chunks ->
  readPngMetadata max_arguments (file signature chunks ++ trailing) key
  = lookup max_arguments key chunks /\
  (Forall (text_fits max_arguments) chunks ->
   exists r, lookup max_arguments key chunks = Normal r).
Proof.
  intros Hs Hw Hm Ht. split.
  - unfold readPngMetadata, file. rewrite <- app_assoc.
    rewrite readLoop_skip by (symmetry; exact Hs).
    induction Hw as [|c r Hc Hr IH]; cbn [map List.concat lookup].
    + destruct Ht as [->|Ht]; [|inversion Ht].
      rewrite readLoop_unfold. reflexivity.
    + rewrite <- app_assoc, (readLoop_chunk max_arguments c _ key Hc Hm).
      destruct (text_of max_arguments key c) as [[v|]|e]; try reflexivity.
      destruct (jsstring_eqb (charCodes (c_type c)) IEND) eqn:E; [reflexivity|].
      apply IH. destruct Ht as [Ht|Ht]; [now left|right].
      inversion Ht as [? ? H|]; subst; [|assumption].
      apply jsstring_eqb_eq in H. congruence.
  - intros F. clear Ht Hw. induction F as [|c r Fc Fr IH]; cbn [lookup]; [eauto|].
    destruct (text_of_fits max_arguments key c Fc) as [[v|] ->]; [eauto|].
    destruct (jsstring_eqb (charCodes (c_type c)) IEND); [eauto|exact IH].
Qed.

Lemma fullChunk_encode (key value : jsstring) :
  fullChunk key value = encode (textChunk key value).
Proof. unfold fullChunk, encode, textChunk. cbn [c_type c_data c_crc]. now rewrite <- !app_assoc. Qed.

Lemma textChunk_well_formed (key value : jsstring) :
  Z.of_nat (List.length key) + 1 + Z.of_nat (List.length value) < 2 ^ 32 ->
  well_formed (textChunk key value).
Proof.
  intros H. unfold well_formed, textChunk. cbn [c_type c_data c_crc].
  repeat split.
  rewrite !blen_app, !blen_stringToUint8. change (blen [Byte.x00]) with 1. lia.
Qed.

Lemma split_at_null_key (key : jsstring) (rest : bytes) :
  Forall (fun c => 0 < c < 256) key ->
  split_at_null (stringToUint8 key ++ Byte.x00 :: rest) = Some (stringToUint8 key, rest).
Proof.
  induction 1 as [|c r Hc Hr IH]; cbn [stringToUint8 map app split_at_null]; [reflexivity|].
  fold (stringToUint8 r). rewrite IH.
  destruct (Byte.eqb (byte_of_Z c) Byte.x00) eqn:E; [|reflexivity].
  apply Byte.byte_dec_bl in E. apply (f_equal byte_to_Z) in E.
  rewrite byte_to_of_Z, Z.mod_small in E by lia. change (byte_to_Z Byte.x00) with 0 in E. lia.
Qed.

Lemma charCodes_stringToUint8_mod (s : jsstring) :
  charCodes (stringToUint8 s) = map (fun c => c mod 256) s.
Proof.
  unfold charCodes, stringToUint8. rewrite map_map. apply map_ext.
  intros c. apply byte_to_of_Z.
Qed.

Lemma text_of_textChunk (max_arguments : Z) (key value key' : jsstring) :
  Forall (fun c => 0 < c < 256) key ->
  text_of max_arguments key' (textChunk key value)
  = if Z.of_nat (List.length key) <=? max_arguments then
      if jsstring_eqb key key' then
        if Z.of_nat (List.length value) <=? max_arguments
        then Normal (Some (map (fun c => c mod 256) value))
        else Throw RangeError
      else Normal None
    else Throw RangeError.
Proof.
  intros Hk. unfold text_of, textChunk. cbn [c_type c_data c_crc].
  change (jsstring_eqb (charCodes (stringToUint8 tEXt)) tEXt) with true. cbv iota.
  cbn [app]. rewrite (split_at_null_key key _ Hk).
  rewrite charCodes_stringToUint8
    by (eapply Forall_impl; [|exact Hk]; cbn; intros; lia).
  now rewrite charCodes_stringToUint8_mod, !blen_stringToUint8.
Qed.

(** Reading a key back from what [writePngMetadata] returns. *)
Lemma read_written (max_arguments : Z) (png : bytes) (key value key' : jsstring) :
  minimal_container png ->
  Forall (fun c => 0 < c < 256) key ->
  Z.of_nat (List.length key) + 1 + Z.of_nat (List.length value) < 2 ^ 32 ->
  4 <= max_arguments ->
  exists out,
    writePngMetadata png key value = Normal out /\
    readPngMetadata max_arguments out key'
    = if Z.of_nat (List.length key) <=? max_arguments then
        if jsstring_eqb key key' then
          if Z.of_nat (List.length value) <=? max_arguments
          then Normal (Some (map (fun c => c mod 256) value))
          else Throw RangeError
        else readPngMetadata max_arguments png key'
      else Throw RangeError.
Proof.
  intros (sg & d & crc & chunks & -> & Hs & Hd & Hc) Hkey Hlen Hm.
  unfold container.
  set (pre := sg ++ IHDR_head ++ d ++ crc).
  assert (Lpre : blen pre = 33).
  { unfold pre. rewrite !blen_app, Hs, Hd, Hc. reflexivity. }
  replace (sg ++ IHDR_head ++ d ++ crc ++ chunks) with (pre ++ chunks)
    by (unfold pre; now rewrite <- !app_assoc).
  rewrite writePngMetadata_spec.
  pose proof (blen_nonneg chunks).
  destruct (Z.ltb_spec (blen (pre ++ chunks)) 33); [rewrite blen_app in *; lia|].
  rewrite (firstn_blen_app pre), (skipn_blen_app pre) by (now rewrite Lpre).
  eexists. split; [reflexivity|].
  assert (Hread : forall rest, 0 < blen rest \/ rest = [] ->
             readPngMetadata max_arguments (pre ++ rest) key'
             = readLoop max_arguments rest key' 0).
  { intros rest Hrest. unfold readPngMetadata. rewrite readLoop_unfold.
    pose proof (blen_nonneg rest).
    destruct (Z_lt_dec 8 (blen (pre ++ rest))); [|rewrite blen_app in *; lia].
    unfold pre at 1. rewrite <- !app_assoc. rewrite loopBody_IHDR by assumption.
    replace (sg ++ IHDR_head ++ d ++ crc ++ rest) with (pre ++ rest)
      by (unfold pre; now rewrite <- !app_assoc).
    apply readLoop_skip. now rewrite Lpre. }
  rewrite !Hread.
  - rewrite fullChunk_encode,
      (readLoop_chunk _ _ _ _ (textChunk_well_formed _ _ Hlen) Hm).
    rewrite (text_of_textChunk max_arguments key value key' Hkey).
    destruct (Z.of_nat (List.length key) <=? max_arguments); [|reflexivity].
    destruct (jsstring_eqb key key');
      [destruct (Z.of_nat (List.length value) <=? max_arguments)|]; reflexivity.
  - destruct chunks; [now right|left]. unfold blen. cbn [List.length]. lia.
  - left. rewrite fullChunk_encode, blen_app,
      (blen_encode _ (textChunk_well_formed _ _ Hlen)).
    pose proof (blen_nonneg (c_data (textChunk key value))). lia.
Qed.

Lemma map_mod_bytes (l : list Z) :
  Forall (fun c => 0 <= c < 256) l -> map (fun c => c mod 256) l = l.
Proof.
  induction 1 as [|c r Hc Hr IH]; cbn [map]; [reflexivity|].
  now rewrite IH, Z.mod_small.
Qed.

(** C6 (as amended). On a container that opens with the 8-byte signature
    and the 25-byte IHDR chunk, for a key of characters 1..255 (no NUL) and
    a value of characters 0..255, neither longer than the number of
    arguments the engine takes in one call (which is at least four),
    [writePngMetadata] returns a buffer from which [readPngMetadata] reads
    the written value back under that key. *)
Theorem read_after_write (max_arguments : Z) (png : bytes) (key value : jsstring) :
  minimal_container png ->
  Forall (fun c => 0 < c < 256) key ->
  Forall (fun c => 0 <= c < 256) value ->
  Z.of_nat (List.length key) + 1 + Z.of_nat (List.length value) < 2 ^ 32 ->
  4 <= max_arguments ->
  Z.of_nat (List.length key) <= max_arguments ->
  Z.of_nat (List.length value) <= max_arguments ->
  exists out,
    writePngMetadata png key value = Normal out /\
    readPngMetadata max_arguments out key = Normal (Some value).
Proof.
  intros Hp Hkey Hval Hlen Hm Hk Hv.
  destruct (read_written max_arguments png key value key Hp Hkey Hlen Hm)
    as [out [Hw Hr]].
  exists out. split; [exact Hw|]. rewrite Hr, jsstring_eqb_refl.
  destruct (Z.leb_spec (Z.of_nat (List.length key)) max_arguments); [|lia].
  destruct (Z.leb_spec (Z.of_nat (List.length value)) max_arguments); [|lia].
  now rewrite (map_mod_bytes value Hval).
Qed.

Lemma read_after_write_witness :
  minimal_container Demo.minimalPng /\
  exists out,
    writePngMetadata Demo.minimalPng (lit "QRPConfig") (lit "hello") = Normal out /\
    readPngMetadata Demo.max_arguments out (lit "QRPConfig") = Normal (Some (lit "hello")).
Proof.
  split; [exact minimalPng_container|].
  apply (read_after_write Demo.max_arguments Demo.minimalPng (lit "QRPConfig") (lit "hello")
                          minimalPng_container).
  - literal_chars.
  - literal_chars.
  - reflexivity.
  - discriminate.
  - discriminate.
  - discriminate.
Defined.

(** A value longer than the number of arguments the engine takes is
    written, and cannot be read back: [String.fromCharCode(...)] throws. *)
Lemma read_after_write_long_value (max_arguments : Z) (png : bytes) (key value : jsstring) :
  minimal_container png ->
  Forall (fun c => 0 < c < 256) key ->
  Z.of_nat (List.length key) + 1 + Z.of_nat (List.length value) < 2 ^ 32 ->
  4 <= max_arguments ->
  Z.of_nat (List.length key) <= max_arguments ->
  max_arguments < Z.of_nat (List.length value) ->
  exists out,
    writePngMetadata png key value = Normal out /\
    readPngMetadata max_arguments out key = Throw RangeError.
Proof.
  intros Hp Hkey Hlen Hm Hk Hv.
  destruct (read_written max_arguments png key value key Hp Hkey Hlen Hm)
    as [out [Hw Hr]].
  exists out. split; [exact Hw|]. rewrite Hr, jsstring_eqb_refl.
  destruct (Z.leb_spec (Z.of_nat (List.length key)) max_arguments); [|lia].
  destruct (Z.leb_spec (Z.of_nat (List.length value)) max_arguments); [lia|reflexivity].
Qed.

(** X8. After [writePngMetadata] has put a text under a keyword (of
    characters 1..255, no more of them than the engine takes as
    arguments, which are at least four) into a container that opens with
    the signature and the IHDR chunk, [readPngMetadata] finds under that
    keyword the text with every character reduced modulo 256 when the
    text is no longer than the number of arguments the engine takes, and
    throws a [RangeError] when it is longer; under any other keyword it
    does exactly what it did, found or threw, on the container before. *)
Theorem read_after_write_any_key (max_arguments : Z) (png : bytes) (key value key' : jsstring) :
  minimal_container png ->
  Forall (fun c => 0 < c < 256) key ->
  Z.of_nat (List.length key) + 1 + Z.of_nat (List.length value) < 2 ^ 32 ->
  4 <= max_arguments ->
  Z.of_nat (List.length key) <= max_arguments ->
  exists out,
    writePngMetadata png key value = Normal out /\
    (key' = key ->
     readPngMetadata max_arguments out key'
     = if Z.of_nat (List.length value) <=? max_arguments
       then Normal (Some (map (fun c => c mod 256) value))
       else Throw RangeError) /\
    (key' <> key ->
     readPngMetadata max_arguments out key' = readPngMetadata max_arguments png key').
Proof.
  intros Hp Hk Hl Hm Hkm.
  destruct (read_written max_arguments png key value key' Hp Hk Hl Hm) as [out [Hw Hr]].
  destruct (Z.leb_spec (Z.of_nat (List.length key)) max_arguments); [|lia].
  exists out. split; [exact Hw|]. split; intros Hkk.
  - subst. now rewrite jsstring_eqb_refl in Hr.
  - destruct (jsstring_eqb key key') eqn:E; [|exact Hr].
    apply jsstring_eqb_eq in E. congruence.
Qed.

Lemma read_after_write_any_key_witness :
  minimal_container Demo.minimalPng /\
  exists out,
    writePngMetadata Demo.minimalPng (lit "QRPConfig") [104; 361] = Normal out /\
    readPngMetadata Demo.max_arguments out (lit "QRPConfig") = Normal (Some [104; 105]) /\
    readPngMetadata Demo.max_arguments out (lit "Title") = Normal None.
Proof.
  split; [exact minimalPng_container|].
  assert (Hk : Forall (fun c => 0 < c < 256) (lit "QRPConfig")) by literal_chars.
  assert (Hl : Z.of_nat (List.length (lit "QRPConfig")) + 1
               + Z.of_nat (List.length [104; 361]) < 2 ^ 32) by reflexivity.
  assert (Hm : 4 <= Demo.max_arguments) by discriminate.
  assert (Hkm : Z.of_nat (List.length (lit "QRPConfig")) <= Demo.max_arguments)
    by discriminate.
  destruct (read_after_write_any_key Demo.max_arguments Demo.minimalPng (lit "QRPConfig")
              [104; 361] (lit "QRPConfig") minimalPng_container Hk Hl Hm Hkm)
    as [out [Hw [Hsame _]]].
  destruct (read_after_write_any_key Demo.max_arguments Demo.minimalPng (lit "QRPConfig")
              [104; 361] (lit "Title") minimalPng_container Hk Hl Hm Hkm)
    as [out' [Hw' [_ Hother]]].
  rewrite Hw in Hw'. inversion Hw'; subst out'.
  exists out. split; [exact Hw|]. split.
  - exact (Hsame eq_refl).
  - rewrite Hother by discriminate. reflexivity.
Defined.

(** X9. [writePngMetadata] throws a [RangeError] on a buffer shorter than
    33 bytes; on any other buffer it returns the buffer with one chunk of
    [12 + |key| + 1 + |value|] bytes inserted at offset 33: the first 33
    bytes and everything after them are the original ones, in order. *)
Theorem writePngMetadata_inserts_at_33 (png : bytes) (key value : jsstring) :
  if blen png <? 33 then writePngMetadata png key value = Throw RangeError
  else
    exists out,
      writePngMetadata png key value = Normal out /\
      blen out = blen png + 13
                 + Z.of_nat (List.length key) + Z.of_nat (List.length value) /\
      subarray out 0 33 = subarray png 0 33 /\
      subarray out 33 (33 + blen (fullChunk key value)) = fullChunk key value /\
      subarray out (33 + blen (fullChunk key value)) (blen out)
      = subarray png 33 (blen png).
Proof.
  rewrite writePngMetadata_spec. destruct (Z.ltb_spec (blen png) 33) as [H|H];
    [reflexivity|].
  eexists. split; [reflexivity|].
  set (chunk := fullChunk key value).
  assert (Lc : blen chunk = 13 + Z.of_nat (List.length key) + Z.of_nat (List.length value)).
  { unfold chunk, fullChunk. rewrite !blen_app, !blen_stringToUint8.
    change (blen (setUint32_be _)) with 4. change (blen [Byte.x00]) with 1.
    change (Z.of_nat (List.length tEXt)) with 4. lia. }
  assert (L1 : blen (firstn 33 png) = 33).
  { unfold blen in *. rewrite length_firstn. lia. }
  assert (L2 : blen (skipn 33 png) = blen png - 33).
  { unfold blen in *. rewrite length_skipn. lia. }
  pose proof (blen_nonneg chunk).
  split; [|split; [|split]].
  - rewrite !blen_app, L1, L2, Lc. lia.
  - transitivity (firstn 33 png).
    + apply (subarray_middle [] (firstn 33 png)); [reflexivity|]. rewrite L1. reflexivity.
    + unfold subarray. reflexivity.
  - apply subarray_middle; [now rewrite L1|reflexivity].
  - transitivity (skipn 33 png).
    + replace (firstn 33 png ++ chunk ++ skipn 33 png)
        with ((firstn 33 png ++ chunk) ++ skipn 33 png ++ [])
        by (now rewrite app_nil_r, <- app_assoc).
      apply subarray_middle.
      * rewrite blen_app, L1. reflexivity.
      * rewrite !blen_app, L1, L2. change (blen []) with 0. lia.
    + unfold subarray. cbn [Z.to_nat Pos.to_nat Pos.iter_op].
      symmetry. apply firstn_all2. unfold blen in *. rewrite length_skipn. lia.
Qed.

Lemma readPngMetadata_walks_chunks_witness :
  let signature := firstn 8 Demo.minimalPng in
  let iend := {| c_type := stringToUint8 IEND; c_data := [];
                 c_crc := setUint32_be (crc32 (stringToUint8 IEND)) |} in
  let chunks := [textChunk (lit "A") (lit "x"); iend; textChunk (lit "B") (lit "y")] in
  blen signature = 8 /\
  Forall well_formed chunks /\
  Exists (fun c => charCodes (c_type c) = IEND) chunks /\
  readPngMetadata Demo.max_arguments (file signature chunks ++ [Byte.x01]) (lit "A") = Normal (Some (lit "x")) /\
  readPngMetadata Demo.max_arguments (file signature chunks ++ [Byte.x01]) (lit "B") = Normal None.
Proof.
  intros signature iend chunks.
  assert (Hs : blen signature = 8) by reflexivity.
  assert (Hw : Forall well_formed chunks).
  { repeat constructor. }
  assert (He : Exists (fun c => charCodes (c_type c) = IEND) chunks).
  { apply Exists_cons_tl, Exists_cons_hd. reflexivity. }
  assert (Hm : 4 <= Demo.max_arguments) by discriminate.
  split; [exact Hs|]. split; [exact Hw|]. split; [exact He|]. split.
  - rewrite (proj1 (readPngMetadata_walks_chunks Demo.max_arguments signature chunks
                      [Byte.x01] (lit "A") Hs Hw Hm (or_intror He))).
    reflexivity.
  - rewrite (proj1 (readPngMetadata_walks_chunks Demo.max_arguments signature chunks
                      [Byte.x01] (lit "B") Hs Hw Hm (or_intror He))).
    reflexivity.
Defined.

(** *** The CRC table *)

Lemma crcTable_bits_iter (k : nat) (c : Z) : crcTable_bits k c = Nat.iter k crc_bit c.
Proof.
  revert c. induction k as [|k IH]; intros c; [reflexivity|].
  cbn [crcTable_bits]. fold (crc_bit c). rewrite IH.
  symmetry. apply Nat.iter_succ_r.
Qed.

Lemma crc_bit_lxor (a b : Z) :
  crc_bit (Z.lxor a b) = Z.lxor (crc_bit a) (crc_bit b).
Proof.
  unfold crc_bit. rewrite Z.lxor_spec, Z.shiftr_lxor.
  set (P := 0xEDB88320). set (x := Z.shiftr a 1). set (y := Z.shiftr b 1).
  clearbody P x y.
  destruct (Z.testbit a 0), (Z.testbit b 0); cbn [xorb];
    apply Z.bits_inj'; intros n _; rewrite !Z.lxor_spec;
    destruct (Z.testbit P n), (Z.testbit x n), (Z.testbit y n); reflexivity.
Qed.

Lemma iter_crc_bit_lxor (k : nat) (a b : Z) :
  Nat.iter k crc_bit (Z.lxor a b)
  = Z.lxor (Nat.iter k crc_bit a) (Nat.iter k crc_bit b).
Proof.
  induction k as [|k IH]; [reflexivity|].
  rewrite !Nat.iter_succ. now rewrite IH, crc_bit_lxor.
Qed.

Lemma crc_bit_even (a : Z) : Z.testbit a 0 = false -> crc_bit a = Z.shiftr a 1.
Proof. intros H. unfold crc_bit. now rewrite H. Qed.

(** A register whose low [k] bits are zero just shifts. *)
Lemma iter_crc_bit_shiftl (k : nat) (h : Z) :
  Nat.iter k crc_bit (Z.shiftl h (Z.of_nat k)) = h.
Proof.
  induction k as [|k IH]; [now rewrite Z.shiftl_0_r|].
  rewrite Nat.iter_succ_r.
  rewrite crc_bit_even.
  - rewrite Z.shiftr_shiftl_l by lia.
    replace (Z.of_nat (S k) - 1) with (Z.of_nat k) by lia. exact IH.
  - rewrite Z.shiftl_spec_low by lia. reflexivity.
Qed.

Lemma split_low_byte (a : Z) :
  a = Z.lxor (Z.shiftl (Z.shiftr a 8) 8) (Z.land a 0xFF).
Proof.
  apply Z.bits_inj'. intros n Hn.
  rewrite Z.lxor_spec, Z.land_spec.
  change 0xFF with (Z.ones 8).
  destruct (Z.lt_ge_cases n 8).
  - rewrite Z.shiftl_spec_low, Z.ones_spec_low by lia. cbn [xorb].
    now rewrite andb_true_r.
  - rewrite Z.shiftl_spec, Z.shiftr_spec, Z.ones_spec_high by lia.
    rewrite andb_false_r, xorb_false_r. f_equal. lia.
Qed.

Lemma shiftr_lxor_byte (crc x : Z) :
  0 <= x < 256 -> Z.shiftr (Z.lxor crc x) 8 = Z.shiftr crc 8.
Proof.
  intros Hx. rewrite Z.shiftr_lxor.
  rewrite (Z.shiftr_div_pow2 x) by lia. rewrite (Z.div_small x) by (cbn; lia).
  apply Z.lxor_0_r.
Qed.

Lemma crcTable_nth (i : Z) :
  0 <= i < 256 -> nth (Z.to_nat i) crcTable 0 = Nat.iter 8 crc_bit i.
Proof.
  intros Hi. unfold crcTable.
  change 0 with (crcTable_bits 8 (Z.of_nat 0)) at 1.
  rewrite (map_nth (fun i => crcTable_bits 8 (Z.of_nat i))).
  rewrite seq_nth by lia. rewrite crcTable_bits_iter. f_equal. lia.
Qed.

Lemma land_byte_range (a : Z) : 0 <= Z.land a 0xFF < 256.
Proof.
  change 0xFF with (Z.ones 8). rewrite Z.land_ones by lia.
  apply Z.mod_pos_bound. lia.
Qed.

(** One step of the table-driven loop is eight steps of the bit-serial
    one. *)
Lemma crc_table_step (crc x : Z) :
  0 <= x < 256 ->
  Z.lxor (Z.shiftr crc 8) (nth (Z.to_nat (Z.land (Z.lxor crc x) 0xFF)) crcTable 0)
  = Nat.iter 8 crc_bit (Z.lxor crc x).
Proof.
  intros Hx. rewrite crcTable_nth by apply land_byte_range.
  rewrite (split_low_byte (Z.lxor crc x)) at 2.
  rewrite iter_crc_bit_lxor.
  rewrite (iter_crc_bit_shiftl 8), shiftr_lxor_byte by exact Hx.
  reflexivity.
Qed.

Lemma crc_bit_range (c : Z) : 0 <= c < 2 ^ 32 -> 0 <= crc_bit c < 2 ^ 32.
Proof.
  intros Hc. unfold crc_bit.
  assert (Hs : 0 <= Z.shiftr c 1 < 2 ^ 32).
  { rewrite Z.shiftr_div_pow2 by lia. change (2 ^ 1) with 2.
    split; [apply Z.div_pos; lia|]. apply Z.div_lt_upper_bound; lia. }
  destruct (Z.testbit c 0); [|exact Hs].
  split.
  - apply Z.lxor_nonneg. lia.
  - destruct (Z.eq_dec (Z.lxor 0xEDB88320 (Z.shiftr c 1)) 0) as [->|Hne]; [lia|].
    assert (Hpos : 0 < Z.lxor 0xEDB88320 (Z.shiftr c 1)).
    { assert (0 <= Z.lxor 0xEDB88320 (Z.shiftr c 1)) by (apply Z.lxor_nonneg; lia). lia. }
    apply Z.log2_lt_pow2; [exact Hpos|].
    eapply Z.le_lt_trans; [apply Z.log2_lxor; lia|].
    apply Z.max_lub_lt.
    + reflexivity.
    + destruct (Z.eq_dec (Z.shiftr c 1) 0) as [->|]; [reflexivity|].
      apply Z.log2_lt_pow2; lia.
Qed.

Lemma iter_crc_bit_range (k : nat) (c : Z) :
  0 <= c < 2 ^ 32 -> 0 <= Nat.iter k crc_bit c < 2 ^ 32.
Proof.
  intros Hc. induction k as [|k IH]; [exact Hc|].
  rewrite Nat.iter_succ. now apply crc_bit_range.
Qed.

Lemma lxor_range32 (a b : Z) :
  0 <= a < 2 ^ 32 -> 0 <= b < 2 ^ 32 -> 0 <= Z.lxor a b < 2 ^ 32.
Proof.
  intros Ha Hb. split; [apply Z.lxor_nonneg; lia|].
  destruct (Z.eq_dec (Z.lxor a b) 0) as [->|Hne]; [lia|].
  assert (0 <= Z.lxor a b) by (apply Z.lxor_nonneg; lia).
  apply Z.log2_lt_pow2; [lia|].
  eapply Z.le_lt_trans; [apply Z.log2_lxor; lia|].
  apply Z.max_lub_lt.
  - destruct (Z.eq_dec a 0) as [->|]; [reflexivity|]. apply Z.log2_lt_pow2; lia.
  - destruct (Z.eq_dec b 0) as [->|]; [reflexivity|]. apply Z.log2_lt_pow2; lia.
Qed.

(** X10. The table-driven [crc32] computes the CRC-32 of the PNG
    specification: on every buffer it agrees with the bit-serial checksum
    under the reflected polynomial 0xEDB88320, and its value is an
    unsigned 32-bit number. *)
Theorem crc32_is_bitwise_crc (buf : bytes) :
  crc32 buf = crc32_bitwise buf /\ 0 <= crc32 buf < 2 ^ 32.
Proof.
  unfold crc32, crc32_bitwise.
  assert (G : forall crc,
             0 <= crc < 2 ^ 32 ->
             fold_left
               (fun crc b =>
                  Z.lxor (Z.shiftr crc 8)
                    (nth (Z.to_nat (Z.land (Z.lxor crc (byte_to_Z b)) 0xFF)) crcTable 0))
               buf crc
             = fold_left (fun crc b => Nat.iter 8 crc_bit (Z.lxor crc (byte_to_Z b))) buf crc
             /\ 0 <= fold_left (fun crc b => Nat.iter 8 crc_bit (Z.lxor crc (byte_to_Z b)))
                               buf crc < 2 ^ 32).
  { induction buf as [|b r IH]; intros crc Hc; cbn [fold_left]; [auto|].
    pose proof (byte_to_Z_bound b) as Hb.
    rewrite (crc_table_step crc (byte_to_Z b) Hb).
    apply IH. apply iter_crc_bit_range. apply lxor_range32; lia. }
  destruct (G 0xFFFFFFFF) as [E R]; [lia|].
  cbv zeta. rewrite E. split; [reflexivity|].
  apply lxor_range32; [exact R|lia].
Qed.

End PngFacts.

(** ** The video frame schedule *)

Module VideoExportFacts.
Import JS Types VideoExport Float64Facts.

Lemma nth_error_snoc {A} (l : list A) (x y : A) (k : nat) :
  nth_error (l ++ [x]) k = Some y ->
  nth_error l k = Some y \/ (k = List.length l /\ y = x).
Proof.
  intros H. destruct (Nat.lt_ge_cases k (List.length l)) as [Hk|Hk].
  - left. now rewrite nth_error_app1 in H.
  - right. rewrite nth_error_app2 in H by exact Hk.
    destruct (k - List.length l)%nat as [|m] eqn:E; [|destruct m; discriminate].
    cbn in H. inversion H. split; [lia|reflexivity].
Qed.

Lemma timestamp_succ (k : nat) :
  timestamp (S k) = Float64.add (timestamp k) frameDuration.
Proof. reflexivity. Qed.

Lemma submitted_app a b : submitted (a ++ b) = submitted a ++ submitted b.
Proof. apply flat_map_app. Qed.

Lemma rendered_app a b : rendered (a ++ b) = rendered a ++ rendered b.
Proof. apply flat_map_app. Qed.

Lemma frameTurn_undisturbed w T fps s f l :
  undisturbed w -> on_grid l ->
  exists l', frameTurn w T fps s f l = (l', None) /\
             on_grid l' /\
             globalFrameIndex l' = globalFrameIndex l + 1 /\
             rendered (calls l') = rendered (calls l) ++ [(s, f)].
Proof.
  intros (_ & _ & _ & Hr & Ha & _) (Hg & Ht & Hn).
  unfold frameTurn. cbn [emit globalFrameIndex currentTimestamp calls].
  rewrite Hr, Ha. eexists. split; [reflexivity|].
  unfold on_grid. cbn [globalFrameIndex currentTimestamp calls].
  rewrite !submitted_app, !rendered_app. cbn [submitted rendered flat_map app].
  rewrite !app_nil_r. split; [|split; [reflexivity|reflexivity]].
  split; [|split].
  - rewrite length_app. cbn [List.length]. lia.
  - rewrite length_app, Nat.add_1_r, timestamp_succ, Ht. reflexivity.
  - intros k t d H. apply nth_error_snoc in H as [H|[-> H]].
    + now apply (Hn k t d).
    + inversion H; subst t d. split; [exact Ht|reflexivity].
Qed.

Lemma frameLoop_undisturbed w T fps s todo :
  undisturbed w ->
  forall f l, on_grid l ->
  exists l', frameLoop w T fps s todo f l = (l', None) /\
             on_grid l' /\
             globalFrameIndex l' = globalFrameIndex l + Z.of_nat todo /\
             rendered (calls l')
             = rendered (calls l) ++ map (fun j => (s, f + Z.of_nat j)) (seq 0 todo).
Proof.
  intros Hw. induction todo as [|todo IH]; intros f l Hl.
  - exists l. cbn [frameLoop seq map]. rewrite app_nil_r, Z.add_0_r. auto.
  - cbn [frameLoop].
    destruct (frameTurn_undisturbed w T fps s f l Hw Hl) as (l1 & -> & Hl1 & G1 & R1).
    destruct (IH (f + 1) l1 Hl1) as (l2 & -> & Hl2 & G2 & R2).
    exists l2. split; [reflexivity|]. split; [exact Hl2|]. split; [lia|].
    rewrite R2, R1, <- app_assoc. f_equal. cbn [seq map app].
    rewrite Z.add_0_r. f_equal. rewrite <- seq_shift, map_map.
    apply map_ext. intros j. f_equal. lia.
Qed.

Lemma sceneLoop_undisturbed w T fps rest :
  undisturbed w -> 0 <= fps ->
  forall i l, on_grid l ->
  exists l', sceneLoop w T fps rest i l = (l', None) /\
             on_grid l' /\
             globalFrameIndex l'
             = globalFrameIndex l + Z.of_nat (List.length rest) * fps /\
             rendered (calls l')
             = rendered (calls l) ++ flat_map (sceneFrames (Z.to_nat fps)) rest.
Proof.
  intros Hw Hfps. induction rest as [|s rest IH]; intros i l Hl.
  - exists l. cbn [sceneLoop flat_map List.length].
    rewrite app_nil_r, Z.mul_0_l, Z.add_0_r. auto.
  - cbn [sceneLoop].
    destruct Hw as (H1 & H2 & Hs & Hrest). rewrite Hs.
    assert (Hw : undisturbed w) by (repeat split; auto; apply Hrest).
    destruct (frameLoop_undisturbed w T fps s (Z.to_nat fps) Hw 0 l Hl)
      as (l1 & -> & Hl1 & G1 & R1).
    destruct (IH (i + 1) l1 Hl1) as (l2 & -> & Hl2 & G2 & R2).
    exists l2. split; [reflexivity|]. split; [exact Hl2|]. split.
    + rewrite G2, G1. cbn [List.length]. lia.
    + rewrite R2, R1, <- app_assoc. reflexivity.
Qed.

Lemma framesPerScene_nonneg (timingMs : Q) :
  (0 <= timingMs)%Q -> 0 <= framesPerScene timingMs.
Proof.
  intros H. unfold framesPerScene, Math_round, framerate, Float64.mul, Float64.div.
  change 0 with (Qfloor 0). apply Qfloor_resp_le.
  assert (A : (0 <= Float64.b64 (timingMs / 1000))%Q).
  { apply b64_nonneg. apply Qle_shift_div_l; [reflexivity|]. now rewrite Qmult_0_l. }
  assert (B : (0 <= Float64.b64 (Float64.b64 (timingMs / 1000) * 30))%Q).
  { apply b64_nonneg. apply Qmult_le_0_compat; [exact A|discriminate]. }
  set (r := Float64.b64 (Float64.b64 (timingMs / 1000) * 30)) in *. clearbody r. lra.
Qed.

Lemma round_error (x : Q) :
  (- (1 # 2) <= inject_Z (Math_round x) - x <= 1 # 2)%Q.
Proof.
  unfold Math_round.
  pose proof (Qfloor_le (x + (1 # 2))) as H1.
  pose proof (Qlt_floor (x + (1 # 2))) as H2.
  rewrite inject_Z_plus in H2. change (inject_Z 1) with 1%Q in H2.
  set (N := inject_Z (Qfloor (x + (1 # 2)))) in *. clearbody N.
  split; lra.
Qed.

Lemma Math_round_near (x : Q) (n : Z) :
  (inject_Z n - (1 # 2) < x)%Q -> (x < inject_Z n + (1 # 2))%Q -> Math_round x = n.
Proof.
  intros L U. unfold Math_round. apply Qfloor_between; lra.
Qed.

(** *** The frame count and the clock in binary64 *)

Lemma frameDuration_value : frameDuration = 4803839602528529 # 144115188075855872.
Proof. vm_compute. reflexivity. Qed.

Lemma frameDuration_normal : (2 ^ (-1022) <= frameDuration)%Q.
Proof. apply Qle_bool_iff. vm_compute. reflexivity. Qed.

Lemma unit_roundoff_value : (Float64.unit_roundoff == 1 # 9007199254740992)%Q.
Proof. reflexivity. Qed.

Lemma inject_nat_range (k : nat) :
  Z.of_nat k <= 2 ^ 32 ->
  (0 <= inject_Z (Z.of_nat k) /\ inject_Z (Z.of_nat k) <= 4294967296 # 1)%Q.
Proof.
  intros H. split.
  - change 0%Q with (inject_Z 0). rewrite <- Zle_Qle. lia.
  - change (4294967296 # 1)%Q with (inject_Z (2 ^ 32)). rewrite <- Zle_Qle. exact H.
Qed.

Lemma inject_nat_square (k : nat) :
  (inject_Z (Z.of_nat k) <= inject_Z (Z.of_nat k) * inject_Z (Z.of_nat k))%Q.
Proof. rewrite <- inject_Z_mult, <- Zle_Qle. nia. Qed.

(** The [k]-th timestamp is within [k (k+1) / 2^57] seconds of [k / 30]. *)
Lemma timestamp_near (k : nat) :
  Z.of_nat k <= 2 ^ 32 ->
  (Qabs (timestamp k - inject_Z (Z.of_nat k) * (1 # 30))
   <= inject_Z (Z.of_nat k) * (inject_Z (Z.of_nat k) + 1) * (1 # 2 ^ 57))%Q.
Proof.
  intros B. pose proof (running_sum_error frameDuration k frameDuration_normal B) as E.
  fold (timestamp k) in E. rewrite unit_roundoff_value, frameDuration_value in E.
  destruct (inject_nat_range k B) as [K0 K1]. pose proof (inject_nat_square k) as K2.
  set (K := inject_Z (Z.of_nat k)) in *. clearbody K.
  set (t := timestamp k) in *. clearbody t.
  apply Qabs_Qle_condition in E. apply Qabs_Qle_condition.
  set (KK := (K * K)%Q) in *.
  assert (E1 : (K * (K + 1) * (1 # 9007199254740992)
                * (4803839602528529 # 144115188075855872)
                == (KK + K) * ((1 # 9007199254740992)
                               * (4803839602528529 # 144115188075855872)))%Q)
    by (unfold KK; ring).
  assert (E2 : (K * (K + 1) * (1 # 2 ^ 57) == (KK + K) * (1 # 2 ^ 57))%Q)
    by (unfold KK; ring).
  rewrite E1 in E. rewrite E2. clearbody KK.
  change (1 # 2 ^ 57)%Q with (1 # 144115188075855872)%Q.
  split; lra.
Qed.

(** The clock advances with every frame. *)
Lemma timestamp_increases (k : nat) :
  Z.of_nat k <= 2 ^ 32 -> (timestamp k < timestamp (S k))%Q.
Proof. intros B. apply running_sum_increases; [exact frameDuration_normal|exact B]. Qed.

(** The frame count is within half a frame, and [2^-51] of it, of the
    exact product. *)
Lemma framesPerScene_near (timingMs : Q) :
  (1 <= timingMs)%Q ->
  (Qabs (inject_Z (framesPerScene timingMs) - timingMs / 1000 * 30)
   <= (1 # 2) + timingMs / 1000 * 30 * (1 # 2 ^ 51))%Q.
Proof.
  intros H. unfold framesPerScene, framerate, Float64.mul, Float64.div.
  set (x := (timingMs / 1000)%Q).
  assert (X : (1 # 1000 <= x)%Q).
  { unfold x. apply Qle_shift_div_l; [reflexivity|]. lra. }
  pose proof (pow2_pos (-1022)) as P.
  assert (P1 : (2 ^ (-1022) <= 1 # 1024)%Q).
  { change (1 # 1024)%Q with (2 ^ (-10))%Q. apply pow2_le. lia. }
  assert (N1 : (2 ^ (-1022) <= Qabs x)%Q).
  { set (p := (2 ^ (-1022))%Q) in *. clearbody p x. rewrite Qabs_pos; lra. }
  pose proof (b64_relative x N1) as R1. rewrite unit_roundoff_value in R1.
  assert (A1 : (Qabs x == x)%Q) by (apply Qabs_pos; clearbody x; lra).
  rewrite A1 in R1. apply Qabs_Qle_condition in R1.
  set (s := Float64.b64 x) in *.
  assert (N2 : (2 ^ (-1022) <= Qabs (s * 30))%Q).
  { set (p := (2 ^ (-1022))%Q) in *. clearbody p x s. rewrite Qabs_pos; lra. }
  pose proof (b64_relative (s * 30) N2) as R2. rewrite unit_roundoff_value in R2.
  assert (A2 : (Qabs (s * 30) == s * 30)%Q) by (apply Qabs_pos; clearbody x s; lra).
  rewrite A2 in R2. apply Qabs_Qle_condition in R2.
  set (r := Float64.b64 (s * 30)) in *.
  pose proof (round_error r) as R3.
  set (n := inject_Z (Math_round r)) in *.
  change (1 # 2 ^ 51)%Q with (1 # 2251799813685248)%Q.
  clearbody n r s x. apply Qabs_Qle_condition. split; lra.
Qed.

(** For the durations the timing slider offers, the multiples of 100 ms,
    the frame count is three frames for every 100 ms. *)
Lemma framesPerScene_slider (j : Z) :
  0 <= j <= 2 ^ 40 -> framesPerScene (inject_Z (100 * j)) = 3 * j.
Proof.
  intros [J0 J1]. destruct (Z.eq_dec j 0) as [->|NZ]; [reflexivity|].
  assert (T : (1 <= inject_Z (100 * j))%Q).
  { change 1%Q with (inject_Z 1). rewrite <- Zle_Qle. lia. }
  pose proof (framesPerScene_near _ T) as N. apply Qabs_Qle_condition in N.
  assert (E : (inject_Z (100 * j) / 1000 * 30 == inject_Z (3 * j))%Q).
  { rewrite !inject_Z_mult. field. }
  rewrite E in N.
  assert (J : (inject_Z (3 * j) <= 3298534883328 # 1)%Q).
  { change (3298534883328 # 1)%Q with (inject_Z (3 * 2 ^ 40)). rewrite <- Zle_Qle. lia. }
  change (1 # 2 ^ 51)%Q with (1 # 2251799813685248)%Q in N.
  assert (L : (inject_Z (framesPerScene (inject_Z (100 * j)) - 3 * j) < 1)%Q).
  { unfold Z.sub. rewrite inject_Z_plus, inject_Z_opp.
    set (a := inject_Z (framesPerScene _)) in *. set (b := inject_Z (3 * j)) in *.
    clearbody a b. lra. }
  assert (U : (inject_Z (-1) < inject_Z (framesPerScene (inject_Z (100 * j)) - 3 * j))%Q).
  { unfold Z.sub. rewrite inject_Z_plus, inject_Z_opp. change (inject_Z (-1)) with (-(1))%Q.
    set (a := inject_Z (framesPerScene _)) in *. set (b := inject_Z (3 * j)) in *.
    clearbody a b. lra. }
  change 1%Q with (inject_Z 1) in L. rewrite <- Zlt_Qlt in L, U. lia.
Qed.

(** C9 (as amended). When no collaborator fails and the export is not
    cancelled, [exportVideo] ends with the video, having rendered for
    every scene, in order, the sub-frames [0 .. n-1], where [n] is
    [Math.round] of the product [(timingMs / 1000) * 30] as binary64
    arithmetic gives it: [n] is within half a frame, and [2^-51] of the
    exact product, of the exact product (for a duration of a millisecond
    or more), and is exactly 3 frames for every 100 ms when the duration
    is a multiple of 100 ms, so that 2000 ms give 60 sub-frames per scene.
    In a run of at most 2^32 frames, each frame is submitted with the
    duration [frameDuration], the binary64 number nearest to 1/30, at a
    timestamp that is the binary64 sum of the timestamp before and
    [frameDuration], starting from 0: the timestamps strictly increase,
    and the [k]-th is within [k (k+1) / 2^57] seconds of [k / 30]. *)
Theorem exportVideo_frame_schedule (w : World) (sequences : list Sequence) (timingMs : Q) :
  undisturbed w -> sequences <> [] -> (0 <= timingMs)%Q ->
  let n := framesPerScene timingMs in
  Z.of_nat (List.length sequences) * n <= 2 ^ 32 ->
  let cs := fst (exportVideo w sequences timingMs) in
  n = Math_round (Float64.mul (Float64.div timingMs 1000) 30) /\
  ((1 <= timingMs)%Q ->
   (Qabs (inject_Z n - timingMs / 1000 * 30)
    <= (1 # 2) + timingMs / 1000 * 30 * (1 # 2 ^ 51))%Q) /\
  (forall j, 0 <= j <= 2 ^ 40 -> (timingMs == inject_Z (100 * j))%Q -> n = 3 * j) /\
  framesPerScene 2000 = 60 /\
  snd (exportVideo w sequences timingMs) = Blob /\
  rendered cs = flat_map (sceneFrames (Z.to_nat n)) sequences /\
  Z.of_nat (List.length (submitted cs)) = Z.of_nat (List.length sequences) * n /\
  (forall k t d,
     nth_error (submitted cs) k = Some (t, d) ->
     t = timestamp k /\ d = frameDuration /\
     (Qabs (t - inject_Z (Z.of_nat k) * (1 # 30))
      <= inject_Z (Z.of_nat k) * (inject_Z (Z.of_nat k) + 1) * (1 # 2 ^ 57))%Q) /\
  (forall k t d t' d',
     nth_error (submitted cs) k = Some (t, d) ->
     nth_error (submitted cs) (S k) = Some (t', d') ->
     (t < t')%Q /\ t' = Float64.add t frameDuration).
Proof.
  intros Hw Hne Ht n Hbound cs.
  split; [reflexivity|]. split; [apply framesPerScene_near|].
  split.
  { intros j Hj E. unfold n. rewrite <- (framesPerScene_slider j Hj).
    unfold framesPerScene, Float64.div, Float64.mul.
    assert (E1 : (timingMs / 1000 == inject_Z (100 * j) / 1000)%Q) by (now rewrite E).
    now rewrite (b64_comp _ _ E1). }
  split; [reflexivity|].
  pose proof (framesPerScene_nonneg timingMs Ht) as Hn. fold n in Hn.
  unfold cs, exportVideo. destruct sequences as [|s0 r]; [congruence|].
  set (scenes := s0 :: r) in *. fold n.
  pose proof Hw as (-> & -> & _ & _ & _ & Hf & Hb).
  set (l2 := emit (emit _ OutputStart) (UpdateProgress 10)).
  assert (Hl2 : on_grid l2).
  { split; [reflexivity|]. split; [reflexivity|].
    intros k t d H. now destruct k. }
  destruct (sceneLoop_undisturbed w (Z.of_nat (List.length scenes)) n scenes Hw Hn 0 l2 Hl2)
    as (l3 & -> & (Hg & Hts & Hnth) & G & R).
  rewrite Hf, Hb. cbn [fst snd emit calls].
  rewrite !submitted_app, !rendered_app. cbn [submitted rendered flat_map app].
  rewrite !app_nil_r. split; [reflexivity|].
  assert (Hcount : Z.of_nat (List.length (submitted (calls l3)))
                   = Z.of_nat (List.length scenes) * n).
  { rewrite <- Hg, G. reflexivity. }
  assert (Hk : forall k t d, nth_error (submitted (calls l3)) k = Some (t, d) ->
                             Z.of_nat k <= 2 ^ 32).
  { intros k t d H.
    assert (k < List.length (submitted (calls l3)))%nat
      by (apply nth_error_Some; congruence).
    lia. }
  split; [|split; [exact Hcount|split]].
  - rewrite R. reflexivity.
  - intros k t d H. destruct (Hnth k t d H) as [-> ->].
    split; [reflexivity|]. split; [reflexivity|].
    apply timestamp_near. exact (Hk k _ _ H).
  - intros k t d t' d' H1 H2.
    destruct (Hnth _ _ _ H1) as [-> _]. destruct (Hnth _ _ _ H2) as [-> _].
    split; [|reflexivity]. apply timestamp_increases. exact (Hk k _ _ H1).
Qed.

Lemma exportVideo_frame_schedule_witness :
  undisturbed Demo.quietWorld /\
  (0 <= 2000)%Q /\
  Z.of_nat (List.length Demo.cards) * framesPerScene 2000 <= 2 ^ 32 /\
  snd (exportVideo Demo.quietWorld Demo.cards 2000) = Blob /\
  Z.of_nat (List.length (submitted (fst (exportVideo Demo.quietWorld Demo.cards 2000))))
    = 3 * 60.
Proof.
  assert (W : undisturbed Demo.quietWorld) by (repeat split).
  assert (T : (0 <= 2000)%Q) by discriminate.
  assert (N : Demo.cards <> []) by discriminate.
  assert (B : Z.of_nat (List.length Demo.cards) * framesPerScene 2000 <= 2 ^ 32)
    by (vm_compute; discriminate).
  split; [exact W|]. split; [exact T|]. split; [exact B|].
  destruct (exportVideo_frame_schedule Demo.quietWorld Demo.cards 2000 W N T B)
    as (_ & _ & _ & _ & Hb & _ & Hl & _).
  split; [exact Hb|exact Hl].
Defined.

(** C9, the claim as stated fails for a scene of 2050 ms:
    [(2050 / 1000) * 30] is 61.5 and rounds to 62, but the binary64
    product is 61.49999999999999 and [exportVideo] renders 61 sub-frames;
    and the timestamps are running binary64 sums of the number nearest to
    1/30, not the multiples of 1/30: the seventh frame is submitted at
    0.19999999999999998, which is neither 6/30 nor the binary64 number
    nearest to it, 0.2. *)
Lemma exportVideo_2050_renders_61 :
  let scene := Demo.card 1 "One" [0; 1; 0; 3] Demo.preset in
  let cs := fst (exportVideo Demo.quietWorld [scene] 2050) in
  undisturbed Demo.quietWorld /\
  Math_round (2050 / 1000 * 30) = 62 /\
  snd (exportVideo Demo.quietWorld [scene] 2050) = Blob /\
  List.length (rendered cs) = 61%nat /\
  List.length (submitted cs) = 61%nat /\
  exists t d,
    nth_error (submitted cs) 6 = Some (t, d) /\
    ~ (t == 6 # 30)%Q /\ ~ (t == Float64.b64 (6 # 30))%Q /\
    (t == 7205759403792793 # 36028797018963968)%Q.
Proof.
  cbv zeta. split; [repeat split|]. split; [reflexivity|].
  split; [vm_compute; reflexivity|]. split; [vm_compute; reflexivity|].
  split; [vm_compute; reflexivity|].
  eexists _, _. split; [vm_compute; reflexivity|].
  split; [|split]; vm_compute; congruence.
Qed.

(** *** Whatever the collaborators do *)

Lemma grid_calls_snoc (cs : list call) (c : call) :
  grid_calls cs ->
  match c with
  | CanvasSourceAdd t d =>
      t = timestamp (List.length (submitted cs)) /\ d = frameDuration
  | _ => True
  end ->
  grid_calls (cs ++ [c]).
Proof.
  intros G Hc k t d. rewrite submitted_app.
  destruct c; cbn [submitted flat_map app]; rewrite ?app_nil_r; try apply G.
  intros H. apply nth_error_snoc in H as [H|[-> H]]; [now apply G|].
  inversion H; subst. exact Hc.
Qed.

Lemma not_In_snoc {A} (x y : A) (l : list A) : ~ In x l -> x <> y -> ~ In x (l ++ [y]).
Proof.
  intros H1 H2 H. apply in_app_or in H as [H|[H|[]]]; [auto|congruence].
Qed.

Lemma frameTurn_any w T fps s f l :
  steady l ->
  match frameTurn w T fps s f l with
  | (l', None) =>
      steady l' /\
      globalFrameIndex l' = globalFrameIndex l + 1 /\
      rendered (calls l') = rendered (calls l) ++ [(s, f)]
  | (l', Some _) => halted (calls l')
  end.
Proof.
  intros ((Hg & Ht & Hn) & Hf & Hl).
  unfold frameTurn. cbn [emit globalFrameIndex currentTimestamp calls].
  assert (G1 : grid_calls ((calls l ++ [UpdateProgress
                 (10 + inject_Z (globalFrameIndex l) / inject_Z (T * fps) * 85)%Q])
                 ++ [RenderFrame s f fps])).
  { apply grid_calls_snoc; [|exact I]. apply grid_calls_snoc; [exact Hn|exact I]. }
  assert (F1 : ~ In OutputFinalize ((calls l ++ [UpdateProgress
                 (10 + inject_Z (globalFrameIndex l) / inject_Z (T * fps) * 85)%Q])
                 ++ [RenderFrame s f fps])).
  { apply not_In_snoc; [|discriminate]. apply not_In_snoc; [exact Hf|discriminate]. }
  set (cs1 := (calls l ++ _) ++ [RenderFrame s f fps]) in *.
  assert (S1 : submitted cs1 = submitted (calls l)).
  { unfold cs1. rewrite !submitted_app. cbn. now rewrite !app_nil_r. }
  assert (R1 : rendered cs1 = rendered (calls l) ++ [(s, f)]).
  { unfold cs1. rewrite !rendered_app. cbn. now rewrite !app_nil_r. }
  assert (G2 : grid_calls (cs1 ++ [CanvasSourceAdd (currentTimestamp l) frameDuration])).
  { apply grid_calls_snoc; [exact G1|]. rewrite S1. split; [exact Ht|reflexivity]. }
  assert (F2 : ~ In OutputFinalize (cs1 ++ [CanvasSourceAdd (currentTimestamp l) frameDuration])).
  { apply not_In_snoc; [exact F1|discriminate]. }
  destruct (renderFrame w (globalFrameIndex l)); [|split; assumption].
  destruct (canvasSource_add w (globalFrameIndex l)); [|split; assumption].
  cbn [calls].
  assert (S2 : submitted (cs1 ++ [CanvasSourceAdd (currentTimestamp l) frameDuration])
               = submitted (calls l) ++ [(currentTimestamp l, frameDuration)]).
  { rewrite submitted_app, S1. reflexivity. }
  assert (R2 : rendered (cs1 ++ [CanvasSourceAdd (currentTimestamp l) frameDuration])
               = rendered (calls l) ++ [(s, f)]).
  { rewrite rendered_app, R1. cbn. now rewrite app_nil_r. }
  unfold steady, on_grid. cbn [globalFrameIndex currentTimestamp calls].
  split; [|split; [reflexivity|exact R2]].
  split; [|split; [exact F2|]].
  - split; [|split; [|exact G2]].
    + rewrite S2, length_app. cbn [List.length]. lia.
    + rewrite S2, length_app, Nat.add_1_r, timestamp_succ, Ht. reflexivity.
  - rewrite S2, R2, !length_app. cbn [List.length]. lia.
Qed.

Lemma frameLoop_any w T fps s todo :
  forall f l, steady l ->
  match frameLoop w T fps s todo f l with
  | (l', None) =>
      steady l' /\
      globalFrameIndex l' = globalFrameIndex l + Z.of_nat todo /\
      rendered (calls l')
      = rendered (calls l) ++ map (fun j => (s, f + Z.of_nat j)) (seq 0 todo)
  | (l', Some _) => halted (calls l')
  end.
Proof.
  induction todo as [|todo IH]; intros f l Hl.
  - cbn [frameLoop seq map]. rewrite app_nil_r, Z.add_0_r. auto.
  - cbn [frameLoop]. pose proof (frameTurn_any w T fps s f l Hl) as H1.
    destruct (frameTurn w T fps s f l) as [l1 [e|]]; [exact H1|].
    destruct H1 as (Hl1 & G1 & R1).
    pose proof (IH (f + 1) l1 Hl1) as H2.
    destruct (frameLoop w T fps s todo (f + 1) l1) as [l2 [e|]]; [exact H2|].
    destruct H2 as (Hl2 & G2 & R2).
    split; [exact Hl2|]. split; [lia|].
    rewrite R2, R1, <- app_assoc. f_equal. cbn [seq map app].
    rewrite Z.add_0_r. f_equal. rewrite <- seq_shift, map_map.
    apply map_ext. intros j. f_equal. lia.
Qed.

Lemma sceneLoop_any w T fps rest :
  forall i l, steady l ->
  match sceneLoop w T fps rest i l with
  | (l', None) =>
      steady l' /\
      rendered (calls l')
      = rendered (calls l) ++ flat_map (sceneFrames (Z.to_nat fps)) rest
  | (l', Some o) => halted (calls l') /\ o <> Blob
  end.
Proof.
  induction rest as [|s rest IH]; intros i l Hl.
  - cbn [sceneLoop flat_map]. rewrite app_nil_r. auto.
  - cbn [sceneLoop]. destruct (signal_aborted w i).
    + assert (H : halted (calls (emit l OutputCancel))).
      { destruct Hl as ((_ & _ & Hn) & Hf & _). cbn [emit calls]. split.
        - apply grid_calls_snoc; [exact Hn|exact I].
        - apply not_In_snoc; [exact Hf|discriminate]. }
      destruct (output_cancel w); (split; [exact H|discriminate]).
    + pose proof (frameLoop_any w T fps s (Z.to_nat fps) 0 l Hl) as H1.
      destruct (frameLoop w T fps s (Z.to_nat fps) 0 l) as [l1 [e|]];
        [split; [exact H1|discriminate]|].
      destruct H1 as (Hl1 & G1 & R1).
      pose proof (IH (i + 1) l1 Hl1) as H2.
      destruct (sceneLoop w T fps rest (i + 1) l1) as [l2 [o|]]; [exact H2|].
      destruct H2 as (Hl2 & R2). split; [exact Hl2|].
      rewrite R2, R1, <- app_assoc. reflexivity.
Qed.

(** X11. Whatever the encoder, the renderer and the user do, the frames
    [exportVideo] submits follow the clock of the loop: the k-th of them
    has the timestamp [timestamp k], the binary64 sum of k times
    [frameDuration], and the duration [frameDuration], the binary64
    quotient of 1 by 30.  The output is finalized only after every
    sub-frame of every scene, [framesPerScene timingMs] of them, has been
    rendered and submitted, in order, and a video is returned only after
    the output has been finalized. *)
Theorem exportVideo_never_leaves_grid (w : World) (sequences : list Sequence) (timingMs : Q) :
  let cs := fst (exportVideo w sequences timingMs) in
  let n := framesPerScene timingMs in
  grid_calls cs /\
  (In OutputFinalize cs ->
   rendered cs = flat_map (sceneFrames (Z.to_nat n)) sequences /\
   List.length (submitted cs) = List.length (rendered cs)) /\
  (snd (exportVideo w sequences timingMs) = Blob -> In OutputFinalize cs).
Proof.
  cbv zeta. unfold exportVideo.
  destruct sequences as [|s0 r].
  { cbn. split; [|split]; [intros [|k] ? ? H; discriminate|intros []|discriminate]. }
  set (scenes := s0 :: r). set (n := framesPerScene timingMs).
  assert (G0 : grid_calls [UpdateProgress 5]) by (intros [|k] ? ? H; discriminate).
  destruct (createEncodingConfig w).
  2:{ cbn [fst snd calls]. split; [exact G0|]. split; [|discriminate].
      intros [H|[]]. discriminate. }
  destruct (output_start w).
  2:{ cbn [fst snd calls emit]. split; [|split; [|discriminate]].
      - intros [|k] ? ? H; discriminate.
      - intros [H|[H|[]]]; discriminate. }
  set (l2 := emit (emit _ OutputStart) (UpdateProgress 10)).
  assert (Hl2 : steady l2).
  { split; [|split].
    - split; [reflexivity|]. split; [reflexivity|]. intros [|k] ? ? H; discriminate.
    - intros [H|[H|[H|[]]]]; discriminate.
    - reflexivity. }
  pose proof (sceneLoop_any w (Z.of_nat (List.length scenes)) n scenes 0 l2 Hl2) as H.
  destruct (sceneLoop w (Z.of_nat (List.length scenes)) n scenes 0 l2) as [l3 [o|]].
  { destruct H as ((G & F) & Ho). cbn [fst snd]. split; [exact G|].
    split; intros C; contradiction. }
  destruct H as (((Hg & Ht & Hn) & Hf & Hl) & R).
  set (cs4 := calls (emit (emit (emit l3 (UpdateProgress 95)) CanvasSourceClose)
                          OutputFinalize)).
  assert (S4 : submitted cs4 = submitted (calls l3)).
  { unfold cs4. cbn [emit calls]. rewrite !submitted_app. cbn. now rewrite !app_nil_r. }
  assert (R4 : rendered cs4 = rendered (calls l3)).
  { unfold cs4. cbn [emit calls]. rewrite !rendered_app. cbn. now rewrite !app_nil_r. }
  assert (G4 : grid_calls cs4).
  { intros k t d. rewrite S4. apply Hn. }
  assert (F4 : In OutputFinalize cs4).
  { unfold cs4. cbn [emit calls]. apply in_or_app. right. now left. }
  assert (Body : forall cs, submitted cs = submitted cs4 -> rendered cs = rendered cs4 ->
             In OutputFinalize cs ->
             grid_calls cs /\
             (In OutputFinalize cs ->
              rendered cs = flat_map (sceneFrames (Z.to_nat n)) scenes /\
              List.length (submitted cs) = List.length (rendered cs))).
  { intros cs Hs Hr Hin. split.
    - intros k t d. rewrite Hs. apply G4.
    - intros _. rewrite Hs, Hr, S4, R4. split; [|exact Hl]. rewrite R. reflexivity. }
  destruct (output_finalize w).
  - set (cs5 := calls (emit _ (UpdateProgress 100))).
    assert (S5 : submitted cs5 = submitted cs4).
    { unfold cs5. cbn [emit calls]. rewrite !submitted_app. cbn. now rewrite !app_nil_r. }
    assert (R5 : rendered cs5 = rendered cs4).
    { unfold cs5. cbn [emit calls]. rewrite !rendered_app. cbn. now rewrite !app_nil_r. }
    assert (F5 : In OutputFinalize cs5).
    { unfold cs5. cbn [emit calls]. apply in_or_app. left. exact F4. }
    destruct (Body cs5 S5 R5 F5) as [B1 B2].
    destruct (target_buffer w); cbn [fst snd]; (split; [exact B1|split; [exact B2|]]).
    + intros _. exact F5.
    + discriminate.
  - cbn [fst snd]. destruct (Body cs4 eq_refl eq_refl F4) as [B1 B2].
    split; [exact B1|split; [exact B2|discriminate]].
Qed.

(** *** Cancelling *)

Lemma frameLoop_quiet w T fps s todo :
  (forall k, renderFrame w k = Normal tt) ->
  (forall k, canvasSource_add w k = Normal tt) ->
  forall f l, snd (frameLoop w T fps s todo f l) = None.
Proof.
  intros Hr Ha. induction todo as [|todo IH]; intros f l; [reflexivity|].
  cbn [frameLoop]. unfold frameTurn. cbn [emit globalFrameIndex].
  rewrite Hr, Ha. apply IH.
Qed.

Lemma sceneLoop_cancel w T fps (i : nat) :
  (forall k, renderFrame w k = Normal tt) ->
  (forall k, canvasSource_add w k = Normal tt) ->
  output_cancel w = Normal tt ->
  forall rest idx l,
    steady l ->
    (forall j, idx <= j < idx + Z.of_nat i -> signal_aborted w j = false) ->
    signal_aborted w (idx + Z.of_nat i) = true ->
    (i < List.length rest)%nat ->
    exists l',
      sceneLoop w T fps rest idx l = (emit l' OutputCancel, Some Cancelled) /\
      steady l' /\
      rendered (calls l')
      = rendered (calls l) ++ flat_map (sceneFrames (Z.to_nat fps)) (firstn i rest).
Proof.
  intros Hr Ha Hc. induction i as [|i IH]; intros rest idx l Hl Hbefore Hat Hlen.
  - destruct rest as [|s rest]; [cbn in Hlen; lia|].
    cbn [sceneLoop]. rewrite Z.add_0_r in Hat. rewrite Hat, Hc.
    exists l. cbn [firstn flat_map]. rewrite app_nil_r. auto.
  - destruct rest as [|s rest]; [cbn in Hlen; lia|].
    cbn [sceneLoop]. rewrite (Hbefore idx) by lia.
    pose proof (frameLoop_any w T fps s (Z.to_nat fps) 0 l Hl) as H1.
    pose proof (frameLoop_quiet w T fps s (Z.to_nat fps) Hr Ha 0 l) as Q1.
    destruct (frameLoop w T fps s (Z.to_nat fps) 0 l) as [l1 [e|]]; [discriminate|].
    destruct H1 as (Hl1 & _ & R1).
    destruct (IH rest (idx + 1) l1 Hl1) as (l' & E & Hl' & R').
    + intros j Hj. apply Hbefore. lia.
    + replace (idx + 1 + Z.of_nat i) with (idx + Z.of_nat (S i)) by lia. exact Hat.
    + cbn [List.length] in Hlen. lia.
    + exists l'. split; [exact E|]. split; [exact Hl'|].
      rewrite R', R1, <- app_assoc. reflexivity.
Qed.

(** X12. When the user cancels while the scenes before scene [i] are being
    made (and nothing fails), [exportVideo] ends as cancelled: the first
    [i] scenes have been rendered and submitted in full, no frame of scene
    [i] or a later one has been rendered, the last call is the
    cancellation of the output, and the output is never finalized. *)
Theorem exportVideo_cancel_at_scene_boundary
    (w : World) (sequences : list Sequence) (timingMs : Q) (i : nat) :
  cancelled_at w i -> (i < List.length sequences)%nat ->
  let cs := fst (exportVideo w sequences timingMs) in
  let n := framesPerScene timingMs in
  snd (exportVideo w sequences timingMs) = Cancelled /\
  rendered cs = flat_map (sceneFrames (Z.to_nat n)) (firstn i sequences) /\
  List.length (submitted cs) = List.length (rendered cs) /\
  (exists before, cs = before ++ [OutputCancel]) /\
  ~ In OutputFinalize cs.
Proof.
  intros (H1 & H2 & Hb & Hat & Hc & Hr & Ha) Hlen. cbv zeta.
  unfold exportVideo. destruct sequences as [|s0 r]; [cbn in Hlen; lia|].
  set (scenes := s0 :: r) in *. set (n := framesPerScene timingMs).
  rewrite H1, H2.
  set (l2 := emit (emit _ OutputStart) (UpdateProgress 10)).
  assert (Hl2 : steady l2).
  { split; [|split].
    - split; [reflexivity|]. split; [reflexivity|]. intros [|k] ? ? H; discriminate.
    - intros [H|[H|[H|[]]]]; discriminate.
    - reflexivity. }
  destruct (sceneLoop_cancel w (Z.of_nat (List.length scenes)) n i Hr Ha Hc scenes 0 l2 Hl2)
    as (l' & -> & (_ & Hf & Hl) & R); auto.
  cbn [fst snd emit calls].
  rewrite rendered_app, submitted_app. cbn [rendered submitted flat_map].
  rewrite !app_nil_r. split; [reflexivity|]. split; [|split; [exact Hl|split]].
  - rewrite R. reflexivity.
  - eexists. reflexivity.
  - apply not_In_snoc; [exact Hf|discriminate].
Qed.

Lemma exportVideo_cancel_at_scene_boundary_witness :
  cancelled_at Demo.cancelWorld 1 /\
  (1 < List.length Demo.cards)%nat /\
  snd (exportVideo Demo.cancelWorld Demo.cards 2000) = Cancelled /\
  List.length (rendered (fst (exportVideo Demo.cancelWorld Demo.cards 2000))) = 60%nat.
Proof.
  assert (C : cancelled_at Demo.cancelWorld 1).
  { repeat split. intros j Hj. cbn. destruct (Z.leb_spec 1 j); [lia|reflexivity]. }
  assert (L : (1 < List.length Demo.cards)%nat) by (cbn; lia).
  split; [exact C|]. split; [exact L|].
  destruct (exportVideo_cancel_at_scene_boundary Demo.cancelWorld Demo.cards 2000 1 C L)
    as (Ho & R & _).
  split; [exact Ho|]. rewrite R. reflexivity.
Defined.

(** *** Progress *)

Lemma progress_app a b : progress (a ++ b) = progress a ++ progress b.
Proof. apply flat_map_app. Qed.

Lemma ascending_from_snoc (l : list Q) :
  forall lo x, ascending_from lo l -> Forall (fun p => p <= x)%Q l -> (lo <= x)%Q ->
               ascending_from lo (l ++ [x]).
Proof.
  induction l as [|y r IH]; intros lo x Ha Hf Hlo; cbn [app ascending_from].
  - auto.
  - destruct Ha as [H1 H2]. inversion Hf; subst. split; [exact H1|]. now apply IH.
Qed.

Lemma Forall_Qle_trans (l : list Q) (a b : Q) :
  Forall (fun p => p <= a)%Q l -> (a <= b)%Q -> Forall (fun p => p <= b)%Q l.
Proof.
  intros H Hab. eapply Forall_impl; [|exact H]. cbn. intros p Hp.
  now apply Qle_trans with a.
Qed.

Lemma frameProgress_mono (M g g' : Z) :
  0 <= M -> g <= g' -> (frameProgress M g <= frameProgress M g')%Q.
Proof.
  intros HM Hg. unfold frameProgress.
  apply Qplus_le_r. apply Qmult_le_compat_r; [|discriminate].
  unfold Qdiv. apply Qmult_le_compat_r.
  - now rewrite <- Zle_Qle.
  - apply Qinv_le_0_compat. change 0%Q with (inject_Z 0). now rewrite <- Zle_Qle.
Qed.

Lemma frameProgress_low (M g : Z) : 0 <= M -> 0 <= g -> (10 <= frameProgress M g)%Q.
Proof.
  intros HM Hg. apply Qle_trans with (frameProgress M 0).
  - unfold frameProgress, Qdiv. rewrite Qmult_0_l, Qmult_0_l. discriminate.
  - now apply frameProgress_mono.
Qed.

Lemma frameProgress_high (M g : Z) : 0 <= M -> g <= M -> (frameProgress M g <= 95)%Q.
Proof.
  intros HM Hg. apply Qle_trans with (frameProgress M M).
  - now apply frameProgress_mono.
  - unfold frameProgress. destruct (Z.eq_dec M 0) as [->|Hne].
    + discriminate.
    + assert (E : (inject_Z M / inject_Z M == 1)%Q).
      { apply Qmult_inv_r. intros C. change 0%Q with (inject_Z 0) in C.
        apply (proj1 (inject_Z_injective M 0)) in C. contradiction. }
      rewrite E. discriminate.
Qed.

Lemma frameTurn_progress w T fps s f l :
  0 <= T * fps -> reported (T * fps) l ->
  reported (T * fps) (fst (frameTurn w T fps s f l)) /\
  globalFrameIndex (fst (frameTurn w T fps s f l)) <= globalFrameIndex l + 1.
Proof.
  intros HM (Ha & Hf & Hg). unfold frameTurn. cbn [emit globalFrameIndex currentTimestamp calls].
  fold (frameProgress (T * fps) (globalFrameIndex l)).
  set (B := frameProgress (T * fps) (globalFrameIndex l)) in *.
  assert (A1 : ascending_from 5 (progress (calls l) ++ [B])).
  { apply ascending_from_snoc; auto.
    apply Qle_trans with 10%Q; [discriminate|]. now apply frameProgress_low. }
  assert (F1 : Forall (fun p => p <= B)%Q (progress (calls l) ++ [B])).
  { apply Forall_app. split; [exact Hf|]. constructor; [apply Qle_refl|constructor]. }
  assert (P1 : forall c, (forall p, c <> UpdateProgress p) ->
                         forall cs, progress (cs ++ [c]) = progress cs).
  { intros c Hc cs. rewrite progress_app. destruct c; cbn; try apply app_nil_r.
    exfalso. eapply Hc. reflexivity. }
  assert (P0 : progress ((calls l ++ [UpdateProgress B]) ++ [RenderFrame s f fps])
               = progress (calls l) ++ [B]).
  { rewrite P1 by discriminate. now rewrite progress_app. }
  destruct (renderFrame w (globalFrameIndex l)).
  2:{ cbn [fst]. unfold reported. cbn [emit calls globalFrameIndex]. rewrite P0.
      repeat split; auto; lia. }
  destruct (canvasSource_add w (globalFrameIndex l)); cbn [fst]; unfold reported;
    cbn [emit calls globalFrameIndex]; rewrite P1 by discriminate; rewrite P0.
  - repeat split; auto; try lia.
    eapply Forall_Qle_trans; [exact F1|]. apply frameProgress_mono; lia.
  - repeat split; auto; lia.
Qed.

Lemma frameLoop_progress w T fps s todo :
  0 <= T * fps ->
  forall f l, reported (T * fps) l ->
    reported (T * fps) (fst (frameLoop w T fps s todo f l)) /\
    globalFrameIndex (fst (frameLoop w T fps s todo f l))
    <= globalFrameIndex l + Z.of_nat todo.
Proof.
  intros HM. induction todo as [|todo IH]; intros f l Hl.
  - cbn [frameLoop fst]. split; [exact Hl|lia].
  - cbn [frameLoop]. pose proof (frameTurn_progress w T fps s f l HM Hl) as [H1 G1].
    destruct (frameTurn w T fps s f l) as [l1 [e|]]; cbn [fst] in *.
    + split; [exact H1|lia].
    + destruct (IH (f + 1) l1 H1) as [H2 G2]. split; [exact H2|lia].
Qed.

Lemma sceneLoop_progress w T fps rest :
  0 <= fps -> 0 <= T * fps ->
  forall i l, reported (T * fps) l ->
    reported (T * fps) (fst (sceneLoop w T fps rest i l)) /\
    globalFrameIndex (fst (sceneLoop w T fps rest i l))
    <= globalFrameIndex l + Z.of_nat (List.length rest) * fps.
Proof.
  intros Hfps HM. induction rest as [|s rest IH]; intros i l Hl.
  - cbn [sceneLoop fst List.length]. split; [exact Hl|lia].
  - cbn [sceneLoop]. destruct (signal_aborted w i).
    + assert (R : reported (T * fps) (emit l OutputCancel)).
      { destruct Hl as (Ha & Hf & Hg). unfold reported. cbn [emit calls globalFrameIndex].
        rewrite progress_app. cbn. rewrite app_nil_r. auto. }
      destruct (output_cancel w); cbn [fst]; (split; [exact R|]);
        cbn [emit globalFrameIndex List.length]; nia.
    + pose proof (frameLoop_progress w T fps s (Z.to_nat fps) HM 0 l Hl) as [H1 G1].
      destruct (frameLoop w T fps s (Z.to_nat fps) 0 l) as [l1 [e|]]; cbn [fst] in *.
      * split; [exact H1|]. cbn [List.length]. nia.
      * destruct (IH (i + 1) l1 H1) as [H2 G2]. split; [exact H2|].
        cbn [List.length]. nia.
Qed.

(** X13. The progress [exportVideo] reports never goes back: whatever the
    collaborators do, the values reported form a non-decreasing sequence
    that starts at 5 and stays at or below 100; while frames are being
    made it stays at or below 95, and a run that returns the video has
    reported 95 and then 100 last. *)
Theorem exportVideo_progress_never_goes_back
    (w : World) (sequences : list Sequence) (timingMs : Q) :
  (0 <= timingMs)%Q ->
  let ps := progress (fst (exportVideo w sequences timingMs)) in
  ascending_from 5 ps /\
  Forall (fun p => p <= 100)%Q ps /\
  (snd (exportVideo w sequences timingMs) = Blob ->
   exists before, ps = before ++ [95; 100]%Q /\ Forall (fun p => p <= 95)%Q before).
Proof.
  intros Ht. cbv zeta. pose proof (framesPerScene_nonneg timingMs Ht) as Hn.
  unfold exportVideo. destruct sequences as [|s0 r].
  { cbn. repeat split; [constructor|discriminate]. }
  set (scenes := s0 :: r). set (n := framesPerScene timingMs) in *.
  set (T := Z.of_nat (List.length scenes)).
  assert (HM : 0 <= T * n) by (unfold T; nia).
  destruct (createEncodingConfig w).
  2:{ cbn. repeat split; try discriminate. repeat constructor. discriminate. }
  destruct (output_start w).
  2:{ cbn. repeat split; try discriminate. repeat constructor. discriminate. }
  set (l2 := emit (emit _ OutputStart) (UpdateProgress 10)).
  assert (Hl2 : reported (T * n) l2).
  { assert (B0 : (10 <= frameProgress (T * n) 0)%Q) by (apply frameProgress_low; lia).
    unfold reported. split; [|split; [|cbn; lia]].
    - cbn. repeat split; discriminate.
    - change (progress (calls l2)) with [5; 10]%Q. change (globalFrameIndex l2) with 0.
      constructor; [apply Qle_trans with 10%Q; [discriminate|exact B0]|].
      constructor; [exact B0|constructor]. }
  destruct (sceneLoop_progress w T n scenes Hn HM 0 l2 Hl2) as [(Ha & Hf & Hg) G].
  assert (F95 : Forall (fun p => p <= 95)%Q
                  (progress (calls (fst (sceneLoop w T n scenes 0 l2))))).
  { eapply Forall_Qle_trans; [exact Hf|]. apply frameProgress_high; [exact HM|].
    cbn [globalFrameIndex l2 emit] in G. fold T in G. lia. }
  assert (Hs2 : steady l2).
  { split; [|split].
    - split; [reflexivity|]. split; [reflexivity|]. intros [|k] ? ? H; discriminate.
    - intros [H|[H|[H|[]]]]; discriminate.
    - reflexivity. }
  pose proof (sceneLoop_any w T n scenes 0 l2 Hs2) as Any.
  destruct (sceneLoop w T n scenes 0 l2) as [l3 [o|]]; cbn [fst snd] in *.
  { split; [exact Ha|]. split.
    - eapply Forall_Qle_trans; [exact F95|discriminate].
    - intros ->. destruct Any as [_ C]. congruence. }
  set (cs4 := calls (emit (emit (emit l3 (UpdateProgress 95)) CanvasSourceClose)
                          OutputFinalize)).
  assert (P4 : progress cs4 = progress (calls l3) ++ [95%Q]).
  { unfold cs4. cbn [emit calls]. rewrite !progress_app. cbn. now rewrite !app_nil_r. }
  assert (A4 : ascending_from 5 (progress cs4)).
  { rewrite P4. apply ascending_from_snoc; [exact Ha|exact F95|discriminate]. }
  assert (F4 : Forall (fun p => p <= 95)%Q (progress cs4)).
  { rewrite P4. apply Forall_app. split; [exact F95|]. repeat constructor. discriminate. }
  destruct (output_finalize w).
  - set (cs5 := calls (emit _ (UpdateProgress 100))).
    assert (P5 : progress cs5 = progress cs4 ++ [100%Q]).
    { unfold cs5. cbn [emit calls]. now rewrite (progress_app _ [UpdateProgress 100]). }
    assert (R5 : ascending_from 5 (progress cs5) /\
                 Forall (fun p => p <= 100)%Q (progress cs5) /\
                 exists before, progress cs5 = before ++ [95; 100]%Q /\
                                Forall (fun p => p <= 95)%Q before).
    { rewrite P5. split; [|split].
      - apply ascending_from_snoc; [exact A4| |discriminate].
        eapply Forall_Qle_trans; [exact F4|discriminate].
      - apply Forall_app. split; [|repeat constructor; discriminate].
        eapply Forall_Qle_trans; [exact F4|discriminate].
      - exists (progress (calls l3)). split; [|exact F95].
        rewrite P4, <- app_assoc. reflexivity. }
    destruct R5 as (R5a & R5b & R5c).
    destruct (target_buffer w); cbn [fst snd]; (split; [exact R5a|split; [exact R5b|]]).
    + intros _. exact R5c.
    + discriminate.
  - cbn [fst snd]. split; [exact A4|]. split; [|discriminate].
    eapply Forall_Qle_trans; [exact F4|discriminate].
Qed.

Lemma exportVideo_progress_never_goes_back_witness :
  (0 <= 2000)%Q /\
  ascending_from 5 (progress (fst (exportVideo Demo.quietWorld Demo.cards 2000))).
Proof.
  assert (T : (0 <= 2000)%Q) by discriminate.
  split; [exact T|].
  exact (proj1 (exportVideo_progress_never_goes_back Demo.quietWorld Demo.cards 2000 T)).
Defined.

End VideoExportFacts.


(** ** The export dialog and the export utility *)

Module VideoExportModalFacts.
Import JS Types Sequencer VideoExport VideoExportFacts VideoExportModal Float64Facts.

(** *** The export dialog *)

Lemma exportVideo_undisturbed_run (w : World) (sequences : list Sequence) (timingMs : Q) :
  undisturbed w -> sequences <> [] -> (0 <= timingMs)%Q ->
  let cs := fst (exportVideo w sequences timingMs) in
  snd (exportVideo w sequences timingMs) = Blob /\
  grid_calls cs /\
  Z.of_nat (List.length (submitted cs))
  = Z.of_nat (List.length sequences) * framesPerScene timingMs.
Proof.
  intros Hw Hne Ht. cbv zeta.
  pose proof (framesPerScene_nonneg timingMs Ht) as Hn.
  unfold exportVideo. destruct sequences as [|s0 r]; [congruence|].
  set (scenes := s0 :: r). set (n := framesPerScene timingMs) in *.
  pose proof Hw as (-> & -> & _ & _ & _ & Hf & Hb).
  set (l2 := emit (emit _ OutputStart) (UpdateProgress 10)).
  assert (Hl2 : on_grid l2).
  { split; [reflexivity|]. split; [reflexivity|].
    intros k t d H. now destruct k. }
  destruct (sceneLoop_undisturbed w (Z.of_nat (List.length scenes)) n scenes Hw Hn 0 l2 Hl2)
    as (l3 & -> & (Hg & Hts & Hnth) & G & R).
  rewrite Hf, Hb. cbn [fst snd emit calls]. unfold grid_calls.
  rewrite !submitted_app. cbn [submitted flat_map app]. rewrite !app_nil_r.
  split; [reflexivity|]. split; [exact Hnth|].
  rewrite <- Hg, G. reflexivity.
Qed.

Lemma videoDuration_grid (cs : list call) :
  grid_calls cs ->
  (videoDuration cs == inject_Z (Z.of_nat (List.length (submitted cs))) * frameDuration)%Q.
Proof.
  unfold grid_calls, videoDuration. generalize (submitted cs). intros l H.
  assert (F : Forall (fun td => snd td = frameDuration) l).
  { apply Forall_forall. intros [t d] Hin. apply In_nth_error in Hin as [k Hk].
    apply (H k t d Hk). }
  clear H. induction F as [|td r Hd _ IH]; cbn [fold_right List.length].
  - reflexivity.
  - rewrite IH, Hd, Nat2Z.inj_succ. unfold Z.succ. rewrite inject_Z_plus.
    change (inject_Z 1) with 1%Q. ring.
Qed.

(** The length of a scene, [n] frames of [frameDuration], against its
    nominal duration. *)
Lemma scene_length_near (timingMs : Q) :
  (1 <= timingMs)%Q ->
  (Qabs (inject_Z (framesPerScene timingMs) * frameDuration - timingMs / 1000)
   <= (1 # 60) + timingMs / 1000 * (1 # 2 ^ 47))%Q.
Proof.
  intros H. pose proof (framesPerScene_near timingMs H) as N.
  apply Qabs_Qle_condition in N. rewrite frameDuration_value.
  set (x := (timingMs / 1000)%Q) in *.
  assert (X : (1 # 1000 <= x)%Q).
  { unfold x. apply Qle_shift_div_l; [reflexivity|]. lra. }
  set (n := inject_Z (framesPerScene timingMs)) in *. clearbody n x.
  change (1 # 2 ^ 51)%Q with (1 # 2251799813685248)%Q in N.
  change (1 # 2 ^ 47)%Q with (1 # 140737488355328)%Q.
  apply Qabs_Qle_condition. split; lra.
Qed.

(** The duration the dialog shows against the exact product. *)
Lemma totalDuration_near (sequences : list Sequence) (loopCount : Z) (timingMs : Q) :
  (1 <= timingMs)%Q -> 1 <= totalFrames sequences loopCount ->
  (Qabs (totalDuration sequences loopCount timingMs
         - inject_Z (totalFrames sequences loopCount) * (timingMs / 1000))
   <= inject_Z (totalFrames sequences loopCount) * (timingMs / 1000) * (1 # 2 ^ 51))%Q.
Proof.
  intros H HF. unfold totalDuration, Float64.div, Float64.mul.
  assert (F1 : (1 <= inject_Z (totalFrames sequences loopCount))%Q).
  { change 1%Q with (inject_Z 1). now rewrite <- Zle_Qle. }
  set (F := inject_Z (totalFrames sequences loopCount)) in *. clearbody F.
  assert (FT : (1 <= F * timingMs)%Q).
  { apply Qle_trans with (1 * timingMs)%Q; [lra|].
    apply Qmult_le_compat_r; lra. }
  assert (E : (F * (timingMs / 1000) == F * timingMs / 1000)%Q) by field.
  rewrite E. set (a := (F * timingMs)%Q) in *. clearbody a.
  pose proof (pow2_pos (-1022)) as P.
  assert (P1 : (2 ^ (-1022) <= 1 # 1024)%Q).
  { change (1 # 1024)%Q with (2 ^ (-10))%Q. apply pow2_le. lia. }
  assert (N1 : (2 ^ (-1022) <= Qabs a)%Q).
  { set (p := (2 ^ (-1022))%Q) in *. clearbody p. rewrite Qabs_pos; lra. }
  pose proof (b64_relative a N1) as R1. rewrite unit_roundoff_value in R1.
  assert (A1 : (Qabs a == a)%Q) by (apply Qabs_pos; lra).
  rewrite A1 in R1. apply Qabs_Qle_condition in R1.
  set (y := Float64.b64 a) in *.
  assert (D : (y / 1000 == y * (1 # 1000))%Q) by (unfold Qdiv; reflexivity).
  assert (N2 : (2 ^ (-1022) <= Qabs (y / 1000))%Q).
  { set (p := (2 ^ (-1022))%Q) in *. clearbody p y. rewrite Qabs_pos; rewrite D; lra. }
  pose proof (b64_relative (y / 1000) N2) as R2. rewrite unit_roundoff_value in R2.
  assert (A2 : (Qabs (y / 1000) == y / 1000)%Q).
  { apply Qabs_pos. rewrite D. clearbody y. lra. }
  rewrite A2 in R2. apply Qabs_Qle_condition in R2.
  set (z := Float64.b64 (y / 1000)) in *.
  assert (D' : (a / 1000 == a * (1 # 1000))%Q) by (unfold Qdiv; reflexivity).
  rewrite D in R2. rewrite D'.
  change (1 # 2 ^ 51)%Q with (1 # 2251799813685248)%Q.
  clearbody z y. apply Qabs_Qle_condition. split; lra.
Qed.

Lemma concat_repeat_length {A} (l : list A) (k : nat) :
  List.length (List.concat (repeat l k)) = (k * List.length l)%nat.
Proof.
  induction k as [|k IH]; [reflexivity|].
  cbn [repeat List.concat]. rewrite length_app, IH. lia.
Qed.

Lemma concat_repeat_map {A B} (f : A -> B) (l : list A) (k : nat) :
  map f (List.concat (repeat l k)) = List.concat (repeat (map f l) k).
Proof.
  induction k as [|k IH]; [reflexivity|].
  cbn [repeat List.concat]. now rewrite map_app, IH.
Qed.

Lemma Qabs_scale (F d B : Q) :
  (0 <= F)%Q -> (Qabs d <= B)%Q -> (Qabs (F * d) <= F * B)%Q.
Proof.
  intros HF H. rewrite Qabs_Qmult, (Qabs_pos F HF).
  rewrite !(Qmult_comm F). apply Qmult_le_compat_r; assumption.
Qed.

(** X14. The export dialog on a non-empty collection, for a duration of a
    millisecond or more, when nothing fails: the scene list is the title
    card (id -1), [loopCount] passes over the collection, and the closing
    card (id -2), which is the number of scenes the dialog shows; the
    video has [framesPerScene] frames for each of them, each
    [frameDuration] long, and its length differs from the duration the
    dialog shows by at most half a frame (1/60 s) per scene and [2^-46] of
    the nominal duration. *)
Theorem handleStartExport_video_length
    (w : World) (sequences : list Sequence) (timingMs : Q) (loopCount : Z)
    (videoName : string) :
  undisturbed w -> sequences <> [] -> (1 <= timingMs)%Q -> 0 <= loopCount ->
  exists scenes cs,
    expandedSequences sequences loopCount videoName = Some scenes /\
    handleStartExport w sequences timingMs loopCount videoName = Some (cs, Blob) /\
    len scenes = totalFrames sequences loopCount /\
    map (fun sc => id (card sc)) scenes
    = [-1] ++ List.concat (repeat (map id sequences) (Z.to_nat loopCount)) ++ [-2] /\
    Z.of_nat (List.length (submitted cs))
    = totalFrames sequences loopCount * framesPerScene timingMs /\
    (videoDuration cs
     == inject_Z (Z.of_nat (List.length (submitted cs))) * frameDuration)%Q /\
    (Qabs (videoDuration cs - totalDuration sequences loopCount timingMs)
     <= inject_Z (totalFrames sequences loopCount)
        * ((1 # 60) + timingMs / 1000 * (1 # 2 ^ 46)))%Q.
Proof.
  intros Hw Hne Ht1 Hl.
  assert (Ht : (0 <= timingMs)%Q) by lra.
  destruct sequences as [|s0 r] eqn:Es; [congruence|]. rewrite <- Es in *.
  assert (Ei : forall i n, titleCard sequences i n
                           = Some {| id := i; name := n; description := description s0;
                                     data := data s0; geoConfig := geoConfig s0 |}).
  { intros i n. rewrite Es. reflexivity. }
  unfold handleStartExport, expandedSequences. rewrite !Ei.
  set (scenes := [_] ++ _ ++ [_]).
  assert (Hlen : len scenes = totalFrames sequences loopCount).
  { unfold scenes, len, totalFrames. rewrite !length_app, concat_repeat_length, length_map.
    cbn [List.length]. unfold len. nia. }
  assert (Hscenes : map card scenes <> []) by discriminate.
  destruct (exportVideo_undisturbed_run w (map card scenes) timingMs Hw Hscenes Ht)
    as (Hb & Hg & Hc).
  exists scenes, (fst (exportVideo w (map card scenes) timingMs)).
  assert (Hcount : Z.of_nat (List.length
                     (submitted (fst (exportVideo w (map card scenes) timingMs))))
                   = totalFrames sequences loopCount * framesPerScene timingMs).
  { rewrite Hc, length_map. fold (len scenes). now rewrite Hlen. }
  split; [reflexivity|]. split; [|split; [exact Hlen|split; [|split; [exact Hcount|split]]]].
  - f_equal. rewrite <- Hb. now destruct (exportVideo w (map card scenes) timingMs).
  - unfold scenes. rewrite !map_app, concat_repeat_map, map_map. reflexivity.
  - apply videoDuration_grid. exact Hg.
  - rewrite (videoDuration_grid _ Hg), Hcount, inject_Z_mult.
    assert (HF : 1 <= totalFrames sequences loopCount).
    { unfold totalFrames, len. nia. }
    pose proof (totalDuration_near sequences loopCount timingMs Ht1 HF) as TD.
    pose proof (scene_length_near timingMs Ht1) as SL.
    assert (F0 : (0 <= inject_Z (totalFrames sequences loopCount))%Q).
    { change 0%Q with (inject_Z 0). rewrite <- Zle_Qle. lia. }
    set (F := inject_Z (totalFrames sequences loopCount)) in *. clearbody F.
    set (td := totalDuration sequences loopCount timingMs) in *. clearbody td.
    set (n := inject_Z (framesPerScene timingMs)) in *. clearbody n.
    set (x := (timingMs / 1000)%Q) in *.
    assert (X : (0 <= x)%Q).
    { unfold x. apply Qle_shift_div_l; [reflexivity|]. lra. }
    clearbody x.
    pose proof (Qabs_scale F _ _ F0 SL) as S1.
    set (fd := frameDuration) in *. clearbody fd.
    assert (FX : (0 <= F * x)%Q) by (apply Qmult_le_0_compat; assumption).
    apply Qabs_Qle_condition in S1. apply Qabs_Qle_condition in TD.
    assert (E1 : (F * (n * fd - x) == F * n * fd - F * x)%Q) by ring.
    assert (E2 : (F * ((1 # 60) + x * (1 # 2 ^ 47)) == F * (1 # 60) + F * x * (1 # 2 ^ 47))%Q)
      by ring.
    assert (E3 : (F * ((1 # 60) + x * (1 # 2 ^ 46)) == F * (1 # 60) + F * x * (1 # 2 ^ 46))%Q)
      by ring.
    rewrite E1, E2 in S1. rewrite E3.
    set (a := (F * n * fd)%Q) in *. set (b := (F * x)%Q) in *. clearbody a b.
    change (1 # 2 ^ 51)%Q with (1 # 2251799813685248)%Q in TD.
    change (1 # 2 ^ 47)%Q with (1 # 140737488355328)%Q in S1.
    change (1 # 2 ^ 46)%Q with (1 # 70368744177664)%Q.
    apply Qabs_Qle_condition. split; lra.
Qed.

Lemma handleStartExport_video_length_witness :
  undisturbed Demo.quietWorld /\
  (1 <= 1500)%Q /\ 0 <= 3 /\
  exists cs,
    handleStartExport Demo.quietWorld (firstn 2 Demo.cards) 1500 3 "QRP Sequence"
    = Some (cs, Blob) /\
    Z.of_nat (List.length (submitted cs)) = 360.
Proof.
  assert (W : undisturbed Demo.quietWorld) by (repeat split).
  assert (T : (1 <= 1500)%Q) by discriminate.
  assert (L : 0 <= 3) by lia.
  assert (N : firstn 2 Demo.cards <> []) by discriminate.
  split; [exact W|]. split; [exact T|]. split; [exact L|].
  destruct (handleStartExport_video_length Demo.quietWorld (firstn 2 Demo.cards) 1500 3
              "QRP Sequence" W N T L) as (scenes & cs & _ & E & _ & _ & C & _).
  exists cs. split; [exact E|]. rewrite C. reflexivity.
Defined.

End VideoExportModalFacts.

Module VideoExportUtilFacts.
Import JS Types VideoExportUtil Float64Facts.









(** Three frames of a tenth of a second: the third is submitted at
    0.2, the clock then stands at 0.30000000000000004. *)
Example exportSequencesToMP4_tenths :
  Float64.running_sum (Float64.div 100 1000) 3
  = Float64.b64 (30000000000000004 # 100000000000000000) /\
  ~ (Float64.running_sum (Float64.div 100 1000) 3 == Float64.b64 (3 # 10))%Q.
Proof. split; [vm_compute; reflexivity|vm_compute; congruence]. Qed.

(** *** Placing the image *)

Section Placement.
Local Open Scope Q_scope.

Lemma in_range_pos (x : Q) : in_range x -> 0 < x.
Proof. intros [L _]. pose proof (pow2_pos (-300)). lra. Qed.

(** A quotient of two numbers in range is far from the subnormal
    numbers. *)
Lemma Qdiv_in_range (a b : Q) :
  in_range a -> in_range b -> 2 ^ (-600) <= a / b /\ a / b <= 2 ^ 600.
Proof.
  intros [La Ua] [Lb Ub].
  pose proof (pow2_pos (-300)) as P. pose proof (pow2_pos 300) as P'.
  assert (Pb : 0 < b) by lra.
  split.
  - apply Qle_shift_div_l; [exact Pb|].
    apply Qle_trans with (2 ^ (-600) * 2 ^ 300).
    + apply Qmult_le_l; [apply pow2_pos|exact Ub].
    + rewrite <- pow2_plus. exact La.
  - apply Qle_shift_div_r; [exact Pb|].
    apply Qle_trans with (2 ^ 600 * 2 ^ (-300)).
    + rewrite <- pow2_plus. exact Ua.
    + apply Qmult_le_l; [apply pow2_pos|exact Lb].
Qed.

(** Rounding a positive number that is not subnormal. *)
Lemma b64_near_pos (x : Q) (e : Z) :
  (-1022 <= e)%Z -> 2 ^ e <= x ->
  x * (1 - (1 # 9007199254740992)) <= Float64.b64 x /\
  Float64.b64 x <= x * (1 + (1 # 9007199254740992)).
Proof.
  intros He Hx. pose proof (pow2_pos e) as P. pose proof (pow2_le _ _ He) as L.
  assert (A : Qabs x == x) by (apply Qabs_pos; lra).
  pose proof (b64_relative x) as R. rewrite A in R.
  assert (N : 2 ^ (-1022) <= x) by lra. specialize (R N).
  apply Qabs_le_split in R.
  assert (U : Float64.unit_roundoff == 1 # 9007199254740992) by reflexivity.
  rewrite U in R. lra.
Qed.

Lemma sub_self_half (x : Q) : Float64.div (Float64.sub x x) 2 = 0.
Proof.
  unfold Float64.div, Float64.sub.
  rewrite (b64_zero (x - x)) by ring. apply b64_zero. reflexivity.
Qed.

(** Half the space left over, after its two roundings. *)
Lemma half_slack (x y : Q) :
  Qabs (2 * Float64.div (Float64.sub x y) 2 - (x - y))
  <= (1 # 2 ^ 51) * Qabs (x - y) + 2 ^ (-1073).
Proof.
  unfold Float64.div, Float64.sub.
  set (z := x - y). set (d := Float64.b64 z).
  pose proof (b64_error_any z) as E1. fold d in E1.
  pose proof (b64_error_any (d / 2)) as E2.
  set (o := Float64.b64 (d / 2)) in *.
  assert (U : Float64.unit_roundoff == 1 # 9007199254740992) by reflexivity.
  rewrite U in E1, E2.
  assert (H2 : Qabs (d / 2) == Qabs d * (1 # 2)).
  { unfold Qdiv. rewrite Qabs_Qmult. reflexivity. }
  rewrite H2 in E2.
  assert (T : 2 ^ (-1073) == 4 * 2 ^ (-1075)).
  { change (-1073)%Z with (2 + -1075)%Z. rewrite pow2_plus. reflexivity. }
  rewrite T. pose proof (pow2_pos (-1075)) as P.
  set (eta := 2 ^ (-1075)) in *. clearbody eta.
  change (1 # 2 ^ 51) with (1 # 2251799813685248).
  apply Qabs_Qle_condition in E1. apply Qabs_Qle_condition in E2.
  apply Qabs_Qle_condition.
  clearbody o d. clearbody z.
  assert (Az : Qabs z == z /\ 0 <= z \/ Qabs z == - z /\ z <= 0).
  { destruct (Qlt_le_dec z 0); [right|left]; split; try lra;
      [apply Qabs_neg|apply Qabs_pos]; lra. }
  assert (Ad : Qabs d == d /\ 0 <= d \/ Qabs d == - d /\ d <= 0).
  { destruct (Qlt_le_dec d 0); [right|left]; split; try lra;
      [apply Qabs_neg|apply Qabs_pos]; lra. }
  set (az := Qabs z) in *. set (ad := Qabs d) in *. clearbody az ad.
  unfold Qdiv in *. change (/ 2) with (1 # 2) in *.
  destruct Az as [[Ez Z]|[Ez Z]]; destruct Ad as [[Ed D]|[Ed D]]; lra.
Qed.

Lemma Qdiv_lower (a b : Q) (i j : Z) :
  2 ^ i <= a -> 0 < b -> b <= 2 ^ j -> 2 ^ (i - j) <= a / b.
Proof.
  intros La Pb Ub. apply Qle_shift_div_l; [exact Pb|].
  apply Qle_trans with (2 ^ (i - j) * 2 ^ j).
  - apply Qmult_le_l; [apply pow2_pos|exact Ub].
  - rewrite <- pow2_plus. replace (i - j + j)%Z with i by lia. exact La.
Qed.

(** The rounded aspect ratio of two numbers in range. *)
Lemma aspect_near (a b : Q) :
  in_range a -> in_range b ->
  let r := Float64.div a b in
  (a / b) * (1 - (1 # 9007199254740992)) <= r /\
  r <= (a / b) * (1 + (1 # 9007199254740992)) /\
  2 ^ (-601) <= r /\ r <= 2 ^ 601.
Proof.
  intros Ha Hb r. destruct (Qdiv_in_range a b Ha Hb) as [L U].
  destruct (b64_near_pos (a / b) (-600) ltac:(lia) L) as [L' U'].
  fold (Float64.div a b) in L', U'. fold r in L', U'.
  pose proof (pow2_pos (-600)) as P.
  assert (E1 : 2 ^ (-600) == 2 * 2 ^ (-601)) by (rewrite <- pow2_succ; reflexivity).
  assert (E2 : 2 ^ 601 == 2 * 2 ^ 600) by (rewrite <- pow2_succ; reflexivity).
  set (x := a / b) in *. clearbody x r.
  set (p := 2 ^ (-600)) in *. set (p' := 2 ^ (-601)) in *.
  set (q := 2 ^ 600) in *. set (q' := 2 ^ 601) in *. clearbody p p' q q'.
  repeat split; lra.
Qed.

(** The image of a [viewBox] wider than the canvas. *)
Lemma fit_to_width (width height vbWidth vbHeight : Q) :
  in_range width -> in_range height -> in_range vbWidth -> in_range vbHeight ->
  Float64.div width height < Float64.div vbWidth vbHeight ->
  let svgHeight := Float64.div width (Float64.div vbWidth vbHeight) in
  0 < svgHeight /\ svgHeight <= height * (1 + (1 # 2 ^ 51)) /\
  Qabs (svgHeight * vbWidth - width * vbHeight) <= (1 # 2 ^ 51) * (width * vbHeight).
Proof.
  intros Hw Hh Hvw Hvh G sh.
  pose proof (in_range_pos _ Hw) as Pw. pose proof (in_range_pos _ Hh) as Ph.
  pose proof (in_range_pos _ Hvw) as Pvw. pose proof (in_range_pos _ Hvh) as Pvh.
  destruct (aspect_near vbWidth vbHeight Hvw Hvh) as (Lv & Uv & Nv & Mv).
  destruct (aspect_near width height Hw Hh) as (Lc & _ & _ & _).
  cbv zeta in Lv, Uv, Nv, Mv, Lc.
  set (va := Float64.div vbWidth vbHeight) in *.
  set (ca := Float64.div width height) in *.
  assert (Pva : 0 < va) by (pose proof (pow2_pos (-601)); lra).
  assert (Nq : 2 ^ (-901) <= width / va).
  { apply (Qdiv_lower width va (-300) 601); [apply Hw|exact Pva|exact Mv]. }
  destruct (b64_near_pos (width / va) (-901) ltac:(lia) Nq) as [Ls Us].
  fold (Float64.div width va) in Ls, Us. fold sh in Ls, Us.
  assert (E1 : width / va * va == width) by (field; lra).
  assert (E2 : vbWidth / vbHeight * vbHeight == vbWidth) by (field; lra).
  assert (E3 : width / height * height == width) by (field; lra).
  assert (Pq : 0 < width / va) by (pose proof (pow2_pos (-901)); lra).
  assert (Pc : 0 < width / height).
  { apply Qlt_shift_div_l; [exact Ph|lra]. }
  set (q := width / va) in *. set (r := vbWidth / vbHeight) in *.
  set (c := width / height) in *.
  clearbody sh q r c va ca.
  change (1 # 2 ^ 51) with (1 # 2251799813685248).
  (* q (1 - u) < height *)
  assert (F1 : q * (1 - (1 # 9007199254740992)) < height).
  { apply (Qmult_lt_r _ _ c Pc).
    apply Qlt_le_trans with (q * va).
    - setoid_replace (q * (1 - (1 # 9007199254740992)) * c)
        with (q * (c * (1 - (1 # 9007199254740992)))) by ring.
      apply Qmult_lt_l; [exact Pq|]. lra.
    - rewrite E1, <- E3. rewrite (Qmult_comm c height). apply Qle_refl. }
  (* the products q vbWidth and width vbHeight *)
  assert (F2 : q * vbWidth * (1 - (1 # 9007199254740992)) <= width * vbHeight).
  { rewrite <- E1, <- E2.
    setoid_replace (q * (r * vbHeight) * (1 - (1 # 9007199254740992)))
      with (q * vbHeight * (r * (1 - (1 # 9007199254740992)))) by ring.
    setoid_replace (q * va * vbHeight) with (q * vbHeight * va) by ring.
    apply Qmult_le_l; [apply Qmult_lt_0_compat; assumption|]. lra. }
  assert (F3 : width * vbHeight <= q * vbWidth * (1 + (1 # 9007199254740992))).
  { rewrite <- E1, <- E2.
    setoid_replace (q * (r * vbHeight) * (1 + (1 # 9007199254740992)))
      with (q * vbHeight * (r * (1 + (1 # 9007199254740992)))) by ring.
    setoid_replace (q * va * vbHeight) with (q * vbHeight * va) by ring.
    apply Qmult_le_l; [apply Qmult_lt_0_compat; assumption|]. lra. }
  assert (F4 : q * vbWidth * (1 - (1 # 9007199254740992)) <= sh * vbWidth).
  { setoid_replace (q * vbWidth * (1 - (1 # 9007199254740992)))
      with (q * (1 - (1 # 9007199254740992)) * vbWidth) by ring.
    apply Qmult_le_compat_r; lra. }
  assert (F5 : sh * vbWidth <= q * vbWidth * (1 + (1 # 9007199254740992))).
  { setoid_replace (q * vbWidth * (1 + (1 # 9007199254740992)))
      with (q * (1 + (1 # 9007199254740992)) * vbWidth) by ring.
    apply Qmult_le_compat_r; lra. }
  assert (PT : 0 < width * vbHeight) by (apply Qmult_lt_0_compat; assumption).
  set (T := width * vbHeight) in *. set (P := q * vbWidth) in *.
  set (S := sh * vbWidth) in *. clearbody T P S.
  split; [lra|]. split; [lra|]. apply Qabs_Qle_condition. lra.
Qed.

(** The image of a [viewBox] no wider than the canvas. *)
Lemma fit_to_height (width height vbWidth vbHeight : Q) :
  in_range width -> in_range height -> in_range vbWidth -> in_range vbHeight ->
  Float64.div vbWidth vbHeight <= Float64.div width height ->
  let svgWidth := Float64.mul height (Float64.div vbWidth vbHeight) in
  0 < svgWidth /\ svgWidth <= width * (1 + (1 # 2 ^ 51)) /\
  Qabs (svgWidth * vbHeight - height * vbWidth) <= (1 # 2 ^ 51) * (height * vbWidth).
Proof.
  intros Hw Hh Hvw Hvh G sw.
  pose proof (in_range_pos _ Hw) as Pw. pose proof (in_range_pos _ Hh) as Ph.
  pose proof (in_range_pos _ Hvw) as Pvw. pose proof (in_range_pos _ Hvh) as Pvh.
  destruct (aspect_near vbWidth vbHeight Hvw Hvh) as (Lv & Uv & Nv & Mv).
  destruct (aspect_near width height Hw Hh) as (_ & Uc & _ & _).
  cbv zeta in Lv, Uv, Nv, Mv, Uc.
  set (va := Float64.div vbWidth vbHeight) in *.
  set (ca := Float64.div width height) in *.
  assert (Pva : 0 < va) by (pose proof (pow2_pos (-601)); lra).
  assert (Np : 2 ^ (-901) <= height * va).
  { change (-901)%Z with (-300 + -601)%Z. rewrite pow2_plus.
    apply Qle_trans with (height * 2 ^ (-601)).
    - apply Qmult_le_compat_r; [apply Hh|]. apply Qlt_le_weak, pow2_pos.
    - apply Qmult_le_l; [exact Ph|exact Nv]. }
  destruct (b64_near_pos (height * va) (-901) ltac:(lia) Np) as [Ls Us].
  fold (Float64.mul height va) in Ls, Us. fold sw in Ls, Us.
  assert (E2 : vbWidth / vbHeight * vbHeight == vbWidth) by (field; lra).
  assert (E3 : width / height * height == width) by (field; lra).
  assert (Pp : 0 < height * va) by (apply Qmult_lt_0_compat; assumption).
  set (r := vbWidth / vbHeight) in *. set (c := width / height) in *.
  clearbody sw r c va ca.
  change (1 # 2 ^ 51) with (1 # 2251799813685248).
  (* height va <= width (1 + u) *)
  assert (F1 : height * va <= width * (1 + (1 # 9007199254740992))).
  { rewrite <- E3.
    setoid_replace (c * height * (1 + (1 # 9007199254740992)))
      with (height * (c * (1 + (1 # 9007199254740992)))) by ring.
    apply Qmult_le_l; [exact Ph|]. lra. }
  (* the products height va vbHeight and height vbWidth *)
  assert (F2 : height * vbWidth * (1 - (1 # 9007199254740992)) <= height * va * vbHeight).
  { rewrite <- E2.
    setoid_replace (height * (r * vbHeight) * (1 - (1 # 9007199254740992)))
      with (height * vbHeight * (r * (1 - (1 # 9007199254740992)))) by ring.
    setoid_replace (height * va * vbHeight) with (height * vbHeight * va) by ring.
    apply Qmult_le_l; [apply Qmult_lt_0_compat; assumption|]. lra. }
  assert (F3 : height * va * vbHeight <= height * vbWidth * (1 + (1 # 9007199254740992))).
  { rewrite <- E2.
    setoid_replace (height * (r * vbHeight) * (1 + (1 # 9007199254740992)))
      with (height * vbHeight * (r * (1 + (1 # 9007199254740992)))) by ring.
    setoid_replace (height * va * vbHeight) with (height * vbHeight * va) by ring.
    apply Qmult_le_l; [apply Qmult_lt_0_compat; assumption|]. lra. }
  assert (F4 : height * va * vbHeight * (1 - (1 # 9007199254740992)) <= sw * vbHeight).
  { setoid_replace (height * va * vbHeight * (1 - (1 # 9007199254740992)))
      with (height * va * (1 - (1 # 9007199254740992)) * vbHeight) by ring.
    apply Qmult_le_compat_r; lra. }
  assert (F5 : sw * vbHeight <= height * va * vbHeight * (1 + (1 # 9007199254740992))).
  { setoid_replace (height * va * vbHeight * (1 + (1 # 9007199254740992)))
      with (height * va * (1 + (1 # 9007199254740992)) * vbHeight) by ring.
    apply Qmult_le_compat_r; lra. }
  assert (PT : 0 < height * vbWidth) by (apply Qmult_lt_0_compat; assumption).
  set (p := height * va) in *.
  set (T := height * vbWidth) in *. set (P := p * vbHeight) in *.
  set (S := sw * vbHeight) in *. clearbody T P S p.
  split; [lra|]. split; [lra|]. apply Qabs_Qle_condition. lra.
Qed.

(** Where the aspect ratio of the canvas is a binary64 number, the image
    lies inside the canvas. *)
Lemma placement_inside (width height a b vbWidth vbHeight : Q) :
  in_range width -> in_range height -> in_range vbWidth -> in_range vbHeight ->
  Float64.b64 width == width -> Float64.b64 height == height ->
  Float64.div width height == width / height ->
  let '(xOffset, yOffset, svgWidth, svgHeight) :=
    placement width height (Some [a; b; vbWidth; vbHeight]) in
  0 <= xOffset /\ 0 <= yOffset /\ svgWidth <= width /\ svgHeight <= height.
Proof.
  intros Hw Hh Hvw Hvh Dw Dh Dc.
  pose proof (in_range_pos _ Hw) as Pw. pose proof (in_range_pos _ Hh) as Ph.
  destruct (aspect_near vbWidth vbHeight Hvw Hvh) as (_ & _ & Nv & _).
  cbv zeta in Nv. unfold placement.
  set (va := Float64.div vbWidth vbHeight) in *.
  assert (Pva : 0 < va) by (pose proof (pow2_pos (-601)); lra).
  assert (Half : forall x y, y <= x -> 0 <= Float64.div (Float64.sub x y) 2).
  { intros x y L. apply b64_nonneg.
    assert (0 <= Float64.sub x y) by (apply b64_nonneg; lra).
    unfold Qdiv. change (/ 2) with (1 # 2). lra. }
  destruct (Qle_bool va (Float64.div width height)) eqn:E; cbn [negb].
  - apply Qle_bool_iff in E. rewrite Dc in E.
    assert (L : Float64.mul height va <= width).
    { apply Qle_trans with (Float64.b64 width); [|rewrite Dw; apply Qle_refl].
      apply b64_mono.
      apply Qle_trans with (height * (width / height)).
      - apply Qmult_le_l; [exact Ph|exact E].
      - rewrite Qmult_div_r by lra. apply Qle_refl. }
    split; [apply Half; exact L|]. split; [rewrite sub_self_half; apply Qle_refl|].
    split; [exact L|apply Qle_refl].
  - assert (G : width / height < va).
    { rewrite <- Dc. apply Qnot_le_lt. intros C. apply Qle_bool_iff in C. congruence. }
    assert (L : Float64.div width va <= height).
    { apply Qle_trans with (Float64.b64 height); [|rewrite Dh; apply Qle_refl].
      apply b64_mono.
      apply Qle_shift_div_r; [exact Pva|].
      assert (M : width / height * height < va * height)
        by (apply Qmult_lt_compat_r; assumption).
      assert (Ew : width / height * height == width) by (field; lra).
      rewrite Ew in M. rewrite (Qmult_comm height). apply Qlt_le_weak. exact M. }
    split; [rewrite sub_self_half; apply Qle_refl|]. split; [apply Half; exact L|].
    split; [apply Qle_refl|exact L].
Qed.

(** Up to the rounding of its quotients and products, the image has one
    dimension of the canvas, fits in the other, keeps the proportions of
    the [viewBox] and is centred. *)
Lemma placement_within_rounding
    (width height a b vbWidth vbHeight : Q) :
  in_range width -> in_range height -> in_range vbWidth -> in_range vbHeight ->
  let '(xOffset, yOffset, svgWidth, svgHeight) :=
    placement width height (Some [a; b; vbWidth; vbHeight]) in
  (svgWidth = width /\ xOffset = 0 /\
   0 < svgHeight /\ svgHeight <= height * (1 + (1 # 2 ^ 51)) /\
   Qabs (svgHeight * vbWidth - width * vbHeight) <= (1 # 2 ^ 51) * (width * vbHeight) /\
   Qabs (2 * yOffset - (height - svgHeight))
   <= (1 # 2 ^ 51) * Qabs (height - svgHeight) + 2 ^ (-1073))
  \/
  (svgHeight = height /\ yOffset = 0 /\
   0 < svgWidth /\ svgWidth <= width * (1 + (1 # 2 ^ 51)) /\
   Qabs (svgWidth * vbHeight - height * vbWidth) <= (1 # 2 ^ 51) * (height * vbWidth) /\
   Qabs (2 * xOffset - (width - svgWidth))
   <= (1 # 2 ^ 51) * Qabs (width - svgWidth) + 2 ^ (-1073)).
Proof.
  intros Hw Hh Hvw Hvh. unfold placement.
  destruct (Qle_bool (Float64.div vbWidth vbHeight) (Float64.div width height)) eqn:E;
    cbn [negb].
  - apply Qle_bool_iff in E. right.
    destruct (fit_to_height width height vbWidth vbHeight Hw Hh Hvw Hvh E) as (P & F & A).
    split; [reflexivity|]. split; [apply sub_self_half|].
    split; [exact P|]. split; [exact F|]. split; [exact A|]. apply half_slack.
  - assert (G : Float64.div width height < Float64.div vbWidth vbHeight).
    { apply Qnot_le_lt. intros C. apply Qle_bool_iff in C. congruence. }
    left.
    destruct (fit_to_width width height vbWidth vbHeight Hw Hh Hvw Hvh G) as (P & F & A).
    split; [reflexivity|]. split; [apply sub_self_half|].
    split; [exact P|]. split; [exact F|]. split; [exact A|]. apply half_slack.
Qed.

(** X16. For a canvas and a [viewBox] whose widths and heights are between
    2^-300 and 2^300, [renderSvgToCanvas] draws the image with one
    dimension exactly that of the canvas and an offset of exactly 0
    along it; the other dimension is positive and at most that of the
    canvas times [1 + 2^-51]; the proportions are those of the [viewBox]
    within a relative [2^-51]; twice the other offset is the space left
    over, within [2^-51] of it plus [2^-1073].  Where moreover the width
    and height of the canvas and their quotient are binary64 numbers,
    the image lies inside the canvas: both offsets are non-negative and
    neither dimension exceeds that of the canvas. *)
Theorem placement_fits
    (width height a b vbWidth vbHeight : Q) :
  in_range width -> in_range height -> in_range vbWidth -> in_range vbHeight ->
  let '(xOffset, yOffset, svgWidth, svgHeight) :=
    placement width height (Some [a; b; vbWidth; vbHeight]) in
  ((svgWidth = width /\ xOffset = 0 /\
    0 < svgHeight /\ svgHeight <= height * (1 + (1 # 2 ^ 51)) /\
    Qabs (svgHeight * vbWidth - width * vbHeight) <= (1 # 2 ^ 51) * (width * vbHeight) /\
    Qabs (2 * yOffset - (height - svgHeight))
    <= (1 # 2 ^ 51) * Qabs (height - svgHeight) + 2 ^ (-1073))
   \/
   (svgHeight = height /\ yOffset = 0 /\
    0 < svgWidth /\ svgWidth <= width * (1 + (1 # 2 ^ 51)) /\
    Qabs (svgWidth * vbHeight - height * vbWidth) <= (1 # 2 ^ 51) * (height * vbWidth) /\
    Qabs (2 * xOffset - (width - svgWidth))
    <= (1 # 2 ^ 51) * Qabs (width - svgWidth) + 2 ^ (-1073)))
  /\
  (Float64.b64 width == width -> Float64.b64 height == height ->
   Float64.div width height == width / height ->
   0 <= xOffset /\ 0 <= yOffset /\ svgWidth <= width /\ svgHeight <= height).
Proof.
  intros Hw Hh Hvw Hvh.
  pose proof (placement_within_rounding width height a b vbWidth vbHeight Hw Hh Hvw Hvh) as T.
  pose proof (placement_inside width height a b vbWidth vbHeight Hw Hh Hvw Hvh) as I.
  destruct (placement width height (Some [a; b; vbWidth; vbHeight]))
    as [[[xOffset yOffset] svgWidth] svgHeight].
  split; [exact T|exact I].
Qed.

Lemma placement_fits_witness :
  in_range 1000 /\ in_range 400 /\ in_range 700 /\
  let '(xOffset, yOffset, svgWidth, svgHeight) :=
    placement 1000 1000 (Some [0; -150; 400; 700]) in
  ((svgWidth = 1000 /\ xOffset = 0 /\
    0 < svgHeight /\ svgHeight <= 1000 * (1 + (1 # 2 ^ 51)) /\
    Qabs (svgHeight * 400 - 1000 * 700) <= (1 # 2 ^ 51) * (1000 * 700) /\
    Qabs (2 * yOffset - (1000 - svgHeight))
    <= (1 # 2 ^ 51) * Qabs (1000 - svgHeight) + 2 ^ (-1073))
   \/
   (svgHeight = 1000 /\ yOffset = 0 /\
    0 < svgWidth /\ svgWidth <= 1000 * (1 + (1 # 2 ^ 51)) /\
    Qabs (svgWidth * 700 - 1000 * 400) <= (1 # 2 ^ 51) * (1000 * 400) /\
    Qabs (2 * xOffset - (1000 - svgWidth))
    <= (1 # 2 ^ 51) * Qabs (1000 - svgWidth) + 2 ^ (-1073)))
  /\
  (Float64.b64 1000 == 1000 -> Float64.b64 1000 == 1000 ->
   Float64.div 1000 1000 == 1000 / 1000 ->
   0 <= xOffset /\ 0 <= yOffset /\ svgWidth <= 1000 /\ svgHeight <= 1000).
Proof.
  assert (R : forall x, Qle_bool (2 ^ (-300)) x = true -> Qle_bool x (2 ^ 300) = true ->
                        in_range x).
  { intros x L U. split; apply Qle_bool_iff; assumption. }
  assert (H1 : in_range 1000) by (apply R; vm_compute; reflexivity).
  assert (H2 : in_range 400) by (apply R; vm_compute; reflexivity).
  assert (H3 : in_range 700) by (apply R; vm_compute; reflexivity).
  split; [exact H1|]. split; [exact H2|]. split; [exact H3|].
  exact (placement_fits 1000 1000 0 (-150) 400 700 H1 H1 H2 H3).
Defined.

(** The square canvas of the application: its numbers are binary64
    numbers, and the image of a [viewBox] of 400 by 700 lies inside. *)
Example placement_square_canvas :
  (Float64.b64 1000 == 1000 /\ Float64.div 1000 1000 == 1000 / 1000) /\
  let '(xOffset, yOffset, svgWidth, svgHeight) :=
    placement 1000 1000 (Some [0; -150; 400; 700]) in
  svgHeight = 1000 /\ yOffset = 0 /\ 0 < xOffset /\ svgWidth < 1000.
Proof. vm_compute. repeat split; congruence. Qed.

(** A canvas of 7 by 25 and a [viewBox] of the same shape: the image is
    drawn 7.000000000000001 wide, a hair wider than the canvas, and
    its offset is negative. *)
Example placement_7_by_25 :
  let '(xOffset, yOffset, svgWidth, svgHeight) :=
    placement 7 25 (Some [0; 0; 7; 25]) in
  svgHeight = 25 /\ yOffset = 0 /\ 7 < svgWidth /\ xOffset < 0 /\
  svgWidth == 7 + (1 # 2 ^ 50).
Proof. vm_compute. repeat split; congruence. Qed.

End Placement.

End VideoExportUtilFacts.

(** ** The configuration codec *)

Module CompressionFacts.
Import JS Types Compression.

(** *** Rounding *)

Lemma Qred_inject_Z (n : Z) : Qred (inject_Z n) = inject_Z n.
Proof.
  unfold Qred, inject_Z.
  pose proof (Z.ggcd_gcd n 1) as G. pose proof (Z.ggcd_correct_divisors n 1) as D.
  destruct (Z.ggcd n 1) as [g [aa bb]]. cbn [fst snd] in *.
  rewrite Z.gcd_1_r in G. subst g. destruct D as [D1 D2].
  replace aa with n by lia. replace bb with 1 by lia. reflexivity.
Qed.

Lemma toFixed3_canonical v : Qred (toFixed3 v) = toFixed3 v.
Proof. unfold toFixed3. apply Qred_complete, Qred_correct. Qed.

Lemma smartRoundQ_canonical v : Qred (smartRoundQ v) = smartRoundQ v.
Proof.
  unfold smartRoundQ. destruct (negb _).
  - apply Qred_inject_Z.
  - apply toFixed3_canonical.
Qed.

(** Equal rounded numbers are equal terms. *)
Lemma smartRoundQ_eq a b : (smartRoundQ a == smartRoundQ b)%Q -> smartRoundQ a = smartRoundQ b.
Proof.
  intros H. rewrite <- (smartRoundQ_canonical a), <- (smartRoundQ_canonical b).
  now apply Qred_complete.
Qed.

Lemma Math_round_comp a b : (a == b)%Q -> Math_round a = Math_round b.
Proof. intros H. unfold Math_round. now rewrite H. Qed.

Lemma toFixed3_comp a b : (a == b)%Q -> toFixed3 a = toFixed3 b.
Proof.
  intros H. unfold toFixed3.
  assert (E1 : Qfloor (Qabs a * 1000 + (1 # 2)) = Qfloor (Qabs b * 1000 + (1 # 2)))
    by now rewrite H.
  assert (E2 : Qle_bool 0 a = Qle_bool 0 b) by now rewrite H.
  rewrite E1, E2. reflexivity.
Qed.

(** [smartRound] does not depend on how a number is written. *)
Lemma smartRoundQ_comp a b : (a == b)%Q -> smartRoundQ a = smartRoundQ b.
Proof.
  intros H. unfold smartRoundQ.
  rewrite (Math_round_comp a b H), (toFixed3_comp a b H).
  assert (E : Qle_bool (1 # 10000) (Qabs (a - inject_Z (Math_round b)))
              = Qle_bool (1 # 10000) (Qabs (b - inject_Z (Math_round b))))
    by now rewrite H.
  rewrite E. reflexivity.
Qed.

Lemma Math_round_inject_Z n : Math_round (inject_Z n) = n.
Proof.
  unfold Math_round, inject_Z, Qplus, Qfloor. cbn [Qnum Qden].
  rewrite Z.mul_1_l. change (Z.pos (1 * 2)) with 2.
  replace (n * 2 + 1) with (1 + n * 2) by lia.
  rewrite Z.div_add by lia. reflexivity.
Qed.

Lemma smartRoundQ_inject_Z n : smartRoundQ (inject_Z n) = inject_Z n.
Proof.
  unfold smartRoundQ. rewrite Math_round_inject_Z.
  assert (E : (Qabs (inject_Z n - inject_Z n) == 0)%Q).
  { setoid_replace (inject_Z n - inject_Z n)%Q with 0%Q by ring. reflexivity. }
  rewrite E. reflexivity.
Qed.

(** A multiple of 1/1000 rounds to itself. *)
Lemma smartRoundQ_thousandths m : smartRoundQ (m # 1000) = Qred (m # 1000).
Proof.
  unfold smartRoundQ.
  set (r := Math_round (m # 1000)).
  assert (Hr : r = (m * 2 + 1000) / 2000) by reflexivity.
  assert (Hnear : Qle_bool (1 # 10000) (Qabs ((m # 1000) - inject_Z r))
                  = (1000 <=? Z.abs (m + - r * 1000) * 10000)).
  { unfold Qle_bool, Qabs, Qminus, Qplus, Qopp, inject_Z. cbn [Qnum Qden].
    rewrite Z.mul_1_r. reflexivity. }
  rewrite Hnear.
  destruct (Z.leb_spec 1000 (Z.abs (m + - r * 1000) * 10000)) as [Hfar|Hclose];
    cbn [negb].
  - unfold toFixed3. apply Qred_complete.
    assert (Hn : Qfloor (Qabs (m # 1000) * 1000 + (1 # 2)) = Z.abs m).
    { unfold Qfloor, Qabs, Qmult, Qplus, inject_Z. cbn [Qnum Qden].
      change (Z.pos (1000 * 1 * 2)) with 2000.
      change (Z.pos (1000 * 1)) with 1000.
      replace (Z.abs m * 1000 * 2 + 1 * 1000) with (1000 + Z.abs m * 2000) by lia.
      rewrite Z.div_add by lia. reflexivity. }
    rewrite Hn.
    assert (Hs : Qle_bool 0 (m # 1000) = (0 <=? m)).
    { unfold Qle_bool. cbn [Qnum Qden]. rewrite Z.mul_1_r. reflexivity. }
    rewrite Hs. destruct (Z.leb_spec 0 m).
    + rewrite Z.abs_eq by lia. reflexivity.
    + rewrite Z.abs_neq by lia. rewrite Z.opp_involutive. reflexivity.
  - assert (m = r * 1000) by lia.
    rewrite <- Qred_inject_Z. apply Qred_complete.
    unfold Qeq, inject_Z. cbn [Qnum Qden]. lia.
Qed.

Lemma smartRoundQ_idempotent v : smartRoundQ (smartRoundQ v) = smartRoundQ v.
Proof.
  unfold smartRoundQ at 2 3. destruct (negb _).
  - apply smartRoundQ_inject_Z.
  - unfold toFixed3.
    set (n := Qfloor _).
    destruct (Qle_bool 0 v).
    + rewrite (smartRoundQ_comp _ (n # 1000)) by apply Qred_correct.
      apply smartRoundQ_thousandths.
    + rewrite (smartRoundQ_comp _ (- n # 1000)) by apply Qred_correct.
      apply smartRoundQ_thousandths.
Qed.

Lemma smartRound_idempotent v : smartRound (smartRound v) = smartRound v.
Proof. destruct v; cbn; try reflexivity. now rewrite smartRoundQ_idempotent. Qed.

(** On rounded values, [===] is equality. *)
Lemma strict_eq_smartRound a b :
  strict_eq (smartRound a) (smartRound b) = true -> smartRound a = smartRound b.
Proof.
  destruct a, b; cbn; try discriminate; try reflexivity.
  - intros H. apply Bool.eqb_prop in H. now subst.
  - intros H. apply Qeq_bool_eq in H. f_equal. now apply smartRoundQ_eq.
  - intros H. apply String.eqb_eq in H. now subst.
Qed.

Lemma Qfloor_unique (x : Q) (n : Z) :
  (inject_Z n <= x)%Q -> (x < inject_Z (n + 1))%Q -> Qfloor x = n.
Proof.
  intros H1 H2.
  pose proof (Qfloor_le x) as F1. pose proof (Qlt_floor x) as F2.
  assert (A : (inject_Z n < inject_Z (Qfloor x + 1))%Q) by lra.
  assert (B : (inject_Z (Qfloor x) < inject_Z (n + 1))%Q) by lra.
  rewrite <- Zlt_Qlt in A, B. lia.
Qed.

(** The documented rounding, first case: a value within 1e-4 of an integer
    collapses to that integer. *)
Lemma smartRoundQ_near_integer (v : Q) (n : Z) :
  (Qabs (v - inject_Z n) < 1 # 10000)%Q -> smartRoundQ v = inject_Z n.
Proof.
  intros H. pose proof H as H0.
  apply Qabs_Qlt_condition in H. destruct H as [H1 H2].
  assert (R : Math_round v = n).
  { unfold Math_round.
    apply Qfloor_unique; rewrite ?inject_Z_plus; change (inject_Z 1) with 1%Q; lra. }
  unfold smartRoundQ. rewrite R.
  destruct (Qle_bool (1 # 10000) (Qabs (v - inject_Z n))) eqn:E; [|reflexivity].
  apply Qle_bool_iff in E. exfalso. revert E. now apply Qlt_not_le.
Qed.

(** The documented rounding, second case: any other value becomes a nearest
    multiple of 1/1000. *)
Lemma smartRoundQ_three_decimals (v : Q) :
  (forall n, 1 # 10000 <= Qabs (v - inject_Z n))%Q ->
  exists m, smartRoundQ v = Qred (m # 1000) /\
            (Qabs (smartRoundQ v - v) <= 1 # 2000)%Q.
Proof.
  intros H. unfold smartRoundQ.
  specialize (H (Math_round v)). apply Qle_bool_iff in H. rewrite H. cbn [negb].
  unfold toFixed3. set (n := Qfloor (Qabs v * 1000 + (1 # 2))).
  pose proof (Qfloor_le (Qabs v * 1000 + (1 # 2))) as F1.
  pose proof (Qlt_floor (Qabs v * 1000 + (1 # 2))) as F2.
  fold n in F1, F2. rewrite inject_Z_plus in F2. change (inject_Z 1) with 1%Q in F2.
  clearbody n.
  assert (En : forall z, (z # 1000 == inject_Z z * (1 # 1000))%Q).
  { intros z. unfold Qeq, Qmult, inject_Z. cbn [Qnum Qden]. lia. }
  destruct (Qle_bool 0 v) eqn:S.
  - exists n. split; [reflexivity|].
    apply Qle_bool_iff in S. rewrite Qred_correct, En.
    rewrite (Qabs_pos v S) in F1, F2.
    apply Qabs_Qle_condition. split; lra.
  - exists (- n). split; [reflexivity|].
    assert (S' : (v <= 0)%Q).
    { destruct (Qlt_le_dec v 0) as [L|L]; [lra|].
      apply Qle_bool_iff in L. congruence. }
    rewrite Qred_correct, En, inject_Z_opp.
    rewrite (Qabs_neg v S') in F1, F2.
    apply Qabs_Qle_condition. split; lra.
Qed.

Local Open Scope string_scope.

(** *** Objects *)

Lemma obj_get_set_same o k v : obj_get (obj_set o k v) k = Some v.
Proof.
  induction o as [|[k' v'] r IH]; cbn [obj_set obj_get].
  - now rewrite String.eqb_refl.
  - destruct (String.eqb_spec k' k) as [->|N]; cbn [obj_get].
    + now rewrite String.eqb_refl.
    + destruct (String.eqb_spec k' k); [congruence|exact IH].
Qed.

Lemma obj_get_set_other o k v k' :
  k <> k' -> obj_get (obj_set o k v) k' = obj_get o k'.
Proof.
  intros N. induction o as [|[k0 v0] r IH]; cbn [obj_set obj_get].
  - destruct (String.eqb_spec k k'); [congruence|reflexivity].
  - destruct (String.eqb_spec k0 k) as [->|N0]; cbn [obj_get].
    + destruct (String.eqb_spec k k'); [congruence|reflexivity].
    + now rewrite IH.
Qed.

Lemma obj_set_keys o k v a :
  In a (map fst (obj_set o k v)) <-> a = k \/ In a (map fst o).
Proof.
  induction o as [|[k0 v0] r IH]; cbn [obj_set map fst In].
  - intuition.
  - destruct (String.eqb_spec k0 k) as [->|N0]; cbn [map fst In].
    + intuition.
    + rewrite IH. intuition.
Qed.

Lemma obj_set_NoDup o k v :
  NoDup (map fst o) -> NoDup (map fst (obj_set o k v)).
Proof.
  induction o as [|[k0 v0] r IH]; cbn [obj_set map fst]; intros H.
  - constructor; [intros []|constructor].
  - inversion H as [|? ? Hn Hr]; subst.
    destruct (String.eqb_spec k0 k) as [->|N0]; cbn [map fst].
    + now constructor.
    + constructor; [|auto]. rewrite obj_set_keys. intros [E|E]; congruence.
Qed.

Lemma obj_get_None o k : ~ In k (map fst o) -> obj_get o k = None.
Proof.
  induction o as [|[k0 v0] r IH]; cbn [obj_get map fst In]; intros H; [reflexivity|].
  destruct (String.eqb_spec k0 k); [tauto|]. apply IH. tauto.
Qed.

Lemma obj_get_In o k v : obj_get o k = Some v -> In (k, v) o.
Proof.
  induction o as [|[k0 v0] r IH]; cbn [obj_get In]; [discriminate|].
  destruct (String.eqb_spec k0 k) as [->|N]; intros H.
  - inversion H. now left.
  - right. auto.
Qed.

(** *** The key table *)

Lemma GEO_KEYS_complete k : In k GEO_KEYS.
Proof. destruct k; vm_compute; tauto. Qed.

Lemma key_name_inj k k' : key_name k = key_name k' -> k = k'.
Proof.
  assert (F : forall k, find (fun x => String.eqb (key_name x) (key_name k)) GEO_KEYS
                        = Some k) by (intros []; reflexivity).
  intros E. pose proof (F k) as A. rewrite E, F in A. congruence.
Qed.

(** Whatever plain objects inherit, an alias is found among the own
    properties of [REV_GEO_KEY_MAP]. *)
Lemma REV_lookup_alias proto k : REV_lookup proto (alias k) = Some (key_name k).
Proof. destruct k; reflexivity. Qed.

Lemma alias_inj k k' : alias k = alias k' -> k = k'.
Proof.
  intros E. apply key_name_inj.
  pose proof (REV_lookup_alias (fun _ => None) k) as A.
  rewrite E, REV_lookup_alias in A. congruence.
Qed.

Lemma GEO_KEYS_NoDup : NoDup GEO_KEYS.
Proof.
  apply (NoDup_map_inv key_name).
  vm_compute. repeat (constructor; [cbn; intuition discriminate|]). constructor.
Qed.

Lemma GeoConfig_object_get g k :
  obj_get (GeoConfig_object g) (key_name k) = Some (field g k).
Proof. destruct k; reflexivity. Qed.

Lemma field_scalar g k :
  (exists b, field g k = VBool b) \/ (exists q, field g k = VNum q)
  \/ (exists s, field g k = VStr s).
Proof. destruct k; cbn; eauto. Qed.

(** *** Diffs *)

Section Minify.
Variables target baseline : GeoConfig.

Let step := diffStep target baseline.

Lemma minifyGeoDiff_fold :
  minifyGeoDiff target baseline = fold_left step GEO_KEYS [].
Proof. unfold minifyGeoDiff. reflexivity. Qed.

Lemma minify_fold_other ks acc k :
  ~ In k ks -> obj_get (fold_left step ks acc) (alias k) = obj_get acc (alias k).
Proof.
  revert acc. induction ks as [|k0 ks IH]; intros acc H; [reflexivity|].
  cbn [fold_left]. rewrite IH by (cbn in H; tauto).
  unfold step, diffStep. destruct (differs target baseline k0); [|reflexivity].
  apply obj_get_set_other. intros E. apply alias_inj in E. cbn in H. tauto.
Qed.

Lemma minify_fold_get ks acc k :
  NoDup ks -> In k ks ->
  obj_get (fold_left step ks acc) (alias k)
  = if differs target baseline k then Some (smartRound (field target k))
    else obj_get acc (alias k).
Proof.
  revert acc. induction ks as [|k0 ks IH]; intros acc Hnd Hin; [destruct Hin|].
  inversion Hnd as [|? ? Hn Hnd']; subst. cbn [fold_left].
  destruct Hin as [->|Hin].
  - rewrite minify_fold_other by exact Hn. unfold step, diffStep.
    destruct (differs target baseline k); [apply obj_get_set_same|reflexivity].
  - rewrite IH by assumption.
    destruct (differs target baseline k); [reflexivity|].
    unfold step, diffStep. destruct (differs target baseline k0); [|reflexivity].
    apply obj_get_set_other. intros E. apply alias_inj in E. congruence.
Qed.

Lemma minify_fold_keys ks acc a :
  In a (map fst (fold_left step ks acc)) ->
  In a (map fst acc) \/ exists k, a = alias k.
Proof.
  revert acc. induction ks as [|k0 ks IH]; intros acc H; [now left|].
  cbn [fold_left] in H. apply IH in H. destruct H as [H|H]; [|now right].
  unfold step, diffStep in H. destruct (differs target baseline k0); [|now left].
  apply obj_set_keys in H. destruct H as [->|H]; [right; eauto|now left].
Qed.

Lemma minify_fold_NoDup ks acc :
  NoDup (map fst acc) -> NoDup (map fst (fold_left step ks acc)).
Proof.
  revert acc. induction ks as [|k0 ks IH]; intros acc H; [exact H|].
  cbn [fold_left]. apply IH. unfold step, diffStep.
  destruct (differs target baseline k0); [now apply obj_set_NoDup|exact H].
Qed.

(** What a diff holds under the alias of a key. *)
Lemma minifyGeoDiff_get k :
  obj_get (minifyGeoDiff target baseline) (alias k)
  = if differs target baseline k then Some (smartRound (field target k)) else None.
Proof.
  rewrite minifyGeoDiff_fold.
  exact (minify_fold_get GEO_KEYS [] k GEO_KEYS_NoDup (GEO_KEYS_complete k)).
Qed.

Lemma minifyGeoDiff_keys a :
  In a (map fst (minifyGeoDiff target baseline)) -> exists k, a = alias k.
Proof.
  rewrite minifyGeoDiff_fold. intros H.
  destruct (minify_fold_keys GEO_KEYS [] a H) as [[]|H']. exact H'.
Qed.

Lemma minifyGeoDiff_NoDup : NoDup (map fst (minifyGeoDiff target baseline)).
Proof. rewrite minifyGeoDiff_fold. apply minify_fold_NoDup. constructor. Qed.

(** A diff is empty exactly when no key differs. *)
Lemma minifyGeoDiff_empty :
  minifyGeoDiff target baseline = [] <-> forall k, differs target baseline k = false.
Proof.
  split.
  - intros E k. pose proof (minifyGeoDiff_get k) as G. rewrite E in G.
    destruct (differs target baseline k); [discriminate|reflexivity].
  - intros H. destruct (minifyGeoDiff target baseline) as [|[a v] r] eqn:E;
      [reflexivity|exfalso].
    destruct (minifyGeoDiff_keys a) as [k ->]; [rewrite E; now left|].
    pose proof (minifyGeoDiff_get k) as G. rewrite E, H in G.
    cbn in G. rewrite String.eqb_refl in G. discriminate.
Qed.

End Minify.

Section Inflate.
Variable Object_prototype : string -> option string.

(** Applying a diff whose keys are aliases, each once: a field takes the
    value the diff has for it, and keeps the baseline's otherwise. *)
Lemma inflateGeoDiff_get (d baseline : object) k :
  NoDup (map fst d) ->
  (forall a, In a (map fst d) -> exists k', a = alias k') ->
  obj_get (inflateGeoDiff Object_prototype (VObj d) baseline) (key_name k)
  = match obj_get d (alias k) with
    | Some v => Some v
    | None => obj_get baseline (key_name k)
    end.
Proof.
  unfold inflateGeoDiff. cbn [truthy negb for_in].
  revert baseline. induction d as [|[a v] d IH]; intros baseline Hnd Hal; [reflexivity|].
  cbn [fold_left fst snd obj_get].
  inversion Hnd as [|? ? Hn Hnd']; subst.
  destruct (Hal a (or_introl eq_refl)) as [k' ->].
  rewrite REV_lookup_alias.
  rewrite IH; [|assumption|intros; apply Hal; now right].
  destruct (String.eqb_spec (alias k') (alias k)) as [E|N].
  - apply alias_inj in E. subst k'.
    rewrite (obj_get_None d) by exact Hn. apply obj_get_set_same.
  - destruct (obj_get d (alias k)); [reflexivity|].
    apply obj_get_set_other. intros E. apply key_name_inj in E. congruence.
Qed.

End Inflate.

(** *** Sequence data *)

Lemma Z_toString_digit z :
  (0 <= z <= 9)%Z ->
  Z_toString z = String (ascii_of_nat (48 + Z.to_nat z)) EmptyString.
Proof.
  intros H.
  assert (C : (z = 0 \/ z = 1 \/ z = 2 \/ z = 3 \/ z = 4 \/ z = 5 \/ z = 6
               \/ z = 7 \/ z = 8 \/ z = 9)%Z) by lia.
  repeat (destruct C as [->|C]; [reflexivity|]). subst. reflexivity.
Qed.

Lemma parseInt10_digit z :
  (0 <= z <= 9)%Z ->
  parseInt10_char (String (ascii_of_nat (48 + Z.to_nat z)) EmptyString)
  = VNum (inject_Z z).
Proof.
  intros H.
  assert (C : (z = 0 \/ z = 1 \/ z = 2 \/ z = 3 \/ z = 4 \/ z = 5 \/ z = 6
               \/ z = 7 \/ z = 8 \/ z = 9)%Z) by lia.
  repeat (destruct C as [->|C]; [reflexivity|]). subst. reflexivity.
Qed.

Lemma concat_empty_cons x xs :
  String.concat EmptyString (x :: xs)
  = (x ++ String.concat EmptyString xs)%string.
Proof.
  destruct xs as [|y ys]; cbn [String.concat].
  - induction x as [|c x IH]; cbn; [reflexivity|]. now rewrite <- IH.
  - reflexivity.
Qed.

(** Digits written one character each are read back one by one. *)
Lemma decodeData_join (data : list Z) :
  Forall (fun z => 0 <= z <= 9)%Z data ->
  decodeData (VStr (join_empty data)) = map (fun z => VNum (inject_Z z)) data.
Proof.
  unfold decodeData, join_empty, chars.
  induction 1 as [|z r Hz _ IH]; [reflexivity|].
  cbn [map]. rewrite concat_empty_cons, (Z_toString_digit z Hz).
  cbn [append list_ascii_of_string map]. rewrite IH.
  f_equal. now apply parseInt10_digit.
Qed.

(** *** The V4 round trip *)

Section RoundTrip.
Variable Object_prototype : string -> option string.
Variable SUNFLOWER_PRESET : GeoConfig.
Variable host : Host.

Lemma decodedGlobal_get cfg k :
  obj_get (decodedGlobal Object_prototype SUNFLOWER_PRESET cfg) (key_name k)
  = Some (if differs cfg SUNFLOWER_PRESET k then smartRound (field cfg k)
          else field SUNFLOWER_PRESET k).
Proof.
  unfold decodedGlobal.
  rewrite inflateGeoDiff_get;
    [|apply minifyGeoDiff_NoDup|apply minifyGeoDiff_keys].
  rewrite minifyGeoDiff_get, GeoConfig_object_get.
  destruct (differs cfg SUNFLOWER_PRESET k); reflexivity.
Qed.

Lemma decodedItemGeo_get cfg s k :
  obj_get (decodedItemGeo Object_prototype SUNFLOWER_PRESET cfg s) (key_name k)
  = if differs (geoConfig s) cfg k then Some (smartRound (field (geoConfig s) k))
    else obj_get (decodedGlobal Object_prototype SUNFLOWER_PRESET cfg) (key_name k).
Proof.
  unfold decodedItemGeo, itemGeoOver.
  generalize (decodedGlobal Object_prototype SUNFLOWER_PRESET cfg) as base. intros base.
  pose proof (minifyGeoDiff_get (geoConfig s) cfg k) as G.
  pose proof (minifyGeoDiff_NoDup (geoConfig s) cfg) as N.
  pose proof (minifyGeoDiff_keys (geoConfig s) cfg) as K.
  destruct (minifyGeoDiff (geoConfig s) cfg) as [|e d] eqn:E.
  - cbn [obj_get] in G. destruct (differs (geoConfig s) cfg k); [discriminate|reflexivity].
  - rewrite inflateGeoDiff_get by assumption. rewrite G.
    destruct (differs (geoConfig s) cfg k); reflexivity.
Qed.

(** The object [compressConfig] builds for a sequence, property by
    property. *)
Lemma seqObj_props cfg s :
  exists o,
    seqObj cfg s = VObj o /\
    obj_get o "i" = Some (VNum (inject_Z (id s))) /\
    obj_get o "n" = Some (VStr (name s)) /\
    obj_get o "D" = Some (VStr (join_empty (data s))) /\
    obj_get o "g" = match minifyGeoDiff (geoConfig s) cfg with
                    | [] => None
                    | d => Some (VObj d)
                    end.
Proof.
  unfold seqObj. generalize (minifyGeoDiff (geoConfig s) cfg) as d. intros d.
  eexists. split; [reflexivity|].
  destruct (description s) as [desc|]; [destruct (truthy (VStr desc))|];
    destruct d as [|e d]; cbn; auto.
Qed.

Lemma decodeItem_seqObj globalBase cfg s i :
  exists d,
    decodeItem Object_prototype host globalBase i (seqObj cfg s) = Normal d /\
    d_geoConfig d = itemGeoOver Object_prototype globalBase cfg s /\
    d_data d = decodeData (VStr (join_empty (data s))) /\
    d_name d = js_or (VStr (name s)) (VStr "Sequence") /\
    d_id d = js_or (VNum (inject_Z (id s))) (VNum (Math_random host i)).
Proof.
  destruct (seqObj_props cfg s) as (o & -> & Hi & Hn & HD & Hg).
  unfold decodeItem, decodedSequence, get_prop, itemGeoOver.
  rewrite Hi, Hn, HD, Hg.
  destruct (minifyGeoDiff (geoConfig s) cfg) as [|e d];
    cbn [bind truthy]; eexists; (split; [reflexivity|]);
    cbn [d_geoConfig d_data d_name d_id]; auto.
Qed.

Lemma decodeItems globalBase cfg seqs :
  forall i,
  exists ds,
    mapi_from (decodeItem Object_prototype host globalBase) (map (seqObj cfg) seqs) i = Normal ds /\
    Forall2 (fun s d => d_geoConfig d = itemGeoOver Object_prototype globalBase cfg s /\
                        d_data d = decodeData (VStr (join_empty (data s))))
            seqs ds.
Proof.
  induction seqs as [|s r IH]; intros i.
  - exists []. split; [reflexivity|constructor].
  - destruct (decodeItem_seqObj globalBase cfg s i) as (d & Hd & Hgeo & Hdata & _).
    destruct (IH (S i)) as (ds & Hds & HF).
    exists (d :: ds). cbn [map mapi_from]. rewrite Hd. cbn [bind]. rewrite Hds.
    split; [reflexivity|]. constructor; auto.
Qed.

(** The V4 branch of [decompressBody] on a payload of the shape
    [compressConfig] builds. *)
Lemma decompressBody_v4 encoded t G items :
  readPayload host encoded
  = Normal (VObj [("v", VNum 4); ("t", t); ("G", G); ("s", VArr items)]) ->
  decompressBody Object_prototype SUNFLOWER_PRESET host encoded
  = (let globalBase :=
       inflateGeoDiff Object_prototype G (GeoConfig_object SUNFLOWER_PRESET) in
     sequences <- mapi_from (decodeItem Object_prototype host globalBase) items 0 ;;
     Normal (Some {| r_geoConfig := globalBase;
                     r_sequences := sequences;
                     r_timingMs := t |}))%js.
Proof.
  intros H. unfold decompressBody. rewrite H. reflexivity.
Qed.

(** When the host reads back the payload, [decompressConfig] returns the
    decoded global geometry and the decoded items. *)
Lemma decompressConfig_payload cfg seqs t encoded :
  readPayload host encoded = Normal (payload SUNFLOWER_PRESET cfg seqs t) ->
  exists r,
    decompressConfig Object_prototype SUNFLOWER_PRESET host encoded = Normal (Some r) /\
    r_geoConfig r = decodedGlobal Object_prototype SUNFLOWER_PRESET cfg /\
    Forall2 (fun s d => d_geoConfig d = decodedItemGeo Object_prototype SUNFLOWER_PRESET cfg s /\
                        d_data d = decodeData (VStr (join_empty (data s))))
            seqs (r_sequences r).
Proof.
  intros H. unfold decompressConfig.
  rewrite (decompressBody_v4 encoded _ _ _ H). cbv zeta.
  unfold decodedItemGeo, decodedGlobal.
  set (globalBase := inflateGeoDiff Object_prototype _ _).
  destruct (decodeItems globalBase cfg seqs 0%nat) as (ds & -> & HF).
  cbn [bind try_catch]. eexists. split; [reflexivity|]. split; [reflexivity|exact HF].
Qed.

(** On a host whose decoders undo its encoders, the token of
    [compressConfig] is read back as the payload it was made from. *)
Lemma compressConfig_readPayload cfg seqs t token :
  host_inverts host (payload SUNFLOWER_PRESET cfg seqs t) ->
  compressConfig SUNFLOWER_PRESET host cfg seqs t = Normal token ->
  readPayload host token = Normal (payload SUNFLOWER_PRESET cfg seqs t).
Proof.
  intros [Hjson Huri] Hc. unfold compressConfig in Hc. cbv zeta in Hjson, Huri.
  destruct (encodeURIComponent host
              (JSON_stringify host (payload SUNFLOWER_PRESET cfg seqs t)))
    as [e|] eqn:He; cbn [bind] in Hc; [|discriminate].
  destruct (Huri e eq_refl) as [Hdec Hb64].
  unfold readPayload. rewrite (Hb64 token Hc). cbn [bind].
  rewrite Hdec. cbn [bind]. exact Hjson.
Qed.

Lemma differs_false a b k :
  differs a b k = false -> smartRound (field a k) = smartRound (field b k).
Proof.
  unfold differs. intros H. apply strict_eq_smartRound.
  now destruct (strict_eq _ _).
Qed.

Lemma decodedGlobal_same cfg : same_after_rounding (decodedGlobal Object_prototype SUNFLOWER_PRESET cfg) cfg.
Proof.
  intros k. rewrite decodedGlobal_get. eexists. split; [reflexivity|].
  destruct (differs cfg SUNFLOWER_PRESET k) eqn:E.
  - apply smartRound_idempotent.
  - symmetry. now apply differs_false.
Qed.

Lemma decodedGlobal_rounded cfg :
  preset_rounded SUNFLOWER_PRESET -> rounded_original (decodedGlobal Object_prototype SUNFLOWER_PRESET cfg) cfg.
Proof.
  intros HP k. rewrite decodedGlobal_get.
  destruct (differs cfg SUNFLOWER_PRESET k) eqn:E; [reflexivity|].
  rewrite <- HP. f_equal. symmetry. now apply differs_false.
Qed.

Lemma decodedItemGeo_same cfg s :
  same_after_rounding (decodedItemGeo Object_prototype SUNFLOWER_PRESET cfg s) (geoConfig s).
Proof.
  intros k. rewrite decodedItemGeo_get.
  destruct (differs (geoConfig s) cfg k) eqn:E.
  - eexists. split; [reflexivity|]. apply smartRound_idempotent.
  - destruct (decodedGlobal_same cfg k) as (v & Hv & Hr).
    exists v. split; [exact Hv|]. rewrite Hr. symmetry. now apply differs_false.
Qed.

Lemma decodedItemGeo_rounded cfg s :
  preset_rounded SUNFLOWER_PRESET -> rounded_original (decodedItemGeo Object_prototype SUNFLOWER_PRESET cfg s) (geoConfig s).
Proof.
  intros HP k. rewrite decodedItemGeo_get.
  destruct (differs (geoConfig s) cfg k) eqn:E; [reflexivity|].
  rewrite (decodedGlobal_rounded cfg HP). f_equal. symmetry. now apply differs_false.
Qed.

(** Whatever the preset: on a host whose decoding functions undo its
    encoding functions on the text of the payload, [decompressConfig]
    applied to the token that [compressConfig] returns gives a result
    whose [geoConfig], and whose every item's [geoConfig], has every field
    of the original, equal to it up to [smartRound]; a field whose
    rounded value is that of the preset is not written, and comes back as
    the preset has it. *)
Lemma compress_decompress_any_preset
    (geoConfig0 : GeoConfig) (sequences : list Sequence) (timingMs : option Q)
    (token : string) :
  host_inverts host (payload SUNFLOWER_PRESET geoConfig0 sequences timingMs) ->
  compressConfig SUNFLOWER_PRESET host geoConfig0 sequences timingMs = Normal token ->
  exists r,
    decompressConfig Object_prototype SUNFLOWER_PRESET host token = Normal (Some r) /\
    same_after_rounding (r_geoConfig r) geoConfig0 /\
    Forall2 (fun s d => same_after_rounding (d_geoConfig d) (geoConfig s))
            sequences (r_sequences r) /\
    (preset_rounded SUNFLOWER_PRESET ->
     rounded_original (r_geoConfig r) geoConfig0 /\
     Forall2 (fun s d => rounded_original (d_geoConfig d) (geoConfig s))
             sequences (r_sequences r)).
Proof.
  intros Hhost Hc.
  pose proof (compressConfig_readPayload _ _ _ _ Hhost Hc) as Hread.
  destruct (decompressConfig_payload _ _ _ _ Hread) as (r & Hr & Hg & HF).
  exists r. split; [exact Hr|]. rewrite Hg.
  split; [apply decodedGlobal_same|]. split.
  - eapply Forall2_impl; [|exact HF]. cbn beta. intros s d [-> _].
    apply decodedItemGeo_same.
  - intros HP. split; [now apply decodedGlobal_rounded|].
    eapply Forall2_impl; [|exact HF]. cbn beta. intros s d [-> _].
    now apply decodedItemGeo_rounded.
Qed.


(** C4. When every element of every item's data is an integer from 0 to
    9, on a host whose decoding functions undo its encoding functions on
    the text of the payload, each item decoded from the token that
    [compressConfig] returns carries the data of the original item: the
    same numbers in the same number. *)
Theorem compress_decompress_data
    (geoConfig0 : GeoConfig) (sequences : list Sequence) (timingMs : option Q)
    (token : string) :
  Forall (fun s => Forall (fun z => 0 <= z <= 9)%Z (data s)) sequences ->
  host_inverts host (payload SUNFLOWER_PRESET geoConfig0 sequences timingMs) ->
  compressConfig SUNFLOWER_PRESET host geoConfig0 sequences timingMs = Normal token ->
  exists r,
    decompressConfig Object_prototype SUNFLOWER_PRESET host token = Normal (Some r) /\
    Forall2 (fun s d => d_data d = map (fun z => VNum (inject_Z z)) (data s) /\
                        List.length (d_data d) = List.length (data s))
            sequences (r_sequences r).
Proof.
  intros Hdigits Hhost Hc.
  pose proof (compressConfig_readPayload _ _ _ _ Hhost Hc) as Hread.
  destruct (decompressConfig_payload _ _ _ _ Hread) as (r & Hr & _ & HF).
  exists r. split; [exact Hr|].
  generalize dependent (r_sequences r). clear Hr Hread r Hhost Hc.
  induction Hdigits as [|s ss Hs _ IH]; intros ds HF;
    inversion HF as [|? d ? ds' [_ Hd] HF']; subst; constructor.
  - rewrite Hd, decodeData_join by exact Hs. split; [reflexivity|apply length_map].
  - now apply IH.
Qed.

(** C5. An item whose geometry equals the active geometry field for
    field after rounding is serialized without a [g] property: the object
    built for it, which is the element of the payload's [s] array that
    [JSON.stringify] turns into the token, has no such key. *)
Theorem unchanged_item_omits_diff
    (geoConfig0 : GeoConfig) (sequences : list Sequence) (timingMs : option Q)
    (s : Sequence) :
  In s sequences ->
  (forall k, smartRound (field (geoConfig s) k) = smartRound (field geoConfig0 k)) ->
  exists G items o,
    payload SUNFLOWER_PRESET geoConfig0 sequences timingMs
    = VObj [("v", VNum 4);
            ("t", VNum match timingMs with Some t => t | None => 1500%Q end);
            ("G", G); ("s", VArr items)] /\
    In (VObj o) items /\
    seqObj geoConfig0 s = VObj o /\
    obj_get o "g" = None /\
    ~ In "g" (map fst o).
Proof.
  intros Hin Heq.
  destruct (seqObj_props geoConfig0 s) as (o & Ho & _ & _ & _ & Hg).
  assert (E : minifyGeoDiff (geoConfig s) geoConfig0 = []).
  { apply minifyGeoDiff_empty. intros k. unfold differs. rewrite Heq.
    destruct (field_scalar geoConfig0 k) as [[b ->]|[[q ->]|[x ->]]]; cbn.
    - now rewrite Bool.eqb_reflx.
    - now rewrite Qeq_bool_refl.
    - now rewrite String.eqb_refl. }
  rewrite E in Hg.
  eexists _, _, o. split; [reflexivity|]. split; [|split; [exact Ho|split; [exact Hg|]]].
  - rewrite <- Ho. now apply in_map.
  - intros Hk. apply in_map_iff in Hk as [[k v] [Hk Hkv]]. cbn in Hk. subst k.
    clear - Hg Hkv. induction o as [|[k0 v0] o IH]; [destruct Hkv|].
    cbn [obj_get] in Hg. destruct (String.eqb_spec k0 "g") as [->|N]; [discriminate|].
    destruct Hkv as [Hkv|Hkv]; [congruence|auto].
Qed.

(** C3. Whatever the host functions do with the input, [decompressConfig]
    completes normally, with a decoded result or with [null]: an exception
    raised in the [try] block never leaves it. *)
Theorem decompressConfig_never_throws (encoded : string) :
  (exists r, decompressConfig Object_prototype SUNFLOWER_PRESET host encoded
             = Normal (Some r)) \/
  decompressConfig Object_prototype SUNFLOWER_PRESET host encoded = Normal None.
Proof.
  unfold decompressConfig.
  destruct (decompressBody Object_prototype SUNFLOWER_PRESET host encoded)
    as [[r|]|e]; cbn [try_catch]; eauto.
Qed.

End RoundTrip.

(** *** The codec on the reference host *)


Lemma demo_token_written :
  compressConfig Demo.preset ReferenceHost.host Demo.config Demo.cards (Some 1500%Q)
  = Normal Demo.token.
Proof. vm_compute. reflexivity. Qed.

Lemma demo_token_read :
  readPayload ReferenceHost.host Demo.token
  = Normal (payload Demo.preset Demo.config Demo.cards (Some 1500%Q)).
Proof. vm_compute. reflexivity. Qed.

(** The reference host undoes its encodings on the payload of the
    example. *)
Lemma demo_host_inverts :
  host_inverts ReferenceHost.host
    (payload Demo.preset Demo.config Demo.cards (Some 1500%Q)).
Proof.
  split; [vm_compute; reflexivity|].
  intros e He. vm_compute in He. injection He as <-.
  split; [vm_compute; reflexivity|].
  intros b Hb. vm_compute in Hb. injection Hb as <-.
  vm_compute. reflexivity.
Qed.


Lemma demo_digits :
  Forall (fun s => Forall (fun z => 0 <= z <= 9)%Z (data s)) Demo.cards.
Proof. repeat (constructor; [repeat (constructor; [lia|]); constructor|]). constructor. Qed.

Lemma compress_decompress_data_witness :
  Forall (fun s => Forall (fun z => 0 <= z <= 9)%Z (data s)) Demo.cards /\
  host_inverts ReferenceHost.host
    (payload Demo.preset Demo.config Demo.cards (Some 1500%Q)) /\
  compressConfig Demo.preset ReferenceHost.host Demo.config Demo.cards (Some 1500%Q)
    = Normal Demo.token /\
  exists r,
    decompressConfig ReferenceHost.no_prototype Demo.preset ReferenceHost.host Demo.token
    = Normal (Some r) /\
    Forall2 (fun s d => d_data d = map (fun z => VNum (inject_Z z)) (data s) /\
                        List.length (d_data d) = List.length (data s))
            Demo.cards (r_sequences r).
Proof.
  split; [exact demo_digits|].
  split; [exact demo_host_inverts|]. split; [exact demo_token_written|].
  exact (compress_decompress_data
           ReferenceHost.no_prototype Demo.preset ReferenceHost.host
           Demo.config Demo.cards (Some 1500%Q) Demo.token
           demo_digits demo_host_inverts demo_token_written).
Defined.

(** A value of two digits is written as two characters and read back as
    two values: outside the single-digit range the data is not restored. *)
Example data_two_digits_not_restored :
  decodeData (VStr (join_empty [10; 3])) = [VNum 1; VNum 0; VNum 3].
Proof. reflexivity. Qed.

Lemma unchanged_item_omits_diff_witness :
  In (Demo.card 2 "Two" [9; 8; 7; 6] Demo.config) Demo.cards /\
  (forall k, smartRound (field Demo.config k) = smartRound (field Demo.config k)) /\
  exists o,
    seqObj Demo.config (Demo.card 2 "Two" [9; 8; 7; 6] Demo.config) = VObj o /\
    obj_get o "g" = None.
Proof.
  assert (Hin : In (Demo.card 2 "Two" [9; 8; 7; 6] Demo.config) Demo.cards)
    by (cbn; tauto).
  split; [exact Hin|]. split; [reflexivity|].
  destruct (unchanged_item_omits_diff Demo.preset Demo.config Demo.cards (Some 1500%Q)
              (Demo.card 2 "Two" [9; 8; 7; 6] Demo.config) Hin
              (fun k => eq_refl))
    as (G & items & o & _ & _ & Ho & Hg & _).
  exists o. split; [exact Ho|exact Hg].
Defined.

(** An item whose geometry differs does carry its diff. *)
Example changed_item_carries_diff :
  exists o d,
    seqObj Demo.config (Demo.card 1 "One" [0; 1; 0; 3] Demo.preset) = VObj o /\
    obj_get o "g" = Some (VObj d) /\ map fst d = ["a"; "j"; "n"; "K"; "R"; "C"].
Proof. eexists _, _. repeat split; reflexivity. Qed.

(** The inputs named by the specification, on the reference host: text
    that is not base64, base64 of text that is not JSON, JSON without a
    version shape, and a payload with a field of the wrong type.  The body
    of the [try] block throws on three of them; [decompressConfig] returns
    [null] on all four. *)
Example decompressConfig_not_base64 :
  decompressBody ReferenceHost.no_prototype Demo.preset ReferenceHost.host "not base64!"
  = Throw InvalidCharacterError /\
  decompressConfig ReferenceHost.no_prototype Demo.preset ReferenceHost.host "not base64!"
  = Normal None.
Proof. split; reflexivity. Qed.

Example decompressConfig_not_JSON :
  decompressBody ReferenceHost.no_prototype Demo.preset ReferenceHost.host "aGVsbG8="
  = Throw SyntaxError /\
  decompressConfig ReferenceHost.no_prototype Demo.preset ReferenceHost.host "aGVsbG8="
  = Normal None.
Proof. split; reflexivity. Qed.

Example decompressConfig_no_version :
  decompressBody ReferenceHost.no_prototype Demo.preset ReferenceHost.host "eyJ4IjoxfQ=="
  = Normal None /\
  decompressConfig ReferenceHost.no_prototype Demo.preset ReferenceHost.host "eyJ4IjoxfQ=="
  = Normal None.
Proof. split; reflexivity. Qed.

Example decompressConfig_wrong_type :
  decompressBody ReferenceHost.no_prototype Demo.preset ReferenceHost.host
                 "eyJ2Ijo0LCJzIjo1fQ=="
  = Throw TypeError /\
  decompressConfig ReferenceHost.no_prototype Demo.preset ReferenceHost.host
                   "eyJ2Ijo0LCJzIjo1fQ=="
  = Normal None.
Proof. split; reflexivity. Qed.


(** *** Rounding and diffs, in full *)

Lemma thousandths_eq (z : Z) : (z # 1000 == inject_Z z * (1 # 1000))%Q.
Proof. unfold Qeq, Qmult, inject_Z. cbn [Qnum Qden]. lia. Qed.

Lemma toFixed3_error (v : Q) :
  exists m, toFixed3 v = Qred (m # 1000) /\ (Qabs (toFixed3 v - v) <= 1 # 2000)%Q.
Proof.
  unfold toFixed3. set (n := Qfloor (Qabs v * 1000 + (1 # 2))).
  pose proof (Qfloor_le (Qabs v * 1000 + (1 # 2))) as F1.
  pose proof (Qlt_floor (Qabs v * 1000 + (1 # 2))) as F2.
  fold n in F1, F2. rewrite inject_Z_plus in F2. change (inject_Z 1) with 1%Q in F2.
  clearbody n.
  destruct (Qle_bool 0 v) eqn:S.
  - exists n. split; [reflexivity|].
    apply Qle_bool_iff in S. rewrite Qred_correct, thousandths_eq.
    rewrite (Qabs_pos v S) in F1, F2.
    apply Qabs_Qle_condition. split; lra.
  - exists (- n). split; [reflexivity|].
    assert (S' : (v <= 0)%Q).
    { destruct (Qlt_le_dec v 0) as [L|L]; [lra|].
      apply Qle_bool_iff in L. congruence. }
    rewrite Qred_correct, thousandths_eq, inject_Z_opp.
    rewrite (Qabs_neg v S') in F1, F2.
    apply Qabs_Qle_condition. split; lra.
Qed.

(** X17. [smartRound] on a number: the result is a multiple of 1/1000 no
    further than 0.0005 from the number, and rounding it again changes
    nothing. *)
Theorem smartRound_is_a_projection (v : Q) :
  smartRoundQ (smartRoundQ v) = smartRoundQ v /\
  (Qabs (smartRoundQ v - v) <= 1 # 2000)%Q /\
  exists m, (smartRoundQ v == m # 1000)%Q.
Proof.
  split; [apply smartRoundQ_idempotent|].
  unfold smartRoundQ.
  destruct (Qle_bool (1 # 10000) (Qabs (v - inject_Z (Math_round v)))) eqn:E; cbn [negb].
  - destruct (toFixed3_error v) as [m [Em Hm]]. split; [exact Hm|].
    exists m. rewrite Em. apply Qred_correct.
  - assert (L : (Qabs (v - inject_Z (Math_round v)) < 1 # 10000)%Q).
    { apply Qnot_le_lt. intros C. apply Qle_bool_iff in C. congruence. }
    split.
    + rewrite Qabs_Qminus. apply Qlt_le_weak. eapply Qlt_le_trans; [exact L|discriminate].
    + exists (Math_round v * 1000). unfold Qeq, inject_Z. cbn [Qnum Qden]. lia.
Qed.

(** X18. What [minifyGeoDiff] puts into a diff: under the alias of a field,
    the rounded value of the target when it differs from the rounded
    value of the baseline, and nothing when it does not; no other key,
    and no key twice.  So the diff is empty exactly when target and
    baseline agree on every field after rounding. *)
Theorem minifyGeoDiff_exact (target baseline : GeoConfig) :
  (forall k, obj_get (minifyGeoDiff target baseline) (alias k)
             = if differs target baseline k
               then Some (smartRound (field target k)) else None) /\
  (forall a, In a (map fst (minifyGeoDiff target baseline)) -> exists k, a = alias k) /\
  NoDup (map fst (minifyGeoDiff target baseline)) /\
  (minifyGeoDiff target baseline = [] <->
   forall k, smartRound (field target k) = smartRound (field baseline k)).
Proof.
  split; [apply minifyGeoDiff_get|]. split; [apply minifyGeoDiff_keys|].
  split; [apply minifyGeoDiff_NoDup|].
  rewrite minifyGeoDiff_empty. split; intros H k.
  - apply differs_false, H.
  - unfold differs. rewrite H.
    pose proof (field_scalar baseline k) as [[b Hb]|[[q Hq]|[s Hs]]];
      rewrite ?Hb, ?Hq, ?Hs; cbn [smartRound strict_eq negb].
    + now destruct b.
    + now rewrite (proj2 (Qeq_bool_iff _ _) (Qeq_refl _)).
    + now rewrite String.eqb_refl.
Qed.

(** *** Decoding any token *)

Lemma obj_set_populated o k v : populated o -> populated (obj_set o k v).
Proof.
  intros H k'. destruct (string_dec k (key_name k')) as [->|Hne].
  - rewrite obj_get_set_same. discriminate.
  - rewrite obj_get_set_other by exact Hne. apply H.
Qed.

Lemma GeoConfig_object_populated g : populated (GeoConfig_object g).
Proof. intros k. rewrite GeoConfig_object_get. discriminate. Qed.

Section AnyToken.

Variable Object_prototype : string -> option string.
Variable SUNFLOWER_PRESET : GeoConfig.
Variable host : Host.

Lemma inflateStep_populated keep geo kv :
  populated geo -> populated (inflateStep Object_prototype keep geo kv).
Proof.
  intros H. unfold inflateStep. destruct (REV_lookup Object_prototype (fst kv)).
  - now apply obj_set_populated.
  - destruct keep; [now apply obj_set_populated|exact H].
Qed.

Lemma fold_inflateStep_populated keep kvs :
  forall geo, populated geo ->
              populated (fold_left (inflateStep Object_prototype keep) kvs geo).
Proof.
  induction kvs as [|kv r IH]; intros geo H; cbn [fold_left]; [exact H|].
  apply IH. now apply inflateStep_populated.
Qed.

Lemma inflateGeoDiff_fold minDiff baseline :
  inflateGeoDiff Object_prototype minDiff baseline
  = if negb (truthy minDiff) then baseline
    else fold_left (inflateStep Object_prototype false) (for_in minDiff) baseline.
Proof. reflexivity. Qed.

Lemma inflateGeoLegacy_fold minGeo :
  inflateGeoLegacy Object_prototype SUNFLOWER_PRESET minGeo
  = fold_left (inflateStep Object_prototype true) (for_in minGeo)
              (GeoConfig_object SUNFLOWER_PRESET).
Proof. reflexivity. Qed.

Lemma inflateGeoDiff_populated minDiff baseline :
  populated baseline -> populated (inflateGeoDiff Object_prototype minDiff baseline).
Proof.
  intros H. rewrite inflateGeoDiff_fold. destruct (negb (truthy minDiff)); [exact H|].
  now apply fold_inflateStep_populated.
Qed.

Lemma inflateGeoLegacy_populated minGeo :
  populated (inflateGeoLegacy Object_prototype SUNFLOWER_PRESET minGeo).
Proof.
  rewrite inflateGeoLegacy_fold. apply fold_inflateStep_populated.
  apply GeoConfig_object_populated.
Qed.

Lemma mapi_from_Forall {A} (P : A -> Prop) (f : nat -> value -> completion A) xs :
  (forall i x y, f i x = Normal y -> P y) ->
  forall i ys, mapi_from f xs i = Normal ys -> Forall P ys.
Proof.
  intros Hf. induction xs as [|x r IH]; intros i ys H; cbn [mapi_from] in H.
  - inversion H. constructor.
  - destruct (f i x) as [y|] eqn:E; cbn [bind] in H; [|discriminate].
    destruct (mapi_from f r (S i)) as [ys'|] eqn:E'; cbn [bind] in H; [|discriminate].
    inversion H; subst. constructor; [eapply Hf; eauto|eapply IH; eauto].
Qed.

Lemma mapi_from_Forall2 {A} (R : value -> A -> Prop)
    (f : nat -> value -> completion A) xs :
  (forall i x y, f i x = Normal y -> R x y) ->
  forall i ys, mapi_from f xs i = Normal ys -> Forall2 R xs ys.
Proof.
  intros Hf. induction xs as [|x r IH]; intros i ys H; cbn [mapi_from] in H.
  - inversion H. constructor.
  - destruct (f i x) as [y|] eqn:E; cbn [bind] in H; [|discriminate].
    destruct (mapi_from f r (S i)) as [ys'|] eqn:E'; cbn [bind] in H; [|discriminate].
    inversion H; subst. constructor; [eapply Hf; eauto|eapply IH; eauto].
Qed.

Lemma array_map_Forall {A} (P : A -> Prop) (f : nat -> value -> completion A) arr ys :
  (forall i x y, f i x = Normal y -> P y) ->
  array_map arr f = Normal ys -> Forall P ys.
Proof.
  intros Hf H. destruct arr; try discriminate. cbn [array_map] in H.
  eapply mapi_from_Forall; eauto.
Qed.

Lemma decodedSequence_geo i s data geo d :
  decodedSequence host i s data geo = Normal d -> d_geoConfig d = geo /\ d_data d = data.
Proof.
  unfold decodedSequence. intros H.
  destruct (get_prop s "i"); cbn [bind] in H; [|discriminate].
  destruct (get_prop s "n"); cbn [bind] in H; [|discriminate].
  destruct (get_prop s "d"); cbn [bind] in H; [|discriminate].
  inversion H. split; reflexivity.
Qed.

(** Destructs the computation at the head of a chain of binds. *)
Ltac bind_head H :=
  match type of H with
  | bind ?c _ = _ =>
      let E := fresh "E" in
      destruct c eqn:E; cbn [bind] in H; [|discriminate]
  end.

(** What the three branches of [decompressBody] have in common. *)
Lemma decompressBody_cases encoded r :
  decompressBody Object_prototype SUNFLOWER_PRESET host encoded = Normal (Some r) ->
  exists payload v,
    readPayload host encoded = Normal payload /\
    get_prop payload "v" = Normal v /\
    get_prop payload "t" = Normal (r_timingMs r) /\
    ((* version 4 *)
     (strict_eq v (VNum 4) = true /\
      exists G ps,
        get_prop payload "G" = Normal G /\ get_prop payload "s" = Normal ps /\
        r_geoConfig r
        = inflateGeoDiff Object_prototype G (GeoConfig_object SUNFLOWER_PRESET) /\
        array_map ps (decodeItem Object_prototype host (r_geoConfig r))
        = Normal (r_sequences r)) \/
     (* versions 3 and 2 *)
     (strict_eq v (VNum 4) = false /\
      (strict_eq v (VNum 3) || strict_eq v (VNum 2) = true)%bool /\
      exists ps,
        get_prop payload "s" = Normal ps /\ isArray ps = true /\
        array_map ps (fun i s =>
          sD <- get_prop s "D" ;;
          sg <- get_prop s "g" ;;
          decodedSequence host i s (decodeData sD)
            (inflateGeoLegacy Object_prototype SUNFLOWER_PRESET sg))%js
        = Normal (r_sequences r) /\
        r_geoConfig r = match r_sequences r with
                        | s0 :: _ => d_geoConfig s0
                        | [] => []
                        end) \/
     (* version 1 *)
     (strict_eq v (VNum 4) = false /\
      exists ps pg,
        get_prop payload "s" = Normal ps /\ get_prop payload "g" = Normal pg /\
        ((strict_eq v (VNum 3) || strict_eq v (VNum 2)) && isArray ps = false)%bool /\
        truthy pg = true /\
        r_geoConfig r = inflateGeoLegacy Object_prototype SUNFLOWER_PRESET pg /\
        (if (truthy ps && isArray ps)%bool then
           array_map ps (fun i s =>
             sD <- get_prop s "D" ;;
             decodedSequence host i s (decodeDataV1 sD) (r_geoConfig r))%js
         else Normal [])
        = Normal (r_sequences r))).
Proof.
  unfold decompressBody. intros H.
  bind_head H. bind_head H. bind_head H.
  exists a, a1. split; [reflexivity|].
  destruct (strict_eq a1 (VNum 4)) eqn:V4.
  - bind_head H. bind_head H. bind_head H. inversion H; subst r. cbn [r_timingMs r_geoConfig r_sequences].
    split; [exact E1|]. split; [first [exact E0|reflexivity]|]. left. split; [reflexivity|].
    exists a2, a3. auto.
  - bind_head H.
    destruct ((strict_eq a1 (VNum 3) || strict_eq a1 (VNum 2)) && isArray a2)%bool eqn:V3.
    + bind_head H. inversion H; subst r. cbn [r_timingMs r_geoConfig r_sequences].
      split; [exact E1|]. split; [first [exact E0|reflexivity]|]. right. left.
      apply andb_prop in V3 as [V3 A3]. split; [reflexivity|]. split; [exact V3|].
      exists a2. auto.
    + bind_head H. destruct (truthy a3) eqn:Tg; [|discriminate].
      bind_head H. inversion H; subst r. cbn [r_timingMs r_geoConfig r_sequences].
      split; [exact E1|]. split; [first [exact E0|reflexivity]|]. right. right.
      split; [reflexivity|]. exists a2, a3. auto 10.
Qed.

Lemma decompressConfig_body encoded r :
  decompressConfig Object_prototype SUNFLOWER_PRESET host encoded = Normal (Some r) ->
  decompressBody Object_prototype SUNFLOWER_PRESET host encoded = Normal (Some r).
Proof.
  unfold decompressConfig, try_catch.
  destruct (decompressBody Object_prototype SUNFLOWER_PRESET host encoded);
    [auto|discriminate].
Qed.

(** X19. Whatever the token and the host, a result of [decompressConfig]
    has no field missing: every decoded sequence carries a geometry with
    all the fields of [GeoConfig], and so does the result itself, unless
    it was decoded from a version 2 or 3 payload without sequences, when
    its geometry is the empty object. *)
Theorem decompressConfig_populates_geometry (encoded : string) (r : Decoded) :
  decompressConfig Object_prototype SUNFLOWER_PRESET host encoded = Normal (Some r) ->
  Forall (fun d => populated (d_geoConfig d)) (r_sequences r) /\
  (populated (r_geoConfig r) \/ (r_geoConfig r = [] /\ r_sequences r = [])).
Proof.
  intros H. apply decompressConfig_body, decompressBody_cases in H.
  destruct H as (payload & v & _ & _ & _ & [H|[H|H]]).
  - destruct H as (_ & G & ps & _ & _ & EG & Es).
    assert (PG : populated (r_geoConfig r)).
    { rewrite EG. apply inflateGeoDiff_populated, GeoConfig_object_populated. }
    split; [|now left].
    eapply array_map_Forall; [|exact Es]. intros i s d Hd. unfold decodeItem in Hd.
    bind_head Hd. bind_head Hd. apply decodedSequence_geo in Hd as [-> _].
    destruct (truthy a); [now apply inflateGeoDiff_populated|exact PG].
  - destruct H as (_ & _ & ps & _ & _ & Es & EG).
    assert (F : Forall (fun d => populated (d_geoConfig d)) (r_sequences r)).
    { eapply array_map_Forall; [|exact Es]. intros i s d Hd. cbv beta in Hd.
      bind_head Hd. bind_head Hd. apply decodedSequence_geo in Hd as [-> _].
      apply inflateGeoLegacy_populated. }
    split; [exact F|]. rewrite EG. destruct (r_sequences r) as [|s0 rest].
    + right. auto.
    + left. now inversion F.
  - destruct H as (_ & ps & pg & _ & _ & _ & _ & EG & Es).
    assert (PG : populated (r_geoConfig r)).
    { rewrite EG. apply inflateGeoLegacy_populated. }
    split; [|now left].
    destruct (truthy ps && isArray ps)%bool.
    + eapply array_map_Forall; [|exact Es]. intros i s d Hd. cbv beta in Hd.
      bind_head Hd. apply decodedSequence_geo in Hd as [-> _]. exact PG.
    + inversion Es. constructor.
Qed.

(** X20. A legacy token of version 1 (a payload with a global geometry [g]
    and a version that is none of 4, 3 and 2) decodes to a collection in
    which every sequence carries the same geometry, that of the result:
    the preset overlaid with the properties of [g]. *)
Theorem decompressConfig_v1_shares_geometry
    (encoded : string) (payload v : value) (r : Decoded) :
  readPayload host encoded = Normal payload ->
  get_prop payload "v" = Normal v ->
  strict_eq v (VNum 4) = false ->
  strict_eq v (VNum 3) = false ->
  strict_eq v (VNum 2) = false ->
  decompressConfig Object_prototype SUNFLOWER_PRESET host encoded = Normal (Some r) ->
  exists pg,
    get_prop payload "g" = Normal pg /\
    r_geoConfig r = inflateGeoLegacy Object_prototype SUNFLOWER_PRESET pg /\
    Forall (fun d => d_geoConfig d = r_geoConfig r) (r_sequences r) /\
    (forall items,
       get_prop payload "s" = Normal (VArr items) ->
       Forall2 (fun s d => exists sD, get_prop s "D" = Normal sD /\
                                      d_data d = decodeDataV1 sD)
               items (r_sequences r)).
Proof.
  intros Hp Hv V4 V3 V2 H. apply decompressConfig_body, decompressBody_cases in H.
  destruct H as (payload' & v' & Hp' & Hv' & _ & H).
  rewrite Hp in Hp'. inversion Hp'; subst payload'.
  rewrite Hv in Hv'. inversion Hv'; subst v'.
  destruct H as [H|[H|H]].
  - destruct H as [C _]. congruence.
  - destruct H as (_ & C & _). rewrite V3, V2 in C. discriminate.
  - destruct H as (_ & ps & pg & Hs & Hg & _ & _ & EG & Es).
    exists pg. split; [exact Hg|]. split; [exact EG|]. split.
    + destruct (truthy ps && isArray ps)%bool.
      * eapply array_map_Forall; [|exact Es]. intros i s d Hd. cbv beta in Hd.
        bind_head Hd. now apply decodedSequence_geo in Hd as [-> _].
      * inversion Es. constructor.
    + intros items Hitems. rewrite Hs in Hitems. inversion Hitems; subst ps.
      cbn [truthy isArray andb array_map] in Es.
      eapply mapi_from_Forall2; [|exact Es]. intros i s d Hd. cbv beta in Hd.
      bind_head Hd. apply decodedSequence_geo in Hd as [_ ->]. eauto.
Qed.

End AnyToken.

Section Labels.

Variable Object_prototype : string -> option string.
Variable SUNFLOWER_PRESET : GeoConfig.
Variable host : Host.

Lemma seqObj_labels cfg s :
  exists o,
    seqObj cfg s = VObj o /\
    obj_get o "i" = Some (VNum (inject_Z (id s))) /\
    obj_get o "n" = Some (VStr (name s)) /\
    obj_get o "d" = match description s with
                    | Some d => if truthy (VStr d) then Some (VStr d) else None
                    | None => None
                    end.
Proof.
  unfold seqObj. generalize (minifyGeoDiff (geoConfig s) cfg) as d. intros d.
  eexists. split; [reflexivity|].
  destruct (description s) as [desc|]; [destruct (truthy (VStr desc))|];
    destruct d as [|e d]; cbn; auto.
Qed.

Lemma decodeItem_seqObj_labels globalBase cfg s i d :
  decodeItem Object_prototype host globalBase i (seqObj cfg s) = Normal d ->
  labels_restored host i s d.
Proof.
  destruct (seqObj_labels cfg s) as (o & -> & Hi & Hn & Hd).
  unfold decodeItem, decodedSequence, get_prop. rewrite Hi, Hn, Hd.
  cbn [bind]. intros H. inversion H. unfold labels_restored.
  cbn [d_id d_name d_description]. split; [|split].
  - unfold js_or, truthy. destruct (Z.eqb_spec (id s) 0) as [->|Hne].
    + reflexivity.
    + destruct (Qeq_bool (inject_Z (id s)) 0) eqn:E; [|reflexivity].
      apply Qeq_bool_iff in E. change 0%Q with (inject_Z 0) in E.
      apply (proj1 (inject_Z_injective _ _)) in E. contradiction.
  - unfold js_or, truthy. now destruct (String.eqb (name s) EmptyString).
  - destruct (description s) as [x|]; [|reflexivity].
    unfold js_or, truthy. destruct (String.eqb x EmptyString) eqn:E; cbn [negb].
    + apply String.eqb_eq in E. now subst.
    + cbn. now rewrite E.
Qed.

Lemma mapi_from_seqObj_labels globalBase cfg seqs :
  forall i ds,
    mapi_from (decodeItem Object_prototype host globalBase) (map (seqObj cfg) seqs) i
    = Normal ds ->
    exists js, Forall2 (fun s jd => labels_restored host (fst jd) s (snd jd))
                       seqs (combine js ds) /\
               js = seq i (List.length seqs) /\
               List.length ds = List.length seqs.
Proof.
  induction seqs as [|s r IH]; intros i ds H; cbn [map mapi_from] in H.
  - inversion H. exists []. repeat split. constructor.
  - destruct (decodeItem Object_prototype host globalBase i (seqObj cfg s)) as [d|] eqn:E;
      cbn [bind] in H; [|discriminate].
    destruct (mapi_from _ _ (S i)) as [ds'|] eqn:E'; cbn [bind] in H; [|discriminate].
    inversion H; subst ds. destruct (IH _ _ E') as (js & F & -> & L).
    exists (i :: seq (S i) (List.length r)). cbn [combine List.length seq].
    split; [|split; [reflexivity|now rewrite L]].
    constructor; [|exact F]. cbn [fst snd]. eapply decodeItem_seqObj_labels; eauto.
Qed.

(** X21. When the host reads back the payload [compressConfig] serialized,
    the decoded result carries the timing that was written (1500 when
    none was given) and, for every sequence, in order: its description
    (the empty string when it had none), its name unless that is empty,
    when the name is "Sequence", and its id unless that is 0, when the id
    is drawn from [Math.random]. *)
Theorem compress_decompress_labels
    (geoConfig0 : GeoConfig) (sequences : list Sequence) (timingMs : option Q)
    (token : string) :
  compressConfig SUNFLOWER_PRESET host geoConfig0 sequences timingMs = Normal token ->
  readPayload host token = Normal (payload SUNFLOWER_PRESET geoConfig0 sequences timingMs) ->
  exists r,
    decompressConfig Object_prototype SUNFLOWER_PRESET host token = Normal (Some r) /\
    r_timingMs r = VNum match timingMs with Some t => t | None => 1500%Q end /\
    List.length (r_sequences r) = List.length sequences /\
    Forall2 (fun s jd => labels_restored host (fst jd) s (snd jd))
            sequences (combine (seq 0 (List.length sequences)) (r_sequences r)).
Proof.
  intros _ Hread.
  destruct (decompressConfig_payload Object_prototype SUNFLOWER_PRESET host
              geoConfig0 sequences timingMs token Hread) as (r & Hr & _).
  exists r. split; [exact Hr|].
  apply decompressConfig_body, decompressBody_cases in Hr.
  destruct Hr as (p & v & Hp & Hv & Ht & H).
  rewrite Hread in Hp. inversion Hp; subst p. clear Hp.
  assert (Ev : v = VNum 4) by (inversion Hv; reflexivity).
  assert (Et : r_timingMs r = VNum match timingMs with Some t => t | None => 1500%Q end)
    by (inversion Ht; reflexivity).
  split; [exact Et|]. subst v.
  destruct H as [H|[H|H]]; [|destruct H as [C _]; discriminate
                            |destruct H as [C _]; discriminate].
  destruct H as (_ & G & ps & _ & Hs & _ & Hmap).
  assert (Eps : ps = VArr (map (seqObj geoConfig0) sequences))
    by (inversion Hs; reflexivity).
  subst ps. cbn [array_map] in Hmap.
  destruct (mapi_from_seqObj_labels _ _ _ _ _ Hmap) as (js & F & -> & L).
  split; [exact L|exact F].
Qed.

End Labels.

(** X22. The table of aliases is a bijection: no two fields of [GeoConfig]
    share a name or an alias, every field has an entry, and the reverse
    table leads from the alias of a field back to its name, whatever
    plain objects inherit. *)
Theorem GEO_KEY_MAP_is_a_bijection :
  NoDup (map (fun e => key_name (fst e)) GEO_KEY_MAP) /\
  NoDup (map snd GEO_KEY_MAP) /\
  (forall k, In (k, alias k) GEO_KEY_MAP) /\
  (forall k k', alias k = alias k' -> k = k') /\
  (forall proto k, REV_lookup proto (alias k) = Some (key_name k)).
Proof.
  split; [|split; [|split; [|split]]].
  - cbv [GEO_KEY_MAP map fst key_name].
    repeat (constructor; [cbv [In]; intuition discriminate|]). constructor.
  - cbv [GEO_KEY_MAP map snd].
    repeat (constructor; [cbv [In]; intuition discriminate|]). constructor.
  - intros k. destruct k; cbv; tauto.
  - apply alias_inj.
  - apply REV_lookup_alias.
Qed.

Lemma decompressConfig_populates_geometry_witness :
  exists r,
    decompressConfig ReferenceHost.no_prototype Demo.preset ReferenceHost.host Demo.token
    = Normal (Some r) /\
    Forall (fun d => populated (d_geoConfig d)) (r_sequences r).
Proof.
  destruct (decompressConfig_payload ReferenceHost.no_prototype Demo.preset
              ReferenceHost.host Demo.config Demo.cards (Some 1500%Q) Demo.token
              demo_token_read) as (r & Hr & _).
  exists r. split; [exact Hr|].
  exact (proj1 (decompressConfig_populates_geometry ReferenceHost.no_prototype Demo.preset
                  ReferenceHost.host Demo.token r Hr)).
Defined.

Lemma legacyToken_read :
  readPayload ReferenceHost.host Demo.legacyToken
  = Normal (VObj [("v", VNum 1);
                  ("g", VObj [("a", VBool false); ("j", VNum (1 # 2))]);
                  ("s", VArr [VObj [("i", VNum 1); ("n", VStr "A");
                                    ("D", VArr [VNum 1; VNum 2])];
                              VObj [("i", VNum 2); ("n", VStr "B");
                                    ("D", VStr "34")]])]).
Proof. vm_compute. reflexivity. Qed.

Lemma decompressConfig_v1_shares_geometry_witness :
  exists payload r,
    readPayload ReferenceHost.host Demo.legacyToken = Normal payload /\
    get_prop payload "v" = Normal (VNum 1) /\
    decompressConfig ReferenceHost.no_prototype Demo.preset ReferenceHost.host
                     Demo.legacyToken = Normal (Some r) /\
    Forall (fun d => d_geoConfig d = r_geoConfig r) (r_sequences r) /\
    map d_data (r_sequences r) = [[VNum 1; VNum 2]; [VNum 3; VNum 4]].
Proof.
  eexists. 
  assert (E : exists r, decompressConfig ReferenceHost.no_prototype Demo.preset
                          ReferenceHost.host Demo.legacyToken = Normal (Some r)).
  { unfold decompressConfig, decompressBody. rewrite legacyToken_read.
    cbn [get_prop obj_get String.eqb Ascii.eqb Bool.eqb bind strict_eq Qeq_bool
         Qnum Qden Z.mul Pos.mul Z.eqb Pos.eqb Z.compare Pos.compare
         Pos.compare_cont andb orb isArray truthy negb array_map mapi_from
         decodedSequence try_catch].
    eexists. reflexivity. }
  destruct E as [r Hr]. exists r.
  split; [exact legacyToken_read|]. split; [reflexivity|]. split; [exact Hr|].
  destruct (decompressConfig_v1_shares_geometry ReferenceHost.no_prototype Demo.preset
              ReferenceHost.host Demo.legacyToken _ (VNum 1) r
              legacyToken_read eq_refl eq_refl eq_refl eq_refl Hr)
    as (pg & _ & _ & Hshare & Hdata).
  split; [exact Hshare|].
  specialize (Hdata _ eq_refl).
  inversion Hdata as [|s1 d1 l1 l1' [sD1 [E1 D1]] Hrest]; subst.
  inversion Hrest as [|s2 d2 l2 l2' [sD2 [E2 D2]] Hrest2]; subst.
  inversion Hrest2; subst.
  inversion E1; subst sD1. inversion E2; subst sD2.
  cbn [map]. rewrite D1, D2. reflexivity.
Defined.

Lemma compress_decompress_labels_witness :
  compressConfig Demo.preset ReferenceHost.host Demo.config Demo.cards (Some 1500%Q)
    = Normal Demo.token /\
  readPayload ReferenceHost.host Demo.token
    = Normal (payload Demo.preset Demo.config Demo.cards (Some 1500%Q)) /\
  exists r,
    decompressConfig ReferenceHost.no_prototype Demo.preset ReferenceHost.host Demo.token
    = Normal (Some r) /\
    r_timingMs r = VNum 1500 /\
    List.length (r_sequences r) = 3%nat.
Proof.
  split; [exact demo_token_written|]. split; [exact demo_token_read|].
  destruct (compress_decompress_labels ReferenceHost.no_prototype Demo.preset
              ReferenceHost.host Demo.config Demo.cards (Some 1500%Q) Demo.token
              demo_token_written demo_token_read) as (r & Hr & Ht & Hl & _).
  exists r. split; [exact Hr|]. split; [exact Ht|exact Hl].
Defined.

End CompressionFacts.

(** ** Cards as PNG files *)

Module CardFacts.
Import JS Types Png Compression Card PngFacts CompressionFacts.

Lemma lit_bound (s : string) : Forall (fun c => 0 <= c < 256) (lit s).
Proof.
  unfold lit. apply Forall_forall. intros c Hc. apply in_map_iff in Hc as [a [<- _]].
  pose proof (nat_ascii_bounded a). lia.
Qed.

Lemma unlit_lit (s : string) : unlit (lit s) = s.
Proof.
  unfold unlit, lit. rewrite map_map.
  rewrite (map_ext _ (fun a => a)).
  - rewrite map_id. apply string_of_list_ascii_of_string.
  - intros a. rewrite Nat2Z.id. apply ascii_nat_embedding.
Qed.

Lemma map_mod_small (l : list Z) :
  Forall (fun c => 0 <= c < 256) l -> map (fun c => c mod 256) l = l.
Proof.
  induction 1 as [|c r Hc Hr IH]; cbn [map]; [reflexivity|].
  now rewrite IH, Z.mod_small.
Qed.

Lemma lit_length (s : string) : List.length (lit s) = String.length s.
Proof.
  unfold lit. rewrite length_map. induction s as [|a s IH]; cbn; [reflexivity|].
  now rewrite IH.
Qed.

Section Cards.

Variable max_arguments : Z.
Variable Object_prototype : string -> option string.
Variable SUNFLOWER_PRESET : GeoConfig.
Variable host : Host.

(** X24. A card saved as a PNG file comes back when the file is opened,
    provided its token is no longer than the number of arguments the
    engine takes in one call.  On a host whose decoding functions undo
    its encoding functions on the text of the payload, with an engine
    that takes at least nine arguments, and an image that opens with the
    signature and the IHDR chunk: the (non-empty) token [compressConfig]
    makes of the active card is written into the file; when the token has
    no more characters than the engine takes arguments, the import finds
    in the tagged file exactly one sequence, which carries the geometry of
    the card, field for field up to [smartRound], and, when the values of
    the card are integers from 0 to 9, its data; when the token is longer,
    the import throws a [RangeError]. *)
Theorem card_survives_png (buffer : bytes) (s : Sequence) (token : string) :
  minimal_container buffer ->
  host_inverts host (payload SUNFLOWER_PRESET (geoConfig s) [s] None) ->
  compressConfig SUNFLOWER_PRESET host (geoConfig s) [s] None = Normal token ->
  token <> EmptyString ->
  Z.of_nat (String.length token) + 10 < 2 ^ 32 ->
  9 <= max_arguments ->
  exists out,
    tagCard SUNFLOWER_PRESET host buffer s = Normal out /\
    if Z.of_nat (String.length token) <=? max_arguments then
      exists d,
        readCard max_arguments Object_prototype SUNFLOWER_PRESET host out
        = Normal (Sequences [d]) /\
        same_after_rounding (d_geoConfig d) (geoConfig s) /\
        (Forall (fun z => 0 <= z <= 9) (data s) ->
         d_data d = map (fun z => VNum (inject_Z z)) (data s))
    else
      readCard max_arguments Object_prototype SUNFLOWER_PRESET host out
      = Throw RangeError.
Proof.
  intros Hpng Hhost Hc Hne Hlen Hm.
  pose proof (compressConfig_readPayload SUNFLOWER_PRESET host _ _ _ _ Hhost Hc) as Hread.
  assert (Hk : Forall (fun c => 0 < c < 256) (lit "QRPConfig")) by literal_chars.
  destruct (read_written max_arguments buffer (lit "QRPConfig") (lit token)
              (lit "QRPConfig") Hpng Hk)
    as (out & Hw & Hr).
  { rewrite !lit_length. change (String.length "QRPConfig") with 9%nat. lia. }
  { lia. }
  rewrite jsstring_eqb_refl, (map_mod_small _ (lit_bound token)), !lit_length in Hr.
  change (Z.of_nat (String.length "QRPConfig")) with 9 in Hr.
  destruct (Z.leb_spec 9 max_arguments); [|lia].
  exists out. split; [unfold tagCard; rewrite Hc; exact Hw|].
  destruct (Z.of_nat (String.length token) <=? max_arguments).
  - destruct (decompressConfig_payload Object_prototype SUNFLOWER_PRESET host
                (geoConfig s) [s] None token Hread) as (r & Hd & _ & HF).
    inversion HF as [|s0 d l l' [Hgeo Hdata] Hrest]; subst.
    inversion Hrest; subst.
    exists d. split; [|split].
    + unfold readCard. rewrite Hr. cbn [bind].
      destruct (lit token) as [|c m] eqn:El.
      * exfalso. apply Hne. rewrite <- (unlit_lit token), El. reflexivity.
      * rewrite <- El, unlit_lit, Hd. cbn [bind].
        match goal with H : _ = r_sequences r |- _ => rewrite <- H end.
        reflexivity.
    + rewrite Hgeo. apply decodedItemGeo_same.
    + intros Hdig. rewrite Hdata. now apply decodeData_join.
  - unfold readCard. rewrite Hr. reflexivity.
Qed.

End Cards.

Lemma cardToken_written :
  compressConfig Demo.preset ReferenceHost.host Demo.config
                 [Demo.card 2 "Two" [9; 8; 7; 6] Demo.config] None
  = Normal Demo.cardToken.
Proof. vm_compute. reflexivity. Qed.

Lemma card_host_inverts :
  host_inverts ReferenceHost.host
    (payload Demo.preset Demo.config [Demo.card 2 "Two" [9; 8; 7; 6] Demo.config] None).
Proof.
  split; [vm_compute; reflexivity|].
  intros e He. vm_compute in He. injection He as <-.
  split; [vm_compute; reflexivity|].
  intros b Hb. vm_compute in Hb. injection Hb as <-.
  vm_compute. reflexivity.
Qed.

Lemma card_survives_png_witness :
  minimal_container Demo.minimalPng /\
  Demo.cardToken <> EmptyString /\
  Z.of_nat (String.length Demo.cardToken) + 10 < 2 ^ 32 /\
  9 <= Demo.max_arguments /\
  exists out d,
    tagCard Demo.preset ReferenceHost.host Demo.minimalPng
            (Demo.card 2 "Two" [9; 8; 7; 6] Demo.config) = Normal out /\
    readCard Demo.max_arguments ReferenceHost.no_prototype Demo.preset
             ReferenceHost.host out
    = Normal (Sequences [d]) /\
    d_data d = [VNum 9; VNum 8; VNum 7; VNum 6].
Proof.
  assert (H1 : Demo.cardToken <> EmptyString) by discriminate.
  assert (H2 : Z.of_nat (String.length Demo.cardToken) + 10 < 2 ^ 32) by reflexivity.
  assert (H3 : 9 <= Demo.max_arguments) by discriminate.
  split; [exact minimalPng_container|]. split; [exact H1|]. split; [exact H2|].
  split; [exact H3|].
  destruct (card_survives_png Demo.max_arguments ReferenceHost.no_prototype Demo.preset
              ReferenceHost.host
              Demo.minimalPng (Demo.card 2 "Two" [9; 8; 7; 6] Demo.config) Demo.cardToken
              minimalPng_container card_host_inverts cardToken_written H1 H2 H3)
    as (out & Ht & Hrd).
  change (Z.of_nat (String.length Demo.cardToken) <=? Demo.max_arguments) with true in Hrd.
  destruct Hrd as (d & Hr & _ & Hd).
  exists out, d. split; [exact Ht|]. split; [exact Hr|].
  apply Hd. repeat constructor; cbn; lia.
Defined.

End CardFacts.
